(** * dit: sparse vectorizers, multinomial logistic regression and
      linear-chain CRF inference

    Shallow embedding of the learning and inference engine of the form
    classifier.  A Go [float64] is read as a real number: every statement
    about numeric results is exact over [R], which is the idealisation the
    floating-point code approximates.  A Go [map] is a [gmap]; the order in
    which [range] visits a map is not fixed by the language, so it is a
    parameter of every function that ranges over one.  Slices are lists;
    an index expression is [nth] with a default, and the shape hypotheses
    of each theorem say when the indices of the source are in range. *)

From Stdlib Require Import Reals Lra Lia ZArith List OrderedTypeEx.
From stdpp Require Import gmap strings list sorting.
Import ListNotations.

(** ** Loops over index ranges *)

Module Loops.

Local Open Scope R_scope.

(** [for i := range n { s += f i }] starting from [s = 0]. *)
Definition sumTo (n : nat) (f : nat -> R) : R :=
  fold_left (fun s i => s + f i) (seq 0 n) 0.

(** [r := make([]A, n); for i := range n { r[i] = f i }]. *)
Definition tabulate {A : Type} (n : nat) (f : nat -> A) : list A :=
  map f (seq 0 n).

(** [v[i]] for a vector and [m[i][j]] for a matrix of floats. *)
Definition at1 (v : list R) (i : nat) : R := nth i v 0.
Definition at2 (m : list (list R)) (i j : nat) : R := nth j (nth i m []) 0.

(** [g[i] += d] on a slice. *)
Definition addAt (g : list R) (i : nat) (d : R) : list R :=
  <[i := at1 g i + d]> g.

(** What a call can come to: a result, an error value, or a run-time panic. *)
Inductive outcome (A : Type) :=
  | Returned (a : A)
  | Failed (err : string)
  | Panicked (msg : string).

Arguments Returned {A} a.
Arguments Failed {A} err.
Arguments Panicked {A} msg.

(** Sequencing of calls: the first error or panic ends the run. *)
Definition andThen {A B : Type} (r : outcome A) (k : A -> outcome B) : outcome B :=
  match r with
  | Returned a => k a
  | Failed err => Failed err
  | Panicked msg => Panicked msg
  end.

(** Sum of a list of reals, the mathematical reading of an accumulation. *)
Fixpoint Rsum (l : list R) : R :=
  match l with
  | [] => 0
  | x :: l' => x + Rsum l'
  end.

End Loops.

(** ** Ranging over a map *)

Module GoMap.

(** [for k, v := range m] visits every entry of [m] once, in an order the
    language leaves open: the order is a parameter, constrained only to be
    an enumeration of the entries.  A statement that holds for every
    [RangeOrder] holds for every order a run can take; a statement that
    compares two results compares runs that range in the same order, unless
    it names two orders. *)
Class RangeOrder := {
  rangeOf : forall {K : Type} `{Countable K} {V : Type}, gmap K V -> list (K * V);
  rangeOf_perm : forall (K : Type) `{Countable K} (V : Type) (m : gmap K V),
    rangeOf m ≡ₚ map_to_list m
}.

(** One admissible order, used to run the definitions on examples. *)
Definition keyOrder : RangeOrder :=
  {| rangeOf := fun K _ _ V m => map_to_list m;
     rangeOf_perm := fun K _ _ V m => reflexivity (map_to_list m) |}.

End GoMap.

(** ** Text utilities *)

Module Textutil.

Local Open Scope string_scope.

(** The library functions the tokenizer is built from: [strings.ToLower],
    the matches of the regular expression [[\p{L}\p{N}_]+] in a text, and
    the conversion of a string to its runes (each rune given as the string
    that encodes it). *)
Class TextPrims := {
  ToLower : string -> string;
  FindAllWords : string -> list string;
  Runes : string -> list string
}.

Definition Tokenize `{TextPrims} (text : string) : list string := FindAllWords text.

(** The values of [n] in [for n := minN; n <= maxN && n <= len; n++]. *)
Definition ngramSizes (minN maxN len : Z) : list Z :=
  map (fun k => (minN + Z.of_nat k)%Z)
      (seq 0 (Z.to_nat (Z.min maxN len - minN + 1))).

(** The values of [i] in [for i := 0; i <= len-n; i++]. *)
Definition ngramStarts (len n : Z) : list nat := seq 0 (Z.to_nat (len - n + 1)).

(** [xs[i:i+n]]; the source panics on a negative [n], which no caller
    passes. *)
Definition slice {A} (xs : list A) (i : nat) (n : Z) : list A :=
  take (Z.to_nat n) (drop i xs).

Definition concatStrings (l : list string) : string := fold_right String.append "" l.

(** [strings.Join(l, sep)]. *)
Fixpoint Join (l : list string) (sep : string) : string :=
  match l with
  | [] => ""
  | [x] => x
  | x :: l' => x +:+ sep +:+ Join l' sep
  end.

Definition Ngrams `{TextPrims} (s : string) (minN maxN : Z) : list string :=
  let runes := Runes s in
  let textLen := Z.of_nat (length runes) in
  flat_map (fun n => map (fun i => concatStrings (slice runes i n)) (ngramStarts textLen n))
           (ngramSizes minN maxN textLen).

Definition TokenNgrams (tokens : list string) (minN maxN : Z) : list string :=
  let tLen := Z.of_nat (length tokens) in
  flat_map (fun n => map (fun i => Join (slice tokens i n) " ") (ngramStarts tLen n))
           (ngramSizes minN maxN tLen).

(** *** The primitives on ASCII text, to run the definitions on examples *)

Definition isUpper (c : Ascii.ascii) : bool :=
  let n := Ascii.nat_of_ascii c in (65 <=? n)%nat && (n <=? 90)%nat.

Definition isWordChar (c : Ascii.ascii) : bool :=
  let n := Ascii.nat_of_ascii c in
  ((48 <=? n)%nat && (n <=? 57)%nat) || ((65 <=? n)%nat && (n <=? 90)%nat)
  || ((97 <=? n)%nat && (n <=? 122)%nat) || (n =? 95)%nat.

Fixpoint asciiLower (s : string) : string :=
  match s with
  | EmptyString => EmptyString
  | String c s' =>
      String (if isUpper c then Ascii.ascii_of_nat (Ascii.nat_of_ascii c + 32) else c)
             (asciiLower s')
  end.

Definition flushWord (cur : string) : list string :=
  match cur with
  | EmptyString => []
  | _ => [cur]
  end.

Fixpoint asciiWords (s cur : string) : list string :=
  match s with
  | EmptyString => flushWord cur
  | String c s' =>
      if isWordChar c then asciiWords s' (cur +:+ String c EmptyString)
      else (flushWord cur ++ asciiWords s' EmptyString)%list
  end.

Fixpoint asciiRunes (s : string) : list string :=
  match s with
  | EmptyString => []
  | String c s' => String c EmptyString :: asciiRunes s'
  end.

Definition asciiText : TextPrims :=
  {| ToLower := asciiLower;
     FindAllWords := fun s => asciiWords s EmptyString;
     Runes := asciiRunes |}.

(** *** Whitespace normalisation *)

(** The bytes the two regular expressions match: [[\n\r]], and [\s], which
    the regexp package reads as [[\t\n\f\r ]].  Both classes are ASCII, so
    a replacement copies every other byte of the text as it is. *)
Definition isNewline (c : Ascii.ascii) : bool :=
  let n := Ascii.nat_of_ascii c in (n =? 10)%nat || (n =? 13)%nat.

Definition isSpace (c : Ascii.ascii) : bool :=
  let n := Ascii.nat_of_ascii c in
  (n =? 9)%nat || (n =? 10)%nat || (n =? 12)%nat || (n =? 13)%nat || (n =? 32)%nat.

(** [newlineRe.ReplaceAllString(text, " ")]. *)
Fixpoint replaceNewlines (s : string) : string :=
  match s with
  | EmptyString => EmptyString
  | String c s' => String (if isNewline c then Ascii.Space else c) (replaceNewlines s')
  end.

(** What a left-to-right scan for [\s{2,}] holds back: nothing, one
    whitespace byte (no match yet), or a run of two or more (a match). *)
Inductive spaceRun :=
  | NoRun
  | OneSpace (c : Ascii.ascii)
  | ManySpaces.

Definition flushRun (run : spaceRun) : string :=
  match run with
  | NoRun => ""
  | OneSpace c => String c ""
  | ManySpaces => " "
  end.

(** [multiSpaceRe.ReplaceAllString(text, " ")]: the matches are the maximal
    runs of two or more whitespace bytes, and each becomes one space. *)
Fixpoint collapseSpaces (s : string) (run : spaceRun) : string :=
  match s with
  | EmptyString => flushRun run
  | String c s' =>
      if isSpace c
      then collapseSpaces s' (match run with NoRun => OneSpace c | _ => ManySpaces end)
      else flushRun run +:+ String c (collapseSpaces s' NoRun)
  end.

Definition NormalizeWhitespaces (text : string) : string :=
  collapseSpaces (replaceNewlines text) NoRun.

Definition Normalize `{TextPrims} (text : string) : string :=
  NormalizeWhitespaces (ToLower text).

End Textutil.

(** ** Sparse vectors and vectorizers *)

Module Vectorizer.

Import Loops GoMap Textutil.
Local Open Scope R_scope.
Local Open Scope string_scope.

(** Go's order on strings, the one [sort.Strings] sorts by. *)
Definition strLe (a b : string) : Prop := String.leb a b = true.

#[export] Instance strLe_dec a b : Decision (strLe a b) := bool_eq_dec _ _.

Definition sortStrings (l : list string) : list string := merge_sort strLe l.

Record SparseVector := mkSparse {
  Indices : list nat;
  Values : list R;
  Dim : nat
}.

Definition NewSparseVector (dim : nat) : SparseVector := mkSparse [] [] dim.

(** Position of the first occurrence of [idx] among the indices. *)
Fixpoint indexOf (idx : nat) (l : list nat) : option nat :=
  match l with
  | [] => None
  | x :: l' => if (x =? idx)%nat then Some O else S <$> indexOf idx l'
  end.

(** [Set]: overwrite the value of an index already present, or append. *)
Definition SetValue (sv : SparseVector) (idx : nat) (val : R) : SparseVector :=
  match indexOf idx (Indices sv) with
  | Some i => mkSparse (Indices sv) (<[i := val]> (Values sv)) (Dim sv)
  | None => mkSparse (Indices sv ++ [idx])%list (Values sv ++ [val])%list (Dim sv)
  end.

Definition Dot (sv : SparseVector) (dense : list R) : R :=
  fold_left (fun sum i =>
               let idx := nth i (Indices sv) O in
               if (idx <? length dense)%nat then sum + at1 (Values sv) i * at1 dense idx
               else sum)
            (seq 0 (length (Indices sv))) 0.

Definition ToDense (sv : SparseVector) : list R :=
  fold_left (fun dense i =>
               let idx := nth i (Indices sv) O in
               if (idx <? Dim sv)%nat then <[idx := at1 (Values sv) i]> dense else dense)
            (seq 0 (length (Indices sv))) (replicate (Dim sv) 0).

Definition Nnz (sv : SparseVector) : nat := length (Indices sv).

Definition ConcatSparse (vectors : list SparseVector) : SparseVector :=
  let totalDim := fold_left (fun d v => (d + Dim v)%nat) vectors O in
  let r :=
    fold_left (fun (acc : list nat * list R * nat) v =>
                 let '(inds, vals, offset) := acc in
                 ((inds ++ map (fun idx => (idx + offset)%nat) (Indices v))%list,
                  (vals ++ tabulate (length (Indices v)) (at1 (Values v)))%list,
                  (offset + Dim v)%nat))
              vectors ([], [], O) in
  mkSparse (fst (fst r)) (snd (fst r)) totalDim.

Definition L2Norm (sv : SparseVector) : R :=
  sqrt (fold_left (fun sum v => sum + v * v) (Values sv) 0).

(** *** DictVectorizer *)

(** The dynamic values a feature map holds. *)
Inductive Any :=
  | AString (s : string)
  | AStrings (l : list string)
  | ABool (b : bool)
  | AInt (z : Z)
  | AInt64 (z : Z)
  | AFloat (r : R)
  | AOther.

Module DictVectorizer.

Record t := mk {
  FeatureNames : list string;
  FeatureIndex : gmap string nat
}.

Definition New : t := mk [] ∅.

Definition featureKey (name : string) (value : Any) : string :=
  match value with
  | AString v => name +:+ "=" +:+ v
  | _ => name
  end.

Definition featureValue (value : Any) : R :=
  match value with
  | ABool b => if b then 1 else 0
  | AInt z => IZR z
  | AInt64 z => IZR z
  | AFloat r => r
  | AString _ => 1
  | AStrings _ => 1
  | AOther => 1
  end.

(** [for i, f := range names { index[f] = i }]. *)
Definition indexNames (names : list string) : gmap string nat :=
  fold_left (fun ix i => <[nth i names "" := i]> ix) (seq 0 (length names)) ∅.

Section Ranged.

Context {order : RangeOrder}.

Definition Fit (data : list (gmap string Any)) : t :=
  let featureSet : gmap string bool :=
    fold_left (fun fs d =>
                 fold_left (fun fs kv => <[featureKey (fst kv) (snd kv) := true]> fs)
                           (rangeOf d) fs)
              data ∅ in
  let names := sortStrings (map fst (rangeOf featureSet)) in
  mk names (indexNames names).

Definition Transform (dv : t) (d : gmap string Any) : SparseVector :=
  fold_left (fun sv kv =>
               match FeatureIndex dv !! featureKey (fst kv) (snd kv) with
               | Some idx => SetValue sv idx (featureValue (snd kv))
               | None => sv
               end)
            (rangeOf d) (NewSparseVector (length (FeatureNames dv))).

Definition FitTransform (data : list (gmap string Any)) : t * list SparseVector :=
  let dv := Fit data in
  (dv, map (Transform dv) data).

End Ranged.

Definition VocabSize (dv : t) : nat := length (FeatureNames dv).

End DictVectorizer.

(** *** CountVectorizer *)

Module CountVectorizer.

Record t := mk {
  Vocabulary : gmap string nat;
  NgramRange : Z * Z;
  Binary : bool;
  Analyzer : string;
  MinDF : Z
}.

Definition New (ngramRange : Z * Z) (binary : bool) (analyzer : string) (minDF : Z) : t :=
  let analyzer := if String.eqb analyzer "" then "word" else analyzer in
  let minDF := if (minDF <? 1)%Z then 1%Z else minDF in
  mk ∅ ngramRange binary analyzer minDF.

Section Analysed.

Context {text : TextPrims}.

Definition charWbNgrams (s : string) (minN maxN : Z) : list string :=
  flat_map (fun token => Ngrams (" " +:+ token +:+ " ") minN maxN) (Tokenize s).

Definition analyze (cv : t) (s : string) : list string :=
  let s := ToLower s in
  if String.eqb (Analyzer cv) "char_wb"
  then charWbNgrams s (fst (NgramRange cv)) (snd (NgramRange cv))
  else TokenNgrams (Tokenize s) (fst (NgramRange cv)) (snd (NgramRange cv)).

(** The inner loop of [Fit] over the features of one document. *)
Definition countDoc (dfCounts : gmap string Z) (features : list string) : gmap string Z :=
  fst (fold_left (fun (st : gmap string Z * gmap string bool) f =>
                    if default false (snd st !! f) then st
                    else (<[f := (default 0 (fst st !! f) + 1)%Z]> (fst st),
                          <[f := true]> (snd st)))
                 features (dfCounts, ∅)).

(** [for i, term := range terms { vocabulary[term] = i }]. *)
Definition indexTerms (terms : list string) : gmap string nat :=
  fold_left (fun voc i => <[nth i terms "" := i]> voc) (seq 0 (length terms)) ∅.

(** Document frequency of a term: the number of documents of the corpus
    whose analysis contains it. *)
Definition docFreq (cv : t) (corpus : list string) (term : string) : nat :=
  length (List.filter (fun doc => bool_decide (term ∈ analyze cv doc)) corpus).

(** The vocabulary as the specification describes it: the distinct analyzed
    n-grams of the corpus whose document frequency is at least [MinDF],
    sorted lexicographically. *)
Definition vocabTerms (cv : t) (corpus : list string) : list string :=
  sortStrings
    (remove_dups
       (List.filter (fun term => bool_decide (MinDF cv <= Z.of_nat (docFreq cv corpus term))%Z)
                    (concat (map (analyze cv) corpus)))).

(** Lexicographic rank of a term among a list of terms: how many of them
    are strictly smaller. *)
Definition lexRank (terms : list string) (term : string) : nat :=
  length (List.filter (fun other => bool_decide (strLe other term /\ other <> term)) terms).

Context {order : RangeOrder}.

Definition Fit (cv : t) (corpus : list string) : t :=
  let dfCounts := fold_left (fun df doc => countDoc df (analyze cv doc)) corpus ∅ in
  let terms :=
    fold_left (fun terms kv =>
                 if (MinDF cv <=? snd kv)%Z then (terms ++ [fst kv])%list else terms)
              (rangeOf dfCounts) [] in
  let terms := sortStrings terms in
  mk (indexTerms terms) (NgramRange cv) (Binary cv) (Analyzer cv) (MinDF cv).

Definition Transform (cv : t) (s : string) : SparseVector :=
  let dim := size (Vocabulary cv) in
  let counts : gmap nat R :=
    fold_left (fun counts f =>
                 match Vocabulary cv !! f with
                 | Some idx => <[idx := default 0 (counts !! idx) + 1]> counts
                 | None => counts
                 end)
              (analyze cv s) ∅ in
  fold_left (fun sv kv => SetValue sv (fst kv) (if Binary cv then 1 else snd kv))
            (rangeOf counts) (NewSparseVector dim).

Definition FitTransform (cv : t) (corpus : list string) : t * list SparseVector :=
  let cv := Fit cv corpus in
  (cv, map (Transform cv) corpus).

End Analysed.

Definition VocabSize (cv : t) : nat := size (Vocabulary cv).

End CountVectorizer.

(** *** TfidfVectorizer *)

Module TfidfVectorizer.

Record t := mk {
  CountVec : CountVectorizer.t;
  IDF : list R;
  StopWords : gmap string bool
}.

Definition New (ngramRange : Z * Z) (minDF : Z) (binary : bool) (analyzer : string)
    (stopWords : gmap string bool) : t :=
  mk (CountVectorizer.New ngramRange binary analyzer minDF) [] stopWords.

(** Both branches of [filterText] return the text as it is. *)
Definition filterText (tv : t) (s : string) : string :=
  if (size (StopWords tv) =? 0)%nat
     || String.eqb (CountVectorizer.Analyzer (CountVec tv)) "char_wb"
  then s
  else s.

Definition filterCorpus (tv : t) (corpus : list string) : list string :=
  if (size (StopWords tv) =? 0)%nat then corpus
  else if String.eqb (CountVectorizer.Analyzer (CountVec tv)) "char_wb" then corpus
  else map (filterText tv) corpus.

Section Ranged.

Context {text : TextPrims} {order : RangeOrder}.

Definition Fit (tv : t) (corpus : list string) : t :=
  let filtered := filterCorpus tv corpus in
  let cv := CountVectorizer.Fit (CountVec tv) filtered in
  let nDocs := INR (length filtered) in
  let vocabSize := CountVectorizer.VocabSize cv in
  let df :=
    fold_left (fun df doc =>
                 fold_left (fun df idx => <[idx := at1 df idx + 1]> df)
                           (Indices (CountVectorizer.Transform cv doc)) df)
              filtered (replicate vocabSize 0) in
  mk cv (tabulate vocabSize (fun i => ln ((1 + nDocs) / (1 + at1 df i)) + 1))
     (StopWords tv).

Definition Transform (tv : t) (s : string) : SparseVector :=
  let filtered := filterText tv s in
  let sv := CountVectorizer.Transform (CountVec tv) filtered in
  (* apply IDF weights *)
  let values :=
    fold_left (fun vals i =>
                 let idx := nth i (Indices sv) O in
                 if (idx <? length (IDF tv))%nat
                 then <[i := at1 vals i * at1 (IDF tv) idx]> vals
                 else vals)
              (seq 0 (length (Indices sv))) (Values sv) in
  let sv := mkSparse (Indices sv) values (Dim sv) in
  (* L2 normalise *)
  let norm := L2Norm sv in
  if Rgt_dec norm 0
  then mkSparse (Indices sv) (map (fun v => v / norm) (Values sv)) (Dim sv)
  else sv.

Definition FitTransform (tv : t) (corpus : list string) : t * list SparseVector :=
  let tv := Fit tv corpus in
  (tv, map (Transform tv) corpus).

End Ranged.

Definition VocabSize (tv : t) : nat := CountVectorizer.VocabSize (CountVec tv).

End TfidfVectorizer.

End Vectorizer.

(** ** Linear-chain CRF: forward-backward *)

Module Crf.

Import Loops.
Local Open Scope R_scope.

Record ForwardBackwardResult := mkFB {
  LogZ : R;
  Marginals : list (list R);
  Alpha : list (list R);
  Beta : list (list R);
  Scale : list R
}.

(** Precomputed exponentials of the scores. *)
Definition expScores (rows cols : nat) (m : list (list R)) : list (list R) :=
  tabulate rows (fun t => tabulate cols (fun y => exp (at2 m t y))).

(** Position 0 of the forward pass: [alpha[0]] normalised, and [scale[0]]. *)
Definition forwardInit (expState : list (list R)) (L : nat) : list R * R :=
  let raw := tabulate L (fun y => at2 expState 0 y) in
  let sum := sumTo L (at1 raw) in
  let sc := 1 / sum in
  (map (fun a => a * sc) raw, sc).

(** One position [t >= 1] of the forward pass, from [alpha[t-1]]. *)
Definition forwardStep (expState expTrans : list (list R)) (L : nat)
    (prev : list R) (t : nat) : list R * R :=
  let raw :=
    tabulate L (fun y =>
      sumTo L (fun yp => at1 prev yp * at2 expTrans yp y) * at2 expState t y) in
  let sum := sumTo L (at1 raw) in
  let sc := if Req_dec_T sum 0 then 1 else 1 / sum in
  (map (fun a => a * sc) raw, sc).

(** [for t := 1; t < T; t++], threading [alpha[t-1]]. *)
Fixpoint forwardLoop (expState expTrans : list (list R)) (L : nat)
    (ts : list nat) (prev : list R) : list (list R * R) :=
  match ts with
  | [] => []
  | t :: ts' =>
      let r := forwardStep expState expTrans L prev t in
      r :: forwardLoop expState expTrans L ts' (fst r)
  end.

(** One position [t <= T-2] of the backward pass; [acc] holds
    [beta[t+1], ..., beta[T-1]]. *)
Definition backwardStep (expState expTrans : list (list R)) (L : nat)
    (scale : list R) (t : nat) (acc : list (list R)) : list (list R) :=
  let next := hd [] acc in
  tabulate L (fun y =>
    sumTo L (fun yn => at2 expTrans y yn * at2 expState (t + 1) yn * at1 next yn)
    * at1 scale t) :: acc.

Definition ForwardBackward (stateScores transScores : list (list R))
    : ForwardBackwardResult :=
  let T := length stateScores in
  match T with
  | O => mkFB 0 [] [] [] []
  | S T1 =>
      let L := length (nth 0 stateScores []) in
      let expState := expScores T L stateScores in
      let expTrans := expScores L L transScores in
      let f0 := forwardInit expState L in
      let fs := forwardLoop expState expTrans L (seq 1 T1) (fst f0) in
      let alpha := fst f0 :: map fst fs in
      let scale := snd f0 :: map snd fs in
      let betaLast := tabulate L (fun _ => at1 scale T1) in
      (* t = T-2 .. 0: the innermost application is t = T-2 *)
      let beta :=
        fold_right (backwardStep expState expTrans L scale) [betaLast] (seq 0 T1) in
      let logZ := fold_left (fun z s => z - ln s) scale 0 in
      let marginals :=
        tabulate T (fun t =>
          tabulate L (fun y => at2 alpha t y * at2 beta t y / at1 scale t)) in
      mkFB logZ marginals alpha beta scale
  end.

(** [TransitionMarginals]: [T-1][L][L] pairwise marginals. *)
Definition TransitionMarginals (fb : ForwardBackwardResult)
    (stateScores transScores : list (list R)) : list (list (list R)) :=
  let T := length stateScores in
  if (T <=? 1)%nat then []
  else
    let L := length (nth 0 stateScores []) in
    let expState := expScores T L stateScores in
    let expTrans := expScores L L transScores in
    tabulate (T - 1) (fun t =>
      tabulate L (fun i =>
        tabulate L (fun j =>
          at2 (Alpha fb) t i * at2 expTrans i j * at2 expState (t + 1) j
          * at2 (Beta fb) (t + 1) j))).

(** Score of a label path, as in the training objective: the state score of
    every position plus the transition score of every adjacent pair. *)
Definition pathScore (stateScores transScores : list (list R)) (p : list nat) : R :=
  sumTo (length p) (fun t => at2 stateScores t (nth t p O))
  + sumTo (length p - 1) (fun t => at2 transScores (nth t p O) (nth (t + 1) p O)).

(** All label paths of length [T] over [L] labels, first position most
    significant. *)
Fixpoint allPaths (T L : nat) : list (list nat) :=
  match T with
  | O => [[]]
  | S T' => flat_map (fun p => map (fun y => p ++ [y]) (seq 0 L)) (allPaths T' L)
  end.

(** Brute-force partition function: [Z := 0; for p in paths { Z += exp(score p) }]. *)
Definition bruteForceZ (stateScores transScores : list (list R)) (T L : nat) : R :=
  fold_left (fun z p => z + exp (pathScore stateScores transScores p))
            (allPaths T L) 0.

(** Shape of the inputs: [T] rows of [L] state scores, [L] rows of [L]
    transition scores. *)
Definition wellShaped (stateScores transScores : list (list R)) (T L : nat) : Prop :=
  length stateScores = T /\
  Forall (fun row => length row = L) stateScores /\
  length transScores = L /\
  Forall (fun row => length row = L) transScores.

(** *** Viterbi decoding *)

(** The values a score variable of [Viterbi] holds: a real, or
    [math.Inf(-1)]. *)
Inductive ExtR := NegInf | Fin (r : R).

(** [a > b] on such values. *)
Definition extGt (a b : ExtR) : bool :=
  match a, b with
  | Fin x, Fin y => if Rgt_dec x y then true else false
  | Fin _, NegInf => true
  | NegInf, _ => false
  end.

Definition extAdd (a b : ExtR) : ExtR :=
  match a, b with
  | Fin x, Fin y => Fin (x + y)
  | _, _ => NegInf
  end.

(** [best := -Inf; arg := 0; for y := range L { if f y > best { best = f y; arg = y } }]. *)
Definition argmaxScan (L : nat) (f : nat -> ExtR) : ExtR * nat :=
  fold_left (fun acc y => if extGt (f y) (fst acc) then (f y, y) else acc)
            (seq 0 L) (NegInf, O).

(** Row [t >= 1] of [delta] and [psi], from row [t-1] of [delta]. *)
Definition viterbiStep (stateScores transScores : list (list R)) (L : nat)
    (prev : list ExtR) (t : nat) : list ExtR * list nat :=
  let scan y :=
    argmaxScan L (fun yp => extAdd (nth yp prev NegInf) (Fin (at2 transScores yp y))) in
  (tabulate L (fun y => extAdd (fst (scan y)) (Fin (at2 stateScores t y))),
   tabulate L (fun y => snd (scan y))).

Fixpoint viterbiLoop (stateScores transScores : list (list R)) (L : nat)
    (ts : list nat) (prev : list ExtR) : list (list ExtR * list nat) :=
  match ts with
  | [] => []
  | t :: ts' =>
      let r := viterbiStep stateScores transScores L prev t in
      r :: viterbiLoop stateScores transScores L ts' (fst r)
  end.

(** [path[t] = psi[t+1][path[t+1]]]; [acc] holds [path[t+1..T-1]]. *)
Definition backtrackStep (psi : list (list nat)) (t : nat) (acc : list nat) : list nat :=
  nth (hd O acc) (nth (t + 1) psi []) O :: acc.

Definition Viterbi (stateScores transScores : list (list R)) : list nat * ExtR :=
  let T := length stateScores in
  match T with
  | O => ([], NegInf)
  | S T1 =>
      let L := length (nth 0 stateScores []) in
      let delta0 := tabulate L (fun y => Fin (at2 stateScores 0 y)) in
      let psi0 := tabulate L (fun _ => O) in
      let rows := viterbiLoop stateScores transScores L (seq 1 T1) delta0 in
      let delta := delta0 :: map fst rows in
      let psi := psi0 :: map snd rows in
      let final := argmaxScan L (fun y => nth y (nth T1 delta []) NegInf) in
      let path := fold_right (backtrackStep psi) [snd final] (seq 0 T1) in
      (path, fst final)
  end.

(** A label path for [T] positions over [L] labels. *)
Definition validPath (T L : nat) (p : list nat) : Prop :=
  length p = T /\ Forall (fun y => (y < L)%nat) p.

(** Brute-force maximum:
    [best := -Inf; for p in paths { if score p > best { best = score p } }]. *)
Definition bruteForceMax (stateScores transScores : list (list R)) (T L : nat) : ExtR :=
  fold_left (fun best p =>
               if extGt (Fin (pathScore stateScores transScores p)) best
               then Fin (pathScore stateScores transScores p) else best)
            (allPaths T L) NegInf.

(** [p] comes before [q] when, at the last position where they differ, [p]
    has the smaller label: the order in which the final scan and then each
    back-pointer scan prefer the first label index. *)
Definition scanBefore (p q : list nat) : Prop :=
  exists i, (i < length p)%nat /\ (nth i p O < nth i q O)%nat /\
            forall j, (i < j < length p)%nat -> nth j p O = nth j q O.

(** *** Alphabets and models *)

Record Alphabet := mkAlphabet {
  ToID : gmap string nat;
  ToStr : list string
}.

Definition NewAlphabet : Alphabet := mkAlphabet ∅ [].

(** [Add]: the alphabet after the call, and the id returned. *)
Definition Add (a : Alphabet) (s : string) : Alphabet * nat :=
  match ToID a !! s with
  | Some id => (a, id)
  | None =>
      let id := length (ToStr a) in
      (mkAlphabet (<[s := id]> (ToID a)) (ToStr a ++ [s]), id)
  end.

Definition Get (a : Alphabet) (s : string) : Z :=
  match ToID a !! s with
  | Some id => Z.of_nat id
  | None => (-1)%Z
  end.

Definition Size (a : Alphabet) : nat := length (ToStr a).

Record Model := mkModel {
  Labels : Alphabet;
  Attributes : Alphabet;
  Weights : list R;
  NumLabels : nat
}.

Definition NewModel : Model := mkModel NewAlphabet NewAlphabet [] O.

Definition TransOffset (m : Model) : nat := (Size (Attributes m) * NumLabels m)%nat.

Definition NumWeights (m : Model) : nat :=
  (TransOffset m + NumLabels m * NumLabels m)%nat.

Record TrainingSequence := mkTrainingSequence {
  Features : list (gmap string R);
  SeqLabels : list string;
  Group : Z
}.

Record TrainerConfig := mkTrainerConfig {
  C1 : R;
  C2 : R;
  MaxIterations : Z;
  AllPossibleTransitions : bool;
  Epsilon : R;
  Verbose : bool
}.

Definition DefaultTrainerConfig : TrainerConfig :=
  mkTrainerConfig (1655 / 10000) (236 / 10000) 100 true (1 / 100000) false.

(** *** Line search and L-BFGS memory *)

(** [dot]: [for i := range a { s += a[i] * b[i] }]. *)
Definition dot (a b : list R) : R :=
  sumTo (length a) (fun i => at1 a i * at1 b i).

(** Orthant projection of a trial point against the current point. *)
Definition projectOrthant (n : nat) (c1 : R) (w wNew : list R) : list R :=
  if Rgt_dec c1 0
  then tabulate n (fun i => if Rlt_dec (at1 wNew i * at1 w i) 0 then 0 else at1 wNew i)
  else wNew.

(** The trial loop of [owlqnLineSearch]: [trials] trials remain and [step]
    is the next step to try. *)
Fixpoint lineSearchLoop (trials : nat) (w dir : list R) (fVal dirDeriv : R)
    (objFunc : list R -> R) (n : nat) (c1 : R) (step : R) : R :=
  match trials with
  | O => step
  | S trials' =>
      let wNew := tabulate n (fun i => at1 w i + step * at1 dir i) in
      let wNew := projectOrthant n c1 w wNew in
      let fNew := objFunc wNew in
      if Rle_dec fNew (fVal + 1 / 10000 * step * dirDeriv) then step
      else lineSearchLoop trials' w dir fVal dirDeriv objFunc n c1 (step * (1 / 2))
  end.

Definition owlqnLineSearch (w dir : list R) (fVal : R) (pg : list R)
    (objFunc : list R -> R) (n : nat) (c1 : R) : R :=
  let dirDeriv := dot dir pg in
  if Rge_dec dirDeriv 0 then 0
  else lineSearchLoop 20 w dir fVal dirDeriv objFunc n c1 1.

Record lbfgs := mkLBFGS {
  lb_n : nat;
  lb_m : Z;
  lb_s : list (list R);
  lb_y : list (list R);
  lb_rho : list R;
  lb_k : Z;
  lb_size : Z
}.

Definition newLBFGS (n : nat) (m : Z) : lbfgs :=
  mkLBFGS n m (replicate (Z.to_nat m) []) (replicate (Z.to_nat m) [])
          (replicate (Z.to_nat m) 0) 0 0.

(** A slot of the circular memory: [idx := e % m; if idx < 0 { idx += m }]. *)
Definition slot (l : lbfgs) (e : Z) : nat :=
  let idx := Z.rem e (lb_m l) in
  Z.to_nat (if (idx <? 0)%Z then idx + lb_m l else idx)%Z.

Definition lbfgsUpdate (l : lbfgs) (s y : list R) : lbfgs :=
  let sy := dot s y in
  if Rle_dec sy 0 then l
  else
    let idx := Z.to_nat (Z.rem (lb_k l) (lb_m l)) in
    mkLBFGS (lb_n l) (lb_m l)
      (<[idx := tabulate (lb_n l) (at1 s)]> (lb_s l))
      (<[idx := tabulate (lb_n l) (at1 y)]> (lb_y l))
      (<[idx := 1 / sy]> (lb_rho l))
      (lb_k l + 1)
      (if (lb_size l <? lb_m l)%Z then lb_size l + 1 else lb_size l)%Z.

Definition computeDirection (l : lbfgs) (pg : list R) : list R :=
  let n := lb_n l in
  let q := tabulate n (at1 pg) in
  if (lb_size l =? 0)%Z then map Ropp q
  else
    let size := Z.to_nat (lb_size l) in
    (* first loop: i = size-1 .. 0 *)
    let first :=
      fold_left (fun (qa : list R * list R) i =>
                   let idx := slot l (lb_k l - 1 - (lb_size l - 1 - Z.of_nat i)) in
                   let a := at1 (lb_rho l) idx * dot (nth idx (lb_s l) []) (fst qa) in
                   (tabulate n (fun j => at1 (fst qa) j - a * at2 (lb_y l) idx j),
                    <[i := a]> (snd qa)))
                (rev (seq 0 size)) (q, replicate size 0) in
    let q := fst first in
    let alpha := snd first in
    let latestIdx := slot l (lb_k l - 1) in
    let yy := dot (nth latestIdx (lb_y l) []) (nth latestIdx (lb_y l) []) in
    let q :=
      if Rgt_dec yy 0
      then let gamma := dot (nth latestIdx (lb_s l) []) (nth latestIdx (lb_y l) []) / yy in
           map (fun x => x * gamma) q
      else q in
    (* second loop: i = 0 .. size-1 *)
    let q :=
      fold_left (fun q i =>
                   let idx := slot l (lb_k l - lb_size l + Z.of_nat i) in
                   let beta := at1 (lb_rho l) idx * dot (nth idx (lb_y l) []) q in
                   tabulate n (fun j => at1 q j + (at1 alpha i - beta) * at2 (lb_s l) idx j))
                (seq 0 size) q in
    map Ropp q.

(** *** Training *)

Record featureEntry := mkFeatureEntry { attrID : nat; value : R }.

Record internalSeq := mkInternalSeq {
  features : list (list featureEntry);
  labels : list nat
}.

Definition seqStateScores (w : list R) (L : nat) (sq : internalSeq) : list (list R) :=
  map (fun fes =>
         fold_left (fun row fe =>
                      tabulate L (fun y => at1 row y + at1 w (attrID fe * L + y) * value fe))
                   fes (replicate L 0))
      (features sq).

Definition seqTransScores (w : list R) (L transOffset : nat) : list (list R) :=
  tabulate L (fun i => tabulate L (fun j => at1 w (transOffset + i * L + j))).

(** Score of the gold path of a training sequence. *)
Definition goldScore (stateScores transScores : list (list R)) (labels : list nat)
    (T : nat) : R :=
  fold_left (fun g t =>
               let y := nth t labels O in
               let g := g + at2 stateScores t y in
               if (0 <? t)%nat then g + at2 transScores (nth (t - 1) labels O) y else g)
            (seq 0 T) 0.

(** Negative log-likelihood of the data: the sum over the non-empty
    sequences of [-goldScore + LogZ]. *)
Definition dataNLL (internals : list internalSeq) (w : list R) (L transOffset : nat) : R :=
  fold_left (fun nll sq =>
               let T := length (features sq) in
               if (T =? 0)%nat then nll
               else
                 let stateScores := seqStateScores w L sq in
                 let transScores := seqTransScores w L transOffset in
                 let fb := ForwardBackward stateScores transScores in
                 nll + (- goldScore stateScores transScores (labels sq) T + LogZ fb))
            internals 0.

(** Gradient of the data term: model expectation minus empirical count. *)
Definition seqGrad (w : list R) (L transOffset : nat) (sq : internalSeq)
    (grad : list R) : list R :=
  let T := length (features sq) in
  if (T =? 0)%nat then grad
  else
    let stateScores := seqStateScores w L sq in
    let transScores := seqTransScores w L transOffset in
    let fb := ForwardBackward stateScores transScores in
    let grad :=
      fold_left (fun grad t =>
        let goldY := nth t (labels sq) O in
        fold_left (fun grad fe =>
          let grad := addAt grad (attrID fe * L + goldY) (- value fe) in
          fold_left (fun grad y =>
                       addAt grad (attrID fe * L + y) (at2 (Marginals fb) t y * value fe))
                    (seq 0 L) grad)
          (nth t (features sq) []) grad)
        (seq 0 T) grad in
    if (1 <? T)%nat then
      let transMarg := TransitionMarginals fb stateScores transScores in
      fold_left (fun grad t =>
        let yp := nth t (labels sq) O in
        let y := nth (t + 1) (labels sq) O in
        let grad := addAt grad (transOffset + yp * L + y) (- 1) in
        fold_left (fun grad i =>
          fold_left (fun grad j =>
                       addAt grad (transOffset + i * L + j) (at2 (nth t transMarg []) i j))
                    (seq 0 L) grad)
          (seq 0 L) grad)
        (seq 0 (T - 1)) grad
    else grad.

Definition dataGrad (internals : list internalSeq) (w : list R) (L transOffset n : nat)
    : list R :=
  fold_left (fun grad sq => seqGrad w L transOffset sq grad) internals (replicate n 0).

(** The full regularised objective, as the line search evaluates it. *)
Definition objective (cfg : TrainerConfig) (internals : list internalSeq)
    (L transOffset : nat) (wNew : list R) : R :=
  let obj := dataNLL internals wNew L transOffset in
  let obj :=
    if Rgt_dec (C2 cfg) 0
    then obj + 1 / 2 * C2 cfg * fold_left (fun l2 v => l2 + v * v) wNew 0
    else obj in
  if Rgt_dec (C1 cfg) 0
  then fold_left (fun obj v => obj + C1 cfg * Rabs v) wNew obj
  else obj.

(** Smooth gradient: data term plus the L2 term. *)
Definition smoothGrad (cfg : TrainerConfig) (internals : list internalSeq)
    (L transOffset n : nat) (w : list R) : list R :=
  let grad := dataGrad internals w L transOffset n in
  if Rgt_dec (C2 cfg) 0
  then tabulate n (fun i => at1 grad i + C2 cfg * at1 w i)
  else grad.

(** OWL-QN pseudo-gradient of the L1-regularised objective. *)
Definition pseudoGradient (c1 : R) (n : nat) (w grad : list R) : list R :=
  tabulate n (fun i =>
    if Rgt_dec (at1 w i) 0 then at1 grad i + c1
    else if Rlt_dec (at1 w i) 0 then at1 grad i - c1
    else if Rlt_dec (at1 grad i + c1) 0 then at1 grad i + c1
    else if Rgt_dec (at1 grad i - c1) 0 then at1 grad i - c1
    else 0).

(** [maxGrad := 0; for g in pg { if |g| > maxGrad { maxGrad = |g| } }]. *)
Definition maxAbs (pg : list R) : R :=
  fold_left (fun mx g => if Rgt_dec (Rabs g) mx then Rabs g else mx) pg 0.

(** One iteration of the optimisation loop of [Train]: the weights and the
    L-BFGS memory after the iteration, and whether the loop goes on. *)
Definition trainIteration (cfg : TrainerConfig) (internals : list internalSeq)
    (L transOffset n : nat) (w : list R) (mem : lbfgs) : list R * lbfgs * bool :=
  let nll := objective cfg internals L transOffset w in
  let grad := smoothGrad cfg internals L transOffset n w in
  let pg := pseudoGradient (C1 cfg) n w grad in
  let dir := computeDirection mem pg in
  let dir := tabulate n (fun i => if Rgt_dec (at1 dir i * at1 pg i) 0 then 0 else at1 dir i) in
  let step :=
    owlqnLineSearch w dir nll pg (objective cfg internals L transOffset) n (C1 cfg) in
  if Req_dec_T step 0 then (w, mem, false)
  else
    let prevW := w in
    let w := tabulate n (fun i => at1 w i + step * at1 dir i) in
    let w := projectOrthant n (C1 cfg) prevW w in
    let s := tabulate n (fun i => at1 w i - at1 prevW i) in
    let newGrad := smoothGrad cfg internals L transOffset n w in
    let newPG := pseudoGradient (C1 cfg) n w newGrad in
    let y := tabulate n (fun i => at1 newPG i - at1 pg i) in
    let mem := lbfgsUpdate mem s y in
    if Rlt_dec (maxAbs newPG) (Epsilon cfg) then (w, mem, false)
    else (w, mem, true).

(** [for iter := range config.MaxIterations], with its two [break]s. *)
Fixpoint trainLoop (iters : nat) (cfg : TrainerConfig) (internals : list internalSeq)
    (L transOffset n : nat) (w : list R) (mem : lbfgs) : list R :=
  match iters with
  | O => w
  | S iters' =>
      let r := trainIteration cfg internals L transOffset n w mem in
      if snd r then trainLoop iters' cfg internals L transOffset n (fst (fst r)) (snd (fst r))
      else fst (fst r)
  end.

Section Training.

Context {order : GoMap.RangeOrder}.

(** [FeaturesToAttributes]: a feature map with mixed values as CRF
    attributes with float values. *)
Definition FeaturesToAttributes (feats : gmap string Vectorizer.Any) : gmap string R :=
  fold_left (fun (attrs : gmap string R) kv =>
               let key := fst kv in
               match snd kv with
               | Vectorizer.AString v => <[key +:+ "=" +:+ v := 1]> attrs
               | Vectorizer.AStrings items =>
                   fold_left (fun (attrs : gmap string R) item =>
                                <[key +:+ ":" +:+ item := 1]> attrs) items attrs
               | Vectorizer.ABool b => if b then <[key := 1]> attrs else attrs
               | Vectorizer.AInt z => <[key := IZR z]> attrs
               | Vectorizer.AFloat r => <[key := r]> attrs
               | _ => <[key := 1]> attrs
               end)
            (GoMap.rangeOf feats) ∅.

Definition BuildAttributeAlphabet (sequences : list TrainingSequence) : Alphabet :=
  fold_left (fun alpha seq =>
    fold_left (fun alpha feats =>
      fold_left (fun alpha kv => fst (Add alpha (fst kv))) (GoMap.rangeOf feats) alpha)
      (Features seq) alpha)
    sequences NewAlphabet.

Definition BuildLabelAlphabet (sequences : list TrainingSequence) : Alphabet :=
  fold_left (fun alpha seq =>
    fold_left (fun alpha label => fst (Add alpha label)) (SeqLabels seq) alpha)
    sequences NewAlphabet.

(** The internal representation of one training sequence. *)
Definition toInternal (attributes labelAlphabet : Alphabet) (seq : TrainingSequence)
    : internalSeq :=
  let T := length (Features seq) in
  mkInternalSeq
    (tabulate T (fun t =>
       fold_left (fun fes kv =>
                    let attrID := Get attributes (fst kv) in
                    if (0 <=? attrID)%Z
                    then fes ++ [mkFeatureEntry (Z.to_nat attrID) (snd kv)]
                    else fes)
                 (GoMap.rangeOf (nth t (Features seq) ∅)) []))
    (tabulate T (fun t => Z.to_nat (Get labelAlphabet (nth t (SeqLabels seq) EmptyString)))).

(** [Train]: a model is the only result; the function has no error result. *)
Definition Train (sequences : list TrainingSequence) (config : TrainerConfig) : Model :=
  let labelAlphabet := BuildLabelAlphabet sequences in
  let attributes := BuildAttributeAlphabet sequences in
  let numLabels := Size labelAlphabet in
  let model := mkModel labelAlphabet attributes [] numLabels in
  let numWeights := NumWeights model in
  let internals := map (toInternal attributes labelAlphabet) sequences in
  let L := numLabels in
  let transOffset := TransOffset model in
  let mem := newLBFGS numWeights 10 in
  let w := replicate numWeights 0 in
  let w := trainLoop (Z.to_nat (MaxIterations config)) config internals L transOffset
                     numWeights w mem in
  mkModel labelAlphabet attributes w numLabels.

End Training.

(** *** Scores and prediction *)

(** Layout of the weight vector: the state features, attribute by
    attribute, and then the transition features. *)
Definition StateFeatureIndex (m : Model) (attrID labelID : nat) : nat :=
  (attrID * NumLabels m + labelID)%nat.

Definition TransFeatureIndex (m : Model) (fromLabelID toLabelID : nat) : nat :=
  (TransOffset m + fromLabelID * NumLabels m + toLabelID)%nat.

(** The updates one attribute makes to the row of a position:
    [scores[t][y] += Weights[idx] * val] for every label whose weight index
    is in range. *)
Definition scoreAttribute (m : Model) (attrID : nat) (val : R) (row : list R) : list R :=
  fold_left (fun row y =>
               let idx := StateFeatureIndex m attrID y in
               if (idx <? length (Weights m))%nat
               then addAt row y (at1 (Weights m) idx * val)
               else row)
            (seq 0 (NumLabels m)) row.

(** [Viterbi] as a call on rows of [L] state scores: with no label and two
    or more positions the back-tracking loop reads [psi[t+1][0]] from an
    empty row, which is a run-time panic; with [L >= 1], or at most one
    position, every index is in range. *)
Definition viterbiCall (stateScores transScores : list (list R))
    : outcome (list nat * ExtR) :=
  if (length (nth 0 stateScores []) =? 0)%nat && (2 <=? length stateScores)%nat
  then Panicked "runtime error: index out of range [0] with length 0"
  else Returned (Viterbi stateScores transScores).

(** [labels[i] = ToStr[id]] when [id] is in range, the empty string
    otherwise. *)
Definition labelName (m : Model) (id : nat) : string :=
  if (id <? length (ToStr (Labels m)))%nat
  then nth id (ToStr (Labels m)) EmptyString
  else EmptyString.

Section Scoring.

Context {order : GoMap.RangeOrder}.

Definition ComputeStateScores (m : Model) (features : list (gmap string R))
    : list (list R) :=
  map (fun feats =>
         fold_left (fun row kv =>
                      let attrID := Get (Attributes m) (fst kv) in
                      if (attrID <? 0)%Z then row
                      else scoreAttribute m (Z.to_nat attrID) (snd kv) row)
                   (GoMap.rangeOf feats) (replicate (NumLabels m) 0))
      features.

Definition ComputeTransScores (m : Model) : list (list R) :=
  tabulate (NumLabels m) (fun i =>
    tabulate (NumLabels m) (fun j =>
      let idx := TransFeatureIndex m i j in
      if (idx <? length (Weights m))%nat then at1 (Weights m) idx else 0)).

Definition Predict (m : Model) (features : list (gmap string R))
    : outcome (list string) :=
  let stateScores := ComputeStateScores m features in
  let transScores := ComputeTransScores m in
  andThen (viterbiCall stateScores transScores)
          (fun r => Returned (map (labelName m) (fst r))).

Definition PredictMarginals (m : Model) (features : list (gmap string R))
    : list (gmap string R) :=
  let stateScores := ComputeStateScores m features in
  let transScores := ComputeTransScores m in
  let fb := ForwardBackward stateScores transScores in
  tabulate (length features) (fun t =>
    fold_left (fun (result : gmap string R) y =>
                 if (y <? length (ToStr (Labels m)))%nat
                 then <[nth y (ToStr (Labels m)) EmptyString
                        := at2 (Marginals fb) t y]> result
                 else result)
              (seq 0 (NumLabels m)) ∅).

End Scoring.

(** The scores of the package's tests. *)
Definition testStateScores : list (list R) := [[1; 1/2]; [3/10; 2]].
Definition testTransScores : list (list R) := [[1/10; 2/10]; [3/10; 1/10]].

End Crf.

(** ** Form-type classifier: multinomial logistic regression *)

Module Classifier.

Import Loops GoMap Textutil Vectorizer.
Local Open Scope R_scope.
Local Open Scope string_scope.

(** [params[offset:offset+n]]. *)
Definition window (params : list R) (offset n : nat) : list R :=
  take n (drop offset params).

Definition softmax (logits : list R) : list R :=
  let maxLogit :=
    fold_left (fun mx l => if Rgt_dec l mx then l else mx) (tl logits) (at1 logits 0) in
  let probs := map (fun l => exp (l - maxLogit)) logits in
  let sum := fold_left (fun s p => s + p) probs 0 in
  map (fun p => p / sum) probs.

(** Logits of one example: [x.Dot(W_k) + b_k] for every class [k]. *)
Definition exampleLogits (x : SparseVector) (params : list R)
    (numClasses totalDim : nat) : list R :=
  tabulate numClasses (fun k =>
    let offset := (k * (totalDim + 1))%nat in
    Dot x (window params offset totalDim) + at1 params (offset + totalDim)).

(** The gradient updates of one example for class [k]. *)
Definition exampleGradClass (x : SparseVector) (yj : nat) (probs : list R)
    (totalDim : nat) (grad : list R) (k : nat) : list R :=
  let offset := (k * (totalDim + 1))%nat in
  let indicator := if (k =? yj)%nat then 1 else 0 in
  let diff := at1 probs k - indicator in
  let grad :=
    fold_left (fun grad idx =>
                 match indexOf idx (Indices x) with
                 | Some vi => addAt grad (offset + idx) (diff * at1 (Values x) vi)
                 | None => grad
                 end)
              (Indices x) grad in
  addAt grad (offset + totalDim) diff.

Definition logRegObjective (x : list SparseVector) (y : list nat) (params : list R)
    (numClasses totalDim : nat) (c : R) : R * list R :=
  let N := length x in
  let data :=
    fold_left (fun (lg : R * list R) j =>
                 let xj := nth j x (NewSparseVector O) in
                 let yj := nth j y O in
                 let probs := softmax (exampleLogits xj params numClasses totalDim) in
                 let loss :=
                   if Rgt_dec (at1 probs yj) 0 then fst lg - ln (at1 probs yj)
                   else fst lg + 100 in
                 (loss,
                  fold_left (exampleGradClass xj yj probs totalDim) (seq 0 numClasses) (snd lg)))
              (seq 0 N) (0, replicate (length params) 0) in
  let regCoeff := 1 / c in
  fold_left (fun (lg : R * list R) k =>
               let offset := (k * (totalDim + 1))%nat in
               fold_left (fun (lg : R * list R) i =>
                            (fst lg + 1 / 2 * regCoeff * at1 params (offset + i)
                                      * at1 params (offset + i),
                             addAt (snd lg) (offset + i) (regCoeff * at1 params (offset + i))))
                         (seq 0 totalDim) lg)
            (seq 0 numClasses) data.

Fixpoint logRegLineSearchLoop (trials : nat) (x : list SparseVector) (y : list nat)
    (params dir : list R) (numClasses totalDim : nat) (c currentLoss step : R) : R :=
  match trials with
  | O => step
  | S trials' =>
      let wNew := tabulate (length params) (fun i => at1 params i + step * at1 dir i) in
      let newLoss := fst (logRegObjective x y wNew numClasses totalDim c) in
      if Rlt_dec newLoss currentLoss then step
      else logRegLineSearchLoop trials' x y params dir numClasses totalDim c currentLoss
                                (step * (1 / 2))
  end.

Definition logRegLineSearch (x : list SparseVector) (y : list nat) (params dir : list R)
    (numClasses totalDim : nat) (c currentLoss : R) : R :=
  logRegLineSearchLoop 20 x y params dir numClasses totalDim c currentLoss 1.

Record logRegLBFGS := mkLogRegLBFGS {
  lr_m : Z;
  lr_s : list (list R);
  lr_y : list (list R);
  lr_rho : list R;
  lr_k : Z;
  lr_size : Z
}.

Definition newLogRegLBFGS (m : Z) : logRegLBFGS :=
  mkLogRegLBFGS m (replicate (Z.to_nat m) []) (replicate (Z.to_nat m) [])
                (replicate (Z.to_nat m) 0) 0 0.

Definition lrSlot (l : logRegLBFGS) (e : Z) : nat :=
  let idx := Z.rem e (lr_m l) in
  Z.to_nat (if (idx <? 0)%Z then idx + lr_m l else idx)%Z.

Definition lrUpdate (l : logRegLBFGS) (s y : list R) : logRegLBFGS :=
  let sy := sumTo (length s) (fun i => at1 s i * at1 y i) in
  if Rle_dec sy 0 then l
  else
    let idx := Z.to_nat (Z.rem (lr_k l) (lr_m l)) in
    mkLogRegLBFGS (lr_m l)
      (<[idx := s]> (lr_s l)) (<[idx := y]> (lr_y l)) (<[idx := 1 / sy]> (lr_rho l))
      (lr_k l + 1)
      (if (lr_size l <? lr_m l)%Z then lr_size l + 1 else lr_size l)%Z.

Definition lrComputeDirection (l : logRegLBFGS) (grad : list R) (n : nat) : list R :=
  let q := tabulate n (at1 grad) in
  if (lr_size l =? 0)%Z then map Ropp q
  else
    let size := Z.to_nat (lr_size l) in
    let first :=
      fold_left (fun (qa : list R * list R) i =>
                   let idx := lrSlot l (lr_k l - 1 - (lr_size l - 1 - Z.of_nat i)) in
                   let a := sumTo n (fun j => at1 (lr_rho l) idx * at2 (lr_s l) idx j
                                              * at1 (fst qa) j) in
                   (tabulate n (fun j => at1 (fst qa) j - a * at2 (lr_y l) idx j),
                    <[i := a]> (snd qa)))
                (rev (seq 0 size)) (q, replicate size 0) in
    let q := fst first in
    let alpha := snd first in
    let latestIdx := lrSlot l (lr_k l - 1) in
    let yy := sumTo n (fun i => at2 (lr_y l) latestIdx i * at2 (lr_y l) latestIdx i) in
    let sy := sumTo n (fun i => at2 (lr_s l) latestIdx i * at2 (lr_y l) latestIdx i) in
    let q := if Rgt_dec yy 0 then map (fun v => v * (sy / yy)) q else q in
    let q :=
      fold_left (fun q i =>
                   let idx := lrSlot l (lr_k l - lr_size l + Z.of_nat i) in
                   let beta := sumTo n (fun j => at1 (lr_rho l) idx * at2 (lr_y l) idx j
                                                 * at1 q j) in
                   tabulate n (fun j => at1 q j + (at1 alpha i - beta) * at2 (lr_s l) idx j))
                (seq 0 size) q in
    map Ropp q.

(** *** The objective and gradient as the specification states them *)

(** The [i]-th component of a sparse vector. *)
Definition component (x : SparseVector) (i : nat) : R :=
  match indexOf i (Indices x) with
  | Some vi => at1 (Values x) vi
  | None => 0
  end.

(** Layout of the parameter vector: class [k] holds its [totalDim] weights
    and then its intercept. *)
Definition weightOf (params : list R) (totalDim k i : nat) : R :=
  at1 params (k * (totalDim + 1) + i).

Definition interceptOf (params : list R) (totalDim k : nat) : R :=
  at1 params (k * (totalDim + 1) + totalDim).

(** [(W·x + b)[k]]. *)
Definition classScore (params : list R) (totalDim : nat) (x : SparseVector) (k : nat) : R :=
  sumTo totalDim (fun i => weightOf params totalDim k i * component x i)
  + interceptOf params totalDim k.

(** [softmax(z)[k]] over [numClasses] classes. *)
Definition softmaxOf (numClasses : nat) (z : nat -> R) (k : nat) : R :=
  exp (z k) / sumTo numClasses (fun c => exp (z c)).

Definition indicatorOf (k yj : nat) : R := if (k =? yj)%nat then 1 else 0.

(** Sum over the examples of the negative log of [softmax(W·x + b)[y]], plus
    [0.5 * (1/C) * ||W||^2] over the weights only. *)
Definition specObjective (x : list SparseVector) (y : list nat) (params : list R)
    (numClasses totalDim : nat) (c : R) : R :=
  sumTo (length x) (fun j =>
    - ln (softmaxOf numClasses (classScore params totalDim (nth j x (NewSparseVector O)))
                    (nth j y O)))
  + 1 / 2 * (1 / c)
    * sumTo numClasses (fun k =>
        sumTo totalDim (fun i => weightOf params totalDim k i * weightOf params totalDim k i)).

(** Gradient of a weight: [(softmax_k - 1[y=k]) * x_i] over the examples,
    plus [w / C]. *)
Definition specGradWeight (x : list SparseVector) (y : list nat) (params : list R)
    (numClasses totalDim : nat) (c : R) (k i : nat) : R :=
  sumTo (length x) (fun j =>
    (softmaxOf numClasses (classScore params totalDim (nth j x (NewSparseVector O))) k
     - indicatorOf k (nth j y O))
    * component (nth j x (NewSparseVector O)) i)
  + weightOf params totalDim k i / c.

(** Gradient of an intercept: [softmax_k - 1[y=k]] over the examples, with
    no regularisation term. *)
Definition specGradIntercept (x : list SparseVector) (y : list nat) (params : list R)
    (numClasses totalDim : nat) (k : nat) : R :=
  sumTo (length x) (fun j =>
    softmaxOf numClasses (classScore params totalDim (nth j x (NewSparseVector O))) k
    - indicatorOf k (nth j y O)).

(** The invariant of a sparse vector of dimension [dim]: distinct indices
    below [dim], one value per index. *)
Definition wellFormed (dim : nat) (x : SparseVector) : Prop :=
  NoDup (Indices x) /\ length (Values x) = length (Indices x) /\
  Forall (fun idx => (idx < dim)%nat) (Indices x).

(** Two examples over two columns and two classes. *)
Definition exampleX : list SparseVector :=
  [mkSparse [O] [1] 2; mkSparse [1%nat] [1] 2].

Definition exampleY : list nat := [O; 1%nat].

Definition exampleParams : list R := [0; 0; 0; 0; 0; 0].

(** *** Feature pipelines *)

(** The nine feature extractors. *)
Inductive Extractor :=
  | FormElements | SubmitText | FormLinksText | FormLabelText | FormURL
  | FormCSS | FormInputCSS | FormInputNames | FormInputTitle.

Definition extractorTypeName (e : Extractor) : string :=
  match e with
  | FormElements => "FormElements"
  | SubmitText => "SubmitText"
  | FormLinksText => "FormLinksText"
  | FormLabelText => "FormLabelText"
  | FormURL => "FormURL"
  | FormCSS => "FormCSS"
  | FormInputCSS => "FormInputCSS"
  | FormInputNames => "FormInputNames"
  | FormInputTitle => "FormInputTitle"
  end.

(** The parsed documents and what the extractors read from them: the HTML
    parser and the DOM queries are outside the engine. *)
Class FormDom := {
  Selection : Type;
  ExtractString : Extractor -> Selection -> string;
  ExtractDict : Extractor -> Selection -> gmap string Any
}.

Record FeaturePipeline := mkPipeline {
  Name : string;
  PipeExtractor : Extractor;
  VecType : string;
  NgramRange : Z * Z;
  MinDF : Z;
  Binary : bool;
  Analyzer : string;
  StopWords : gmap string bool;
  UseEnglishStop : bool
}.

Definition stopSet (words : list string) : gmap string bool :=
  fold_left (fun (m : gmap string bool) w => <[w := true]> m) words ∅.

Definition DefaultFeaturePipelines : list FeaturePipeline :=
  [ mkPipeline "form elements" FormElements "dict" (0, 0)%Z 0 false "" ∅ false;
    mkPipeline "submit text" SubmitText "count" (1, 2)%Z 1 true "word" ∅ false;
    mkPipeline "links text" FormLinksText "tfidf" (1, 2)%Z 4 true "word"
               (stopSet ["and"; "or"; "of"]) false;
    mkPipeline "label text" FormLabelText "tfidf" (1, 2)%Z 3 true "word" ∅ true;
    mkPipeline "form url" FormURL "tfidf" (5, 6)%Z 4 true "char_wb" ∅ false;
    mkPipeline "form css" FormCSS "tfidf" (4, 5)%Z 3 true "char_wb" ∅ false;
    mkPipeline "input css" FormInputCSS "tfidf" (4, 5)%Z 5 true "char_wb" ∅ false;
    mkPipeline "input names" FormInputNames "tfidf" (5, 6)%Z 3 true "char_wb" ∅ false;
    mkPipeline "input title" FormInputTitle "tfidf" (5, 6)%Z 3 true "char_wb" ∅ false ].

Definition EnglishStopWords : gmap string bool :=
  stopSet
    [ "a"; "about"; "above"; "after"; "again"; "against"; "ain"; "all"; "am";
      "an"; "and"; "any"; "are"; "aren"; "aren't"; "as"; "at"; "be"; "because";
      "been"; "before"; "being"; "below"; "between"; "both"; "but"; "by"; "can";
      "couldn"; "couldn't"; "d"; "did"; "didn"; "didn't"; "do"; "does"; "doesn";
      "doesn't"; "doing"; "don"; "don't"; "down"; "during"; "each"; "few"; "for";
      "from"; "further"; "had"; "hadn"; "hadn't"; "has"; "hasn"; "hasn't"; "have";
      "haven"; "haven't"; "having"; "he"; "her"; "here"; "hers"; "herself"; "him";
      "himself"; "his"; "how"; "i"; "if"; "in"; "into"; "is"; "isn"; "isn't"; "it";
      "it's"; "its"; "itself"; "just"; "ll"; "m"; "ma"; "me"; "mightn"; "mightn't";
      "more"; "most"; "mustn"; "mustn't"; "my"; "myself"; "needn"; "needn't"; "no";
      "nor"; "not"; "now"; "o"; "of"; "off"; "on"; "once"; "only"; "or"; "other";
      "our"; "ours"; "ourselves"; "out"; "over"; "own"; "re"; "s"; "same"; "shan";
      "shan't"; "she"; "she's"; "should"; "should've"; "shouldn"; "shouldn't"; "so";
      "some"; "such"; "t"; "than"; "that"; "that'll"; "the"; "their"; "theirs";
      "them"; "themselves"; "then"; "there"; "these"; "they"; "this"; "those";
      "through"; "to"; "too"; "under"; "until"; "up"; "ve"; "very"; "was"; "wasn";
      "wasn't"; "we"; "were"; "weren"; "weren't"; "what"; "when"; "where"; "which";
      "while"; "who"; "whom"; "why"; "will"; "with"; "won"; "won't"; "wouldn";
      "wouldn't"; "y"; "you"; "you'd"; "you'll"; "you're"; "you've"; "your";
      "yours"; "yourself"; "yourselves" ].

Record SerializedPipeline := mkSerialized {
  SpName : string;
  ExtractorType : string;
  SpVecType : string;
  DictVec : option DictVectorizer.t;
  CountVec : option CountVectorizer.t;
  TfidfVec : option TfidfVectorizer.t
}.

Record FormTypeModel := mkFormTypeModel {
  Classes : list string;
  Coef : list (list R);
  Intercept : list R;
  Pipelines : list SerializedPipeline;
  vecTypes : list string;
  vecDims : list nat
}.

(** Forms given by their text, to run the definitions on examples. *)
Definition textDom : FormDom :=
  {| Selection := string;
     ExtractString := fun _ s => s;
     ExtractDict := fun _ _ => ∅ |}.

Record FormTypeTrainConfig := mkFormTypeTrainConfig {
  C : R;
  MaxIter : Z;
  FtVerbose : bool
}.

Definition DefaultFormTypeTrainConfig : FormTypeTrainConfig :=
  mkFormTypeTrainConfig 5 100 false.

(** One iteration of the optimisation loop of [TrainFormType]. *)
Definition formTypeIteration (xData : list SparseVector) (y : list nat)
    (numClasses totalDim numParams : nat) (reg : R)
    (params : list R) (mem : logRegLBFGS) : list R * logRegLBFGS * bool :=
  let lg := logRegObjective xData y params numClasses totalDim reg in
  let loss := fst lg in
  let gradients := snd lg in
  let dir := lrComputeDirection mem gradients numParams in
  let step := logRegLineSearch xData y params dir numClasses totalDim reg loss in
  let prevParams := params in
  let params := tabulate numParams (fun i => at1 params i + step * at1 dir i) in
  let newGrad := snd (logRegObjective xData y params numClasses totalDim reg) in
  let s := tabulate numParams (fun i => at1 params i - at1 prevParams i) in
  let yVec := tabulate numParams (fun i => at1 newGrad i - at1 gradients i) in
  let mem := lrUpdate mem s yVec in
  let maxGrad := fold_left (fun mx g => if Rgt_dec (Rabs g) mx then Rabs g else mx) newGrad 0 in
  (params, mem, if Rlt_dec maxGrad (1 / 100000) then false else true).

Fixpoint formTypeLoop (iters : nat) (xData : list SparseVector) (y : list nat)
    (numClasses totalDim numParams : nat) (reg : R)
    (params : list R) (mem : logRegLBFGS) : list R :=
  match iters with
  | O => params
  | S iters' =>
      let r := formTypeIteration xData y numClasses totalDim numParams reg params mem in
      if snd r
      then formTypeLoop iters' xData y numClasses totalDim numParams reg
                        (fst (fst r)) (snd (fst r))
      else fst (fst r)
  end.

(** The classes in first-seen order, and the class id of every label seen. *)
Definition collectClasses (labels : list string) : gmap string nat * list string :=
  fold_left (fun (st : gmap string nat * list string) l =>
               match fst st !! l with
               | Some _ => st
               | None => (<[l := length (snd st)]> (fst st), (snd st ++ [l])%list)
               end)
            labels (∅, []).

Section Training.

Context {text : TextPrims} {order : RangeOrder} {dom : FormDom}.

(** Fit the vectorizer of one pipeline on the forms and transform them. *)
Definition fitPipeline (pipe : FeaturePipeline) (forms : list Selection)
    : SerializedPipeline * list SparseVector * nat :=
  let sp dv cv tv :=
    mkSerialized (Name pipe) (extractorTypeName (PipeExtractor pipe)) (VecType pipe)
                 dv cv tv in
  if String.eqb (VecType pipe) "dict" then
    let data := map (ExtractDict (PipeExtractor pipe)) forms in
    let r := DictVectorizer.FitTransform data in
    (sp (Some (fst r)) None None, snd r, DictVectorizer.VocabSize (fst r))
  else if String.eqb (VecType pipe) "count" then
    let cv := CountVectorizer.New (NgramRange pipe) (Binary pipe) (Analyzer pipe) (MinDF pipe) in
    let corpus := map (ExtractString (PipeExtractor pipe)) forms in
    let r := CountVectorizer.FitTransform cv corpus in
    (sp None (Some (fst r)) None, snd r, CountVectorizer.VocabSize (fst r))
  else if String.eqb (VecType pipe) "tfidf" then
    let stopWords := if UseEnglishStop pipe then EnglishStopWords else StopWords pipe in
    let tv := TfidfVectorizer.New (NgramRange pipe) (MinDF pipe) (Binary pipe)
                                  (Analyzer pipe) stopWords in
    let corpus := map (ExtractString (PipeExtractor pipe)) forms in
    let r := TfidfVectorizer.FitTransform tv corpus in
    (sp None None (Some (fst r)), snd r, TfidfVectorizer.VocabSize (fst r))
  else (sp None None None, [], O).

(** [TrainFormType]: the function has no error result; [xData[0]] panics
    when there is no form. *)
Definition TrainFormType (forms : list Selection) (labels : list string)
    (config : FormTypeTrainConfig) : outcome FormTypeModel :=
  let pipelines := DefaultFeaturePipelines in
  let fitted := map (fun pipe => fitPipeline pipe forms) pipelines in
  let allVectors := map (fun r => snd (fst r)) fitted in
  let n := length forms in
  let xData :=
    tabulate n (fun j =>
      ConcatSparse (map (fun vecs => nth j vecs (NewSparseVector O)) allVectors)) in
  let cc := collectClasses labels in
  let classes := snd cc in
  match xData with
  | [] => Panicked "runtime error: index out of range [0] with length 0"
  | x0 :: _ =>
      let totalDim := Dim x0 in
      let numClasses := length classes in
      let y := tabulate n (fun j => default O (fst cc !! nth j labels "")) in
      let reg := if Rle_dec (C config) 0 then 5 else C config in
      let numParams := (numClasses * (totalDim + 1))%nat in
      let params :=
        formTypeLoop (Z.to_nat (MaxIter config)) xData y numClasses totalDim numParams
                     reg (replicate numParams 0) (newLogRegLBFGS 10) in
      Returned
        (mkFormTypeModel classes
           (tabulate numClasses (fun c => window params (c * (totalDim + 1)) totalDim))
           (tabulate numClasses (fun c => at1 params (c * (totalDim + 1) + totalDim)))
           (map (fun r => fst (fst r)) fitted)
           (map VecType pipelines)
           (map snd fitted))
  end.

End Training.

(** *** Classification *)

(** The vectorizers of a model at run time, one slot per pipeline: the
    vectorizer of the pipeline's type, and a nil pointer in the two other
    slices.  [InitRuntime] installs them from the serialised pipelines;
    training leaves the same state, since it stores each fitted vectorizer
    both in its slot and in the serialised pipeline. *)
Record RuntimeVecs := mkRuntimeVecs {
  dictVecs : list (option DictVectorizer.t);
  countVecs : list (option CountVectorizer.t);
  tfidfVecs : list (option TfidfVectorizer.t)
}.

(** The two run-time panics of this code, without the index and length the
    run time appends to the first. *)
Definition outOfRange : string := "runtime error: index out of range".
Definition nilDeref : string :=
  "runtime error: invalid memory address or nil pointer dereference".

(** What [InitRuntime] derives from one pipeline: its three slots and its
    dimension.  [VocabSize] on a nil vectorizer dereferences it. *)
Definition initPipeline (p : SerializedPipeline)
    : outcome (option DictVectorizer.t * option CountVectorizer.t
               * option TfidfVectorizer.t * nat) :=
  if String.eqb (SpVecType p) "dict" then
    match DictVec p with
    | Some dv => Returned (Some dv, None, None, DictVectorizer.VocabSize dv)
    | None => Panicked nilDeref
    end
  else if String.eqb (SpVecType p) "count" then
    match CountVec p with
    | Some cv => Returned (None, Some cv, None, CountVectorizer.VocabSize cv)
    | None => Panicked nilDeref
    end
  else if String.eqb (SpVecType p) "tfidf" then
    match TfidfVec p with
    | Some tv => Returned (None, None, Some tv, TfidfVectorizer.VocabSize tv)
    | None => Panicked nilDeref
    end
  else Returned (None, None, None, O).

Fixpoint initPipelines (ps : list SerializedPipeline)
    : outcome (list (option DictVectorizer.t * option CountVectorizer.t
                     * option TfidfVectorizer.t * nat)) :=
  match ps with
  | [] => Returned []
  | p :: ps' =>
      andThen (initPipeline p) (fun r =>
      andThen (initPipelines ps') (fun rs => Returned (r :: rs)))
  end.

(** [InitRuntime]: the model with its run-time types and dimensions, and
    the vectorizer slots. *)
Definition InitRuntime (m : FormTypeModel) : outcome (FormTypeModel * RuntimeVecs) :=
  andThen (initPipelines (Pipelines m)) (fun slots =>
    Returned
      (mkFormTypeModel (Classes m) (Coef m) (Intercept m) (Pipelines m)
                       (map SpVecType (Pipelines m)) (map snd slots),
       mkRuntimeVecs (map (fun r => fst (fst (fst r))) slots)
                     (map (fun r => snd (fst (fst r))) slots)
                     (map (fun r => snd (fst r)) slots))).

(** [vecs[i]] followed by a method call on the pointer it holds. *)
Definition slotAt {A : Type} (vecs : list (option A)) (i : nat) : outcome A :=
  match vecs !! i with
  | None => Panicked outOfRange
  | Some None => Panicked nilDeref
  | Some (Some v) => Returned v
  end.

Section Classify.

Context {text : TextPrims} {order : RangeOrder} {dom : FormDom}.

(** The vector of pipeline [i] of [extractFeatures]; a type that is none of
    the three leaves the zero vector. *)
Definition extractPipeline (m : FormTypeModel) (rt : RuntimeVecs) (form : Selection)
    (i : nat) (pipe : FeaturePipeline) : outcome SparseVector :=
  match vecTypes m !! i with
  | None => Panicked outOfRange
  | Some tp =>
      if String.eqb tp "dict" then
        andThen (slotAt (dictVecs rt) i) (fun dv =>
          Returned (DictVectorizer.Transform dv (ExtractDict (PipeExtractor pipe) form)))
      else if String.eqb tp "count" then
        andThen (slotAt (countVecs rt) i) (fun cv =>
          Returned (CountVectorizer.Transform cv (ExtractString (PipeExtractor pipe) form)))
      else if String.eqb tp "tfidf" then
        andThen (slotAt (tfidfVecs rt) i) (fun tv =>
          Returned (TfidfVectorizer.Transform tv (ExtractString (PipeExtractor pipe) form)))
      else Returned (NewSparseVector O)
  end.

Fixpoint extractPipelines (m : FormTypeModel) (rt : RuntimeVecs) (form : Selection)
    (i : nat) (pipes : list FeaturePipeline) : outcome (list SparseVector) :=
  match pipes with
  | [] => Returned []
  | pipe :: pipes' =>
      andThen (extractPipeline m rt form i pipe) (fun v =>
      andThen (extractPipelines m rt form (S i) pipes') (fun vs => Returned (v :: vs)))
  end.

Definition extractFeatures (m : FormTypeModel) (rt : RuntimeVecs) (form : Selection)
    : outcome SparseVector :=
  andThen (extractPipelines m rt form 0 DefaultFeaturePipelines) (fun vectors =>
    Returned (ConcatSparse vectors)).

(** [ClassifyProba]: the loop over the classes reads [Coef[c]] and
    [Intercept[c]], and [softmax] reads [logits[0]]. *)
Definition ClassifyProba (m : FormTypeModel) (rt : RuntimeVecs) (form : Selection)
    : outcome (gmap string R) :=
  andThen (extractFeatures m rt form) (fun features =>
    let numClasses := length (Classes m) in
    if (length (Coef m) <? numClasses)%nat || (length (Intercept m) <? numClasses)%nat
    then Panicked outOfRange
    else if (numClasses =? 0)%nat then Panicked outOfRange
    else
      let logits :=
        tabulate numClasses (fun c =>
          Dot features (nth c (Coef m) []) + at1 (Intercept m) c) in
      let probs := softmax logits in
      Returned
        (fold_left (fun (result : gmap string R) c =>
                      <[nth c (Classes m) "" := at1 probs c]> result)
                   (seq 0 numClasses) ∅)).

(** [Classify]: the first class, in the order the map is ranged over, whose
    probability exceeds every probability seen before it. *)
Definition Classify (m : FormTypeModel) (rt : RuntimeVecs) (form : Selection)
    : outcome string :=
  andThen (ClassifyProba m rt form) (fun proba =>
    Returned
      (fst (fold_left (fun (best : string * R) kv =>
                         if Rgt_dec (snd kv) (snd best) then kv else best)
                      (rangeOf proba) ("", -1)))).

End Classify.

(** [FieldTypeModel] wraps a CRF model. *)
Record FieldTypeModel := mkFieldTypeModel { CRF : Crf.Model }.

Definition TrainFieldType {order : RangeOrder} (sequences : list Crf.TrainingSequence)
    (config : Crf.TrainerConfig) : FieldTypeModel :=
  mkFieldTypeModel (Crf.Train sequences config).

Record FormFieldClassifier := mkFormFieldClassifier {
  FormModel : FormTypeModel;
  FieldModel : option FieldTypeModel
}.

End Classifier.

(** ** The top-level training entry point *)

Module Dit.

Import Loops GoMap Textutil Vectorizer Classifier.
Local Open Scope string_scope.

(** The fields of a stored annotation that training reads. *)
Record FormAnnotation := mkFormAnnotation {
  FormHTML : string;
  TypeFull : string;
  FieldTypes : gmap string string;
  FieldTypesFull : gmap string string;
  FormAnnotated : bool;
  FieldsAnnotated : bool
}.

(** What training asks of its collaborators: the annotation store, the
    HTML loader, and the DOM queries on a loaded form. *)
Class Collaborators `{FormDom} := {
  IterAnnotations : string -> bool -> list FormAnnotation + string;
  LoadForm : string -> option Selection;
  nilSelection : Selection;
  GetFieldsToAnnotate : Selection -> list Selection;
  GetFormFeatures : Selection -> string -> list Selection -> list (gmap string Any);
  AttrName : Selection -> string
}.

(** A store with no annotation, over forms given by their text. *)
Definition emptyStore : @Collaborators textDom :=
  {| IterAnnotations := fun _ _ => inl [];
     LoadForm := fun s : string => @Some (@Selection textDom) s;
     nilSelection := "" : @Selection textDom;
     GetFieldsToAnnotate := fun _ => [];
     GetFormFeatures := fun _ _ _ => [];
     AttrName := fun s : @Selection textDom => s |}.

Record TrainConfig := mkTrainConfig { Verbose : bool }.

Record Classifier := mkClassifier { fc : FormFieldClassifier }.

Definition filterFormAnnotated (annotations : list FormAnnotation) : list FormAnnotation :=
  List.filter FormAnnotated annotations.

Definition filterFieldAnnotated (annotations : list FormAnnotation) : list FormAnnotation :=
  List.filter FieldsAnnotated annotations.

Section Train.

Context {text : TextPrims} {order : RangeOrder} {dom : FormDom} {ext : Collaborators}.

(** A form that fails to load leaves a nil form and an empty label. *)
Definition extractFormTrainingData (annotations : list FormAnnotation)
    : list Selection * list string :=
  (map (fun ann => default nilSelection (LoadForm ("<form>" +:+ FormHTML ann +:+ "</form>")))
       annotations,
   map (fun ann => match LoadForm ("<form>" +:+ FormHTML ann +:+ "</form>") with
                   | Some _ => TypeFull ann
                   | None => ""
                   end)
       annotations).

Definition buildCRFSequences (annotations : list FormAnnotation)
    : list Crf.TrainingSequence * list FormAnnotation :=
  fold_left (fun (acc : list Crf.TrainingSequence * list FormAnnotation) ann =>
    match LoadForm ("<form>" +:+ FormHTML ann +:+ "</form>") with
    | None => acc
    | Some form =>
        let fieldElems := GetFieldsToAnnotate form in
        if (length fieldElems =? 0)%nat then acc
        else
          let rawFeats := GetFormFeatures form (TypeFull ann) fieldElems in
          let crfFeatures := map Crf.FeaturesToAttributes rawFeats in
          let crfLabels :=
            tabulate (length rawFeats) (fun j =>
              let name := AttrName (nth j fieldElems nilSelection) in
              match FieldTypesFull ann !! name with
              | Some label => label
              | None => match FieldTypes ann !! name with
                        | Some label => label
                        | None => "other"
                        end
              end) in
          ((fst acc ++ [Crf.mkTrainingSequence crfFeatures crfLabels 0])%list,
           (snd acc ++ [ann])%list)
    end)
    annotations ([], []).

(** [Train(dataDir, config)]; [config] is [None] for a nil pointer. *)
Definition Train (dataDir : string) (config : option TrainConfig) : outcome Classifier :=
  let verbose := match config with Some c => Verbose c | None => false end in
  match IterAnnotations dataDir verbose with
  | inr err => Failed ("dit: " +:+ err)
  | inl annotations =>
      if (length annotations =? 0)%nat
      then Failed ("dit: no annotations found in " +:+ dataDir)
      else
        let formAnnotations := filterFormAnnotated annotations in
        let fl := extractFormTrainingData formAnnotations in
        let formConfig :=
          mkFormTypeTrainConfig (C DefaultFormTypeTrainConfig)
                                (MaxIter DefaultFormTypeTrainConfig) verbose in
        match TrainFormType (fst fl) (snd fl) formConfig with
        | Returned formModel =>
            let fieldAnnotations := filterFieldAnnotated annotations in
            let fieldModel :=
              if (0 <? length fieldAnnotations)%nat
              then
                let crfSequences := fst (buildCRFSequences fieldAnnotations) in
                let d := Crf.DefaultTrainerConfig in
                let crfConfig :=
                  Crf.mkTrainerConfig (Crf.C1 d) (Crf.C2 d) (Crf.MaxIterations d)
                                      (Crf.AllPossibleTransitions d) (Crf.Epsilon d) verbose in
                Some (TrainFieldType crfSequences crfConfig)
              else None in
            Returned (mkClassifier (mkFormFieldClassifier formModel fieldModel))
        | Failed err => Failed err
        | Panicked msg => Panicked msg
        end
  end.

End Train.

(** *** Cross-validation folds *)

Section Folds.

Context {order : RangeOrder}.

(** [groupKFold]: the indices of [groups], fold by fold.  A fold count of
    zero divides by zero as soon as there is a group, and a negative one is
    refused by [make]. *)
Definition groupKFold (groups : list Z) (nFolds : Z) : outcome (list (list nat)) :=
  let uniqueGroups : gmap Z bool :=
    fold_left (fun (u : gmap Z bool) g => <[g := true]> u) groups ∅ in
  let sortedGroups := map fst (rangeOf uniqueGroups) in
  let nFolds :=
    if (Z.of_nat (length sortedGroups) <? nFolds)%Z
    then Z.of_nat (length sortedGroups) else nFolds in
  if (nFolds =? 0)%Z && (0 <? length sortedGroups)%nat
  then Panicked "runtime error: integer divide by zero"
  else if (nFolds <? 0)%Z
  then Panicked "runtime error: makeslice: len out of range"
  else
    let groupToFold : gmap Z Z :=
      fold_left (fun (gf : gmap Z Z) i =>
                   <[nth i sortedGroups 0%Z := Z.rem (Z.of_nat i) nFolds]> gf)
                (seq 0 (length sortedGroups)) ∅ in
    Returned
      (fold_left (fun (folds : list (list nat)) i =>
                    let fold := Z.to_nat (default 0%Z (groupToFold !! nth i groups 0%Z)) in
                    <[fold := (nth fold folds [] ++ [i])%list]> folds)
                 (seq 0 (length groups)) (replicate (Z.to_nat nFolds) [])).

End Folds.

(** [makeTestSet]: [set[i] = true] for every test index. *)
Definition makeTestSet (n : nat) (testIdx : list nat) : list bool :=
  fold_left (fun (set : list bool) i => <[i := true]> set) testIdx (replicate n false).

(** [filterByIndex]: the forms and labels whose mark in [testSet] is
    [isTest]. *)
Definition filterByIndex {A : Type} (forms : list A) (labels : list string)
    (testSet : list bool) (isTest : bool) : list A * list string :=
  fold_left (fun (out : list A * list string) (entry : nat * A) =>
               let i := fst entry in
               if Bool.eqb (nth i testSet false) isTest
               then ((fst out ++ [snd entry])%list, (snd out ++ [nth i labels ""])%list)
               else out)
            (imap pair forms) ([], []).

End Dit.

(** * Definitions used to state the invariants *)

(** ** Forward-backward *)

Module ForwardBackwardAux.

Import Loops Crf.
Local Open Scope R_scope.

Section Run.

Variables stateScores transScores : list (list R).
Variables T1 L : nat.

Definition expState : list (list R) := expScores (S T1) L stateScores.
Definition expTrans : list (list R) := expScores L L transScores.
Definition eS (t y : nat) : R := exp (at2 stateScores t y).
Definition eT (i j : nat) : R := exp (at2 transScores i j).

(** Unscaled forward variables: total weight of the paths that end in [y]
    at position [t]. *)
Fixpoint fwdWeight (t y : nat) : R :=
  match t with
  | O => eS O y
  | S t' => sumTo L (fun yp => fwdWeight t' yp * eT yp y) * eS t y
  end.

Definition fwdTotal (t : nat) : R := sumTo L (fwdWeight t).

(** The forward pass, position by position. *)
Fixpoint fwdAt (t : nat) : list R * R :=
  match t with
  | O => forwardInit expState L
  | S t' => forwardStep expState expTrans L (fst (fwdAt t')) t
  end.

Definition fbAlpha : list (list R) := map (fun t => fst (fwdAt t)) (seq 0 (S T1)).
Definition fbScale : list R := map (fun t => snd (fwdAt t)) (seq 0 (S T1)).

(** Total weight of the enumerated paths of length [n+1] that end in [y]. *)
Definition endWeight (n y : nat) : R :=
  Rsum (map (fun p => exp (pathScore stateScores transScores (p ++ [y])))
            (allPaths n L)).

Definition bwdStep : nat -> list (list R) -> list (list R) :=
  backwardStep expState expTrans L fbScale.

Definition betaLast : list R := tabulate L (fun _ => at1 fbScale T1).

(** Rows [beta[k], ..., beta[T-1]] when [k + n = T - 1]. *)
Definition bwdRows (k n : nat) : list (list R) :=
  fold_right bwdStep [betaLast] (seq k n).

End Run.

End ForwardBackwardAux.

(** ** Viterbi *)

Module ViterbiAux.

Import Loops Crf.
Local Open Scope R_scope.

Section Run.

Variables stateScores transScores : list (list R).
Variables T1 L : nat.

(** Rows of [delta] and [psi], position by position. *)
Fixpoint vitAt (t : nat) : list ExtR * list nat :=
  match t with
  | O => (tabulate L (fun y => Fin (at2 stateScores 0 y)), tabulate L (fun _ => O))
  | S t' => viterbiStep stateScores transScores L (fst (vitAt t')) t
  end.

Definition psiAt (t y : nat) : nat := nth y (snd (vitAt t)) O.

(** The path that back-pointers trace from label [y] at position [t]. *)
Fixpoint pathTo (t y : nat) : list nat :=
  match t with
  | O => [y]
  | S t' => pathTo t' (psiAt t y) ++ [y]
  end.

(** Paths of [t+1] positions that end in label [y]. *)
Definition endsIn (t y : nat) (q : list nat) : Prop :=
  validPath (S t) L q /\ nth t q O = y.

(** What row [t] of [delta] and the back-pointers up to [t] satisfy. *)
Record rowInv (t : nat) : Prop := {
  inv_delta :
    fst (vitAt t)
    = tabulate L (fun y => Fin (pathScore stateScores transScores (pathTo t y)));
  inv_valid : forall y, (y < L)%nat -> endsIn t y (pathTo t y);
  inv_best : forall y q, (y < L)%nat -> endsIn t y q ->
               pathScore stateScores transScores q
               <= pathScore stateScores transScores (pathTo t y);
  inv_first : forall y q, (y < L)%nat -> endsIn t y q ->
               pathScore stateScores transScores q
               = pathScore stateScores transScores (pathTo t y) ->
               q <> pathTo t y ->
               scanBefore (pathTo t y) q
}.

Definition vitPsi : list (list nat) := map (fun t => snd (vitAt t)) (seq 0 (S T1)).
Definition vitDelta : list (list ExtR) := map (fun t => fst (vitAt t)) (seq 0 (S T1)).

End Run.

End ViterbiAux.

(** ** Vectorizers *)

Module VectorizerAux.

Import Loops GoMap Textutil Vectorizer.
Local Open Scope R_scope.

(** One step of the loop of [DictVectorizer.Transform]. *)
Definition transformStep (dv : DictVectorizer.t) (sv : SparseVector)
    (kv : string * Any) : SparseVector :=
  match DictVectorizer.FeatureIndex dv
        !! DictVectorizer.featureKey (fst kv) (snd kv) with
  | Some idx => SetValue sv idx (DictVectorizer.featureValue (snd kv))
  | None => sv
  end.

(** The two documents of the scenario and the map that is transformed. *)
Definition scenarioData : list (gmap string Any) :=
  [ {[ "method"%string := AString "post" ]}; {[ "method"%string := AString "get" ]} ].

Definition scenarioInput : gmap string Any := {[ "method"%string := AString "put" ]}.

Definition sumSquares (l : list R) : R := fold_left (fun sum v => sum + v * v) l 0.

(** A vectorizer for single words with the stop word "the". *)
Definition stopExample : TfidfVectorizer.t :=
  TfidfVectorizer.New (1, 1)%Z 1 true "word" {[ "the"%string := true ]}.

(** One step of the loop of [CountVectorizer.countDoc]. *)
Definition countStep (st : gmap string Z * gmap string bool) (f : string)
    : gmap string Z * gmap string bool :=
  if default false (snd st !! f) then st
  else (<[f := (default 0 (fst st !! f) + 1)%Z]> (fst st), <[f := true]> (snd st)).

(** A count held in the map: absent when zero. *)
Definition heldCount (n : nat) : option Z :=
  match n with
  | O => None
  | S _ => Some (Z.of_nat n)
  end.

Section Analysed.

Context {text : TextPrims}.
Variable cv : CountVectorizer.t.

Definition dfCountsOf (corpus : list string) (d : gmap string Z) : gmap string Z :=
  fold_left (fun df doc => CountVectorizer.countDoc df (CountVectorizer.analyze cv doc))
            corpus d.

(** Terms of the specification before sorting. *)
Definition keptTerms (corpus : list string) : list string :=
  remove_dups
    (List.filter
       (fun term => bool_decide (CountVectorizer.MinDF cv
                                 <= Z.of_nat (CountVectorizer.docFreq cv corpus term))%Z)
       (concat (map (CountVectorizer.analyze cv) corpus))).

(** The loop of [Fit] that collects the terms. *)
Definition collectTerms (entries : list (string * Z)) (acc : list string) : list string :=
  fold_left (fun terms kv =>
               if (CountVectorizer.MinDF cv <=? snd kv)%Z then terms ++ [fst kv] else terms)
            entries acc.

End Analysed.

End VectorizerAux.

(** ** Logistic regression *)

Module LogRegAux.

Import Loops Vectorizer Classifier.
Local Open Scope R_scope.

(** The loop of [Dot], by recursion on the entries. *)
Fixpoint dotEntries (inds : list nat) (vals dense : list R) (sum : R) : R :=
  match inds, vals with
  | idx :: inds', v :: vals' =>
      dotEntries inds' vals' dense
        (if (idx <? length dense)%nat then sum + v * at1 dense idx else sum)
  | _, _ => sum
  end.

Section Objective.

Variable x : list SparseVector.
Variable y : list nat.
Variable params : list R.
Variables K D : nat.
Variable c : R.

Definition xAt (j : nat) : SparseVector := nth j x (NewSparseVector O).

(** The probabilities the code computes for example [j]. *)
Definition probsOf (j : nat) : list R := softmax (exampleLogits (xAt j) params K D).

Definition entryStep (xj : SparseVector) (offset : nat) (diff : R)
    (grad : list R) (idx : nat) : list R :=
  match indexOf idx (Indices xj) with
  | Some vi => addAt grad (offset + idx) (diff * at1 (Values xj) vi)
  | None => grad
  end.

(** What the updates for class [k] add at the slot [i'] of class [k']. *)
Definition classEffect (xj : SparseVector) (diff : R) (k k' i' : nat) : R :=
  if (k' =? k)%nat
  then (if (i' <? D)%nat then diff * component xj i' else diff)
  else 0.

Definition dataStep (lg : R * list R) (j : nat) : R * list R :=
  let xj := nth j x (NewSparseVector O) in
  let yj := nth j y O in
  let probs := softmax (exampleLogits xj params K D) in
  let loss :=
    if Rgt_dec (at1 probs yj) 0 then fst lg - ln (at1 probs yj) else fst lg + 100 in
  (loss, fold_left (exampleGradClass xj yj probs D) (seq 0 K) (snd lg)).

(** The contribution of example [j] to the slot [i'] of class [k']. *)
Definition exampleTerm (k' i' j : nat) : R :=
  let diff := softmaxOf K (classScore params D (xAt j)) k' - indicatorOf k' (nth j y O) in
  if (i' <? D)%nat then diff * component (xAt j) i' else diff.

Definition regEntry (k : nat) (lg : R * list R) (i : nat) : R * list R :=
  let offset := (k * (D + 1))%nat in
  (fst lg + 1 / 2 * (1 / c) * at1 params (offset + i) * at1 params (offset + i),
   addAt (snd lg) (offset + i) (1 / c * at1 params (offset + i))).

End Objective.

End LogRegAux.

(** ** Text utilities *)

Module TextAux.

Import Textutil.
Local Open Scope string_scope.

(** A text is in normal form when it holds no line feed or carriage return
    and no two adjacent whitespace bytes; [afterSpace] tells whether the
    byte before the text is whitespace. *)
Fixpoint normalised (s : string) (afterSpace : bool) : bool :=
  match s with
  | EmptyString => true
  | String c s' =>
      negb (isNewline c) && negb (afterSpace && isSpace c) && normalised s' (isSpace c)
  end.

(** The bytes of a text that are not whitespace, in order. *)
Fixpoint inkOf (s : string) : list Ascii.ascii :=
  match s with
  | EmptyString => []
  | String c s' => if isSpace c then inkOf s' else c :: inkOf s'
  end.

Fixpoint noNewlines (s : string) : bool :=
  match s with
  | EmptyString => true
  | String c s' => negb (isNewline c) && noNewlines s'
  end.

(** A whitespace byte the scan holds back is whitespace, and after the
    first replacement it is no line feed or carriage return. *)
Definition heldSpace (run : spaceRun) : Prop :=
  match run with
  | OneSpace w => isSpace w = true
  | _ => True
  end.

Definition heldNoNewline (run : spaceRun) : Prop :=
  match run with
  | OneSpace w => isNewline w = false
  | _ => True
  end.

(** Every two adjacent tokens, joined by a space. *)
Fixpoint adjacentPairs (tokens : list string) : list string :=
  match tokens with
  | a :: (b :: _) as rest => (a +:+ " " +:+ b) :: adjacentPairs rest
  | _ => []
  end.

End TextAux.

(** ** Sparse vectors *)

Module SparseAux.

Import Loops Vectorizer Classifier.
Local Open Scope R_scope.

(** The loop of [ToDense], by recursion on the entries. *)
Fixpoint denseEntries (dim : nat) (inds : list nat) (vals dense : list R) : list R :=
  match inds, vals with
  | idx :: inds', v :: vals' =>
      denseEntries dim inds' vals'
        (if (idx <? dim)%nat then <[idx := v]> dense else dense)
  | _, _ => dense
  end.

(** Two vectors side by side: what one more round of the loop of
    [ConcatSparse] makes of the vector built so far. *)
Definition appendSparse (a b : SparseVector) : SparseVector :=
  mkSparse (Indices a ++ map (fun idx => (idx + Dim a)%nat) (Indices b))
           (Values a ++ Values b) (Dim a + Dim b).

(** One round of the loop of [ConcatSparse]. *)
Definition concatStep (acc : list nat * list R * nat) (v : SparseVector)
    : list nat * list R * nat :=
  let '(inds, vals, offset) := acc in
  ((inds ++ map (fun idx => (idx + offset)%nat) (Indices v))%list,
   (vals ++ tabulate (length (Indices v)) (at1 (Values v)))%list,
   (offset + Dim v)%nat).

End SparseAux.

(** ** Fitting and transforming *)

Module FitAux.

Import Loops GoMap Textutil Vectorizer.
Local Open Scope R_scope.

(** One step of the inner loop of [DictVectorizer.Fit]. *)
Definition keyStep (fs : gmap string bool) (kv : string * Any) : gmap string bool :=
  <[DictVectorizer.featureKey (fst kv) (snd kv) := true]> fs.

(** The feature set [DictVectorizer.Fit] collects, from the set [fs]. *)
Definition featureSetOf {order : RangeOrder} (data : list (gmap string Any))
    (fs : gmap string bool) : gmap string bool :=
  fold_left (fun fs d => fold_left keyStep (rangeOf d) fs) data fs.

(** A derived key of a feature map of the data. *)
Definition derivedKey (data : list (gmap string Any)) (key : string) : Prop :=
  exists d k v, d ∈ data /\ d !! k = Some v /\ DictVectorizer.featureKey k v = key.

(** One step of the counting loop of [CountVectorizer.Transform]. *)
Definition tallyStep (voc : gmap string nat) (counts : gmap nat R) (f : string)
    : gmap nat R :=
  match voc !! f with
  | Some idx => <[idx := default 0 (counts !! idx) + 1]> counts
  | None => counts
  end.

(** How many of the features are terms of column [idx]. *)
Definition hits (voc : gmap string nat) (features : list string) (idx : nat) : nat :=
  length (List.filter (fun f => bool_decide (voc !! f = Some idx)) features).

(** How many times a term occurs among the features. *)
Definition occurrences (term : string) (features : list string) : nat :=
  length (List.filter (fun f => bool_decide (f = term)) features).

(** A count held in the map of [Transform]: absent when zero. *)
Definition heldTally (n : nat) : option R :=
  match n with
  | O => None
  | S _ => Some (INR n)
  end.

(** The loop of [TfidfVectorizer.Fit] over the indices of one document. *)
Definition dfStep (df : list R) (idx : nat) : list R := <[idx := at1 df idx + 1]> df.

(** The loop of [TfidfVectorizer.Transform] that applies the IDF weights. *)
Definition weightStep (inds : list nat) (idf : list R) (vals : list R) (i : nat) : list R :=
  let idx := nth i inds O in
  if (idx <? length idf)%nat then <[i := at1 vals i * at1 idf idx]> vals else vals.

End FitAux.

(** ** Alphabets and attributes *)

Module CrfAux.

Import Loops GoMap Vectorizer Crf.
Local Open Scope string_scope.

(** The alphabet after adding the strings of a list, in order. *)
Definition addAll (l : list string) (a : Alphabet) : Alphabet :=
  fold_left (fun a s => fst (Add a s)) l a.

(** The two tables of an alphabet agree: a string has id [id] exactly when
    it is the string at position [id]. *)
Definition consistent (a : Alphabet) : Prop :=
  forall s id, ToID a !! s = Some id <-> ToStr a !! id = Some s.

(** The attribute and value a feature gives rise to, by the conversion
    rules of [FeaturesToAttributes]; a false boolean and an empty list give
    rise to none. *)
Definition produces (key : string) (val : Any) (attr : string) (v : R) : Prop :=
  match val with
  | AString s => attr = key +:+ "=" +:+ s /\ v = 1%R
  | AStrings items => (exists item, item ∈ items /\ attr = key +:+ ":" +:+ item) /\ v = 1%R
  | ABool b => b = true /\ attr = key /\ v = 1%R
  | AInt z => attr = key /\ v = IZR z
  | AFloat r => attr = key /\ v = r
  | AInt64 _ => attr = key /\ v = 1%R
  | AOther => attr = key /\ v = 1%R
  end.

(** One step of the loop of [FeaturesToAttributes]. *)
Definition attributeStep (attrs : gmap string R) (kv : string * Any) : gmap string R :=
  let key := fst kv in
  match snd kv with
  | AString v => <[key +:+ "=" +:+ v := 1%R]> attrs
  | AStrings items =>
      fold_left (fun (attrs : gmap string R) item => <[key +:+ ":" +:+ item := 1%R]> attrs)
                items attrs
  | ABool b => if b then <[key := 1%R]> attrs else attrs
  | AInt z => <[key := IZR z]> attrs
  | AFloat r => <[key := r]> attrs
  | _ => <[key := 1%R]> attrs
  end.

End CrfAux.

(** ** Scores of a model *)

Module ScoreAux.

Import Loops GoMap Vectorizer Crf.
Local Open Scope R_scope.
Local Open Scope string_scope.

(** What one attribute of a position adds to the score of label [y]: its
    value times the weight of its state feature, and nothing when the
    attribute is not in the alphabet or the weight index is out of range. *)
Definition attrScore (m : Model) (y : nat) (kv : string * R) : R :=
  match ToID (Attributes m) !! fst kv with
  | Some a => at1 (Weights m) (StateFeatureIndex m a y) * snd kv
  | None => 0
  end.

(** One step of the loop of [ComputeStateScores] over the attributes. *)
Definition scoreStep (m : Model) (row : list R) (kv : string * R) : list R :=
  let attrID := Get (Attributes m) (fst kv) in
  if (attrID <? 0)%Z then row else scoreAttribute m (Z.to_nat attrID) (snd kv) row.

(** One step of the loop of [PredictMarginals] over the labels. *)
Definition marginalStep (names : list string) (probs : nat -> R)
    (result : gmap string R) (y : nat) : gmap string R :=
  if (y <? length names)%nat
  then <[nth y names EmptyString := probs y]> result
  else result.

(** The model of the package's serialisation test: labels A and B, the
    attribute bias, eight weights. *)
Definition testModel : Model :=
  mkModel (mkAlphabet (<["B" := 1%nat]> (<["A" := O]> ∅)) ["A"; "B"])
          (mkAlphabet (<["bias" := O]> ∅) ["bias"])
          [1; -1/2; 3/10; 1/10; 2/10; -1/10; 0; 4/10] 2.

Definition testFeatures : list (gmap string R) :=
  [ {[ "bias" := 1 ]}; {[ "bias" := 1 ]} ].

End ScoreAux.

(** ** The L-BFGS memory along a run of updates *)

Module MemoryAux.

Import Loops Crf.
Local Open Scope R_scope.

(** Whether [update] stores a pair: only when [s.y > 0]. *)
Definition stored (p : list R * list R) : bool :=
  if Rle_dec (dot (fst p) (snd p)) 0 then false else true.

(** The memory after [update] has been called on each pair in turn. *)
Definition updates (l : lbfgs) (pairs : list (list R * list R)) : lbfgs :=
  fold_left (fun l p => lbfgsUpdate l (fst p) (snd p)) pairs l.

(** What the memory holds once the pairs [kept] have been stored, for
    vectors of [n] entries and [m] slots. *)
Record holds (n : nat) (m : Z) (kept : list (list R * list R)) (l : lbfgs) : Prop := {
  holds_n : lb_n l = n;
  holds_m : lb_m l = m;
  holds_s : length (lb_s l) = Z.to_nat m;
  holds_y : length (lb_y l) = Z.to_nat m;
  holds_rho : length (lb_rho l) = Z.to_nat m;
  holds_k : lb_k l = Z.of_nat (length kept);
  holds_size : lb_size l = Z.min (Z.of_nat (length kept)) m;
  holds_slot : forall i, (i < length kept)%nat ->
      (Z.of_nat (length kept) - m <= Z.of_nat i)%Z ->
      let p := nth i kept ([], []) in
      let idx := Z.to_nat (Z.of_nat i mod m) in
      nth idx (lb_s l) [] = tabulate n (at1 (fst p)) /\
      nth idx (lb_y l) [] = tabulate n (at1 (snd p)) /\
      at1 (lb_rho l) idx = 1 / dot (fst p) (snd p)
}.

End MemoryAux.

(** ** Training sequences *)

Module TrainAux.

Import Loops GoMap Crf.
Local Open Scope R_scope.
Local Open Scope string_scope.

(** A label for every position: [Train] reads [seq.Labels[t]] for every
    [t < len(seq.Features)]. *)
Definition labelled (sq : TrainingSequence) : Prop :=
  (length (Features sq) <= length (SeqLabels sq))%nat.

(** The attribute names of a sequence, in the order the loops of
    [BuildAttributeAlphabet] meet them. *)
Definition attributeNames {order : RangeOrder} (sq : TrainingSequence) : list string :=
  concat (map (fun feats : gmap string R => map fst (rangeOf feats)) (Features sq)).

(** The condition under which a coordinate of the pseudo-gradient is
    zero: the L1-regularised objective cannot be lowered along it. *)
Definition stationaryAt (c1 w g : R) : Prop :=
  (w > 0 /\ g + c1 = 0) \/ (w < 0 /\ g - c1 = 0) \/ (w = 0 /\ - c1 <= g <= c1).

Definition twoTokens : list TrainingSequence :=
  [ mkTrainingSequence [ {[ "bias" := 1 ]}; {[ "bias" := 1 ]} ] ["A"; "B"] 0 ].

End TrainAux.

(** ** The classifier at run time *)

Module ClassifyAux.

Import Loops GoMap Textutil Vectorizer Classifier.
Local Open Scope R_scope.
Local Open Scope string_scope.

(** Whether a serialised pipeline carries the vectorizer of its type. *)
Definition hasVectorizer (p : SerializedPipeline) : bool :=
  if String.eqb (SpVecType p) "dict" then bool_decide (is_Some (DictVec p))
  else if String.eqb (SpVecType p) "count" then bool_decide (is_Some (CountVec p))
  else if String.eqb (SpVecType p) "tfidf" then bool_decide (is_Some (TfidfVec p))
  else true.

(** The dimension [InitRuntime] records for a pipeline: the vocabulary size
    of the vectorizer of its type. *)
Definition pipelineDim (p : SerializedPipeline) : nat :=
  if String.eqb (SpVecType p) "dict"
  then from_option DictVectorizer.VocabSize O (DictVec p)
  else if String.eqb (SpVecType p) "count"
  then from_option CountVectorizer.VocabSize O (CountVec p)
  else if String.eqb (SpVecType p) "tfidf"
  then from_option TfidfVectorizer.VocabSize O (TfidfVec p)
  else O.

(** The logit of class [c]: [features.Dot(Coef[c]) + Intercept[c]]. *)
Definition logitOf (m : FormTypeModel) (features : SparseVector) (c : nat) : R :=
  Dot features (nth c (Coef m) []) + at1 (Intercept m) c.

(** One step of the loop of [TrainFormType] that collects the classes. *)
Definition classStep (st : gmap string nat * list string) (l : string)
    : gmap string nat * list string :=
  match fst st !! l with
  | Some _ => st
  | None => (<[l := length (snd st)]> (fst st), (snd st ++ [l])%list)
  end.

(** The loss [logRegLineSearch] computes for a trial step. *)
Definition lossAt (x : list SparseVector) (y : list nat) (params dir : list R)
    (numClasses totalDim : nat) (c : R) (step : R) : R :=
  fst (logRegObjective x y
         (tabulate (length params) (fun i => at1 params i + step * at1 dir i))
         numClasses totalDim c).

(** One step of the loop of [Classify] over the probabilities. *)
Definition bestStep (best : string * R) (kv : string * R) : string * R :=
  if Rgt_dec (snd kv) (snd best) then kv else best.

(** A two-class model whose nine pipelines are dictionary vectorizers with
    an empty vocabulary, with its run-time state. *)
Definition emptyPipeline : SerializedPipeline :=
  mkSerialized "form elements" "FormElements" "dict" (Some DictVectorizer.New) None None.

Definition twoClassModel : FormTypeModel :=
  mkFormTypeModel ["login"; "search"] [[]; []] [0; 1]
                  (replicate 9 emptyPipeline) (replicate 9 "dict") (replicate 9 O).

Definition twoClassRuntime : RuntimeVecs :=
  mkRuntimeVecs (replicate 9 (Some DictVectorizer.New)) (replicate 9 None)
                (replicate 9 None).

End ClassifyAux.

(** ** A form-type training set *)

Module FormTrainAux.

Import Loops GoMap Textutil Vectorizer Classifier.
Local Open Scope string_scope.

(** Two forms, given by their text, and their types. *)
Definition twoForms : list string := ["login password"; "search query"].
Definition twoFormTypes : list string := ["login"; "search"].

End FormTrainAux.

(** ** Cross-validation folds *)

Module FoldAux.

Import Loops GoMap Dit.
Local Open Scope string_scope.

(** The set of groups, as the first loop of [groupKFold] builds it. *)
Definition uniqueOf (groups : list Z) : gmap Z bool :=
  fold_left (fun (u : gmap Z bool) g => <[g := true]> u) groups ∅.

(** The fold of every group: group number [i], in the order the set is
    ranged over, goes to fold [i % nFolds]. *)
Definition foldTable (sortedGroups : list Z) (nFolds : Z) : gmap Z Z :=
  fold_left (fun (gf : gmap Z Z) i =>
               <[nth i sortedGroups 0%Z := Z.rem (Z.of_nat i) nFolds]> gf)
            (seq 0 (length sortedGroups)) ∅.

Definition foldOf (table : gmap Z Z) (g : Z) : nat :=
  Z.to_nat (default 0%Z (table !! g)).

(** The last loop of [groupKFold]: index [i] is appended to its fold. *)
Definition assignStep (table : gmap Z Z) (groups : list Z)
    (folds : list (list nat)) (i : nat) : list (list nat) :=
  let fold := foldOf table (nth i groups 0%Z) in
  <[fold := (nth fold folds [] ++ [i])%list]> folds.

(** The indices of [0 .. n-1] that are in [idx], in increasing order. *)
Definition marked (n : nat) (idx : list nat) (isTest : bool) : list nat :=
  List.filter (fun i => Bool.eqb (bool_decide (i ∈ idx)) isTest) (seq 0 n).

(** One step of the loop of [filterByIndex]. *)
Definition keepStep {A : Type} (labels : list string) (testSet : list bool)
    (isTest : bool) (out : list A * list string) (entry : nat * A)
    : list A * list string :=
  let i := fst entry in
  if Bool.eqb (nth i testSet false) isTest
  then ((fst out ++ [snd entry])%list, (snd out ++ [nth i labels ""])%list)
  else out.

End FoldAux.

(** ** A store with one annotated form *)

Module StoreAux.

Import Loops GoMap Textutil Vectorizer Classifier Dit.
Local Open Scope string_scope.

(** The source of the form of an annotation, as training loads it. *)
Definition formSource (ann : FormAnnotation) : string :=
  "<form>" +:+ FormHTML ann +:+ "</form>".

Definition loginAnnotation : FormAnnotation :=
  mkFormAnnotation "<input name=user><input type=password name=pass>" "login"
                   ∅ ∅ true false.

Definition oneFormStore : @Collaborators textDom :=
  {| IterAnnotations := fun _ _ => inl [loginAnnotation];
     LoadForm := fun s : string => @Some (@Selection textDom) s;
     nilSelection := EmptyString : @Selection textDom;
     GetFieldsToAnnotate := fun _ => [];
     GetFormFeatures := fun _ _ _ => [];
     AttrName := fun s : @Selection textDom => s |}.

End StoreAux.

(** ** The scores of the trainer *)

Module ComposeAux.

Import Loops GoMap Crf.
Local Open Scope R_scope.

(** One step of the loop of [Train] that converts the attributes of a
    position: an attribute of the alphabet is kept with its id. *)
Definition internalStep (attributes : Alphabet) (fes : list featureEntry)
    (kv : string * R) : list featureEntry :=
  let attrID := Get attributes (fst kv) in
  if (0 <=? attrID)%Z
  then (fes ++ [mkFeatureEntry (Z.to_nat attrID) (snd kv)])%list
  else fes.

(** One step of the trainer's loop over the entries of a position:
    [stateScores[t][y] += w[attrID*L + y] * value] for every label. *)
Definition rowStep (w : list R) (L : nat) (row : list R) (fe : featureEntry) : list R :=
  tabulate L (fun y => at1 row y + at1 w (attrID fe * L + y) * value fe).

End ComposeAux.

(** * Facts about the loop combinators *)

Module LoopFacts.

Import Loops.
Local Open Scope R_scope.

Lemma fold_left_Rplus_acc (A : Type) (g : A -> R) (l : list A) (a : R) :
  fold_left (fun s i => s + g i) l a = a + Rsum (map g l).
Proof.
  revert a. induction l as [|x l IH]; intros a; simpl.
  - lra.
  - rewrite IH. lra.
Qed.

Lemma sumTo_Rsum n f : sumTo n f = Rsum (map f (seq 0 n)).
Proof. unfold sumTo. rewrite fold_left_Rplus_acc. lra. Qed.

Lemma Rsum_app l1 l2 : Rsum (l1 ++ l2) = Rsum l1 + Rsum l2.
Proof. induction l1 as [|x l1 IH]; simpl; [lra | rewrite IH; lra]. Qed.

Lemma sumTo_0 f : sumTo 0 f = 0.
Proof. reflexivity. Qed.

Lemma sumTo_S n f : sumTo (S n) f = sumTo n f + f n.
Proof.
  rewrite !sumTo_Rsum, seq_S, map_app, Rsum_app. simpl. lra.
Qed.

Lemma sumTo_ext n f g :
  (forall i, (i < n)%nat -> f i = g i) -> sumTo n f = sumTo n g.
Proof.
  induction n as [|n IH]; intros H; [reflexivity|].
  rewrite !sumTo_S, IH, (H n); auto with lia.
Qed.

Lemma sumTo_scale n f c : sumTo n (fun i => f i * c) = sumTo n f * c.
Proof.
  induction n as [|n IH]; [rewrite !sumTo_0; lra|].
  rewrite !sumTo_S, IH. lra.
Qed.

Lemma sumTo_scale_l n f c : sumTo n (fun i => c * f i) = c * sumTo n f.
Proof.
  induction n as [|n IH]; [rewrite !sumTo_0; lra|].
  rewrite !sumTo_S, IH. lra.
Qed.

Lemma sumTo_plus n f g :
  sumTo n (fun i => f i + g i) = sumTo n f + sumTo n g.
Proof.
  induction n as [|n IH]; [rewrite !sumTo_0; lra|].
  rewrite !sumTo_S, IH. lra.
Qed.

Lemma sumTo_zero n f : (forall i, (i < n)%nat -> f i = 0) -> sumTo n f = 0.
Proof.
  induction n as [|n IH]; intros H; [reflexivity|].
  rewrite sumTo_S, IH, (H n); auto with lia. lra.
Qed.

(** Exchange of two finite sums. *)
Lemma sumTo_swap n m (f : nat -> nat -> R) :
  sumTo n (fun i => sumTo m (fun j => f i j))
  = sumTo m (fun j => sumTo n (fun i => f i j)).
Proof.
  induction n as [|n IH].
  - rewrite sumTo_0. symmetry. apply sumTo_zero. intros; apply sumTo_0.
  - rewrite sumTo_S, IH, <- sumTo_plus. apply sumTo_ext.
    intros j _. now rewrite sumTo_S.
Qed.

Lemma sumTo_pos n f :
  (0 < n)%nat -> (forall i, (i < n)%nat -> 0 < f i) -> 0 < sumTo n f.
Proof.
  induction n as [|n IH]; intros Hn H; [lia|].
  rewrite sumTo_S. destruct n as [|n].
  - rewrite sumTo_0. specialize (H O ltac:(lia)). lra.
  - specialize (IH ltac:(lia) ltac:(intros; apply H; lia)).
    specialize (H (S n) ltac:(lia)). lra.
Qed.

Lemma sumTo_le n f g :
  (forall i, (i < n)%nat -> f i <= g i) -> sumTo n f <= sumTo n g.
Proof.
  induction n as [|n IH]; intros H; [rewrite !sumTo_0; lra|].
  rewrite !sumTo_S. specialize (H n ltac:(lia)) as Hn.
  specialize (IH ltac:(intros; apply H; lia)). lra.
Qed.

Lemma length_tabulate {A} n (f : nat -> A) : length (tabulate n f) = n.
Proof. unfold tabulate. now rewrite length_map, length_seq. Qed.

Lemma nth_tabulate {A} n (f : nat -> A) i d :
  (i < n)%nat -> nth i (tabulate n f) d = f i.
Proof.
  intros Hi. unfold tabulate.
  rewrite (nth_indep _ d (f O)) by (rewrite length_map, length_seq; lia).
  rewrite (map_nth f (seq 0 n) O i), seq_nth; auto.
Qed.

Lemma tabulate_ext {A} n (f g : nat -> A) :
  (forall i, (i < n)%nat -> f i = g i) -> tabulate n f = tabulate n g.
Proof.
  intros H. unfold tabulate. apply map_ext_in. intros i Hi.
  apply in_seq in Hi. apply H. lia.
Qed.

Lemma at1_tabulate n f i : (i < n)%nat -> at1 (tabulate n f) i = f i.
Proof. apply nth_tabulate. Qed.

Lemma at2_tabulate n m f i j :
  (i < n)%nat -> (j < m)%nat ->
  at2 (tabulate n (fun i => tabulate m (f i))) i j = f i j.
Proof.
  intros Hi Hj. unfold at2. rewrite nth_tabulate by auto.
  now apply nth_tabulate.
Qed.

Lemma at1_map_scale v c i : at1 (map (fun a => a * c) v) i = at1 v i * c.
Proof.
  unfold at1. destruct (Nat.lt_ge_cases i (length v)) as [Hi|Hi].
  - rewrite (nth_indep _ 0 (0 * c)) by (rewrite length_map; lia).
    apply (map_nth (fun a => a * c)).
  - rewrite !nth_overflow by (rewrite ?length_map; lia). lra.
Qed.

Lemma Rsum_flat_map {A} (g : A -> list R) (l : list A) :
  Rsum (flat_map g l) = Rsum (map (fun x => Rsum (g x)) l).
Proof.
  induction l as [|x l IH]; simpl; [reflexivity|].
  now rewrite Rsum_app, IH.
Qed.

Lemma Rsum_map_ext {A} (f g : A -> R) l :
  (forall x, In x l -> f x = g x) -> Rsum (map f l) = Rsum (map g l).
Proof.
  intros H. f_equal. apply map_ext_in. exact H.
Qed.

Lemma Rsum_map_plus {A} (f g : A -> R) l :
  Rsum (map (fun x => f x + g x) l) = Rsum (map f l) + Rsum (map g l).
Proof. induction l as [|x l IH]; simpl; [lra | rewrite IH; lra]. Qed.

Lemma Rsum_map_scale {A} (f : A -> R) c l :
  Rsum (map (fun x => f x * c) l) = Rsum (map f l) * c.
Proof. induction l as [|x l IH]; simpl; [lra | rewrite IH; lra]. Qed.

(** A sum over a list of sums over an index range, exchanged. *)
Lemma Rsum_sumTo_swap {A} (l : list A) n (f : A -> nat -> R) :
  Rsum (map (fun x => sumTo n (f x)) l)
  = sumTo n (fun i => Rsum (map (fun x => f x i) l)).
Proof.
  induction l as [|x l IH]; simpl.
  - symmetry. now apply sumTo_zero.
  - rewrite IH, <- sumTo_plus. reflexivity.
Qed.

End LoopFacts.

(** * Label paths and their scores *)

Module PathFacts.

Import Loops LoopFacts Crf.
Local Open Scope R_scope.

Section Paths.

Variables stateScores transScores : list (list R).
Variable L : nat.

Lemma allPaths_length n p : In p (allPaths n L) -> length p = n.
Proof.
  revert p. induction n as [|n IH]; intros p Hp; simpl in Hp.
  - destruct Hp as [<-|[]]. reflexivity.
  - apply in_flat_map in Hp. destruct Hp as (q & Hq & Hp).
    apply in_map_iff in Hp. destruct Hp as (y & <- & _).
    rewrite length_app, (IH q Hq). simpl. lia.
Qed.

Lemma pathScore_single y :
  pathScore stateScores transScores [y] = at2 stateScores 0 y.
Proof.
  unfold pathScore. simpl length. simpl Nat.sub.
  rewrite sumTo_S, !sumTo_0. simpl. lra.
Qed.

Lemma pathScore_snoc p yp y :
  pathScore stateScores transScores ((p ++ [yp]) ++ [y])
  = pathScore stateScores transScores (p ++ [yp])
    + at2 transScores yp y + at2 stateScores (S (length p)) y.
Proof.
  unfold pathScore. rewrite !length_app. simpl length.
  replace (length p + 1 + 1)%nat with (S (S (length p))) by lia.
  replace (length p + 1)%nat with (S (length p)) by lia.
  replace (S (S (length p)) - 1)%nat with (S (length p)) by lia.
  replace (S (length p) - 1)%nat with (length p) by lia.
  rewrite (sumTo_S (S (length p))), (sumTo_S (length p) (fun t => at2 transScores _ _)).
  set (q := p ++ [yp]).
  assert (Hq : length q = S (length p)) by (unfold q; rewrite length_app; simpl; lia).
  assert (Hlow : forall t, (t < S (length p))%nat -> nth t (q ++ [y]) O = nth t q O).
  { intros t Ht. apply app_nth1. lia. }
  assert (Hlast : nth (S (length p)) (q ++ [y]) O = y).
  { rewrite app_nth2 by lia. rewrite Hq, Nat.sub_diag. reflexivity. }
  assert (Hyp : nth (length p) q O = yp).
  { unfold q. rewrite app_nth2 by lia. rewrite Nat.sub_diag. reflexivity. }
  rewrite (sumTo_ext (S (length p)) _ (fun t => at2 stateScores t (nth t q O)))
    by (intros t Ht; rewrite Hlow; auto).
  rewrite (sumTo_ext (length p) _
             (fun t => at2 transScores (nth t q O) (nth (t + 1) q O)))
    by (intros t Ht; rewrite !Hlow; auto with lia).
  rewrite Hlast, Hlow, Hyp by lia.
  replace (length p + 1)%nat with (S (length p)) by lia.
  rewrite Hlast. lra.
Qed.


Lemma pathScore_snoc' q y k :
  length q = S k ->
  pathScore stateScores transScores (q ++ [y])
  = pathScore stateScores transScores q
    + at2 transScores (nth k q O) y + at2 stateScores (S k) y.
Proof.
  intros Hq. destruct (exists_last (l := q)) as (p & yp & ->).
  { intros ->. discriminate. }
  rewrite length_app in Hq. simpl in Hq.
  assert (Hk : length p = k) by lia. subst k.
  rewrite pathScore_snoc. rewrite app_nth2 by lia.
  now rewrite Nat.sub_diag.
Qed.

Lemma validPath_snoc n p y :
  validPath n L p -> (y < L)%nat -> validPath (S n) L (p ++ [y]).
Proof.
  intros [Hlen Hall] Hy. split.
  - rewrite length_app, Hlen. simpl. lia.
  - apply Forall_app. split; [exact Hall | now constructor].
Qed.

Lemma validPath_unsnoc n q :
  validPath (S n) L q ->
  exists p y, q = p ++ [y] /\ validPath n L p /\ (y < L)%nat.
Proof.
  intros [Hlen Hall]. destruct (exists_last (l := q)) as (p & y & ->).
  { intros ->. discriminate. }
  apply Forall_app in Hall. destruct Hall as [Hp Hy].
  exists p, y. rewrite length_app in Hlen. simpl in Hlen.
  repeat split; auto with lia. now inversion Hy.
Qed.

Lemma allPaths_valid n p : In p (allPaths n L) <-> validPath n L p.
Proof.
  revert p. induction n as [|n IH]; intros p; simpl.
  - split.
    + intros [<-|[]]. split; [reflexivity | constructor].
    + intros [Hlen _]. left. symmetry. now apply length_zero_iff_nil.
  - rewrite in_flat_map. split.
    + intros (q & Hq & Hp). apply in_map_iff in Hp.
      destruct Hp as (y & <- & Hy). apply in_seq in Hy.
      apply validPath_snoc; [now apply IH | lia].
    + intros Hv. destruct (validPath_unsnoc n p Hv) as (q & y & -> & Hq & Hy).
      exists q. split; [now apply IH|].
      apply in_map_iff. exists y. split; [reflexivity|].
      apply in_seq. lia.
Qed.

End Paths.

End PathFacts.

(** * Forward-backward: partition function and marginals *)

Module ForwardBackwardFacts.

Import Loops LoopFacts Crf PathFacts.
Local Open Scope R_scope.

Section Run.

Variables stateScores transScores : list (list R).
Variables T1 L : nat.
Hypothesis Hshape : wellShaped stateScores transScores (S T1) L.
Hypothesis HL : (1 <= L)%nat.

Local Abbreviation T := (S T1).

Local Abbreviation expState := (ForwardBackwardAux.expState stateScores T1 L).
Local Abbreviation expTrans := (ForwardBackwardAux.expTrans transScores L).
Local Abbreviation eS := (ForwardBackwardAux.eS stateScores).
Local Abbreviation eT := (ForwardBackwardAux.eT transScores).
Local Abbreviation fwdWeight := (ForwardBackwardAux.fwdWeight stateScores transScores L).
Local Abbreviation fwdTotal := (ForwardBackwardAux.fwdTotal stateScores transScores L).
Local Abbreviation fwdAt := (ForwardBackwardAux.fwdAt stateScores transScores T1 L).
Local Abbreviation fbAlpha := (ForwardBackwardAux.fbAlpha stateScores transScores T1 L).
Local Abbreviation fbScale := (ForwardBackwardAux.fbScale stateScores transScores T1 L).
Local Abbreviation endWeight := (ForwardBackwardAux.endWeight stateScores transScores L).
Local Abbreviation bwdStep := (ForwardBackwardAux.bwdStep stateScores transScores T1 L).
Local Abbreviation betaLast := (ForwardBackwardAux.betaLast stateScores transScores T1 L).
Local Abbreviation bwdRows := (ForwardBackwardAux.bwdRows stateScores transScores T1 L).

Lemma expState_at t y : (t < T)%nat -> (y < L)%nat -> at2 expState t y = eS t y.
Proof. intros. unfold expState, expScores. now rewrite at2_tabulate. Qed.

Lemma expTrans_at i j : (i < L)%nat -> (j < L)%nat -> at2 expTrans i j = eT i j.
Proof. intros. unfold expTrans, expScores. now rewrite at2_tabulate. Qed.

Lemma fwdWeight_pos t y : 0 < fwdWeight t y.
Proof.
  revert y. induction t as [|t IH]; intros y; simpl.
  - apply exp_pos.
  - apply Rmult_lt_0_compat; [|apply exp_pos].
    apply sumTo_pos; [lia|]. intros i _.
    apply Rmult_lt_0_compat; [apply IH | apply exp_pos].
Qed.

Lemma fwdTotal_pos t : 0 < fwdTotal t.
Proof. apply sumTo_pos; [lia|]. intros; apply fwdWeight_pos. Qed.

Lemma forwardLoop_fwdAt s n :
  forwardLoop expState expTrans L (seq (S s) n) (fst (fwdAt s))
  = map fwdAt (seq (S s) n).
Proof.
  revert s. induction n as [|n IH]; intros s; simpl; [reflexivity|].
  f_equal. apply (IH (S s)).
Qed.

(** Normalised forward row and scale factor at each position. *)
Lemma fwdAt_spec t :
  (t < T)%nat ->
  fst (fwdAt t) = tabulate L (fun y => fwdWeight t y / fwdTotal t) /\
  snd (fwdAt t) = match t with
                  | O => 1 / fwdTotal O
                  | S t' => fwdTotal t' / fwdTotal t
                  end.
Proof.
  induction t as [|t IH]; intros Ht.
  - simpl fwdAt. unfold forwardInit. simpl.
    assert (Hsum : sumTo L (at1 (tabulate L (fun y => at2 expState 0 y))) = fwdTotal O).
    { apply sumTo_ext. intros i Hi. rewrite at1_tabulate by auto.
      apply expState_at; [lia | auto]. }
    rewrite Hsum. split; [|reflexivity].
    unfold tabulate. rewrite map_map. apply map_ext_in. intros y Hy.
    apply in_seq in Hy. rewrite expState_at by lia.
    simpl. unfold Rdiv. lra.
  - destruct (IH ltac:(lia)) as [Hrow _].
    pose proof (fwdTotal_pos t) as Hp. pose proof (fwdTotal_pos (S t)) as Hp'.
    simpl fwdAt. unfold forwardStep. rewrite Hrow.
    set (raw := tabulate L _).
    assert (Hraw : forall y, (y < L)%nat ->
              at1 raw y = fwdWeight (S t) y / fwdTotal t).
    { intros y Hy. unfold raw. rewrite at1_tabulate by auto.
      rewrite expState_at by auto. simpl fwdWeight.
      rewrite (sumTo_ext L _ (fun yp => (fwdWeight t yp * eT yp y) * / fwdTotal t)).
      - rewrite sumTo_scale. unfold Rdiv. lra.
      - intros yp Hyp. rewrite at1_tabulate, expTrans_at by auto.
        unfold Rdiv. lra. }
    assert (Hsum : sumTo L (at1 raw) = fwdTotal (S t) / fwdTotal t).
    { rewrite (sumTo_ext L (at1 raw) (fun y => fwdWeight (S t) y * / fwdTotal t)).
      - rewrite sumTo_scale. reflexivity.
      - intros y Hy. now rewrite Hraw. }
    assert (Hne : sumTo L (at1 raw) <> 0).
    { rewrite Hsum. apply Rgt_not_eq. apply Rdiv_lt_0_compat; lra. }
    destruct (Req_dec_T (sumTo L (at1 raw)) 0) as [E|_]; [contradiction|].
    simpl. rewrite Hsum. split.
    + apply nth_ext with (d := 0) (d' := 0).
      * unfold raw. now rewrite length_map, !length_tabulate.
      * intros y Hy. rewrite length_map in Hy. unfold raw in Hy.
        rewrite length_tabulate in Hy.
        change (at1 (map (fun a => a * (1 / (fwdTotal (S t) / fwdTotal t))) raw) y
                = at1 (tabulate L (fun y => fwdWeight (S t) y / fwdTotal (S t))) y).
        rewrite at1_map_scale, Hraw, at1_tabulate by auto.
        field. lra.
    + field. lra.
Qed.

Lemma fwdAt_alpha t y :
  (t < T)%nat -> (y < L)%nat ->
  at1 (fst (fwdAt t)) y = fwdWeight t y / fwdTotal t.
Proof.
  intros Ht Hy. destruct (fwdAt_spec t Ht) as [-> _].
  now rewrite at1_tabulate.
Qed.

Lemma fwdAt_scale_pos t : (t < T)%nat -> 0 < snd (fwdAt t).
Proof.
  intros Ht. destruct (fwdAt_spec t Ht) as [_ ->].
  destruct t as [|t]; apply Rdiv_lt_0_compat;
    try lra; apply fwdTotal_pos.
Qed.

Lemma fwdAt_normalised t :
  (t < T)%nat -> sumTo L (at1 (fst (fwdAt t))) = 1.
Proof.
  intros Ht. pose proof (fwdTotal_pos t).
  rewrite (sumTo_ext L _ (fun y => fwdWeight t y * / fwdTotal t))
    by (intros; rewrite fwdAt_alpha; auto).
  rewrite sumTo_scale. unfold fwdTotal in *. field. lra.
Qed.

(** Telescoping of the logarithms of the scale factors. *)
Lemma log_scale_telescope n :
  (n < T)%nat ->
  Rsum (map (fun t => ln (snd (fwdAt t))) (seq 0 (S n))) = - ln (fwdTotal n).
Proof.
  induction n as [|n IH]; intros Hn.
  - cbn [seq map Rsum].
    destruct (fwdAt_spec O Hn) as [_ ->].
    unfold Rdiv. rewrite Rmult_1_l, ln_Rinv by apply fwdTotal_pos. lra.
  - rewrite seq_S, map_app, Rsum_app, IH by lia. cbn [Nat.add map Rsum].
    destruct (fwdAt_spec (S n) Hn) as [_ ->].
    pose proof (fwdTotal_pos n). pose proof (fwdTotal_pos (S n)).
    unfold Rdiv. rewrite ln_mult, ln_Rinv; try lra.
    now apply Rinv_0_lt_compat.
Qed.

Lemma fold_left_minus_ln (l : list R) (z : R) :
  fold_left (fun z s => z - ln s) l z = z - Rsum (map ln l).
Proof.
  revert z. induction l as [|s l IH]; intros z; simpl; [lra|].
  rewrite IH. lra.
Qed.

Lemma ForwardBackward_Alpha :
  Alpha (ForwardBackward stateScores transScores) = fbAlpha.
Proof.
  destruct Hshape as (Hlen & Hrows & _).
  unfold ForwardBackward. rewrite Hlen.
  assert (HL0 : length (nth 0 stateScores []) = L).
  { destruct stateScores as [|r rs]; [discriminate|].
    now inversion Hrows. }
  rewrite HL0. simpl Alpha.
  fold expState. fold expTrans.
  change (forwardInit expState L) with (fwdAt O).
  rewrite forwardLoop_fwdAt, map_map. reflexivity.
Qed.

Lemma ForwardBackward_Scale :
  Scale (ForwardBackward stateScores transScores) = fbScale.
Proof.
  destruct Hshape as (Hlen & Hrows & _).
  unfold ForwardBackward. rewrite Hlen.
  assert (HL0 : length (nth 0 stateScores []) = L).
  { destruct stateScores as [|r rs]; [discriminate|].
    now inversion Hrows. }
  rewrite HL0. simpl Scale.
  fold expState. fold expTrans.
  change (forwardInit expState L) with (fwdAt O).
  rewrite forwardLoop_fwdAt, map_map. reflexivity.
Qed.

Lemma ForwardBackward_LogZ :
  LogZ (ForwardBackward stateScores transScores) = ln (fwdTotal T1).
Proof.
  assert (H : LogZ (ForwardBackward stateScores transScores)
              = fold_left (fun z s => z - ln s)
                  (Scale (ForwardBackward stateScores transScores)) 0).
  { unfold ForwardBackward. destruct Hshape as (Hlen & _). now rewrite Hlen. }
  rewrite H, ForwardBackward_Scale, fold_left_minus_ln.
  unfold fbScale. rewrite map_map.
  rewrite log_scale_telescope by lia. lra.
Qed.

(** *** Brute-force enumeration of the paths *)

Lemma endWeight_fwdWeight n y : endWeight n y = fwdWeight n y.
Proof.
  revert y. induction n as [|n IH]; intros y.
  - unfold endWeight. simpl. rewrite pathScore_single. unfold eS. lra.
  - unfold endWeight. cbn [allPaths].
    rewrite flat_map_concat_map, concat_map, map_map, <- flat_map_concat_map.
    rewrite Rsum_flat_map.
    rewrite (Rsum_map_ext _
      (fun p => sumTo L (fun yp =>
         exp (pathScore stateScores transScores (p ++ [yp])) * (eT yp y * eS (S n) y)))).
    + rewrite Rsum_sumTo_swap. cbn [fwdWeight].
      rewrite <- sumTo_scale. apply sumTo_ext. intros yp Hyp.
      rewrite Rsum_map_scale. fold (endWeight n yp). rewrite IH. lra.
    + intros p Hp. rewrite map_map, sumTo_Rsum.
      apply Rsum_map_ext. intros yp _.
      rewrite pathScore_snoc, (allPaths_length L n p Hp), !exp_plus.
      unfold eT, eS. lra.
Qed.

Lemma bruteForceZ_fwdTotal n :
  bruteForceZ stateScores transScores (S n) L = fwdTotal n.
Proof.
  unfold bruteForceZ. rewrite fold_left_Rplus_acc, Rplus_0_l.
  cbn [allPaths]. rewrite flat_map_concat_map, concat_map, map_map,
    <- flat_map_concat_map, Rsum_flat_map.
  rewrite (Rsum_map_ext _
    (fun p => sumTo L (fun y => exp (pathScore stateScores transScores (p ++ [y]))))).
  - rewrite Rsum_sumTo_swap. unfold fwdTotal. apply sumTo_ext.
    intros y _. apply endWeight_fwdWeight.
  - intros p _. now rewrite map_map, sumTo_Rsum.
Qed.

Lemma bruteForceZ_pos n : 0 < bruteForceZ stateScores transScores (S n) L.
Proof. rewrite bruteForceZ_fwdTotal. apply fwdTotal_pos. Qed.

(** *** Backward pass and marginals *)

Lemma bwdRows_nth k n i :
  (i <= n)%nat -> nth i (bwdRows k n) [] = hd [] (bwdRows (k + i) (n - i)).
Proof.
  revert k i. induction n as [|n IH]; intros k i Hi.
  - assert (i = O) by lia. subst. rewrite Nat.add_0_r. reflexivity.
  - destruct i as [|i].
    + rewrite Nat.add_0_r, Nat.sub_0_r. unfold bwdRows. simpl. reflexivity.
    + unfold bwdRows. cbn [seq fold_right]. unfold bwdStep at 1, backwardStep.
      cbn [nth]. fold bwdStep. fold (bwdRows (S k) n).
      rewrite IH by lia. replace (k + S i)%nat with (S k + i)%nat by lia.
      reflexivity.
Qed.

Lemma fbScale_at t : (t < T)%nat -> at1 fbScale t = snd (fwdAt t).
Proof.
  intros Ht. unfold at1, fbScale.
  rewrite (nth_indep _ 0 (snd (fwdAt O))) by (rewrite length_map, length_seq; lia).
  rewrite (map_nth (fun t => snd (fwdAt t)) (seq 0 (S T1)) O t), seq_nth; auto.
Qed.

Lemma fbAlpha_at t y : (t < T)%nat -> at2 fbAlpha t y = at1 (fst (fwdAt t)) y.
Proof.
  intros Ht. unfold at2, at1, fbAlpha.
  rewrite (nth_indep _ [] (fst (fwdAt O))) by (rewrite length_map, length_seq; lia).
  rewrite (map_nth (fun t => fst (fwdAt t)) (seq 0 (S T1)) O t), seq_nth; auto.
Qed.

(** The marginals of one position sum to one: by induction from the last
    position backwards. *)
Lemma marginal_sum_from n :
  forall k, (k + n = T1)%nat ->
  sumTo L (fun y => at1 (fst (fwdAt k)) y * at1 (hd [] (bwdRows k n)) y
                    / snd (fwdAt k)) = 1.
Proof.
  induction n as [|n IH]; intros k Hk.
  - assert (k = T1) by lia. subst k.
    unfold bwdRows. cbn [seq fold_right hd]. unfold betaLast.
    pose proof (fwdAt_scale_pos T1 ltac:(lia)) as Hs.
    rewrite <- (fwdAt_normalised T1) by lia.
    apply sumTo_ext. intros y Hy.
    rewrite at1_tabulate, fbScale_at by (auto; lia).
    field. lra.
  - assert (HkT : (k < T)%nat) by lia.
    assert (HkT' : (S k < T)%nat) by lia.
    pose proof (fwdAt_scale_pos k HkT) as Hs.
    pose proof (fwdAt_scale_pos (S k) HkT') as Hs'.
    pose proof (fwdTotal_pos k) as Hp. pose proof (fwdTotal_pos (S k)) as Hp'.
    rewrite <- (IH (S k)) by lia.
    unfold bwdRows at 1. cbn [seq fold_right]. fold (bwdRows (S k) n).
    unfold bwdStep at 1, backwardStep. cbn [hd].
    set (next := hd [] (bwdRows (S k) n)).
    rewrite (sumTo_ext L _
      (fun y => sumTo L (fun yn =>
         at1 (fst (fwdAt k)) y * eT y yn * eS (S k) yn * at1 next yn))).
    + rewrite sumTo_swap. apply sumTo_ext. intros yn Hyn.
      rewrite (sumTo_ext L _
        (fun y => (fwdWeight k y * eT y yn) * (/ fwdTotal k * eS (S k) yn * at1 next yn))).
      * rewrite sumTo_scale.
        rewrite (fwdAt_alpha (S k)) by auto.
        destruct (fwdAt_spec (S k) HkT') as [_ ->].
        cbn [fwdWeight]. field. split; lra.
      * intros y Hy. rewrite fwdAt_alpha by auto. unfold Rdiv. lra.
    + intros y Hy. rewrite at1_tabulate by auto.
      rewrite fbScale_at by auto.
      rewrite (sumTo_ext L
        (fun yn => at1 (fst (fwdAt k)) y * eT y yn * eS (S k) yn * at1 next yn)
        (fun yn => at1 (fst (fwdAt k)) y
                   * (at2 expTrans y yn * at2 expState (k + 1) yn * at1 next yn))).
      * rewrite sumTo_scale_l. field. lra.
      * intros yn Hyn. rewrite expTrans_at, expState_at by (auto; lia).
        replace (k + 1)%nat with (S k) by lia. lra.
Qed.

Lemma ForwardBackward_Beta :
  Beta (ForwardBackward stateScores transScores) = bwdRows O T1.
Proof.
  assert (H : Beta (ForwardBackward stateScores transScores)
      = fold_right (backwardStep expState expTrans L
                      (Scale (ForwardBackward stateScores transScores)))
          [tabulate L (fun _ => at1 (Scale (ForwardBackward stateScores transScores)) T1)]
          (seq 0 T1)).
  { destruct Hshape as (Hlen & Hrows & _).
    unfold ForwardBackward. rewrite Hlen.
    assert (HL0 : length (nth 0 stateScores []) = L).
    { destruct stateScores as [|r rs]; [discriminate|]. now inversion Hrows. }
    rewrite HL0. reflexivity. }
  rewrite H, ForwardBackward_Scale. reflexivity.
Qed.

Lemma ForwardBackward_Marginals t :
  (t < T)%nat ->
  nth t (Marginals (ForwardBackward stateScores transScores)) []
  = tabulate L (fun y =>
      at1 (fst (fwdAt t)) y * at1 (hd [] (bwdRows t (T1 - t))) y / snd (fwdAt t)).
Proof.
  intros Ht.
  assert (H : Marginals (ForwardBackward stateScores transScores)
      = tabulate T (fun t => tabulate L (fun y =>
          at2 (Alpha (ForwardBackward stateScores transScores)) t y
          * at2 (Beta (ForwardBackward stateScores transScores)) t y
          / at1 (Scale (ForwardBackward stateScores transScores)) t))).
  { destruct Hshape as (Hlen & Hrows & _).
    unfold ForwardBackward. rewrite Hlen.
    assert (HL0 : length (nth 0 stateScores []) = L).
    { destruct stateScores as [|r rs]; [discriminate|]. now inversion Hrows. }
    rewrite HL0. reflexivity. }
  rewrite H, nth_tabulate by auto.
  rewrite ForwardBackward_Alpha, ForwardBackward_Beta, ForwardBackward_Scale.
  apply tabulate_ext. intros y Hy.
  rewrite fbAlpha_at, fbScale_at by auto.
  unfold at2. rewrite bwdRows_nth by lia.
  reflexivity.
Qed.

Lemma marginals_sum_one t :
  (t < T)%nat ->
  sumTo L (at1 (nth t (Marginals (ForwardBackward stateScores transScores)) [])) = 1.
Proof.
  intros Ht. rewrite ForwardBackward_Marginals by auto.
  rewrite <- (marginal_sum_from (T1 - t) t) by lia.
  apply sumTo_ext. intros y Hy. now rewrite at1_tabulate.
Qed.

End Run.

Lemma wellShaped_pos_length stateScores transScores T L :
  wellShaped stateScores transScores T L -> (1 <= T)%nat ->
  exists T1, T = S T1.
Proof. intros _ HT. exists (pred T). lia. Qed.

(** The log-partition function of the scaled recursion is the logarithm of
    the brute-force sum, for every sequence length and label count. *)
Lemma logZ_brute_force_any stateScores transScores T L :
  wellShaped stateScores transScores T L -> (1 <= T)%nat -> (1 <= L)%nat ->
  LogZ (ForwardBackward stateScores transScores)
  = ln (bruteForceZ stateScores transScores T L).
Proof.
  intros Hs HT HL. destruct T as [|T1]; [lia|].
  rewrite (ForwardBackward_LogZ _ _ T1 L Hs HL).
  now rewrite bruteForceZ_fwdTotal.
Qed.


Lemma testScores_wellShaped : wellShaped testStateScores testTransScores 2 2.
Proof. repeat split; repeat constructor. Qed.




End ForwardBackwardFacts.

(** * Viterbi: optimality and tie-breaking *)

Module ViterbiFacts.

Import Loops LoopFacts Crf PathFacts.
Local Open Scope R_scope.

Lemma argmaxScan_S n f :
  argmaxScan (S n) f
  = if extGt (f n) (fst (argmaxScan n f)) then (f n, n) else argmaxScan n f.
Proof.
  unfold argmaxScan. rewrite seq_S, fold_left_app. reflexivity.
Qed.

(** The scan returns the first index at which the maximum is reached. *)
Lemma argmaxScan_first n (g : nat -> R) f :
  (1 <= n)%nat -> (forall y, (y < n)%nat -> f y = Fin (g y)) ->
  exists i, (i < n)%nat /\ argmaxScan n f = (Fin (g i), i) /\
            (forall j, (j < n)%nat -> g j <= g i) /\
            (forall j, (j < i)%nat -> g j < g i).
Proof.
  induction n as [|n IH]; intros Hn Hf; [lia|].
  destruct n as [|n].
  - exists O. rewrite argmaxScan_S. unfold argmaxScan at 1. simpl fst.
    rewrite (Hf O) by lia. simpl.
    split; [lia|]. split; [reflexivity|]. split.
    + intros j Hj. assert (j = O) by lia. subst. lra.
    + intros j Hj. lia.
  - destruct IH as (i & Hi & Hscan & Hmax & Hfirst); [lia | auto with lia |].
    rewrite argmaxScan_S, Hscan. simpl fst.
    rewrite (Hf (S n)) by lia. simpl.
    destruct (Rgt_dec (g (S n)) (g i)) as [Hgt|Hle].
    + exists (S n). split; [lia|]. split; [reflexivity|]. split.
      * intros j Hj. destruct (Nat.eq_dec j (S n)) as [->|Hne]; [lra|].
        specialize (Hmax j ltac:(lia)). lra.
      * intros j Hj. specialize (Hmax j ltac:(lia)). lra.
    + exists i. split; [lia|]. split; [reflexivity|]. split; [|exact Hfirst].
      intros j Hj. destruct (Nat.eq_dec j (S n)) as [->|Hne]; [lra|].
      apply Hmax. lia.
Qed.

Section Run.

Variables stateScores transScores : list (list R).
Variables T1 L : nat.
Hypothesis Hshape : wellShaped stateScores transScores (S T1) L.
Hypothesis HL : (1 <= L)%nat.

Local Abbreviation T := (S T1).

Local Abbreviation score := (pathScore stateScores transScores).
Local Abbreviation vitAt := (ViterbiAux.vitAt stateScores transScores L).
Local Abbreviation psiAt := (ViterbiAux.psiAt stateScores transScores L).
Local Abbreviation pathTo := (ViterbiAux.pathTo stateScores transScores L).
Local Abbreviation endsIn := (ViterbiAux.endsIn L).
Local Abbreviation rowInv := (ViterbiAux.rowInv stateScores transScores L).
Local Abbreviation vitPsi := (ViterbiAux.vitPsi stateScores transScores T1 L).
Local Abbreviation vitDelta := (ViterbiAux.vitDelta stateScores transScores T1 L).

Lemma viterbiLoop_vitAt s n :
  viterbiLoop stateScores transScores L (seq (S s) n) (fst (vitAt s))
  = map vitAt (seq (S s) n).
Proof.
  revert s. induction n as [|n IH]; intros s; simpl; [reflexivity|].
  f_equal. apply (IH (S s)).
Qed.

Lemma pathTo_length t y : length (pathTo t y) = S t.
Proof using Type.
  clear HL.
  revert y. induction t as [|t IH]; intros y; simpl; [reflexivity|].
  rewrite length_app, IH. simpl. lia.
Qed.

Lemma pathTo_last t y : nth t (pathTo t y) O = y.
Proof using Type.
  clear HL.
  destruct t as [|t]; simpl; [reflexivity|].
  rewrite app_nth2 by (rewrite pathTo_length; lia).
  now rewrite pathTo_length, Nat.sub_diag.
Qed.

Lemma endsIn_single y q : endsIn O y q -> q = [y].
Proof.
  intros [[Hlen _] Hy]. destruct q as [|a [|b q]]; try discriminate.
  simpl in Hy. now subst.
Qed.

Lemma endsIn_unsnoc t y q :
  endsIn (S t) y q ->
  exists q', q = q' ++ [y] /\ endsIn t (nth t q' O) q' /\ (nth t q' O < L)%nat.
Proof.
  intros [Hv Hy].
  destruct (validPath_unsnoc L (S t) q Hv) as (q' & y' & -> & Hq' & Hy').
  destruct Hq' as [Hlen Hall].
  rewrite app_nth2 in Hy by lia. rewrite Hlen, Nat.sub_diag in Hy.
  simpl in Hy. subst y'. exists q'. repeat split; auto.
  apply (proj1 (List.Forall_nth _ q') Hall t O). lia.
Qed.

Lemma rowInv_0 : rowInv O.
Proof.
  split.
  - cbn [ViterbiAux.vitAt ViterbiAux.pathTo fst]. apply tabulate_ext. intros y _.
    now rewrite pathScore_single.
  - intros y Hy. repeat split; simpl; auto.
  - intros y q _ Hq. apply endsIn_single in Hq. subst.
    cbn [ViterbiAux.pathTo]. lra.
  - intros y q _ Hq _ Hne. apply endsIn_single in Hq. subst. now elim Hne.
Qed.

Lemma scanBefore_snoc p q y :
  length p = length q -> scanBefore p q -> scanBefore (p ++ [y]) (q ++ [y]).
Proof.
  intros Hlen (i & Hi & Hlt & Hagree). exists i.
  rewrite length_app. simpl. repeat split; [lia | |].
  - rewrite !app_nth1 by lia. exact Hlt.
  - intros j Hj. destruct (Nat.eq_dec j (length p)) as [->|Hne].
    + rewrite app_nth2, Nat.sub_diag by lia. rewrite Hlen.
      now rewrite app_nth2, Nat.sub_diag by lia.
    + rewrite !app_nth1 by lia. apply Hagree. lia.
Qed.

Lemma rowInv_S t : (S t < T)%nat -> rowInv t -> rowInv (S t).
Proof.
  intros Ht [Hdelta Hvalid Hbest Hfirst].
  (* the scan for each label y *)
  assert (Hscan : forall y, (y < L)%nat ->
    exists i, (i < L)%nat /\
      argmaxScan L (fun yp => extAdd (nth yp (fst (vitAt t)) NegInf)
                                     (Fin (at2 transScores yp y)))
      = (Fin (score (pathTo t i) + at2 transScores i y), i) /\
      (forall j, (j < L)%nat ->
         score (pathTo t j) + at2 transScores j y
         <= score (pathTo t i) + at2 transScores i y) /\
      (forall j, (j < i)%nat ->
         score (pathTo t j) + at2 transScores j y
         < score (pathTo t i) + at2 transScores i y)).
  { intros y Hy.
    apply (argmaxScan_first L (fun yp => score (pathTo t yp) + at2 transScores yp y));
      [exact HL|].
    intros yp Hyp. rewrite Hdelta, nth_tabulate by auto. reflexivity. }
  assert (Hpsi : forall y, (y < L)%nat ->
    (psiAt (S t) y < L)%nat /\
    (forall j, (j < L)%nat ->
       score (pathTo t j) + at2 transScores j y
       <= score (pathTo t (psiAt (S t) y)) + at2 transScores (psiAt (S t) y) y) /\
    (forall j, (j < psiAt (S t) y)%nat ->
       score (pathTo t j) + at2 transScores j y
       < score (pathTo t (psiAt (S t) y)) + at2 transScores (psiAt (S t) y) y) /\
    nth y (fst (vitAt (S t))) NegInf
    = Fin (score (pathTo t (psiAt (S t) y)) + at2 transScores (psiAt (S t) y) y
           + at2 stateScores (S t) y)).
  { intros y Hy. destruct (Hscan y Hy) as (i & Hi & Heq & Hmax & Hfst).
    unfold psiAt. cbn [vitAt]. unfold viterbiStep. cbn [fst snd].
    rewrite !nth_tabulate by auto. rewrite Heq. cbn [fst snd extAdd].
    repeat split; auto. }
  assert (Hscore : forall y, (y < L)%nat ->
    score (pathTo (S t) y)
    = score (pathTo t (psiAt (S t) y)) + at2 transScores (psiAt (S t) y) y
      + at2 stateScores (S t) y).
  { intros y Hy. cbn [pathTo].
    rewrite (pathScore_snoc' _ _ _ _ t) by apply pathTo_length.
    now rewrite pathTo_last. }
  split.
  - apply nth_ext with (d := NegInf) (d' := NegInf).
    + cbn [vitAt]. unfold viterbiStep. cbn [fst]. now rewrite !length_tabulate.
    + intros y Hy. cbn [vitAt] in Hy. unfold viterbiStep in Hy. cbn [fst] in Hy.
      rewrite length_tabulate in Hy.
      destruct (Hpsi y Hy) as (_ & _ & _ & ->).
      rewrite nth_tabulate, Hscore by auto. reflexivity.
  - intros y Hy. destruct (Hpsi y Hy) as (Hp & _).
    destruct (Hvalid _ Hp) as [Hv _]. split.
    + cbn [pathTo]. now apply validPath_snoc.
    + apply pathTo_last.
  - intros y q Hy Hq.
    destruct (endsIn_unsnoc t y q Hq) as (q' & -> & Hq' & Hlt).
    destruct (Hpsi y Hy) as (_ & Hmax & _).
    rewrite Hscore by auto.
    rewrite (pathScore_snoc' _ _ _ _ t) by apply Hq'.
    specialize (Hbest _ _ Hlt Hq'). specialize (Hmax _ Hlt). lra.
  - intros y q Hy Hq Heq Hne.
    destruct (endsIn_unsnoc t y q Hq) as (q' & -> & Hq' & Hlt).
    destruct (Hpsi y Hy) as (Hp & Hmax & Hfst & _).
    rewrite Hscore in Heq by auto.
    rewrite (pathScore_snoc' _ _ _ _ t) in Heq by apply Hq'.
    set (yq := nth t q' O) in *. set (yp := psiAt (S t) y) in *.
    pose proof (Hbest _ _ Hlt Hq') as Hb. pose proof (Hmax _ Hlt) as Hm.
    assert (Hlenq : length q' = S t) by apply Hq'.
    cbn [pathTo]. fold yp.
    destruct (Nat.eq_dec yq yp) as [E|NE].
    + (* same previous label: the prefixes tie *)
      rewrite E in *. apply scanBefore_snoc.
      * now rewrite pathTo_length.
      * apply Hfirst; auto; [lra|].
        intros ->. apply Hne. cbn [pathTo]. fold yp. reflexivity.
    + (* a different previous label reaches the same maximum *)
      assert (Hlt' : (yp < yq)%nat).
      { destruct (Nat.lt_ge_cases yq yp) as [Hc|Hc]; [|lia].
        specialize (Hfst _ Hc). lra. }
      exists t. rewrite length_app, pathTo_length. simpl.
      repeat split; [lia | |].
      * rewrite !app_nth1 by (rewrite ?pathTo_length; lia).
        rewrite pathTo_last. exact Hlt'.
      * intros j Hj. assert (j = S t) by lia. subst j.
        rewrite !app_nth2 by (rewrite ?pathTo_length; lia).
        now rewrite pathTo_length, Hlenq, !Nat.sub_diag.
Qed.

Lemma rowInv_all t : (t < T)%nat -> rowInv t.
Proof.
  induction t as [|t IH]; intros Ht; [apply rowInv_0|].
  apply rowInv_S; auto with lia.
Qed.

(** *** Backtracking *)

Lemma vitPsi_at t : (t < T)%nat -> nth t vitPsi [] = snd (vitAt t).
Proof.
  intros Ht. unfold vitPsi.
  rewrite (nth_indep _ [] (snd (vitAt O))) by (rewrite length_map, length_seq; lia).
  rewrite (map_nth (fun t => snd (vitAt t)) (seq 0 (S T1)) O t), seq_nth; auto.
Qed.

Lemma vitDelta_at t : (t < T)%nat -> nth t vitDelta [] = fst (vitAt t).
Proof.
  intros Ht. unfold vitDelta.
  rewrite (nth_indep _ [] (fst (vitAt O))) by (rewrite length_map, length_seq; lia).
  rewrite (map_nth (fun t => fst (vitAt t)) (seq 0 (S T1)) O t), seq_nth; auto.
Qed.

Lemma backtrack_pathTo n : forall k b,
  (k + n <= T1)%nat ->
  let seg := fold_right (backtrackStep vitPsi) [b] (seq k n) in
  seg <> [] /\ pathTo (k + n) b = pathTo k (hd O seg) ++ tl seg.
Proof.
  induction n as [|n IH]; intros k b Hk; cbn zeta.
  - simpl. rewrite Nat.add_0_r, app_nil_r. split; [discriminate | reflexivity].
  - cbn [seq fold_right].
    destruct (IH (S k) b ltac:(lia)) as [Hne Heq]. cbn zeta in Hne, Heq.
    set (seg := fold_right (backtrackStep vitPsi) [b] (seq (S k) n)) in *.
    unfold backtrackStep.
    split; [discriminate|]. cbn [hd tl].
    replace (k + S n)%nat with (S k + n)%nat by lia. rewrite Heq.
    cbn [pathTo]. replace (k + 1)%nat with (S k) by lia.
    rewrite vitPsi_at by lia. fold (psiAt (S k) (hd O seg)).
    rewrite <- app_assoc. f_equal.
    destruct seg as [|a seg']; [now elim Hne | reflexivity].
Qed.

Lemma Viterbi_unfold :
  Viterbi stateScores transScores
  = (let final := argmaxScan L (fun y => nth y (nth T1 vitDelta []) NegInf) in
     (fold_right (backtrackStep vitPsi) [snd final] (seq 0 T1), fst final)).
Proof.
  destruct Hshape as (Hlen & Hrows & _).
  unfold Viterbi. rewrite Hlen.
  assert (HL0 : length (nth 0 stateScores []) = L).
  { destruct stateScores as [|r rs]; [discriminate|]. now inversion Hrows. }
  rewrite HL0.
  change (tabulate L (fun y => Fin (at2 stateScores 0 y))) with (fst (vitAt O)).
  rewrite viterbiLoop_vitAt, !map_map. reflexivity.
Qed.

(** The result of [Viterbi]: the traced path of the first best final label. *)
Lemma Viterbi_result :
  exists b, (b < L)%nat /\
    Viterbi stateScores transScores = (pathTo T1 b, Fin (score (pathTo T1 b))) /\
    (forall j, (j < L)%nat -> score (pathTo T1 j) <= score (pathTo T1 b)) /\
    (forall j, (j < b)%nat -> score (pathTo T1 j) < score (pathTo T1 b)).
Proof.
  destruct (rowInv_all T1 ltac:(lia)) as [Hdelta _ _ _].
  destruct (argmaxScan_first L (fun y => score (pathTo T1 y))
              (fun y => nth y (nth T1 vitDelta []) NegInf) HL)
    as (b & Hb & Hscan & Hmax & Hfst).
  { intros y Hy. rewrite vitDelta_at by lia.
    rewrite Hdelta, nth_tabulate by auto. reflexivity. }
  exists b. split; [exact Hb|]. split; [|split; assumption].
  rewrite Viterbi_unfold. cbn zeta. rewrite Hscan. cbn [fst snd].
  f_equal. destruct (backtrack_pathTo T1 O b ltac:(lia)) as [Hne Heq].
  cbn zeta in Hne, Heq. simpl Nat.add in Heq. rewrite Heq.
  destruct (fold_right _ _ _) as [|a seg]; [now elim Hne | reflexivity].
Qed.

End Run.

Lemma bruteForceMax_fold stateScores transScores (l : list (list nat)) m :
  (forall p, In p l -> pathScore stateScores transScores p <= m) ->
  forall acc,
  (acc = NegInf \/ exists a, acc = Fin a /\ a <= m) ->
  (acc = Fin m \/ exists p, In p l /\ pathScore stateScores transScores p = m) ->
  fold_left (fun best p =>
               if extGt (Fin (pathScore stateScores transScores p)) best
               then Fin (pathScore stateScores transScores p) else best) l acc
  = Fin m.
Proof.
  induction l as [|p l IH]; intros Hub acc Hacc Hreach.
  - simpl. destruct Hreach as [->|(p & [] & _)]. reflexivity.
  - simpl. assert (Hp : pathScore stateScores transScores p <= m)
      by (apply Hub; now left).
    apply IH.
    + intros q Hq. apply Hub. now right.
    + destruct Hacc as [->|(a & -> & Ha)]; simpl.
      * right. eauto.
      * destruct (Rgt_dec _ a); right; eauto.
    + destruct Hreach as [->|(q & [<-|Hq] & Hqm)].
      * simpl. destruct (Rgt_dec _ m); [lra | now left].
      * left. destruct Hacc as [->|(a & -> & Ha)]; simpl; [now rewrite Hqm|].
        destruct (Rgt_dec _ a) as [_|Hn]; [now rewrite Hqm|].
        f_equal. lra.
      * right. eauto.
Qed.

(** C3: for a [T]-by-[L] state-score matrix with [T >= 1] and [L >= 1], the
    path returned by [Viterbi] is a label path whose score is the returned
    score; that score is the maximum over all [L^T] label paths, as the
    brute-force enumeration computes it; and whenever another path reaches
    the maximum, the returned path has the smaller label at the last
    position where the two differ, which is the choice of the first label
    index in each scan. *)
Theorem viterbi_max_first stateScores transScores T L :
  wellShaped stateScores transScores T L ->
  (1 <= T)%nat -> (1 <= L)%nat ->
  let path := fst (Viterbi stateScores transScores) in
  let best := snd (Viterbi stateScores transScores) in
  validPath T L path /\
  best = Fin (pathScore stateScores transScores path) /\
  best = bruteForceMax stateScores transScores T L /\
  (forall q, validPath T L q ->
     pathScore stateScores transScores q <= pathScore stateScores transScores path) /\
  (forall q, validPath T L q ->
     pathScore stateScores transScores q = pathScore stateScores transScores path ->
     q <> path -> scanBefore path q).
Proof.
  intros Hs HT HL. destruct T as [|T1]; [lia|]. cbn zeta.
  destruct (Viterbi_result _ _ T1 L Hs HL) as (b & Hb & -> & Hmax & Hfst).
  cbn [fst snd].
  destruct (rowInv_all stateScores transScores T1 L HL T1 ltac:(lia)) as [_ Hvalid Hbest Hfirst].
  assert (Hub : forall q, validPath (S T1) L q ->
    pathScore stateScores transScores q
    <= pathScore stateScores transScores (ViterbiAux.pathTo stateScores transScores L T1 b)).
  { intros q Hq.
    assert (Hy : (nth T1 q O < L)%nat).
    { destruct Hq as [Hlen Hall].
      apply (proj1 (List.Forall_nth _ q) Hall T1 O). lia. }
    specialize (Hbest (nth T1 q O) q Hy (conj Hq eq_refl)).
    specialize (Hmax _ Hy). lra. }
  split; [apply Hvalid; exact Hb|].
  split; [reflexivity|]. split; [|split].
  - symmetry. apply bruteForceMax_fold.
    + intros p Hp. apply Hub. now apply allPaths_valid.
    + now left.
    + right. exists (ViterbiAux.pathTo stateScores transScores L T1 b). split; [|reflexivity].
      apply allPaths_valid. apply Hvalid. exact Hb.
  - exact Hub.
  - intros q Hq Heq Hne.
    assert (Hy : (nth T1 q O < L)%nat).
    { destruct Hq as [Hlen Hall].
      apply (proj1 (List.Forall_nth _ q) Hall T1 O). lia. }
    pose proof (Hbest (nth T1 q O) q Hy (conj Hq eq_refl)) as Hq1.
    pose proof (Hmax _ Hy) as Hq2.
    destruct (Nat.eq_dec (nth T1 q O) b) as [E|NE].
    + apply Hfirst; auto. split; auto.
    + assert (Hlt : (b < nth T1 q O)%nat).
      { destruct (Nat.lt_ge_cases (nth T1 q O) b) as [Hc|Hc]; [|lia].
        specialize (Hfst _ Hc). lra. }
      exists T1. rewrite pathTo_length. split; [lia|]. split.
      * now rewrite pathTo_last.
      * intros j Hj. lia.
Qed.

Lemma viterbi_max_first_witness :
  let path := fst (Viterbi testStateScores testTransScores) in
  let best := snd (Viterbi testStateScores testTransScores) in
  validPath 2 2 path /\
  best = Fin (pathScore testStateScores testTransScores path) /\
  best = bruteForceMax testStateScores testTransScores 2 2 /\
  (forall q, validPath 2 2 q ->
     pathScore testStateScores testTransScores q
     <= pathScore testStateScores testTransScores path) /\
  (forall q, validPath 2 2 q ->
     pathScore testStateScores testTransScores q
     = pathScore testStateScores testTransScores path ->
     q <> path -> scanBefore path q).
Proof.
  apply (viterbi_max_first testStateScores testTransScores 2 2).
  - repeat split; repeat constructor.
  - lia.
  - lia.
Defined.

Ltac scan_step :=
  match goal with
  | |- context [Rgt_dec ?a ?b] => destruct (Rgt_dec a b); try lra
  end.

(** The package's Viterbi test: the best path is [[0; 1]] with score 3.2. *)
Example Viterbi_test :
  fst (Viterbi testStateScores testTransScores) = [0%nat; 1%nat] /\
  exists s, snd (Viterbi testStateScores testTransScores) = Fin s /\ s = 32/10.
Proof.
  unfold Viterbi, testStateScores, testTransScores.
  repeat (cbn -[Rgt_dec Rplus Rmult Rdiv Rinv IZR]; scan_step).
  cbn -[Rgt_dec Rplus Rmult Rdiv Rinv IZR].
  split; [reflexivity|]. eexists. split; [reflexivity|]. lra.
Qed.

End ViterbiFacts.

(** * CRF training: the line search and the empty training set *)

Module TrainFacts.

Import Loops LoopFacts Crf.
Local Open Scope R_scope.

Section LineSearch.

Variables w dir : list R.
Variables fVal dirDeriv : R.
Variable objFunc : list R -> R.
Variable n : nat.
Variable c1 : R.

Lemma lineSearchLoop_pos trials step :
  0 < step -> 0 < lineSearchLoop trials w dir fVal dirDeriv objFunc n c1 step.
Proof.
  revert step. induction trials as [|k IH]; intros step Hs; simpl; [exact Hs|].
  destruct (Rle_dec _ _); [exact Hs|]. apply IH. lra.
Qed.

(** The step returned is the initial step halved [k] times, [k] being at
    most the number of trials. *)
Lemma lineSearchLoop_halvings trials step :
  exists k, (k <= trials)%nat /\
    lineSearchLoop trials w dir fVal dirDeriv objFunc n c1 step = step * (1 / 2) ^ k.
Proof.
  revert step. induction trials as [|t IH]; intros step; simpl.
  - exists O. split; [lia | simpl; lra].
  - destruct (Rle_dec _ _).
    + exists O. split; [lia | simpl; lra].
    + destruct (IH (step * (1 / 2))) as (k & Hk & ->).
      exists (S k). split; [lia | simpl; lra].
Qed.

(** When no trial point satisfies the sufficient-decrease test, the loop
    runs out and returns the step halved once per trial. *)
Lemma lineSearchLoop_exhausted trials step :
  0 < step -> dirDeriv < 0 ->
  (forall wNew, fVal < objFunc wNew) ->
  lineSearchLoop trials w dir fVal dirDeriv objFunc n c1 step
  = step * (1 / 2) ^ trials.
Proof.
  intros Hs Hd Hobj. revert step Hs.
  induction trials as [|t IH]; intros step Hs; simpl; [lra|].
  destruct (Rle_dec _ _) as [Hle|_].
  - exfalso.
    specialize (Hobj (projectOrthant n c1 w
                        (tabulate n (fun i => at1 w i + step * at1 dir i)))).
    assert (1 / 10000 * step * dirDeriv < 0) by nra. lra.
  - rewrite IH by lra. lra.
Qed.

End LineSearch.

(** The line search returns 0 exactly when the direction is not a descent
    direction for the pseudo-gradient. *)
Lemma owlqnLineSearch_zero_iff w dir fVal pg objFunc n c1 :
  owlqnLineSearch w dir fVal pg objFunc n c1 = 0 <-> dot dir pg >= 0.
Proof.
  unfold owlqnLineSearch. destruct (Rge_dec (dot dir pg) 0) as [Hge|Hlt].
  - split; auto.
  - split; [|contradiction]. intros H0.
    pose proof (lineSearchLoop_pos w dir fVal (dot dir pg) objFunc n c1 20 1
                  ltac:(lra)). lra.
Qed.

(** On a descent direction the step is positive and is [2^-k] for some
    [k <= 20]. *)
Lemma owlqnLineSearch_descent w dir fVal pg objFunc n c1 :
  dot dir pg < 0 ->
  0 < owlqnLineSearch w dir fVal pg objFunc n c1 /\
  exists k, (k <= 20)%nat /\
    owlqnLineSearch w dir fVal pg objFunc n c1 = (1 / 2) ^ k.
Proof.
  intros Hd. unfold owlqnLineSearch.
  destruct (Rge_dec (dot dir pg) 0) as [Hge|_]; [lra|]. split.
  - apply lineSearchLoop_pos. lra.
  - destruct (lineSearchLoop_halvings w dir fVal (dot dir pg) objFunc n c1 20 1)
      as (k & Hk & ->).
    exists k. split; [exact Hk | lra].
Qed.

(** After twenty failed trials the step returned is [2^-20]: half of the
    last step that was tried. *)
Lemma owlqnLineSearch_exhausted w dir fVal pg objFunc n c1 :
  dot dir pg < 0 -> (forall wNew, fVal < objFunc wNew) ->
  owlqnLineSearch w dir fVal pg objFunc n c1 = (1 / 2) ^ 20.
Proof.
  intros Hd Hobj. unfold owlqnLineSearch.
  destruct (Rge_dec (dot dir pg) 0) as [Hge|_]; [lra|].
  rewrite lineSearchLoop_exhausted; auto; lra.
Qed.

(** C10 (the code against its own comment): with one weight [w = [0]],
    direction [[-1]], pseudo-gradient [[1]], current value 0 and an
    objective that is 1 at every trial point, all twenty trials fail and the
    line search returns [2^-20], a step that was never tried, not the last
    tried step [2^-19]. *)
Theorem owlqnLineSearch_returns_untried_step :
  dot [-1] [1] < 0 /\
  owlqnLineSearch [0] [-1] 0 [1] (fun _ => 1) 1 0 = (1 / 2) ^ 20 /\
  owlqnLineSearch [0] [-1] 0 [1] (fun _ => 1) 1 0 <> (1 / 2) ^ 19.
Proof.
  assert (Hd : dot [-1] [1] < 0).
  { unfold dot, sumTo, at1. simpl. lra. }
  split; [exact Hd|].
  rewrite owlqnLineSearch_exhausted; [|exact Hd|intros; lra].
  split; [reflexivity|].
  assert (0 < (1 / 2) ^ 19) by (apply pow_lt; lra).
  simpl pow in *. lra.
Qed.

(** The trainer takes whatever non-zero step the line search returns: the
    weights move by that step, with no further test of the objective. *)
Lemma trainIteration_takes_step cfg internals L transOffset n w mem :
  let nll := objective cfg internals L transOffset w in
  let pg := pseudoGradient (C1 cfg) n w (smoothGrad cfg internals L transOffset n w) in
  let dir0 := computeDirection mem pg in
  let dir := tabulate n (fun i => if Rgt_dec (at1 dir0 i * at1 pg i) 0 then 0
                                  else at1 dir0 i) in
  let step := owlqnLineSearch w dir nll pg (objective cfg internals L transOffset)
                              n (C1 cfg) in
  step <> 0 ->
  fst (fst (trainIteration cfg internals L transOffset n w mem))
  = projectOrthant n (C1 cfg) w (tabulate n (fun i => at1 w i + step * at1 dir i)).
Proof.
  cbn zeta. intros Hstep. unfold trainIteration.
  destruct (Req_dec_T _ 0) as [E|_]; [contradiction|].
  destruct (Rlt_dec _ _); reflexivity.
Qed.

(** *** Training on no sequences *)

Lemma trainLoop_no_weights iters cfg internals L transOffset mem :
  trainLoop iters cfg internals L transOffset 0 [] mem = [].
Proof.
  destruct iters as [|iters]; [reflexivity|].
  cbn [trainLoop]. unfold trainIteration. cbn [tabulate seq map].
  unfold owlqnLineSearch.
  change (dot [] (pseudoGradient (C1 cfg) 0 []
                    (smoothGrad cfg internals L transOffset 0 []))) with 0.
  destruct (Rge_dec 0 0) as [_|Hn]; [|lra].
  destruct (Req_dec_T 0 0) as [_|Hn]; [|lra]. reflexivity.
Qed.

Lemma Train_empty (order : GoMap.RangeOrder) cfg : Train [] cfg = NewModel.
Proof.
  unfold Train. cbn [BuildLabelAlphabet BuildAttributeAlphabet fold_left map].
  change (NumWeights _) with O. change (Size NewAlphabet) with O.
  change (replicate 0 0) with (@nil R).
  now rewrite trainLoop_no_weights.
Qed.

End TrainFacts.

(** * Training on empty input *)

Module EmptyInputFacts.

Import Loops GoMap Textutil Vectorizer Classifier.
Local Open Scope string_scope.

(** With no form, [TrainFormType] stops at [xData[0]]. *)
Lemma TrainFormType_no_forms (text : TextPrims) (order : RangeOrder) (dom : FormDom)
    labels config :
  TrainFormType [] labels config
  = Panicked "runtime error: index out of range [0] with length 0".
Proof. reflexivity. Qed.

(** With at least one form, [TrainFormType] returns a model. *)
Lemma TrainFormType_some_forms (text : TextPrims) (order : RangeOrder) (dom : FormDom)
    form forms labels config :
  exists m, TrainFormType (form :: forms) labels config = Returned m.
Proof.
  unfold TrainFormType. cbn [length]. unfold tabulate at 1. cbn [seq map].
  eexists. reflexivity.
Qed.

Section TopLevel.

Context {text : TextPrims} {order : RangeOrder} {dom : FormDom}
        {ext : @Dit.Collaborators dom}.

Lemma Train_storage_error dataDir config err :
  Dit.IterAnnotations dataDir
    (match config with Some c => Dit.Verbose c | None => false end) = inr err ->
  Dit.Train dataDir config = Failed ("dit: " +:+ err).
Proof. intros H. unfold Dit.Train. now rewrite H. Qed.

Lemma Train_no_annotations dataDir config :
  Dit.IterAnnotations dataDir
    (match config with Some c => Dit.Verbose c | None => false end) = inl [] ->
  Dit.Train dataDir config = Failed ("dit: no annotations found in " +:+ dataDir).
Proof. intros H. unfold Dit.Train. now rewrite H. Qed.

End TopLevel.

(** C4, as the code has it: [crf.Train] has no error result and, on an
    empty sequence list, returns the empty model (no label, no attribute, no
    weight) whatever the configuration; the descriptive error for empty
    training input is produced by the top-level [Train], which fails with
    "dit: no annotations found in <dataDir>" when the store yields no
    annotation. *)
Theorem empty_training_input (text : TextPrims) (order : RangeOrder) (dom : FormDom)
    (ext : @Dit.Collaborators dom) cfg dataDir config :
  Dit.IterAnnotations dataDir
    (match config with Some c => Dit.Verbose c | None => false end) = inl [] ->
  Crf.Train [] cfg = Crf.NewModel /\
  Dit.Train dataDir config = Failed ("dit: no annotations found in " +:+ dataDir).
Proof.
  intros Hstore. split.
  - apply TrainFacts.Train_empty.
  - now apply Train_no_annotations.
Qed.

Lemma empty_training_input_witness :
  @Crf.Train keyOrder [] Crf.DefaultTrainerConfig = Crf.NewModel /\
  @Dit.Train asciiText keyOrder textDom Dit.emptyStore "data" None
  = Failed ("dit: no annotations found in " +:+ "data").
Proof.
  apply (empty_training_input asciiText keyOrder textDom Dit.emptyStore
           Crf.DefaultTrainerConfig "data" None).
  reflexivity.
Defined.

(** C4 as stated fails: on an empty sequence list [crf.Train] reports no
    error; it returns a model with no label and no weight. *)
Lemma crf_Train_empty_returns_model :
  exists m, @Crf.Train keyOrder [] Crf.DefaultTrainerConfig = m /\
            Crf.Size (Crf.Labels m) = O /\ Crf.Weights m = [] /\ Crf.NumLabels m = O.
Proof.
  exists Crf.NewModel. split; [apply TrainFacts.Train_empty|].
  repeat split.
Qed.

End EmptyInputFacts.

(** * Sorting strings and ranging over maps *)

Module OrderFacts.

Import Loops GoMap Vectorizer.

Lemma strLe_total : Total strLe.
Proof. intros a b. apply String.leb_total. Qed.

Lemma strLe_antisym : AntiSymm eq strLe.
Proof. intros a b. apply String.leb_antisym. Qed.

Lemma strLe_compare a b : strLe a b <-> String.compare a b <> Gt.
Proof.
  unfold strLe, String.leb. destruct (String.compare a b); split; congruence.
Qed.

Lemma compare_Gt_lt a b : String.compare a b = Gt <-> String_as_OT.lt b a.
Proof.
  rewrite <- String_as_OT.cmp_lt. unfold String_as_OT.cmp.
  rewrite (String.compare_antisym b a).
  destruct (String.compare a b); simpl; split; congruence.
Qed.

Lemma strLe_trans : Transitive strLe.
Proof.
  intros a b c Hab Hbc. apply strLe_compare. intros Hgt.
  apply compare_Gt_lt in Hgt.
  apply strLe_compare in Hab, Hbc.
  destruct (String.compare a b) eqn:Eab; [| |congruence].
  - apply String.compare_eq_iff in Eab. subst b.
    apply Hbc. now apply compare_Gt_lt.
  - destruct (String.compare b c) eqn:Ebc; [| |congruence].
    + apply String.compare_eq_iff in Ebc. subst c.
      apply String_as_OT.cmp_lt in Eab.
      exact (String_as_OT.lt_not_eq _ _ (String_as_OT.lt_trans _ _ _ Hgt Eab) eq_refl).
    + apply String_as_OT.cmp_lt in Eab, Ebc.
      pose proof (String_as_OT.lt_trans _ _ _ Eab Ebc) as Hac.
      exact (String_as_OT.lt_not_eq _ _ (String_as_OT.lt_trans _ _ _ Hgt Hac) eq_refl).
Qed.

#[local] Existing Instances strLe_total strLe_antisym strLe_trans.

Lemma sortStrings_perm l : sortStrings l ≡ₚ l.
Proof. apply merge_sort_Permutation. Qed.

Lemma sortStrings_sorted l : StronglySorted strLe (sortStrings l).
Proof. apply StronglySorted_merge_sort; apply _. Qed.

(** The sorted list depends on the elements only, not on their order. *)
Lemma sortStrings_order l1 l2 : l1 ≡ₚ l2 -> sortStrings l1 = sortStrings l2.
Proof.
  intros Hp. apply (Sorted_unique strLe).
  - apply StronglySorted_Sorted, sortStrings_sorted.
  - apply StronglySorted_Sorted, sortStrings_sorted.
  - now rewrite !sortStrings_perm.
Qed.

Lemma sortStrings_elem l x : x ∈ sortStrings l <-> x ∈ l.
Proof. now rewrite sortStrings_perm. Qed.

Lemma sortStrings_length l : length (sortStrings l) = length l.
Proof. now rewrite sortStrings_perm. Qed.

Lemma sortStrings_NoDup l : NoDup l -> NoDup (sortStrings l).
Proof. now rewrite sortStrings_perm. Qed.

Section Range.

Context {order : RangeOrder}.
Context {K : Type} `{Countable K} {V : Type}.

Lemma rangeOf_elem (m : gmap K V) k v : (k, v) ∈ rangeOf m <-> m !! k = Some v.
Proof. rewrite rangeOf_perm. apply elem_of_map_to_list. Qed.

Lemma rangeOf_NoDup_keys (m : gmap K V) : NoDup (map fst (rangeOf m)).
Proof.
  rewrite rangeOf_perm. apply NoDup_fst_map_to_list.
Qed.

Lemma rangeOf_empty : rangeOf (∅ : gmap K V) = [].
Proof.
  apply Permutation_nil_r. rewrite rangeOf_perm. now rewrite map_to_list_empty.
Qed.

Lemma rangeOf_singleton k (v : V) : rangeOf ({[k := v]} : gmap K V) = [(k, v)].
Proof.
  apply Permutation_singleton_r. rewrite rangeOf_perm.
  now rewrite map_to_list_singleton.
Qed.

Lemma rangeOf_key (m : gmap K V) k : k ∈ map fst (rangeOf m) <-> is_Some (m !! k).
Proof.
  rewrite list_elem_of_fmap. split.
  - intros ([k' v] & -> & Hin). apply rangeOf_elem in Hin. eauto.
  - intros [v Hv]. exists (k, v). split; [reflexivity|]. now apply rangeOf_elem.
Qed.

End Range.

End OrderFacts.

(** * DictVectorizer: keys outside the vocabulary *)

Module DictFacts.

Import Loops GoMap Vectorizer VectorizerAux OrderFacts.
Import DictVectorizer.
Local Open Scope string_scope.

Lemma SetValue_Dim sv idx val : Dim (SetValue sv idx val) = Dim sv.
Proof. unfold SetValue. now destruct (indexOf idx (Indices sv)). Qed.

Lemma SetValue_Indices sv idx val i :
  i ∈ Indices (SetValue sv idx val) -> i ∈ Indices sv \/ i = idx.
Proof.
  unfold SetValue. destruct (indexOf idx (Indices sv)); simpl; [auto|].
  rewrite elem_of_app, list_elem_of_singleton. tauto.
Qed.

Lemma transformStep_Dim dv l sv :
  Dim (fold_left (transformStep dv) l sv) = Dim sv.
Proof.
  revert sv. induction l as [|kv l IH]; intros sv; simpl; [reflexivity|].
  rewrite IH. unfold transformStep.
  destruct (FeatureIndex dv !! _); [apply SetValue_Dim | reflexivity].
Qed.

Lemma transformStep_Indices dv l sv i :
  i ∈ Indices (fold_left (transformStep dv) l sv) ->
  i ∈ Indices sv \/
  exists kv, kv ∈ l /\ FeatureIndex dv !! featureKey (fst kv) (snd kv) = Some i.
Proof.
  revert sv. induction l as [|kv l IH]; intros sv; simpl; [auto|].
  intros Hi. destruct (IH _ Hi) as [Hsv|(kv' & Hin & Hkv')].
  - unfold transformStep in Hsv.
    destruct (FeatureIndex dv !! featureKey (fst kv) (snd kv)) as [idx|] eqn:E; [|auto].
    apply SetValue_Indices in Hsv. destruct Hsv as [Hsv| ->]; [auto|].
    right. exists kv. split; [left|exact E].
  - right. exists kv'. split; [now right | exact Hkv'].
Qed.

Lemma transformStep_unknown dv l sv :
  (forall kv, kv ∈ l -> FeatureIndex dv !! featureKey (fst kv) (snd kv) = None) ->
  fold_left (transformStep dv) l sv = sv.
Proof.
  revert sv. induction l as [|kv l IH]; intros sv Hl; simpl; [reflexivity|].
  rewrite IH by (intros; apply Hl; now right).
  unfold transformStep. now rewrite (Hl kv) by left.
Qed.

Section Ranged.

Context {order : RangeOrder}.

Lemma Transform_fold dv d :
  Transform dv d
  = fold_left (transformStep dv) (rangeOf d) (NewSparseVector (VocabSize dv)).
Proof. reflexivity. Qed.

Lemma scenario_Fit :
  Fit scenarioData
  = mk ["method=get"; "method=post"] (indexNames ["method=get"; "method=post"]).
Proof.
  unfold Fit, scenarioData. cbn [fold_left].
  rewrite !rangeOf_singleton. cbn [fold_left fst snd featureKey].
  set (fs := <[_ := true]> (<[_ := true]> ∅)).
  assert (Hnames : sortStrings (map fst (rangeOf fs)) = ["method=get"; "method=post"]).
  { rewrite (sortStrings_order _ (map fst (map_to_list fs))).
    - vm_compute. reflexivity.
    - apply fmap_Permutation, rangeOf_perm. }
  now rewrite Hnames.
Qed.

(** C9: [Transform] of a fitted DictVectorizer is defined on every feature
    map and returns a vector of dimension [VocabSize()]; every index it
    sets is the column of a derived key of the input that is in the
    vocabulary, so a derived key outside the vocabulary contributes
    nothing; when no derived key of the input is in the vocabulary the
    vector has no entry.  After fitting on
    [{"method":"post"}, {"method":"get"}] the columns are "method=get" and
    "method=post", and transforming [{"method":"put"}] yields the vector
    with no entry, of dimension [VocabSize() = 2]. *)
Theorem dict_transform_unknown_keys (data : list (gmap string Any))
    (d : gmap string Any) :
  let dv := Fit data in
  Dim (Transform dv d) = VocabSize dv /\
  (forall idx, idx ∈ Indices (Transform dv d) ->
     exists k v, d !! k = Some v /\ FeatureIndex dv !! featureKey k v = Some idx) /\
  ((forall k v, d !! k = Some v -> FeatureIndex dv !! featureKey k v = None) ->
   Transform dv d = NewSparseVector (VocabSize dv)) /\
  FeatureNames (Fit scenarioData) = ["method=get"; "method=post"] /\
  VocabSize (Fit scenarioData) = 2%nat /\
  Transform (Fit scenarioData) scenarioInput = mkSparse [] [] 2.
Proof.
  cbn zeta. split; [|split; [|split; [|split; [|split]]]].
  - rewrite Transform_fold. apply transformStep_Dim.
  - intros idx Hidx. rewrite Transform_fold in Hidx.
    apply transformStep_Indices in Hidx.
    destruct Hidx as [Hnil|([k v] & Hin & Hkv)].
    + simpl in Hnil. now apply elem_of_nil in Hnil.
    + exists k, v. split; [now apply rangeOf_elem | exact Hkv].
  - intros Hunknown. rewrite Transform_fold. apply transformStep_unknown.
    intros [k v] Hin. apply Hunknown. now apply rangeOf_elem.
  - now rewrite scenario_Fit.
  - now rewrite scenario_Fit.
  - rewrite scenario_Fit. unfold Transform, scenarioInput.
    rewrite rangeOf_singleton. vm_compute. reflexivity.
Qed.

End Ranged.

End DictFacts.

(** * TfidfVectorizer: stop words and normalisation *)

Module TfidfFacts.

Import Loops LoopFacts GoMap Textutil Vectorizer VectorizerAux OrderFacts.
Import TfidfVectorizer.
Local Open Scope R_scope.

(** *** Sums of squares *)

Lemma sumSquares_Rsum l : sumSquares l = Rsum (map (fun v => v * v) l).
Proof. unfold sumSquares. rewrite fold_left_Rplus_acc. lra. Qed.

Lemma sumSquares_nonneg l : 0 <= sumSquares l.
Proof.
  rewrite sumSquares_Rsum. induction l as [|v l IH]; simpl; [lra|].
  pose proof (Rle_0_sqr v) as Hv. unfold Rsqr in Hv. lra.
Qed.

Lemma sumSquares_zero l : sumSquares l = 0 -> Forall (fun v => v = 0) l.
Proof.
  rewrite sumSquares_Rsum. induction l as [|v l IH]; simpl; intros Hs.
  - constructor.
  - pose proof (sumSquares_nonneg l) as Hl. rewrite sumSquares_Rsum in Hl.
    pose proof (Rle_0_sqr v) as Hv. unfold Rsqr in Hv.
    assert (Hv0 : v * v = 0) by lra.
    constructor; [nra | apply IH; lra].
Qed.

Lemma sumSquares_scaled l c :
  sumSquares (map (fun v => v / c) l) = sumSquares l * (/ c * / c).
Proof.
  rewrite !sumSquares_Rsum, map_map.
  induction l as [|v l IH]; simpl; [lra|]. rewrite IH. unfold Rdiv. lra.
Qed.

Lemma L2Norm_sumSquares sv : L2Norm sv = sqrt (sumSquares (Values sv)).
Proof. reflexivity. Qed.

(** Dividing by a positive norm gives a vector of norm 1; a norm that is
    not positive belongs to the zero vector. *)
Lemma normalised_or_zero inds vals dim :
  let sv := mkSparse inds vals dim in
  let out := if Rgt_dec (L2Norm sv) 0
             then mkSparse inds (map (fun v => v / L2Norm sv) vals) dim
             else sv in
  (Forall (fun v => v = 0) (Values out) /\ out = sv) \/ L2Norm out = 1.
Proof.
  cbn zeta. rewrite L2Norm_sumSquares. cbn [Values].
  pose proof (sumSquares_nonneg vals) as Hnn.
  destruct (Rgt_dec (sqrt (sumSquares vals)) 0) as [Hpos|Hnpos].
  - right. rewrite L2Norm_sumSquares. cbn [Values].
    rewrite sumSquares_scaled.
    set (n := sqrt (sumSquares vals)) in *.
    assert (Hn : n * n = sumSquares vals) by (apply sqrt_sqrt; exact Hnn).
    rewrite <- Hn. replace (n * n * (/ n * / n)) with 1 by (field; lra).
    apply sqrt_1.
  - left. split; [|reflexivity]. cbn [Values].
    apply sumSquares_zero.
    pose proof (sqrt_pos (sumSquares vals)) as Hsp.
    assert (Hz : sqrt (sumSquares vals) = 0) by lra.
    apply sqrt_eq_0 in Hz; auto.
Qed.

(** *** Stop words *)

Lemma filterText_id tv s : filterText tv s = s.
Proof. unfold filterText. now destruct (_ || _). Qed.

Lemma filterCorpus_id tv corpus : filterCorpus tv corpus = corpus.
Proof.
  unfold filterCorpus. destruct (_ =? _)%nat; [reflexivity|].
  destruct (String.eqb _ _); [reflexivity|].
  rewrite <- (map_id corpus) at 2. apply map_ext. apply filterText_id.
Qed.

Section Ranged.

Context {text : TextPrims} {order : RangeOrder}.

Lemma Transform_Indices tv s :
  Indices (Transform tv s)
  = Indices (CountVectorizer.Transform (CountVec tv) (filterText tv s)).
Proof.
  unfold Transform. now destruct (Rgt_dec _ 0).
Qed.

Lemma Fit_CountVec tv corpus :
  CountVec (Fit tv corpus) = CountVectorizer.Fit (CountVec tv) (filterCorpus tv corpus).
Proof. reflexivity. Qed.

(** C6: the vector [Transform] returns for a document, by a fitted
    TfidfVectorizer, either has all its values equal to zero (the zero vector,
    which is returned without any division) or has [L2Norm] exactly 1 over
    the reals. *)
Theorem tfidf_unit_norm (tv : t) (corpus : list string) (s : string) :
  let out := Transform (Fit tv corpus) s in
  Forall (fun v => v = 0) (Values out) \/ L2Norm out = 1.
Proof.
  cbn zeta. unfold Transform at 1 2.
  match goal with
  | |- context [Rgt_dec (L2Norm (mkSparse ?i ?v ?d)) 0] =>
      destruct (normalised_or_zero i v d) as [[Hz _]|Hn]
  end.
  - left. exact Hz.
  - right. exact Hn.
Qed.


End Ranged.


End TfidfFacts.

(** * CountVectorizer: the fitted vocabulary *)

Module CountFacts.

Import Loops GoMap Textutil Vectorizer OrderFacts.
Import CountVectorizer.
Import VectorizerAux (countStep, heldCount).

(** *** Counting one document *)

Lemma countStep_fold l : forall (d : gmap string Z) (sn : gmap string bool),
  (forall f b, sn !! f = Some b -> b = true) ->
  forall t,
  fst (fold_left countStep l (d, sn)) !! t
  = if decide (t ∈ l /\ sn !! t = None)
    then Some (default 0 (d !! t) + 1)%Z else d !! t.
Proof.
  induction l as [|f l IH]; intros d sn Hsn t; cbn [fold_left].
  - cbn [fst]. destruct (decide _) as [[Hin _]|_]; [|reflexivity].
    now apply elem_of_nil in Hin.
  - destruct (sn !! f) as [b|] eqn:Ef.
    + assert (Hstep : countStep (d, sn) f = (d, sn)).
      { unfold countStep. cbn [fst snd]. rewrite Ef. cbn [default].
        now rewrite (Hsn f b Ef). }
      rewrite Hstep, IH by exact Hsn.
      destruct (decide (t ∈ l /\ sn !! t = None)) as [[Hin Hn]|Hno];
        destruct (decide (t ∈ f :: l /\ sn !! t = None)) as [[Hin' Hn']|Hno'];
        try reflexivity.
      * exfalso. apply Hno'. split; [now right | exact Hn].
      * exfalso. apply Hno. split; [|exact Hn'].
        apply elem_of_cons in Hin'. destruct Hin' as [->|Hin']; [congruence | exact Hin'].
    + assert (Hstep : countStep (d, sn) f
                      = (<[f := (default 0 (d !! f) + 1)%Z]> d, <[f := true]> sn)).
      { unfold countStep. cbn [fst snd]. now rewrite Ef. }
      rewrite Hstep, IH.
      2:{ intros f' b'. rewrite lookup_insert. case_decide; [congruence | apply Hsn]. }
      destruct (decide (t = f)) as [->|Hne].
      * rewrite !lookup_insert_eq.
        destruct (decide (f ∈ l /\ Some true = None)) as [[_ Hn]|_]; [discriminate|].
        destruct (decide (f ∈ f :: l /\ sn !! f = None)) as [_|Hno]; [reflexivity|].
        exfalso. apply Hno. split; [left | exact Ef].
      * rewrite !lookup_insert_ne by congruence.
        destruct (decide (t ∈ l /\ sn !! t = None)) as [[Hin Hn]|Hno];
          destruct (decide (t ∈ f :: l /\ sn !! t = None)) as [[Hin' Hn']|Hno'];
          try reflexivity.
        -- exfalso. apply Hno'. split; [now right | exact Hn].
        -- exfalso. apply Hno. split; [|exact Hn'].
           apply elem_of_cons in Hin'. destruct Hin' as [->|Hin']; [congruence | exact Hin'].
Qed.

Lemma countDoc_lookup (d : gmap string Z) features t :
  countDoc d features !! t
  = if decide (t ∈ features) then Some (default 0 (d !! t) + 1)%Z else d !! t.
Proof.
  unfold countDoc. change (fun st f => _) with countStep.
  rewrite countStep_fold by (intros f b; rewrite lookup_empty; discriminate).
  rewrite lookup_empty.
  destruct (decide (t ∈ features /\ None = None)) as [[Hin _]|Hno];
    destruct (decide (t ∈ features)) as [Hin'|Hno']; try reflexivity; tauto.
Qed.

(** *** Document frequencies *)

Section Analysed.

Context {text : TextPrims}.
Variable cv : t.

Local Abbreviation dfCountsOf := (VectorizerAux.dfCountsOf cv).
Local Abbreviation keptTerms := (VectorizerAux.keptTerms cv).
Local Abbreviation collectTerms := (VectorizerAux.collectTerms cv).

Lemma docFreq_cons doc corpus t :
  docFreq cv (doc :: corpus) t
  = ((if decide (t ∈ analyze cv doc) then 1 else 0) + docFreq cv corpus t)%nat.
Proof.
  unfold docFreq. cbn [List.filter].
  destruct (decide (t ∈ analyze cv doc)) as [Hin|Hno].
  - now rewrite bool_decide_true by exact Hin.
  - now rewrite bool_decide_false by exact Hno.
Qed.

Lemma dfCountsOf_lookup corpus : forall (d : gmap string Z) (n0 : string -> nat),
  (forall t, d !! t = heldCount (n0 t)) ->
  forall t, dfCountsOf corpus d !! t = heldCount (n0 t + docFreq cv corpus t).
Proof.
  induction corpus as [|doc corpus IH]; intros d n0 Hd t.
  - cbn. rewrite Nat.add_0_r. apply Hd.
  - change (dfCountsOf (doc :: corpus) d)
      with (dfCountsOf corpus (countDoc d (analyze cv doc))).
    rewrite (IH _ (fun t => ((if decide (t ∈ analyze cv doc) then 1 else 0) + n0 t)%nat)).
    + rewrite docFreq_cons. cbv beta. apply (f_equal heldCount).
      destruct (decide (t ∈ analyze cv doc)); cbn iota; lia.
    + intros t'. rewrite countDoc_lookup, Hd.
      destruct (decide (t' ∈ analyze cv doc)); [|reflexivity].
      destruct (n0 t') as [|k]; cbn [heldCount default Nat.add]; [reflexivity|].
      f_equal. unfold Datatypes.id. lia.
Qed.

Lemma dfCounts_lookup corpus t :
  dfCountsOf corpus ∅ !! t = heldCount (docFreq cv corpus t).
Proof.
  rewrite (dfCountsOf_lookup corpus ∅ (fun _ => O)); [reflexivity|].
  intros t'. now rewrite lookup_empty.
Qed.

Lemma docFreq_pos corpus t :
  (0 < docFreq cv corpus t)%nat <-> exists doc, doc ∈ corpus /\ t ∈ analyze cv doc.
Proof.
  induction corpus as [|doc corpus IH].
  - cbn. split; [lia|]. intros (doc & Hin & _). now apply elem_of_nil in Hin.
  - rewrite docFreq_cons. destruct (decide (t ∈ analyze cv doc)) as [Hin|Hno].
    + split; [|lia]. intros _. exists doc. split; [left | exact Hin].
    + rewrite Nat.add_0_l, IH. split.
      * intros (d & Hd & Ht). exists d. split; [now right | exact Ht].
      * intros (d & Hd & Ht). apply elem_of_cons in Hd.
        destruct Hd as [->|Hd]; [contradiction|]. eauto.
Qed.

Lemma docFreq_perm corpus corpus' t :
  corpus ≡ₚ corpus' -> docFreq cv corpus t = docFreq cv corpus' t.
Proof.
  intros Hp. unfold docFreq.
  induction Hp as [|x l l' Hp IH|x y l|l l' l'' Hp1 IH1 Hp2 IH2]; cbn [List.filter].
  - reflexivity.
  - destruct (bool_decide _); cbn [length]; now rewrite IH.
  - destruct (bool_decide _), (bool_decide _); reflexivity.
  - now rewrite IH1.
Qed.

(** *** The terms kept and their order *)

Lemma keptTerms_elem corpus t :
  t ∈ keptTerms corpus
  <-> (0 < docFreq cv corpus t)%nat /\ (MinDF cv <= Z.of_nat (docFreq cv corpus t))%Z.
Proof.
  unfold keptTerms. rewrite elem_of_remove_dups, list_elem_of_In, filter_In,
    <- list_elem_of_In, bool_decide_eq_true.
  rewrite docFreq_pos. 
  assert (Hc : t ∈ concat (map (analyze cv) corpus)
               <-> exists doc, doc ∈ corpus /\ t ∈ analyze cv doc).
  { rewrite list_elem_of_In, in_concat. split.
    - intros (l & Hl & Ht). apply in_map_iff in Hl. destruct Hl as (doc & <- & Hdoc).
      exists doc. now rewrite !list_elem_of_In.
    - intros (doc & Hdoc & Ht). exists (analyze cv doc).
      rewrite <- !list_elem_of_In. split; [|exact Ht].
      apply list_elem_of_In, in_map, list_elem_of_In, Hdoc. }
  now rewrite Hc.
Qed.

Lemma keptTerms_NoDup corpus : NoDup (keptTerms corpus).
Proof. apply NoDup_remove_dups. Qed.

Context {order : RangeOrder}.

Lemma collectTerms_filter entries acc :
  collectTerms entries acc
  = acc ++ map fst (List.filter (fun kv => (MinDF cv <=? snd kv)%Z) entries).
Proof.
  revert acc. induction entries as [|kv entries IH]; intros acc; cbn.
  - now rewrite app_nil_r.
  - unfold collectTerms in IH. rewrite IH.
    destruct (MinDF cv <=? snd kv)%Z; cbn; [|reflexivity].
    now rewrite <- app_assoc.
Qed.

Lemma NoDup_keys_filter {V} (P : string * V -> bool) (l : list (string * V)) :
  NoDup (map fst l) -> NoDup (map fst (List.filter P l)).
Proof.
  induction l as [|kv l IH]; cbn; intros Hnd; [constructor|].
  apply NoDup_cons in Hnd. destruct Hnd as [Hnotin Hnd].
  destruct (P kv); cbn; [|now apply IH].
  apply NoDup_cons. split; [|now apply IH].
  intros Hin. apply Hnotin.
  apply list_elem_of_fmap in Hin. destruct Hin as (kv' & Hk & Hin).
  apply list_elem_of_fmap. exists kv'. split; [exact Hk|].
  apply list_elem_of_In in Hin. apply filter_In in Hin.
  now apply list_elem_of_In.
Qed.

Lemma collected_perm corpus :
  collectTerms (rangeOf (dfCountsOf corpus ∅)) [] ≡ₚ keptTerms corpus.
Proof.
  rewrite collectTerms_filter, app_nil_l.
  apply NoDup_Permutation.
  - apply NoDup_keys_filter, rangeOf_NoDup_keys.
  - apply keptTerms_NoDup.
  - intros t. rewrite keptTerms_elem, list_elem_of_fmap. split.
    + intros ([t' c] & -> & Hin). cbn [fst].
      apply list_elem_of_In, filter_In in Hin. destruct Hin as [Hin Hc].
      apply list_elem_of_In, rangeOf_elem in Hin. cbn [snd] in Hc.
      rewrite dfCounts_lookup in Hin.
      destruct (docFreq cv corpus t') as [|k]; [discriminate|].
      cbn [heldCount] in Hin. injection Hin as <-. split; [lia|].
      now apply Z.leb_le.
    + intros [Hpos Hmin]. exists (t, Z.of_nat (docFreq cv corpus t)).
      split; [reflexivity|].
      apply list_elem_of_In, filter_In. split.
      * apply list_elem_of_In, rangeOf_elem. rewrite dfCounts_lookup.
        destruct (docFreq cv corpus t); [lia | reflexivity].
      * cbn [snd]. now apply Z.leb_le.
Qed.

Lemma Fit_Vocabulary corpus :
  Vocabulary (Fit cv corpus) = indexTerms (vocabTerms cv corpus).
Proof.
  unfold Fit, vocabTerms. cbn [Vocabulary]. f_equal.
  apply sortStrings_order. apply collected_perm.
Qed.

End Analysed.

(** *** Column indices *)

Lemma indexTerms_prefix terms n :
  NoDup terms -> (n <= length terms)%nat ->
  let voc := fold_left (fun (voc : gmap string nat) i => <[nth i terms ""%string := i]> voc)
                       (seq 0 n) ∅ in
  (forall t i, voc !! t = Some i <-> (i < n)%nat /\ terms !! i = Some t) /\
  size voc = n.
Proof.
  intros Hnd. induction n as [|n IH]; intros Hn; cbn zeta.
  - cbn. split; [|apply map_size_empty].
    intros t i. rewrite lookup_empty. split; [discriminate | lia].
  - rewrite seq_S, fold_left_app. cbn [fold_left Nat.add].
    destruct (IH ltac:(lia)) as [Hlook Hsize]. cbn zeta in Hlook, Hsize.
    set (voc := fold_left _ (seq 0 n) ∅) in *.
    assert (Hnth : terms !! n = Some (nth n terms ""%string)).
    { rewrite nth_lookup. destruct (terms !! n) eqn:E; [reflexivity|].
      apply lookup_ge_None in E. lia. }
    assert (Hfresh : voc !! nth n terms ""%string = None).
    { destruct (voc !! nth n terms ""%string) as [i|] eqn:E; [|reflexivity].
      apply Hlook in E. destruct E as [Hi Hti].
      pose proof (NoDup_lookup _ _ _ _ Hnd Hti Hnth). lia. }
    split.
    + intros t i. rewrite lookup_insert. case_decide as Hc.
      * subst t. split.
        -- intros [= <-]. split; [lia | exact Hnth].
        -- intros [Hi Hti]. f_equal.
           exact (NoDup_lookup _ _ _ _ Hnd Hnth Hti).
      * rewrite Hlook. split.
        -- intros [Hi Hti]. split; [lia | exact Hti].
        -- intros [Hi Hti]. split; [|exact Hti].
           destruct (Nat.eq_dec i n) as [->|Hne]; [|lia].
           rewrite Hnth in Hti. congruence.
    + rewrite map_size_insert_None by exact Hfresh. now rewrite Hsize.
Qed.

Lemma indexTerms_lookup terms t i :
  NoDup terms -> indexTerms terms !! t = Some i <-> terms !! i = Some t.
Proof.
  intros Hnd. destruct (indexTerms_prefix terms (length terms) Hnd ltac:(lia)) as [Hl _].
  cbn zeta in Hl. unfold indexTerms. rewrite Hl. split; [tauto|].
  intros Hti. split; [|exact Hti]. now apply lookup_lt_Some in Hti.
Qed.

Lemma indexTerms_size terms : NoDup terms -> size (indexTerms terms) = length terms.
Proof.
  intros Hnd. now destruct (indexTerms_prefix terms (length terms) Hnd ltac:(lia)).
Qed.

Lemma none_before_least terms t :
  Forall (strLe t) terms ->
  List.filter (fun other => bool_decide (strLe other t /\ other <> t)) terms = [].
Proof.
  induction terms as [|b terms IH]; intros Hall; [reflexivity|].
  apply Forall_cons in Hall. destruct Hall as [Htb Hall].
  cbn [List.filter]. rewrite bool_decide_false.
  - now apply IH.
  - intros [Hbt Hne]. apply Hne. now apply strLe_antisym.
Qed.

(** In a sorted list without duplicates, the position of a term is the
    number of terms strictly before it in the order. *)
Lemma sorted_position_rank terms :
  StronglySorted strLe terms -> NoDup terms ->
  forall i t, terms !! i = Some t -> lexRank terms t = i.
Proof.
  unfold lexRank. induction terms as [|a terms IH]; intros Hs Hnd i t Hti.
  - discriminate.
  - apply StronglySorted_inv in Hs. destruct Hs as [Hs Hall].
    apply NoDup_cons in Hnd. destruct Hnd as [Hnotin Hnd].
    cbn [List.filter]. destruct i as [|i].
    + cbn in Hti. injection Hti as ->.
      rewrite bool_decide_false by tauto.
      now rewrite none_before_least.
    + cbn in Hti.
      assert (Hat : strLe a t).
      { rewrite Forall_forall in Hall. apply Hall.
        now apply list_elem_of_lookup_2 in Hti. }
      assert (Hne : a <> t).
      { intros ->. apply Hnotin. now apply list_elem_of_lookup_2 in Hti. }
      rewrite bool_decide_true by tauto. cbn [length]. f_equal.
      now apply IH.
Qed.

Section Fitted.

Context {text : TextPrims} {order : RangeOrder}.

Lemma vocabTerms_NoDup cv corpus : NoDup (vocabTerms cv corpus).
Proof. apply sortStrings_NoDup, NoDup_remove_dups. Qed.

Lemma vocabTerms_elem cv corpus t :
  t ∈ vocabTerms cv corpus
  <-> (exists doc, doc ∈ corpus /\ t ∈ analyze cv doc) /\
      (MinDF cv <= Z.of_nat (docFreq cv corpus t))%Z.
Proof.
  unfold vocabTerms. rewrite sortStrings_elem.
  fold (VectorizerAux.keptTerms cv corpus). now rewrite keptTerms_elem, docFreq_pos.
Qed.

Lemma vocabTerms_perm cv corpus corpus' :
  corpus ≡ₚ corpus' -> vocabTerms cv corpus = vocabTerms cv corpus'.
Proof.
  intros Hp. unfold vocabTerms. apply sortStrings_order.
  fold (VectorizerAux.keptTerms cv corpus). fold (VectorizerAux.keptTerms cv corpus').
  apply NoDup_Permutation; try apply keptTerms_NoDup.
  intros t. rewrite !keptTerms_elem. now rewrite (docFreq_perm cv _ _ t Hp).
Qed.

End Fitted.

(** C7: after [Fit], the vocabulary maps exactly the distinct analyzed
    n-grams of the corpus whose document frequency is at least [MinDF];
    [VocabSize()] is their number; the column of a term is its position in
    their lexicographically sorted list, that is its lexicographic rank
    among them, so the columns are exactly [0 .. VocabSize()-1]; and the
    fitted vectorizer is the same for every order of the corpus and every
    order in which the maps are ranged over. *)
Theorem count_fit_vocabulary (text : TextPrims) (order : RangeOrder)
    (cv : t) (corpus : list string) :
  let fitted := Fit cv corpus in
  let terms := vocabTerms cv corpus in
  (forall term, is_Some (Vocabulary fitted !! term)
     <-> (exists doc, doc ∈ corpus /\ term ∈ analyze cv doc) /\
         (MinDF cv <= Z.of_nat (docFreq cv corpus term))%Z) /\
  VocabSize fitted = length terms /\
  NoDup terms /\
  (forall term i, Vocabulary fitted !! term = Some i
     <-> terms !! i = Some term) /\
  (forall term i, Vocabulary fitted !! term = Some i -> i = lexRank terms term) /\
  (forall i, (exists term, Vocabulary fitted !! term = Some i)
     <-> (i < VocabSize fitted)%nat) /\
  (forall (order' : RangeOrder) corpus', corpus' ≡ₚ corpus ->
     @Fit text order' cv corpus' = fitted).
Proof.
  cbn zeta.
  pose proof (vocabTerms_NoDup cv corpus) as Hnd.
  assert (Hlook : forall term i, Vocabulary (Fit cv corpus) !! term = Some i
                    <-> vocabTerms cv corpus !! i = Some term).
  { intros term i. rewrite Fit_Vocabulary. now apply indexTerms_lookup. }
  assert (Hsize : VocabSize (Fit cv corpus) = length (vocabTerms cv corpus)).
  { unfold VocabSize. rewrite Fit_Vocabulary. now apply indexTerms_size. }
  split; [|split; [|split; [|split; [|split; [|split]]]]].
  - intros term. rewrite <- vocabTerms_elem. split.
    + intros [i Hi]. apply Hlook in Hi. now apply list_elem_of_lookup_2 in Hi.
    + intros Hin. apply list_elem_of_lookup_1 in Hin. destruct Hin as [i Hi].
      exists i. now apply Hlook.
  - exact Hsize.
  - exact Hnd.
  - exact Hlook.
  - intros term i Hi. apply Hlook in Hi. symmetry.
    apply sorted_position_rank; auto. apply sortStrings_sorted.
  - intros i. rewrite Hsize. split.
    + intros [term Hi]. apply Hlook in Hi. now apply lookup_lt_Some in Hi.
    + intros Hi. apply lookup_lt_is_Some_2 in Hi. destruct Hi as [term Hi].
      exists term. now apply Hlook.
  - intros order' corpus' Hp.
    assert (Hv : forall o c, Vocabulary (@Fit text o cv c) = indexTerms (vocabTerms cv c)).
    { intros o c. apply (@Fit_Vocabulary text cv o). }
    assert (Hrec : forall o c, @Fit text o cv c
              = mk (Vocabulary (@Fit text o cv c)) (NgramRange cv) (Binary cv)
                   (Analyzer cv) (MinDF cv)) by reflexivity.
    rewrite (Hrec order'), (Hrec order), !Hv. 
    now rewrite (vocabTerms_perm cv corpus' corpus Hp).
Qed.

End CountFacts.

(** * Logistic regression: objective and gradient *)

Module LogRegFacts.

Import Loops LoopFacts Vectorizer Classifier.
Import LogRegAux (dotEntries).
Local Open Scope R_scope.

(** *** Slices *)

Lemma at1_addAt g i d q :
  (i < length g)%nat ->
  at1 (addAt g i d) q = at1 g q + (if (q =? i)%nat then d else 0).
Proof.
  intros Hi. unfold addAt, at1. rewrite !nth_lookup.
  destruct (Nat.eqb_spec q i) as [->|Hne].
  - rewrite list_lookup_insert_eq by exact Hi. cbn. lra.
  - rewrite list_lookup_insert_ne by congruence. lra.
Qed.

Lemma length_addAt g i d : length (addAt g i d) = length g.
Proof. apply length_insert. Qed.

Lemma length_window params offset n :
  (offset + n <= length params)%nat -> length (window params offset n) = n.
Proof.
  intros H. unfold window. rewrite length_take, length_drop. lia.
Qed.

Lemma at1_window params offset n i :
  (i < n)%nat -> at1 (window params offset n) i = at1 params (offset + i).
Proof.
  intros Hi. unfold window, at1. rewrite !nth_lookup.
  now rewrite lookup_take_lt, lookup_drop by exact Hi.
Qed.

Lemma at1_map (g : R -> R) l k :
  (k < length l)%nat -> at1 (map g l) k = g (at1 l k).
Proof.
  intros Hk. unfold at1.
  rewrite (nth_indep _ 0 (g 0)) by (rewrite length_map; exact Hk).
  apply map_nth.
Qed.

Lemma fold_left_Rplus_id (l : list R) (a : R) :
  fold_left (fun s p => s + p) l a = a + Rsum l.
Proof.
  revert a. induction l as [|v l IH]; intros a; cbn; [lra|]. rewrite IH. lra.
Qed.

Lemma block_inj D k i k' i' :
  (i <= D)%nat -> (i' <= D)%nat ->
  (k * (D + 1) + i = k' * (D + 1) + i')%nat -> k = k' /\ i = i'.
Proof.
  intros Hi Hi' Heq.
  destruct (lt_eq_lt_dec k k') as [[Hlt|Heq']|Hgt].
  - pose proof (Nat.mul_le_mono_r (S k) k' (D + 1) Hlt) as H.
    rewrite Nat.mul_succ_l in H. lia.
  - subst k'. lia.
  - pose proof (Nat.mul_le_mono_r (S k') k (D + 1) Hgt) as H.
    rewrite Nat.mul_succ_l in H. lia.
Qed.

Lemma block_bound K D k i :
  (k < K)%nat -> (i <= D)%nat -> (k * (D + 1) + i < K * (D + 1))%nat.
Proof.
  intros Hk Hi.
  pose proof (Nat.mul_le_mono_r (S k) K (D + 1) Hk) as H.
  rewrite Nat.mul_succ_l in H. lia.
Qed.

Lemma sumTo_single n idx (c : nat -> R) :
  (idx < n)%nat -> sumTo n (fun i => if (idx =? i)%nat then c i else 0) = c idx.
Proof.
  induction n as [|n IH]; intros Hidx; [lia|].
  rewrite sumTo_S. destruct (Nat.eqb_spec idx n) as [->|Hne].
  - rewrite sumTo_zero; [lra|]. intros i Hi.
    destruct (Nat.eqb_spec n i); [lia | reflexivity].
  - rewrite IH by lia. lra.
Qed.

(** *** Components and the sparse dot product *)

Lemma component_cons idx inds v vals dim i :
  component (mkSparse (idx :: inds) (v :: vals) dim) i
  = if (idx =? i)%nat then v else component (mkSparse inds vals dim) i.
Proof.
  unfold component. cbn [Indices Values indexOf].
  destruct (idx =? i)%nat; [reflexivity|].
  destruct (indexOf i inds); reflexivity.
Qed.

Lemma indexOf_None idx inds : idx ∉ inds -> indexOf idx inds = None.
Proof.
  induction inds as [|a inds IH]; intros Hnot; [reflexivity|]. cbn.
  destruct (Nat.eqb_spec a idx) as [->|Hne].
  - exfalso. apply Hnot. left.
  - rewrite IH; [reflexivity|]. intros Hin. apply Hnot. now right.
Qed.

Lemma component_absent inds vals dim i :
  i ∉ inds -> component (mkSparse inds vals dim) i = 0.
Proof. intros Hnot. unfold component. cbn. now rewrite indexOf_None. Qed.

Lemma fold_left_shift {A} (f : A -> nat -> A) n a :
  fold_left f (seq 1 n) a = fold_left (fun a p => f a (S p)) (seq 0 n) a.
Proof.
  rewrite <- seq_shift. generalize (seq 0 n). intros l. revert a.
  induction l as [|p l IH]; intros a; cbn; [reflexivity | apply IH].
Qed.

Lemma Dot_entries_from inds dense : forall vals sum,
  length vals = length inds ->
  fold_left (fun sum i =>
               let idx := nth i inds O in
               if (idx <? length dense)%nat then sum + at1 vals i * at1 dense idx
               else sum)
            (seq 0 (length inds)) sum
  = dotEntries inds vals dense sum.
Proof.
  induction inds as [|idx inds IH]; intros vals sum Hlen.
  - reflexivity.
  - destruct vals as [|v vals]; [discriminate|].
    cbn [length seq fold_left dotEntries]. rewrite fold_left_shift.
    cbn [nth]. change (at1 (v :: vals) 0) with v.
    rewrite <- IH by (cbn in Hlen; lia). reflexivity.
Qed.

Lemma Dot_entries inds vals dim dense : length vals = length inds ->
  Dot (mkSparse inds vals dim) dense = dotEntries inds vals dense 0.
Proof. intros Hlen. unfold Dot. cbn [Indices Values]. now apply Dot_entries_from. Qed.

Lemma dotEntries_sum inds vals dim dense sum :
  length vals = length inds -> NoDup inds ->
  Forall (fun idx => (idx < length dense)%nat) inds ->
  dotEntries inds vals dense sum
  = sum + sumTo (length dense)
            (fun i => at1 dense i * component (mkSparse inds vals dim) i).
Proof.
  revert vals sum. induction inds as [|idx inds IH]; intros vals sum Hlen Hnd Hall.
  - cbn. rewrite sumTo_zero; [lra|]. intros i _. unfold component. cbn. lra.
  - destruct vals as [|v vals]; [discriminate|].
    apply NoDup_cons in Hnd. destruct Hnd as [Hnot Hnd].
    apply Forall_cons in Hall. destruct Hall as [Hidx Hall].
    cbn [dotEntries]. destruct (Nat.ltb_spec idx (length dense)) as [_|Hge]; [|lia].
    rewrite IH by (auto; cbn in Hlen; lia).
    rewrite (sumTo_ext _ (fun i => at1 dense i * component (mkSparse (idx :: inds) (v :: vals) dim) i)
               (fun i => at1 dense i * component (mkSparse inds vals dim) i
                         + (if (idx =? i)%nat then at1 dense i * v else 0))).
    + rewrite sumTo_plus, sumTo_single by exact Hidx. lra.
    + intros i _. rewrite component_cons.
      destruct (Nat.eqb_spec idx i) as [->|Hne]; [|lra].
      rewrite (component_absent inds vals dim i Hnot). lra.
Qed.

Lemma Dot_sum x dense dim :
  wellFormed dim x -> (dim <= length dense)%nat ->
  Dot x dense = sumTo (length dense) (fun i => at1 dense i * component x i).
Proof.
  intros (Hnd & Hlen & Hall) Hdim. destruct x as [inds vals d].
  cbn [Indices Values] in Hnd, Hlen, Hall.
  rewrite Dot_entries by exact Hlen.
  rewrite (dotEntries_sum inds vals d); [lra | exact Hlen | exact Hnd |].
  eapply Forall_impl; [exact Hall|]. cbn. intros; lia.
Qed.

Section Objective.

Variable x : list SparseVector.
Variable y : list nat.
Variable params : list R.
Variables K D : nat.
Variable c : R.

Hypothesis HK : (1 <= K)%nat.
Hypothesis Hparams : length params = (K * (D + 1))%nat.
Hypothesis Hx : Forall (wellFormed D) x.
Hypothesis Hy : forall j, (j < length x)%nat -> (nth j y O < K)%nat.

Local Abbreviation xAt := (LogRegAux.xAt x).
Local Abbreviation probsOf := (LogRegAux.probsOf x params K D).
Local Abbreviation entryStep := LogRegAux.entryStep.
Local Abbreviation classEffect := (LogRegAux.classEffect D).
Local Abbreviation dataStep := (LogRegAux.dataStep x y params K D).
Local Abbreviation exampleTerm := (LogRegAux.exampleTerm x y params K D).
Local Abbreviation regEntry := (LogRegAux.regEntry params D c).

Lemma xAt_wellFormed j : (j < length x)%nat -> wellFormed D (xAt j).
Proof.
  intros Hj. unfold xAt.
  apply (proj1 (List.Forall_nth _ x) Hx j (NewSparseVector O) Hj).
Qed.

Lemma exampleLogits_at j k :
  (j < length x)%nat -> (k < K)%nat ->
  at1 (exampleLogits (xAt j) params K D) k = classScore params D (xAt j) k.
Proof.
  intros Hj Hk. unfold exampleLogits. rewrite at1_tabulate by exact Hk.
  unfold classScore, interceptOf. f_equal.
  assert (Hw : length (window params (k * (D + 1)) D) = D).
  { apply length_window. rewrite Hparams.
    pose proof (block_bound K D k D Hk ltac:(lia)). lia. }
  rewrite (Dot_sum _ _ D (xAt_wellFormed j Hj)) by lia.
  rewrite Hw. apply sumTo_ext. intros i Hi.
  now rewrite at1_window by exact Hi.
Qed.

Lemma softmax_at (z : nat -> R) k :
  (k < K)%nat -> at1 (softmax (tabulate K z)) k = softmaxOf K z k.
Proof.
  intros Hk. unfold softmax.
  set (m := fold_left (fun mx l => if Rgt_dec l mx then l else mx) _ _).
  rewrite at1_map by (rewrite length_map, length_tabulate; exact Hk).
  rewrite at1_map by (rewrite length_tabulate; exact Hk).
  rewrite at1_tabulate by exact Hk.
  rewrite fold_left_Rplus_id, Rplus_0_l.
  unfold tabulate. rewrite map_map, <- sumTo_Rsum.
  rewrite (sumTo_ext K _ (fun i => exp (z i) * exp (- m))).
  - rewrite sumTo_scale. unfold softmaxOf.
    assert (Hpos : 0 < sumTo K (fun i => exp (z i))).
    { apply sumTo_pos; [lia|]. intros; apply exp_pos. }
    pose proof (exp_pos (- m)) as Hm.
    unfold Rminus. rewrite exp_plus. field. split; lra.
  - intros i _. unfold Rminus. now rewrite exp_plus.
Qed.

Lemma softmaxOf_pos z k : 0 < softmaxOf K z k.
Proof.
  unfold softmaxOf. apply Rdiv_lt_0_compat; [apply exp_pos|].
  apply sumTo_pos; [lia|]. intros; apply exp_pos.
Qed.

Lemma probsOf_at j k :
  (j < length x)%nat -> (k < K)%nat ->
  at1 (probsOf j) k = softmaxOf K (classScore params D (xAt j)) k.
Proof.
  intros Hj Hk. unfold probsOf.
  assert (Hl : exampleLogits (xAt j) params K D
               = tabulate K (classScore params D (xAt j))).
  { apply nth_ext with (d := 0) (d' := 0).
    - unfold exampleLogits. now rewrite !length_tabulate.
    - intros i Hi. unfold exampleLogits in Hi. rewrite length_tabulate in Hi.
      change (at1 (exampleLogits (xAt j) params K D) i
              = at1 (tabulate K (classScore params D (xAt j))) i).
      rewrite exampleLogits_at, at1_tabulate by auto. reflexivity. }
  rewrite Hl. now apply softmax_at.
Qed.

(** *** The gradient updates of one example *)

Lemma entryStep_at xj offset diff grad idx q :
  (offset + idx < length grad)%nat ->
  at1 (entryStep xj offset diff grad idx) q
  = at1 grad q + (if (q =? offset + idx)%nat then diff * component xj idx else 0).
Proof.
  intros Hb. unfold entryStep, component.
  destruct (indexOf idx (Indices xj)) as [vi|].
  - now rewrite at1_addAt by exact Hb.
  - destruct (q =? offset + idx)%nat; lra.
Qed.

Lemma entryStep_length xj offset diff grad idx :
  length (entryStep xj offset diff grad idx) = length grad.
Proof.
  unfold entryStep. destruct (indexOf idx (Indices xj)); [apply length_addAt | reflexivity].
Qed.

Lemma entries_length xj offset diff l grad :
  length (fold_left (entryStep xj offset diff) l grad) = length grad.
Proof.
  revert grad. induction l as [|idx l IH]; intros grad; cbn; [reflexivity|].
  now rewrite IH, entryStep_length.
Qed.

Lemma entries_at xj offset diff l : forall grad q,
  Forall (fun idx => (offset + idx < length grad)%nat) l ->
  at1 (fold_left (entryStep xj offset diff) l grad) q
  = at1 grad q
    + Rsum (map (fun idx => if (q =? offset + idx)%nat
                            then diff * component xj idx else 0) l).
Proof.
  induction l as [|idx l IH]; intros grad q Hall; cbn [fold_left map Rsum]; [lra|].
  apply Forall_cons in Hall. destruct Hall as [Hidx Hall].
  rewrite IH.
  - rewrite entryStep_at by exact Hidx. lra.
  - eapply Forall_impl; [exact Hall|]. cbn. intros a Ha.
    now rewrite entryStep_length.
Qed.

Lemma Rsum_pick l i (f : nat -> R) :
  NoDup l ->
  Rsum (map (fun idx => if (i =? idx)%nat then f idx else 0) l)
  = if decide (i ∈ l) then f i else 0.
Proof.
  induction l as [|a l IH]; intros Hnd; cbn [map Rsum].
  - destruct (decide (i ∈ [])) as [Hin|_]; [now apply elem_of_nil in Hin | reflexivity].
  - apply NoDup_cons in Hnd. destruct Hnd as [Hnot Hnd]. rewrite IH by exact Hnd.
    destruct (Nat.eqb_spec i a) as [->|Hne].
    + destruct (decide (a ∈ l)) as [Hin|_]; [contradiction|].
      destruct (decide (a ∈ a :: l)) as [_|Hno]; [lra|]. exfalso. apply Hno. left.
    + destruct (decide (i ∈ l)) as [Hin|Hno];
        destruct (decide (i ∈ a :: l)) as [Hin'|Hno']; try lra.
      * exfalso. apply Hno'. now right.
      * exfalso. apply elem_of_cons in Hin'. destruct Hin'; [congruence | contradiction].
Qed.

Lemma component_not_in xj i : i ∉ Indices xj -> component xj i = 0.
Proof. intros Hnot. unfold component. now rewrite indexOf_None. Qed.

Lemma exampleGradClass_length xj yj probs grad k :
  length (exampleGradClass xj yj probs D grad k) = length grad.
Proof.
  unfold exampleGradClass. rewrite length_addAt.
  apply (entries_length xj).
Qed.

Lemma exampleGradClass_at xj yj probs grad k k' i' :
  wellFormed D xj -> length grad = (K * (D + 1))%nat ->
  (k < K)%nat -> (k' < K)%nat -> (i' <= D)%nat ->
  at1 (exampleGradClass xj yj probs D grad k) (k' * (D + 1) + i')
  = at1 grad (k' * (D + 1) + i')
    + classEffect xj (at1 probs k - indicatorOf k yj) k k' i'.
Proof.
  intros (Hnd & Hlen & Hall) Hg Hk Hk' Hi'.
  unfold exampleGradClass. fold (indicatorOf k yj).
  set (diff := at1 probs k - indicatorOf k yj).
  change (fold_left _ (Indices xj) grad)
    with (fold_left (entryStep xj (k * (D + 1)) diff) (Indices xj) grad).
  rewrite at1_addAt.
  2:{ rewrite entries_length, Hg. apply block_bound; [exact Hk | lia]. }
  rewrite entries_at.
  2:{ eapply Forall_impl; [exact Hall|]. cbn. intros idx Hidx.
      rewrite Hg. apply block_bound; [exact Hk | lia]. }
  unfold classEffect. destruct (Nat.eqb_spec k' k) as [->|Hne].
  - rewrite (Rsum_map_ext _ (fun idx => if (i' =? idx)%nat
                                         then diff * component xj idx else 0)).
    2:{ intros idx Hin. destruct (Nat.eqb_spec (k * (D + 1) + i') (k * (D + 1) + idx));
          destruct (Nat.eqb_spec i' idx); try reflexivity; lia. }
    rewrite Rsum_pick by exact Hnd.
    destruct (Nat.ltb_spec i' D) as [Hlt|Hge].
    + destruct (Nat.eqb_spec (k * (D + 1) + i') (k * (D + 1) + D)); [lia|].
      destruct (decide (i' ∈ Indices xj)) as [_|Hno]; [lra|].
      rewrite (component_not_in xj i' Hno). lra.
    + assert (i' = D) by lia. subst i'. rewrite Nat.eqb_refl.
      destruct (decide (D ∈ Indices xj)) as [Hin|_]; [|lra].
      rewrite Forall_forall in Hall. specialize (Hall D Hin). lia.
  - rewrite (Rsum_map_ext _ (fun _ => 0)).
    2:{ intros idx Hin. apply list_elem_of_In in Hin.
        rewrite Forall_forall in Hall. specialize (Hall idx Hin).
        destruct (Nat.eqb_spec (k' * (D + 1) + i') (k * (D + 1) + idx)) as [E|_];
          [|reflexivity].
        apply block_inj in E; [tauto | lia | lia]. }
    assert (Hz : forall l : list nat, Rsum (map (fun _ => 0) l) = 0).
    { induction l as [|a l IH]; cbn; [reflexivity | rewrite IH; lra]. }
    rewrite Hz.
    destruct (Nat.eqb_spec (k' * (D + 1) + i') (k * (D + 1) + D)) as [E|_]; [|lra].
    apply block_inj in E; [tauto | lia | lia].
Qed.

Lemma classes_at xj yj probs k' i' n : forall grad,
  wellFormed D xj -> length grad = (K * (D + 1))%nat ->
  (n <= K)%nat -> (k' < K)%nat -> (i' <= D)%nat ->
  length (fold_left (exampleGradClass xj yj probs D) (seq 0 n) grad) = length grad /\
  at1 (fold_left (exampleGradClass xj yj probs D) (seq 0 n) grad) (k' * (D + 1) + i')
  = at1 grad (k' * (D + 1) + i')
    + (if (k' <? n)%nat
       then classEffect xj (at1 probs k' - indicatorOf k' yj) k' k' i' else 0).
Proof.
  induction n as [|n IH]; intros grad Hwf Hg Hn Hk' Hi'.
  - cbn [seq fold_left]. destruct (Nat.ltb_spec k' 0); [lia|].
    split; [reflexivity | lra].
  - rewrite seq_S, fold_left_app. cbn [fold_left Nat.add].
    destruct (IH grad Hwf Hg ltac:(lia) Hk' Hi') as [Hlen Hat].
    split; [now rewrite exampleGradClass_length|].
    rewrite exampleGradClass_at by (auto; lia). rewrite Hat.
    unfold classEffect. rewrite Nat.eqb_refl.
    destruct (Nat.ltb_spec k' n), (Nat.ltb_spec k' (S n)), (Nat.eqb_spec k' n);
      try lia; subst; lra.
Qed.

(** *** The loop over the examples *)

Lemma data_loop n k' i' :
  (n <= length x)%nat -> (k' < K)%nat -> (i' <= D)%nat ->
  let lg := fold_left dataStep (seq 0 n) (0, replicate (length params) 0) in
  fst lg = sumTo n (fun j =>
             - ln (softmaxOf K (classScore params D (xAt j)) (nth j y O))) /\
  length (snd lg) = (K * (D + 1))%nat /\
  at1 (snd lg) (k' * (D + 1) + i') = sumTo n (exampleTerm k' i').
Proof.
  intros Hn Hk' Hi'. cbn zeta. induction n as [|n IH].
  - cbn [seq fold_left fst snd]. rewrite !sumTo_0.
    split; [reflexivity|]. split; [now rewrite length_replicate|].
    unfold at1. rewrite nth_lookup.
    destruct (replicate (length params) 0 !! (k' * (D + 1) + i')%nat) as [v|] eqn:E;
      [|reflexivity].
    apply lookup_replicate in E. cbn. tauto.
  - rewrite seq_S, fold_left_app. cbn [fold_left Nat.add].
    destruct (IH ltac:(lia)) as (Hloss & Hlen & Hat).
    set (lg := fold_left dataStep (seq 0 n) _) in *.
    assert (Hj : (n < length x)%nat) by lia.
    pose proof (probsOf_at n (nth n y O) Hj (Hy n Hj)) as Hp.
    pose proof (softmaxOf_pos (classScore params D (xAt n)) (nth n y O)) as Hpos.
    assert (Hstep : dataStep lg n
              = (fst lg - ln (at1 (probsOf n) (nth n y O)),
                 fold_left (exampleGradClass (xAt n) (nth n y O) (probsOf n) D)
                           (seq 0 K) (snd lg))).
    { unfold dataStep. fold (xAt n). fold (probsOf n).
      destruct (Rgt_dec (at1 (probsOf n) (nth n y O)) 0) as [_|Hno]; [reflexivity|lra]. }
    rewrite Hstep. cbn [fst snd]. rewrite !sumTo_S.
    destruct (classes_at (xAt n) (nth n y O) (probsOf n) k' i' K (snd lg)
                (xAt_wellFormed n Hj) Hlen ltac:(lia) Hk' Hi') as [Hlen' Hat'].
    split; [rewrite Hloss, Hp; lra|]. split; [now rewrite Hlen'|].
    rewrite Hat', Hat. destruct (Nat.ltb_spec k' K) as [_|]; [|lia].
    unfold classEffect, exampleTerm. rewrite Nat.eqb_refl.
    rewrite (probsOf_at n k' Hj Hk'). reflexivity.
Qed.

(** *** The regularisation loop *)

Lemma reg_inner k m k' i' : forall lg,
  length (snd lg) = (K * (D + 1))%nat ->
  (k < K)%nat -> (m <= D)%nat -> (k' < K)%nat -> (i' <= D)%nat ->
  let lg' := fold_left (regEntry k) (seq 0 m) lg in
  fst lg' = fst lg + 1 / 2 * (1 / c)
                     * sumTo m (fun i => weightOf params D k i * weightOf params D k i) /\
  length (snd lg') = (K * (D + 1))%nat /\
  at1 (snd lg') (k' * (D + 1) + i')
  = at1 (snd lg) (k' * (D + 1) + i')
    + (if (k' =? k)%nat && (i' <? m)%nat then 1 / c * weightOf params D k' i' else 0).
Proof.
  intros lg Hlen Hk Hm Hk' Hi'. cbn zeta. induction m as [|m IH].
  - cbn [seq fold_left]. rewrite sumTo_0, andb_false_r.
    split; [lra|]. split; [exact Hlen | lra].
  - rewrite seq_S, fold_left_app. cbn [fold_left Nat.add].
    destruct (IH ltac:(lia)) as (Hloss & Hlen' & Hat).
    set (lg' := fold_left (regEntry k) (seq 0 m) lg) in *.
    unfold regEntry. cbn [fst snd]. rewrite sumTo_S.
    split; [rewrite Hloss; unfold weightOf; lra|].
    split; [now rewrite length_addAt|].
    rewrite at1_addAt by (rewrite Hlen'; apply block_bound; [exact Hk | lia]).
    rewrite Hat.
    destruct (Nat.eqb_spec (k' * (D + 1) + i') (k * (D + 1) + m)) as [E|NE].
    + apply block_inj in E; [|lia|lia]. destruct E as [-> ->].
      rewrite Nat.eqb_refl. cbn [andb].
      destruct (Nat.ltb_spec m m); [lia|].
      destruct (Nat.ltb_spec m (S m)); [|lia]. unfold weightOf. lra.
    + destruct (Nat.eqb_spec k' k) as [->|Hne]; cbn [andb]; [|lra].
      destruct (Nat.ltb_spec i' m), (Nat.ltb_spec i' (S m)); try lia; try lra.
Qed.

Lemma reg_outer n k' i' : forall lg,
  length (snd lg) = (K * (D + 1))%nat ->
  (n <= K)%nat -> (k' < K)%nat -> (i' <= D)%nat ->
  let lg' := fold_left (fun lg k => fold_left (regEntry k) (seq 0 D) lg) (seq 0 n) lg in
  fst lg' = fst lg + 1 / 2 * (1 / c)
                     * sumTo n (fun k =>
                         sumTo D (fun i => weightOf params D k i * weightOf params D k i)) /\
  length (snd lg') = (K * (D + 1))%nat /\
  at1 (snd lg') (k' * (D + 1) + i')
  = at1 (snd lg) (k' * (D + 1) + i')
    + (if (k' <? n)%nat && (i' <? D)%nat then 1 / c * weightOf params D k' i' else 0).
Proof.
  intros lg Hlen Hn Hk' Hi'. cbn zeta. induction n as [|n IH].
  - cbn [seq fold_left]. rewrite sumTo_0. cbn [Nat.ltb Nat.leb andb].
    split; [lra|]. split; [exact Hlen | lra].
  - rewrite seq_S, fold_left_app. cbn [fold_left Nat.add].
    destruct (IH ltac:(lia)) as (Hloss & Hlen' & Hat).
    set (lg' := fold_left _ (seq 0 n) lg) in *.
    destruct (reg_inner n D k' i' lg' Hlen' ltac:(lia) ltac:(lia) Hk' Hi')
      as (Hloss2 & Hlen2 & Hat2).
    cbn zeta in Hloss2, Hlen2, Hat2.
    rewrite sumTo_S. split; [rewrite Hloss2, Hloss; lra|].
    split; [exact Hlen2|]. rewrite Hat2, Hat.
    destruct (Nat.ltb_spec k' n), (Nat.ltb_spec k' (S n)), (Nat.eqb_spec k' n);
      try lia; cbn [andb]; destruct (i' <? D)%nat; lra.
Qed.

Lemma logRegObjective_loops :
  logRegObjective x y params K D c
  = fold_left (fun lg k => fold_left (regEntry k) (seq 0 D) lg) (seq 0 K)
              (fold_left dataStep (seq 0 (length x)) (0, replicate (length params) 0)).
Proof. reflexivity. Qed.

End Objective.



End LogRegFacts.

(** * Text utilities: whitespace normalisation and token n-grams *)

Module TextFacts.

Import Textutil TextAux.
Local Open Scope string_scope.

Lemma isNewline_isSpace c : isNewline c = true -> isSpace c = true.
Proof.
  unfold isNewline, isSpace. cbn zeta.
  destruct (Ascii.nat_of_ascii c =? 10)%nat, (Ascii.nat_of_ascii c =? 13)%nat;
    rewrite ?orb_true_r; simpl; congruence.
Qed.

Lemma notSpace_notNewline c : isSpace c = false -> isNewline c = false.
Proof.
  intros H. destruct (isNewline c) eqn:E; [|reflexivity].
  apply isNewline_isSpace in E. congruence.
Qed.

Lemma replaceNewlines_noNewlines s : noNewlines (replaceNewlines s) = true.
Proof.
  induction s as [|c s IH]; simpl; [reflexivity|].
  rewrite IH, andb_true_r. destruct (isNewline c) eqn:E; [reflexivity|].
  now rewrite E.
Qed.

Lemma replaceNewlines_fixed s : noNewlines s = true -> replaceNewlines s = s.
Proof.
  induction s as [|c s IH]; simpl; [reflexivity|].
  intros H. apply andb_true_iff in H. destruct H as [Hc Hs].
  apply negb_true_iff in Hc. now rewrite Hc, IH.
Qed.

Lemma replaceNewlines_ink s : inkOf (replaceNewlines s) = inkOf s.
Proof.
  induction s as [|c s IH]; simpl; [reflexivity|].
  destruct (isNewline c) eqn:E.
  - rewrite (isNewline_isSpace c E). exact IH.
  - now rewrite IH.
Qed.

Lemma normalised_noNewlines s b : normalised s b = true -> noNewlines s = true.
Proof.
  revert b. induction s as [|c s IH]; intros b; simpl; [reflexivity|].
  intros H. apply andb_true_iff in H. destruct H as [H Hs].
  apply andb_true_iff in H. destruct H as [Hc _].
  now rewrite Hc, (IH _ Hs).
Qed.

Lemma normalised_after_ink c s :
  isSpace c = false -> normalised s false = true ->
  forall b, normalised (String c s) b = true.
Proof.
  intros Hc Hs b. simpl. rewrite Hc, (notSpace_notNewline c Hc), andb_false_r.
  exact Hs.
Qed.

Lemma collapse_normalised s : forall run,
  noNewlines s = true -> heldNoNewline run ->
  normalised (collapseSpaces s run) false = true.
Proof.
  induction s as [|c s IH]; intros run Hs Hrun.
  - destruct run as [|w|]; simpl; [reflexivity| |reflexivity].
    simpl in Hrun. now rewrite Hrun.
  - simpl in Hs. apply andb_true_iff in Hs. destruct Hs as [Hc Hs].
    apply negb_true_iff in Hc. simpl.
    destruct (isSpace c) eqn:E.
    + apply IH; [exact Hs|]. destruct run; simpl; auto.
    + pose proof (normalised_after_ink c _ E (IH NoRun Hs I)) as Hrest.
      destruct run as [|w|].
      * exact (Hrest false).
      * simpl in Hrun.
        change (normalised (String w (String c (collapseSpaces s NoRun))) false = true).
        cbn [normalised]. rewrite Hrun. simpl. exact (Hrest (isSpace w)).
      * change (normalised (String Ascii.Space (String c (collapseSpaces s NoRun))) false
                = true).
        cbn [normalised]. simpl. exact (Hrest true).
Qed.

Lemma collapse_fixed s :
  (normalised s false = true -> collapseSpaces s NoRun = s) /\
  (forall w, normalised s true = true -> collapseSpaces s (OneSpace w) = String w s).
Proof.
  induction s as [|c s [IH0 IH1]]; [split; reflexivity|].
  split.
  - simpl. intros H. apply andb_true_iff in H. destruct H as [_ Hs].
    destruct (isSpace c) eqn:E.
    + now apply IH1.
    + simpl. now rewrite IH0.
  - intros w. simpl. intros H. apply andb_true_iff in H. destruct H as [H Hs].
    apply andb_true_iff in H. destruct H as [_ Hc].
    destruct (isSpace c) eqn:E; [discriminate|].
    simpl. now rewrite IH0.
Qed.

Lemma collapse_ink s : forall run,
  heldSpace run -> inkOf (collapseSpaces s run) = inkOf s.
Proof.
  induction s as [|c s IH]; intros run Hrun.
  - destruct run as [|w|]; simpl; [reflexivity| |reflexivity].
    simpl in Hrun. now rewrite Hrun.
  - simpl. destruct (isSpace c) eqn:E.
    + apply IH. destruct run; simpl; auto.
    + destruct run as [|w|]; simpl.
      * now rewrite E, (IH NoRun I).
      * simpl in Hrun. now rewrite Hrun, E, (IH NoRun I).
      * now rewrite E, (IH NoRun I).
Qed.

(** X1: [NormalizeWhitespaces] returns a text in normal form: no line feed,
    no carriage return and no two adjacent whitespace bytes.  It changes
    whitespace only: the other bytes of its result are those of the text,
    in order.  A text already in normal form is returned as it is, so
    normalising twice is normalising once. *)
Theorem NormalizeWhitespaces_normal_form (text : string) :
  normalised (NormalizeWhitespaces text) false = true /\
  inkOf (NormalizeWhitespaces text) = inkOf text /\
  (normalised text false = true -> NormalizeWhitespaces text = text) /\
  NormalizeWhitespaces (NormalizeWhitespaces text) = NormalizeWhitespaces text.
Proof.
  assert (Hn : normalised (NormalizeWhitespaces text) false = true).
  { apply collapse_normalised; [apply replaceNewlines_noNewlines | exact I]. }
  assert (Hfix : forall s, normalised s false = true -> NormalizeWhitespaces s = s).
  { intros s Hs. unfold NormalizeWhitespaces.
    rewrite replaceNewlines_fixed by (eapply normalised_noNewlines; exact Hs).
    now apply collapse_fixed. }
  split; [exact Hn|]. split; [|split].
  - unfold NormalizeWhitespaces. rewrite collapse_ink by exact I.
    apply replaceNewlines_ink.
  - apply Hfix.
  - now apply Hfix.
Qed.

(** *** Token n-grams *)

Lemma map_seq_succ {A} (f : nat -> A) n :
  map f (seq 1 n) = map (fun i => f (S i)) (seq 0 n).
Proof. now rewrite <- seq_shift, map_map. Qed.

Lemma windows_one (tokens : list string) :
  map (fun i => Join (slice tokens i 1) " ") (seq 0 (length tokens)) = tokens.
Proof.
  induction tokens as [|a l IH]; [reflexivity|].
  cbn [length seq map]. rewrite map_seq_succ. f_equal. exact IH.
Qed.

Lemma windows_two (tokens : list string) :
  map (fun i => Join (slice tokens i 2) " ") (seq 0 (length tokens - 1))
  = adjacentPairs tokens.
Proof.
  induction tokens as [|a l IH]; [reflexivity|].
  destruct l as [|b l]; [reflexivity|].
  cbn [length Nat.sub].
  cbn [seq map]. rewrite map_seq_succ.
  change (adjacentPairs (a :: b :: l)) with ((a +:+ " " +:+ b) :: adjacentPairs (b :: l)).
  f_equal.
  cbn [length Nat.sub] in IH. rewrite Nat.sub_0_r in IH. exact IH.
Qed.

Lemma ngramSizes_count minN maxN len :
  length (ngramSizes minN maxN len) = Z.to_nat (Z.min maxN len - minN + 1).
Proof. unfold ngramSizes. now rewrite length_map, length_seq. Qed.

(** X2: [TokenNgrams(tokens, 1, 1)] is the tokens themselves;
    [TokenNgrams(tokens, 1, 2)] is the tokens followed by every two adjacent
    tokens joined by a space; and the result is empty when [minN] exceeds
    the number of tokens or [maxN]. *)
Theorem TokenNgrams_unigrams_bigrams (tokens : list string) :
  TokenNgrams tokens 1 1 = tokens /\
  TokenNgrams tokens 1 2 = (tokens ++ adjacentPairs tokens)%list /\
  (forall minN maxN,
     (Z.of_nat (length tokens) < minN \/ maxN < minN)%Z ->
     TokenNgrams tokens minN maxN = []).
Proof.
  split; [|split].
  - unfold TokenNgrams, ngramSizes, ngramStarts.
    destruct tokens as [|a l]; [reflexivity|].
    replace (Z.to_nat (Z.min 1 (Z.of_nat (length (a :: l))) - 1 + 1)) with 1%nat
      by (cbn [length]; lia).
    cbn [seq map flat_map]. rewrite app_nil_r.
    replace (Z.to_nat (Z.of_nat (length (a :: l)) - (1 + Z.of_nat 0) + 1))
      with (length (a :: l)) by lia.
    apply (windows_one (a :: l)).
  - unfold TokenNgrams, ngramSizes, ngramStarts.
    destruct tokens as [|a l]; [reflexivity|].
    destruct l as [|b l]; [reflexivity|].
    set (tokens := a :: b :: l).
    replace (Z.to_nat (Z.min 2 (Z.of_nat (length tokens)) - 1 + 1)) with 2%nat
      by (unfold tokens; cbn [length]; lia).
    cbn [seq map flat_map]. rewrite app_nil_r.
    replace (Z.to_nat (Z.of_nat (length tokens) - (1 + Z.of_nat 0) + 1))
      with (length tokens) by lia.
    replace (Z.to_nat (Z.of_nat (length tokens) - (1 + Z.of_nat 1) + 1))
      with (length tokens - 1)%nat by lia.
    f_equal; [apply (windows_one tokens) | apply (windows_two tokens)].
  - intros minN maxN H. unfold TokenNgrams, ngramSizes.
    replace (Z.to_nat (Z.min maxN (Z.of_nat (length tokens)) - minN + 1)) with O by lia.
    reflexivity.
Qed.

End TextFacts.

(** * Sparse vectors: entries, dense form and concatenation *)

Module SparseFacts.

Import Loops LoopFacts Vectorizer Classifier SparseAux LogRegFacts.
Import LogRegAux (dotEntries).
Local Open Scope R_scope.

Lemma list_eq_at1 (l1 l2 : list R) :
  length l1 = length l2 ->
  (forall i, (i < length l1)%nat -> at1 l1 i = at1 l2 i) -> l1 = l2.
Proof. intros Hlen H. apply nth_ext with (d := 0) (d' := 0); auto. Qed.

Lemma at1_insert (l : list R) i j v :
  (i < length l)%nat ->
  at1 (<[i := v]> l) j = if (j =? i)%nat then v else at1 l j.
Proof.
  intros Hi. unfold at1. destruct (Nat.eqb_spec j i) as [->|Hne].
  - apply nth_lookup_Some. now apply list_lookup_insert_eq.
  - destruct (l !! j) as [x|] eqn:E.
    + rewrite (nth_lookup_Some _ _ _ x) by (rewrite list_lookup_insert_ne; auto).
      symmetry. now apply nth_lookup_Some.
    + apply lookup_ge_None in E.
      rewrite !nth_overflow; auto. now rewrite length_insert.
Qed.

Lemma at1_app_l (l1 l2 : list R) i :
  (i < length l1)%nat -> at1 (l1 ++ l2) i = at1 l1 i.
Proof. intros. unfold at1. now apply app_nth1. Qed.

Lemma at1_app_r (l1 l2 : list R) i :
  at1 (l1 ++ l2) (length l1 + i) = at1 l2 i.
Proof.
  unfold at1. rewrite app_nth2 by lia. f_equal. lia.
Qed.

Lemma at1_overflow (l : list R) i : (length l <= i)%nat -> at1 l i = 0.
Proof. intros. unfold at1. now apply nth_overflow. Qed.

(** *** Positions of indices *)

Lemma indexOf_Some idx l k : indexOf idx l = Some k -> l !! k = Some idx.
Proof.
  revert k. induction l as [|a l IH]; intros k; cbn; [discriminate|].
  destruct (Nat.eqb_spec a idx) as [->|Hne].
  - intros [= <-]. reflexivity.
  - destruct (indexOf idx l) as [k'|]; cbn; [|discriminate].
    intros [= <-]. cbn. now apply IH.
Qed.

Lemma indexOf_elem idx l : idx ∈ l -> is_Some (indexOf idx l).
Proof.
  intros Hin. destruct (indexOf idx l) eqn:E; [eauto|].
  exfalso. revert Hin E. induction l as [|a l IH]; intros Hin E.
  - now apply elem_of_nil in Hin.
  - cbn in E. destruct (Nat.eqb_spec a idx) as [->|Hne]; [discriminate|].
    apply elem_of_cons in Hin. destruct Hin as [->|Hin]; [congruence|].
    destruct (indexOf idx l); [discriminate | now apply IH].
Qed.

Lemma indexOf_not_elem idx l : indexOf idx l = None -> idx ∉ l.
Proof.
  intros E Hin. apply indexOf_elem in Hin. rewrite E in Hin. now destruct Hin.
Qed.

Lemma indexOf_app_l idx l l' k :
  indexOf idx l = Some k -> indexOf idx (l ++ l') = Some k.
Proof.
  revert k. induction l as [|a l IH]; intros k; cbn; [discriminate|].
  destruct (a =? idx)%nat; [auto|].
  destruct (indexOf idx l) as [k'|]; cbn; [|discriminate].
  intros [= <-]. now rewrite (IH k').
Qed.

Lemma indexOf_app_r idx l l' :
  idx ∉ l ->
  indexOf idx (l ++ l') = (fun k => (length l + k)%nat) <$> indexOf idx l'.
Proof.
  induction l as [|a l IH]; intros Hnot; cbn.
  - now destruct (indexOf idx l').
  - destruct (Nat.eqb_spec a idx) as [->|Hne].
    + exfalso. apply Hnot. left.
    + rewrite IH by (intros Hin; apply Hnot; now right).
      now destruct (indexOf idx l').
Qed.

Lemma indexOf_shift idx l d :
  (d <= idx)%nat ->
  indexOf idx (map (fun i => (i + d)%nat) l) = indexOf (idx - d) l.
Proof.
  intros Hd. induction l as [|a l IH]; [reflexivity|]. cbn.
  destruct (Nat.eqb_spec (a + d) idx) as [E|N], (Nat.eqb_spec a (idx - d)) as [E'|N'];
    try lia; [reflexivity|]. now rewrite IH.
Qed.

Lemma indexOf_below idx l d :
  (idx < d)%nat -> indexOf idx (map (fun i => (i + d)%nat) l) = None.
Proof.
  intros Hd. induction l as [|a l IH]; [reflexivity|]. cbn.
  destruct (Nat.eqb_spec (a + d) idx); [lia|]. now rewrite IH.
Qed.

Lemma component_elem x i vi :
  indexOf i (Indices x) = Some vi -> component x i = at1 (Values x) vi.
Proof. intros E. unfold component. now rewrite E. Qed.

(** *** The dense form *)

Lemma ToDense_entries_from dim inds : forall vals dense,
  length vals = length inds ->
  fold_left (fun dense i =>
               let idx := nth i inds O in
               if (idx <? dim)%nat then <[idx := at1 vals i]> dense else dense)
            (seq 0 (length inds)) dense
  = denseEntries dim inds vals dense.
Proof.
  induction inds as [|idx inds IH]; intros vals dense Hlen.
  - reflexivity.
  - destruct vals as [|v vals]; [discriminate|].
    cbn [length seq fold_left denseEntries]. rewrite fold_left_shift.
    cbn [nth]. change (at1 (v :: vals) 0) with v.
    rewrite <- IH by (cbn in Hlen; lia). reflexivity.
Qed.

Lemma ToDense_entries inds vals dim :
  length vals = length inds ->
  ToDense (mkSparse inds vals dim) = denseEntries dim inds vals (replicate dim 0).
Proof. intros Hlen. unfold ToDense. cbn [Indices Values Dim]. now apply ToDense_entries_from. Qed.

Lemma denseEntries_length dim inds : forall vals dense,
  length (denseEntries dim inds vals dense) = length dense.
Proof.
  induction inds as [|idx inds IH]; intros vals dense; [reflexivity|].
  destruct vals as [|v vals]; [reflexivity|]. cbn [denseEntries].
  rewrite IH. destruct (idx <? dim)%nat; [apply length_insert | reflexivity].
Qed.

Lemma denseEntries_at dim inds : forall vals dense i,
  length vals = length inds -> NoDup inds ->
  Forall (fun idx => (idx < dim)%nat) inds -> (dim <= length dense)%nat ->
  at1 (denseEntries dim inds vals dense) i
  = if decide (i ∈ inds) then component (mkSparse inds vals dim) i else at1 dense i.
Proof.
  induction inds as [|idx inds IH]; intros vals dense i Hlen Hnd Hall Hdim.
  - cbn. destruct (decide (i ∈ [])) as [Hin|_]; [|reflexivity].
    now apply elem_of_nil in Hin.
  - destruct vals as [|v vals]; [discriminate|].
    apply NoDup_cons in Hnd. destruct Hnd as [Hnot Hnd].
    apply Forall_cons in Hall. destruct Hall as [Hidx Hall].
    cbn [denseEntries]. destruct (Nat.ltb_spec idx dim) as [_|Hge]; [|lia].
    rewrite IH by (auto; cbn in Hlen; rewrite ?length_insert; lia).
    rewrite component_cons.
    destruct (Nat.eqb_spec idx i) as [->|Hne].
    + destruct (decide (i ∈ inds)) as [Hin|_]; [contradiction|].
      rewrite at1_insert by lia. rewrite Nat.eqb_refl.
      destruct (decide (i ∈ i :: inds)) as [_|Hout]; [reflexivity|].
      exfalso. apply Hout. left.
    + destruct (decide (i ∈ inds)) as [Hin|Hout].
      * destruct (decide (i ∈ idx :: inds)) as [_|Hout]; [reflexivity|].
        exfalso. apply Hout. now right.
      * rewrite at1_insert by lia.
        destruct (Nat.eqb_spec i idx); [lia|].
        destruct (decide (i ∈ idx :: inds)) as [Hin|_]; [|reflexivity].
        apply elem_of_cons in Hin. destruct Hin; [lia | contradiction].
Qed.

Lemma ToDense_length x : length (ToDense x) = Dim x.
Proof.
  unfold ToDense. generalize (seq 0 (length (Indices x))). intros l.
  assert (H : forall dense,
    length (fold_left (fun dense i =>
               let idx := nth i (Indices x) O in
               if (idx <? Dim x)%nat then <[idx := at1 (Values x) i]> dense else dense)
             l dense) = length dense).
  { induction l as [|i l IH]; intros dense; [reflexivity|]. cbn [fold_left].
    rewrite IH. destruct (_ <? _)%nat; [apply length_insert | reflexivity]. }
  rewrite H. apply length_replicate.
Qed.

Lemma at1_replicate_zero n i : at1 (replicate n 0) i = 0.
Proof.
  unfold at1. destruct (Nat.lt_ge_cases i n) as [Hlt|Hge].
  - apply nth_lookup_Some. now apply lookup_replicate_2.
  - apply nth_overflow. now rewrite length_replicate.
Qed.

Lemma ToDense_at x i :
  wellFormed (Dim x) x -> at1 (ToDense x) i = component x i.
Proof.
  intros (Hnd & Hlen & Hall). destruct x as [inds vals dim].
  cbn [Indices Values Dim] in *.
  rewrite ToDense_entries by exact Hlen.
  rewrite denseEntries_at by (auto; rewrite length_replicate; lia).
  destruct (decide (i ∈ inds)) as [_|Hout]; [reflexivity|].
  rewrite at1_replicate_zero. symmetry. now apply component_absent.
Qed.

(** *** [Set] *)

Lemma component_SetValue sv idx v i :
  NoDup (Indices sv) -> length (Values sv) = length (Indices sv) ->
  component (SetValue sv idx v) i = if (i =? idx)%nat then v else component sv i.
Proof.
  intros Hnd Hlen. unfold SetValue.
  destruct (indexOf idx (Indices sv)) as [k|] eqn:E.
  - pose proof (indexOf_Some _ _ _ E) as Hk.
    assert (Hklt : (k < length (Values sv))%nat)
      by (rewrite Hlen; eapply lookup_lt_Some; exact Hk).
    unfold component. cbn [Indices Values].
    destruct (Nat.eqb_spec i idx) as [->|Hne].
    + rewrite E, at1_insert by exact Hklt. now rewrite Nat.eqb_refl.
    + destruct (indexOf i (Indices sv)) as [vi|] eqn:Ei; [|reflexivity].
      rewrite at1_insert by exact Hklt.
      destruct (Nat.eqb_spec vi k) as [->|_]; [|reflexivity].
      apply indexOf_Some in Ei. congruence.
  - pose proof (indexOf_not_elem _ _ E) as Hnot.
    unfold component. cbn [Indices Values].
    destruct (indexOf i (Indices sv)) as [vi|] eqn:Ei.
    + rewrite (indexOf_app_l _ _ _ _ Ei).
      pose proof (indexOf_Some _ _ _ Ei) as Hvi.
      rewrite at1_app_l by (rewrite Hlen; eapply lookup_lt_Some; exact Hvi).
      destruct (Nat.eqb_spec i idx) as [->|_]; [|reflexivity].
      exfalso. apply Hnot. eapply list_elem_of_lookup_2. exact Hvi.
    + rewrite indexOf_app_r by (now apply indexOf_not_elem). cbn.
      destruct (Nat.eqb_spec idx i) as [->|Hne].
      * cbn. rewrite Nat.eqb_refl, Nat.add_0_r, <- Hlen.
        replace (length (Values sv)) with (length (Values sv) + 0)%nat at 1 by lia.
        now rewrite at1_app_r.
      * cbn. destruct (Nat.eqb_spec i idx); [lia | reflexivity].
Qed.

Lemma wellFormed_SetValue dim sv idx v :
  wellFormed dim sv -> (idx < dim)%nat -> wellFormed dim (SetValue sv idx v).
Proof.
  intros (Hnd & Hlen & Hall) Hidx. unfold SetValue.
  destruct (indexOf idx (Indices sv)) as [k|] eqn:E;
    unfold wellFormed; cbn [Indices Values].
  - split; [exact Hnd|]. split; [|exact Hall].
    rewrite <- Hlen. apply length_insert.
  - split; [|split].
    + apply NoDup_app. split; [exact Hnd|]. split.
      * intros x Hx Hx'. apply list_elem_of_singleton in Hx'. subst x.
        now apply (indexOf_not_elem _ _ E).
      * apply NoDup_singleton.
    + rewrite !length_app, Hlen. reflexivity.
    + apply Forall_app. split; [exact Hall | now constructor].
Qed.

Lemma wellFormed_New dim : wellFormed dim (NewSparseVector dim).
Proof. repeat split; constructor. Qed.

(** X3: a vector built from [NewSparseVector] by [Set] at indices below its
    dimension keeps distinct indices, one value per index; on such a
    vector, [Set(idx, val)] changes the dense form at [idx] only, where it
    stores [val], and adds an entry exactly when [idx] had none. *)
Theorem Set_ToDense (sv : SparseVector) (idx : nat) (val : R) :
  wellFormed (Dim sv) sv -> (idx < Dim sv)%nat ->
  wellFormed (Dim sv) (SetValue sv idx val) /\
  Dim (SetValue sv idx val) = Dim sv /\
  ToDense (SetValue sv idx val) = <[idx := val]> (ToDense sv) /\
  Nnz (SetValue sv idx val)
  = (if decide (idx ∈ Indices sv) then Nnz sv else S (Nnz sv)).
Proof.
  intros Hwf Hidx.
  pose proof (wellFormed_SetValue _ _ idx val Hwf Hidx) as Hwf'.
  pose proof (DictFacts.SetValue_Dim sv idx val) as Hdim.
  split; [exact Hwf'|]. split; [exact Hdim|]. split.
  - apply list_eq_at1.
    + now rewrite length_insert, !ToDense_length.
    + intros i _.
      rewrite ToDense_at by (rewrite Hdim; exact Hwf').
      rewrite at1_insert by (now rewrite ToDense_length).
      rewrite ToDense_at by exact Hwf.
      destruct Hwf as (Hnd & Hlen & _). now apply component_SetValue.
  - unfold Nnz, SetValue.
    destruct (indexOf idx (Indices sv)) as [k|] eqn:E; cbn [Indices].
    + destruct (decide (idx ∈ Indices sv)) as [_|Hout]; [reflexivity|].
      exfalso. apply Hout. apply indexOf_Some in E.
      eapply list_elem_of_lookup_2. exact E.
    + destruct (decide (idx ∈ Indices sv)) as [Hin|_].
      * exfalso. now apply (indexOf_not_elem _ _ E).
      * rewrite length_app. cbn. lia.
Qed.

Lemma Set_ToDense_witness :
  let sv := NewSparseVector 3 in
  wellFormed (Dim sv) (SetValue sv 1 2) /\
  Dim (SetValue sv 1 2) = Dim sv /\
  ToDense (SetValue sv 1 2) = <[1%nat := 2]> (ToDense sv) /\
  Nnz (SetValue sv 1 2) = (if decide (1%nat ∈ Indices sv) then Nnz sv else S (Nnz sv)).
Proof.
  apply (Set_ToDense (NewSparseVector 3) 1 2).
  - apply wellFormed_New.
  - simpl. lia.
Defined.

(** *** [Dot] *)

Lemma dotEntries_any inds vals dim dense sum :
  length vals = length inds -> NoDup inds ->
  dotEntries inds vals dense sum
  = sum + sumTo (length dense)
            (fun i => at1 dense i * component (mkSparse inds vals dim) i).
Proof.
  revert vals sum. induction inds as [|idx inds IH]; intros vals sum Hlen Hnd.
  - cbn. rewrite sumTo_zero; [lra|]. intros i _. unfold component. cbn. lra.
  - destruct vals as [|v vals]; [discriminate|].
    apply NoDup_cons in Hnd. destruct Hnd as [Hnot Hnd].
    cbn [dotEntries]. rewrite IH by (auto; cbn in Hlen; lia).
    rewrite (sumTo_ext _
               (fun i => at1 dense i * component (mkSparse (idx :: inds) (v :: vals) dim) i)
               (fun i => at1 dense i * component (mkSparse inds vals dim) i
                         + (if (idx =? i)%nat then at1 dense i * v else 0))).
    + rewrite sumTo_plus. destruct (Nat.ltb_spec idx (length dense)) as [Hlt|Hge].
      * rewrite sumTo_single by exact Hlt. lra.
      * rewrite (sumTo_zero _ (fun i => if (idx =? i)%nat then _ else _)); [lra|].
        intros i Hi. destruct (Nat.eqb_spec idx i); [lia | reflexivity].
    + intros i _. rewrite component_cons.
      destruct (Nat.eqb_spec idx i) as [->|Hne]; [|lra].
      rewrite (component_absent inds vals dim i Hnot). lra.
Qed.

(** X4: on a vector with distinct indices below its dimension, [Dot] is
    the dot product of the dense form with the dense argument, taken over
    the length of the argument: an entry whose index is beyond the argument
    contributes nothing. *)
Theorem Dot_ToDense (sv : SparseVector) (dense : list R) :
  wellFormed (Dim sv) sv ->
  Dot sv dense = sumTo (length dense) (fun i => at1 (ToDense sv) i * at1 dense i).
Proof.
  intros Hwf. pose proof Hwf as (Hnd & Hlen & _).
  rewrite (sumTo_ext _ _ (fun i => at1 dense i * component sv i))
    by (intros i _; rewrite ToDense_at by exact Hwf; lra).
  destruct sv as [inds vals dim]. cbn [Indices Values] in Hnd, Hlen.
  rewrite Dot_entries by exact Hlen.
  rewrite (dotEntries_any inds vals dim) by auto. lra.
Qed.

Lemma Dot_ToDense_witness :
  Dot (mkSparse [1%nat] [2] 3) [5; 7]
  = sumTo (length [5; 7]) (fun i => at1 (ToDense (mkSparse [1%nat] [2] 3)) i * at1 [5; 7] i).
Proof.
  apply (Dot_ToDense (mkSparse [1%nat] [2] 3) [5; 7]).
  repeat split; repeat constructor;
    try (intros H; now apply elem_of_nil in H); try (simpl; lia).
Defined.

(** *** [ConcatSparse] *)

Lemma aligned_values (v : SparseVector) :
  length (Values v) = length (Indices v) ->
  tabulate (length (Indices v)) (at1 (Values v)) = Values v.
Proof.
  intros Hlen. apply list_eq_at1.
  - now rewrite length_tabulate.
  - intros i Hi. rewrite length_tabulate in Hi. now apply at1_tabulate.
Qed.

Lemma concat_offset vs : forall acc,
  snd (fold_left concatStep vs acc) = fold_left (fun d v => (d + Dim v)%nat) vs (snd acc).
Proof.
  induction vs as [|v vs IH]; intros [[inds vals] offset]; [reflexivity|].
  cbn [fold_left]. rewrite IH. reflexivity.
Qed.

Lemma ConcatSparse_fold vs :
  ConcatSparse vs
  = (let r := fold_left concatStep vs ([], [], O) in
     mkSparse (fst (fst r)) (snd (fst r)) (snd r)).
Proof.
  unfold ConcatSparse. cbn zeta. f_equal.
  now rewrite (concat_offset vs ([], [], O)).
Qed.

Lemma ConcatSparse_nil : ConcatSparse [] = NewSparseVector O.
Proof. reflexivity. Qed.

Lemma ConcatSparse_snoc vs v :
  length (Values v) = length (Indices v) ->
  ConcatSparse (vs ++ [v]) = appendSparse (ConcatSparse vs) v.
Proof.
  intros Hlen. rewrite !ConcatSparse_fold. cbn zeta.
  rewrite fold_left_app. cbn [fold_left].
  destruct (fold_left concatStep vs ([], [], O)) as [[inds vals] offset].
  unfold concatStep, appendSparse. cbn [fst snd Indices Values Dim].
  now rewrite aligned_values.
Qed.

Lemma component_append a b i :
  wellFormed (Dim a) a -> length (Values b) = length (Indices b) ->
  component (appendSparse a b) i
  = if (i <? Dim a)%nat then component a i else component b (i - Dim a).
Proof.
  intros (Hnd & Hlen & Hall) Hlenb. unfold component, appendSparse.
  cbn [Indices Values].
  destruct (indexOf i (Indices a)) as [k|] eqn:E.
  - pose proof (indexOf_Some _ _ _ E) as Hk.
    rewrite (indexOf_app_l _ _ _ _ E).
    rewrite at1_app_l by (rewrite Hlen; eapply lookup_lt_Some; exact Hk).
    destruct (Nat.ltb_spec i (Dim a)) as [_|Hge]; [reflexivity|].
    exfalso. apply list_elem_of_lookup_2 in Hk.
    rewrite List.Forall_forall in Hall. apply list_elem_of_In in Hk.
    specialize (Hall _ Hk). cbn in Hall. lia.
  - rewrite indexOf_app_r by (now apply indexOf_not_elem).
    destruct (Nat.ltb_spec i (Dim a)) as [Hlt|Hge].
    + now rewrite indexOf_below.
    + rewrite indexOf_shift by exact Hge.
      destruct (indexOf (i - Dim a) (Indices b)) as [k|]; cbn; [|reflexivity].
      rewrite <- Hlen. apply at1_app_r.
Qed.

Lemma wellFormed_append a b :
  wellFormed (Dim a) a -> wellFormed (Dim b) b ->
  wellFormed (Dim (appendSparse a b)) (appendSparse a b).
Proof.
  intros (Hnda & Hlena & Halla) (Hndb & Hlenb & Hallb).
  unfold wellFormed, appendSparse. cbn [Indices Values Dim].
  rewrite List.Forall_forall in Halla, Hallb.
  split; [|split].
  - apply NoDup_app. split; [exact Hnda|]. split.
    + intros x Hx Hx'. apply list_elem_of_fmap in Hx'.
      destruct Hx' as (y & -> & _).
      apply list_elem_of_In in Hx. specialize (Halla _ Hx). cbn in Halla. lia.
    + assert (Hinj : Inj eq eq (fun idx => (idx + Dim a)%nat))
        by (intros x y Hxy; lia).
      exact (NoDup_fmap_2 _ _ Hndb).
  - rewrite !length_app, length_map. lia.
  - apply Forall_app. split; apply List.Forall_forall.
    + intros x Hx. specialize (Halla _ Hx). cbn in Halla. lia.
    + intros x Hx. apply in_map_iff in Hx. destruct Hx as (y & <- & Hy).
      specialize (Hallb _ Hy). cbn in Hallb. lia.
Qed.

Lemma ToDense_append a b :
  wellFormed (Dim a) a -> wellFormed (Dim b) b ->
  ToDense (appendSparse a b) = (ToDense a ++ ToDense b)%list.
Proof.
  intros Hwa Hwb. apply list_eq_at1.
  - rewrite length_app, !ToDense_length. reflexivity.
  - intros i _.
    rewrite ToDense_at by (now apply wellFormed_append).
    rewrite component_append by (auto; apply Hwb).
    destruct (Nat.ltb_spec i (Dim a)) as [Hlt|Hge].
    + rewrite at1_app_l by (now rewrite ToDense_length).
      symmetry. now apply ToDense_at.
    + replace i with (length (ToDense a) + (i - Dim a))%nat at 2
        by (rewrite ToDense_length; lia).
      rewrite at1_app_r. symmetry. now apply ToDense_at.
Qed.

(** X5: for vectors with distinct indices below their dimensions,
    [ConcatSparse] returns a vector of that kind whose dimension is the sum
    of the dimensions, whose number of entries is the sum of the numbers of
    entries, and whose dense form is the dense forms one after the other. *)
Theorem ConcatSparse_ToDense (vectors : list SparseVector) :
  Forall (fun v => wellFormed (Dim v) v) vectors ->
  let result := ConcatSparse vectors in
  wellFormed (Dim result) result /\
  Dim result = list_sum (map Dim vectors) /\
  Nnz result = list_sum (map Nnz vectors) /\
  ToDense result = concat (map ToDense vectors).
Proof.
  cbn zeta. induction vectors as [|v vs IH] using rev_ind; intros Hall.
  - rewrite ConcatSparse_nil. repeat split; constructor.
  - apply Forall_app in Hall. destruct Hall as [Hvs Hv].
    apply Forall_inv in Hv.
    destruct (IH Hvs) as (Hwf & Hdim & Hnnz & Hdense).
    rewrite ConcatSparse_snoc by apply Hv.
    split; [now apply wellFormed_append|]. split; [|split].
    + cbn [appendSparse Dim]. rewrite Hdim, map_app, list_sum_app. cbn. lia.
    + unfold Nnz in *. cbn [appendSparse Indices].
      rewrite length_app, length_map, Hnnz, map_app, list_sum_app. cbn. lia.
    + rewrite ToDense_append, Hdense by auto.
      now rewrite map_app, concat_app; cbn; rewrite app_nil_r.
Qed.

Lemma ConcatSparse_ToDense_witness :
  let result := ConcatSparse [mkSparse [O] [1] 3; mkSparse [1%nat] [2] 2] in
  wellFormed (Dim result) result /\
  Dim result = list_sum (map Dim [mkSparse [O] [1] 3; mkSparse [1%nat] [2] 2]) /\
  Nnz result = list_sum (map Nnz [mkSparse [O] [1] 3; mkSparse [1%nat] [2] 2]) /\
  ToDense result = concat (map ToDense [mkSparse [O] [1] 3; mkSparse [1%nat] [2] 2]).
Proof.
  apply (ConcatSparse_ToDense [mkSparse [O] [1] 3; mkSparse [1%nat] [2] 2]).
  repeat constructor; try (intros H; now apply elem_of_nil in H); simpl; lia.
Defined.

End SparseFacts.

(** * Vectorizers: fitting and transforming *)

Module DictFitFacts.

Import Loops GoMap Vectorizer FitAux OrderFacts CountFacts.
Import DictVectorizer.
Local Open Scope string_scope.

Section Ranged.

Context {order : RangeOrder}.

Lemma keyStep_fold_true l : forall (fs : gmap string bool),
  (forall key b, fs !! key = Some b -> b = true) ->
  forall key b, fold_left keyStep l fs !! key = Some b -> b = true.
Proof.
  induction l as [|kv l IH]; intros fs Hfs key b; cbn [fold_left]; [apply Hfs|].
  apply IH. intros key' b'. unfold keyStep. rewrite lookup_insert.
  case_decide; [congruence | apply Hfs].
Qed.

Lemma keyStep_fold_some l : forall (fs : gmap string bool) key,
  is_Some (fold_left keyStep l fs !! key)
  <-> is_Some (fs !! key) \/
      exists kv, kv ∈ l /\ featureKey (fst kv) (snd kv) = key.
Proof.
  induction l as [|kv l IH]; intros fs key; cbn [fold_left].
  - split; [auto|]. intros [H|(kv & Hin & _)]; [exact H|].
    now apply elem_of_nil in Hin.
  - rewrite IH. unfold keyStep at 1. rewrite lookup_insert. split.
    + intros [H|(kv' & Hin & Hk)].
      * case_decide as E; [|now left].
        right. exists kv. split; [left | exact E].
      * right. exists kv'. split; [now right | exact Hk].
    + intros [H|(kv' & Hin & Hk)].
      * left. case_decide; [eauto | exact H].
      * apply elem_of_cons in Hin. destruct Hin as [->|Hin].
        -- left. rewrite decide_True by exact Hk. eauto.
        -- right. eauto.
Qed.

Lemma featureSetOf_true data : forall fs,
  (forall key b, fs !! key = Some b -> b = true) ->
  forall key b, featureSetOf data fs !! key = Some b -> b = true.
Proof.
  induction data as [|d data IH]; intros fs Hfs key b; cbn [featureSetOf fold_left].
  - apply Hfs.
  - apply IH. now apply keyStep_fold_true.
Qed.

Lemma featureSetOf_lookup data : forall fs key,
  is_Some (featureSetOf data fs !! key)
  <-> is_Some (fs !! key) \/ derivedKey data key.
Proof.
  induction data as [|d data IH]; intros fs key; cbn [featureSetOf fold_left].
  - split; [auto|]. intros [H|(d & k & v & Hin & _)]; [exact H|].
    now apply elem_of_nil in Hin.
  - fold (featureSetOf data (fold_left keyStep (rangeOf d) fs)).
    rewrite IH, keyStep_fold_some. split.
    + intros [[H|([k v] & Hin & Hkey)]|(d' & k & v & Hin & Hk & Hkey)].
      * now left.
      * right. exists d, k, v. split; [left|]. split; [|exact Hkey].
        now apply rangeOf_elem.
      * right. exists d', k, v. split; [now right | auto].
    + intros [H|(d' & k & v & Hin & Hk & Hkey)].
      * left. now left.
      * apply elem_of_cons in Hin. destruct Hin as [->|Hin].
        -- left. right. exists (k, v). split; [|exact Hkey].
           now apply rangeOf_elem.
        -- right. exists d', k, v. auto.
Qed.

Lemma Fit_names data :
  FeatureNames (Fit data) = sortStrings (map fst (rangeOf (featureSetOf data ∅))).
Proof. reflexivity. Qed.

Lemma Fit_index data :
  FeatureIndex (Fit data) = CountVectorizer.indexTerms (FeatureNames (Fit data)).
Proof. reflexivity. Qed.

Lemma Fit_names_NoDup data : NoDup (FeatureNames (Fit data)).
Proof. rewrite Fit_names. apply sortStrings_NoDup, rangeOf_NoDup_keys. Qed.

Lemma Fit_names_elem data key :
  key ∈ FeatureNames (Fit data) <-> derivedKey data key.
Proof.
  rewrite Fit_names, sortStrings_elem, rangeOf_key, featureSetOf_lookup.
  rewrite lookup_empty. split; [|auto].
  intros [[x Hx]|H]; [discriminate | exact H].
Qed.

Lemma Fit_index_lookup data key i :
  FeatureIndex (Fit data) !! key = Some i <-> FeatureNames (Fit data) !! i = Some key.
Proof. rewrite Fit_index. apply indexTerms_lookup, Fit_names_NoDup. Qed.

Lemma Fit_index_bound data key i :
  FeatureIndex (Fit data) !! key = Some i -> (i < VocabSize (Fit data))%nat.
Proof.
  intros H. apply Fit_index_lookup in H. unfold VocabSize.
  eapply lookup_lt_Some. exact H.
Qed.

End Ranged.

Lemma derivedKey_perm data data' key :
  data' ≡ₚ data -> derivedKey data' key -> derivedKey data key.
Proof.
  intros Hp (d & k & v & Hin & H). exists d, k, v. split; [|exact H].
  now rewrite <- Hp.
Qed.

Lemma featureSetOf_order (order order' : RangeOrder) data data' :
  data' ≡ₚ data -> @featureSetOf order' data' ∅ = @featureSetOf order data ∅.
Proof.
  intros Hp. apply map_eq. intros key.
  pose proof (@featureSetOf_lookup order data ∅ key) as H.
  pose proof (@featureSetOf_lookup order' data' ∅ key) as H'.
  pose proof (@featureSetOf_true order data ∅) as Ht.
  pose proof (@featureSetOf_true order' data' ∅) as Ht'.
  assert (He : forall key' b, (∅ : gmap string bool) !! key' = Some b -> b = true)
    by (intros key' b; rewrite lookup_empty; discriminate).
  specialize (Ht He key). specialize (Ht' He key).
  assert (Hiff : is_Some (@featureSetOf order' data' ∅ !! key)
                 <-> is_Some (@featureSetOf order data ∅ !! key)).
  { rewrite H, H'. split; (intros [Hs|Hd]; [now left | right]).
    - now apply (derivedKey_perm data data').
    - apply (derivedKey_perm data' data); [now symmetry | exact Hd]. }
  destruct (@featureSetOf order' data' ∅ !! key) as [b'|] eqn:E',
           (@featureSetOf order data ∅ !! key) as [b|] eqn:E.
  - now rewrite (Ht b), (Ht' b').
  - destruct (proj1 Hiff ltac:(eauto)) as [? ?]. discriminate.
  - destruct (proj2 Hiff ltac:(eauto)) as [? ?]. discriminate.
  - reflexivity.
Qed.

(** X6: after [DictVectorizer.Fit], the feature names are the derived keys
    of the feature maps of the data ("name=value" for a string value, the
    name otherwise), each once, in increasing order of strings; the
    feature index maps every name to its position and nothing else; and
    the result depends neither on the order in which the maps are ranged
    over nor on the order of the data. *)
Theorem DictVectorizer_Fit_index (order : RangeOrder) (data : list (gmap string Any)) :
  let dv := Fit data in
  StronglySorted strLe (FeatureNames dv) /\
  NoDup (FeatureNames dv) /\
  (forall key, key ∈ FeatureNames dv
     <-> exists d k v, d ∈ data /\ d !! k = Some v /\ featureKey k v = key) /\
  (forall key i, FeatureIndex dv !! key = Some i <-> FeatureNames dv !! i = Some key) /\
  (forall key i, FeatureIndex dv !! key = Some i -> (i < VocabSize dv)%nat) /\
  (forall (order' : RangeOrder) data', data' ≡ₚ data -> @Fit order' data' = dv).
Proof.
  cbn zeta. split; [|split; [|split; [|split; [|split]]]].
  - rewrite Fit_names. apply sortStrings_sorted.
  - apply Fit_names_NoDup.
  - apply Fit_names_elem.
  - apply Fit_index_lookup.
  - apply Fit_index_bound.
  - intros order' data' Hp.
    assert (Hn : FeatureNames (@Fit order' data') = FeatureNames (@Fit order data)).
    { rewrite !Fit_names. apply sortStrings_order.
      rewrite (featureSetOf_order order order' data data' Hp).
      etransitivity; [apply fmap_Permutation, rangeOf_perm|].
      symmetry. apply fmap_Permutation, rangeOf_perm. }
    assert (Heta : forall (o : RangeOrder) dat,
              @Fit o dat = mk (FeatureNames (@Fit o dat))
                              (CountVectorizer.indexTerms (FeatureNames (@Fit o dat))))
      by reflexivity.
    rewrite (Heta order' data'), (Heta order data), Hn. reflexivity.
Qed.

End DictFitFacts.

(** * CountVectorizer: the vector of a document *)

Module CountTransformFacts.

Import Loops LoopFacts GoMap Textutil Vectorizer Classifier FitAux OrderFacts CountFacts.
Import SparseFacts LogRegFacts.
Import CountVectorizer.
Local Open Scope R_scope.

Lemma default_heldTally n : default 0 (heldTally n) = INR n.
Proof. destruct n; reflexivity. Qed.

Lemma heldTally_S n : Some (INR n + 1) = heldTally (S n).
Proof. cbn [heldTally]. now rewrite S_INR. Qed.

Lemma hits_cons voc f l idx :
  hits voc (f :: l) idx
  = ((if bool_decide (voc !! f = Some idx) then 1 else 0) + hits voc l idx)%nat.
Proof. unfold hits. cbn [List.filter]. now destruct (bool_decide _). Qed.

Lemma tally_lookup voc l : forall (counts : gmap nat R) (n0 : nat -> nat),
  (forall idx, counts !! idx = heldTally (n0 idx)) ->
  forall idx, fold_left (tallyStep voc) l counts !! idx
              = heldTally (n0 idx + hits voc l idx).
Proof.
  induction l as [|f l IH]; intros counts n0 Hc idx; cbn [fold_left].
  - unfold hits. cbn. now rewrite Nat.add_0_r.
  - rewrite (IH _ (fun i => (n0 i + if bool_decide (voc !! f = Some i) then 1 else 0)%nat)).
    + rewrite hits_cons. f_equal. lia.
    + intros i. unfold tallyStep. destruct (voc !! f) as [j|] eqn:E.
      * destruct (decide (j = i)) as [->|Hne].
        -- rewrite lookup_insert_eq, Hc, default_heldTally, heldTally_S.
           rewrite bool_decide_eq_true_2 by reflexivity. f_equal. lia.
        -- rewrite lookup_insert_ne by exact Hne. rewrite Hc.
           rewrite bool_decide_eq_false_2 by congruence. f_equal. lia.
      * rewrite Hc, bool_decide_eq_false_2 by congruence. f_equal. lia.
Qed.

Lemma hits_pos voc l idx :
  (0 < hits voc l idx)%nat <-> exists f, f ∈ l /\ voc !! f = Some idx.
Proof.
  unfold hits. split.
  - intros H. destruct (List.filter _ l) as [|f fs] eqn:E; [cbn in H; lia|].
    assert (Hin : In f (List.filter (fun f => bool_decide (voc !! f = Some idx)) l))
      by (rewrite E; now left).
    apply filter_In in Hin. destruct Hin as [Hin Hf].
    exists f. split; [now apply list_elem_of_In|]. now apply bool_decide_eq_true in Hf.
  - intros (f & Hin & Hf).
    assert (Hin' : In f (List.filter (fun f => bool_decide (voc !! f = Some idx)) l)).
    { apply filter_In. split; [now apply list_elem_of_In|].
      now apply bool_decide_eq_true. }
    destruct (List.filter _ l); [destruct Hin' | cbn; lia].
Qed.

Lemma hits_injective voc l term idx :
  voc !! term = Some idx ->
  (forall f, voc !! f = Some idx -> f = term) ->
  hits voc l idx = occurrences term l.
Proof.
  intros Hterm Hinj. unfold hits, occurrences. f_equal.
  apply filter_ext. intros f. apply bool_decide_ext. split; [apply Hinj|].
  now intros ->.
Qed.

Lemma occurrences_pos term l : (0 < occurrences term l)%nat <-> term ∈ l.
Proof.
  unfold occurrences. split.
  - intros H. destruct (List.filter _ l) as [|f fs] eqn:E; [cbn in H; lia|].
    assert (Hin : In f (List.filter (fun f => bool_decide (f = term)) l))
      by (rewrite E; now left).
    apply filter_In in Hin. destruct Hin as [Hin Hf].
    apply bool_decide_eq_true in Hf. subst f. now apply list_elem_of_In.
  - intros Hin.
    assert (Hin' : In term (List.filter (fun f => bool_decide (f = term)) l)).
    { apply filter_In. split; [now apply list_elem_of_In|].
      now apply bool_decide_eq_true. }
    destruct (List.filter _ l); [destruct Hin' | cbn; lia].
Qed.

(** Setting entries at distinct fresh indices appends them. *)
Lemma SetValue_entries dim (g : nat * R -> R) (l : list (nat * R)) : forall inds vals,
  NoDup (inds ++ map fst l) ->
  fold_left (fun sv kv => SetValue sv (fst kv) (g kv)) l (mkSparse inds vals dim)
  = mkSparse (inds ++ map fst l) (vals ++ map g l) dim.
Proof.
  induction l as [|kv l IH]; intros inds vals Hnd; cbn [fold_left map].
  - now rewrite !app_nil_r.
  - assert (Hnot : fst kv ∉ inds).
    { apply NoDup_app in Hnd. destruct Hnd as (_ & Hdisj & _).
      intros Hin. apply (Hdisj _ Hin). left. }
    unfold SetValue at 2. cbn [Indices Values Dim].
    rewrite (indexOf_None _ _ Hnot).
    rewrite IH by (rewrite <- app_assoc; exact Hnd).
    now rewrite <- !app_assoc.
Qed.

Lemma component_entries dim (g : nat * R -> R) (l : list (nat * R)) idx c :
  NoDup (map fst l) -> (idx, c) ∈ l ->
  component (mkSparse (map fst l) (map g l) dim) idx = g (idx, c).
Proof.
  induction l as [|[i v] l IH]; intros Hnd Hin.
  - now apply elem_of_nil in Hin.
  - cbn [map fst]. rewrite component_cons.
    apply NoDup_cons in Hnd. destruct Hnd as [Hnot Hnd].
    apply elem_of_cons in Hin. destruct Hin as [[= -> ->]|Hin].
    + now rewrite Nat.eqb_refl.
    + destruct (Nat.eqb_spec i idx) as [->|_]; [|now apply IH].
      exfalso. apply Hnot. apply list_elem_of_fmap. now exists (idx, c).
Qed.

Section Fitted.

Context {text : TextPrims} {order : RangeOrder}.

Lemma Transform_entries cv s :
  Transform cv s
  = (let entries := rangeOf (fold_left (tallyStep (Vocabulary cv)) (analyze cv s) ∅) in
     mkSparse (map fst entries)
              (map (fun kv : nat * R => if Binary cv then 1 else snd kv) entries)
              (size (Vocabulary cv))).
Proof.
  cbn zeta. unfold Transform.
  change (fold_left (fun counts f => _) (analyze cv s) ∅)
    with (fold_left (tallyStep (Vocabulary cv)) (analyze cv s) ∅).
  unfold NewSparseVector.
  rewrite (SetValue_entries _ (fun kv : nat * R => if Binary cv then 1 else snd kv))
    by apply rangeOf_NoDup_keys.
  reflexivity.
Qed.

Lemma tally_counts cv s idx :
  fold_left (tallyStep (Vocabulary cv)) (analyze cv s) ∅ !! idx
  = heldTally (hits (Vocabulary cv) (analyze cv s) idx).
Proof.
  rewrite (tally_lookup _ _ ∅ (fun _ => O)); [reflexivity|].
  intros i. apply lookup_empty.
Qed.

Lemma Transform_index cv s idx :
  idx ∈ Indices (Transform cv s)
  <-> exists term, term ∈ analyze cv s /\ Vocabulary cv !! term = Some idx.
Proof.
  rewrite Transform_entries. cbn [Indices].
  rewrite rangeOf_key, tally_counts, <- hits_pos.
  destruct (hits _ _ idx); cbn; split; intros H; try lia; eauto.
  destruct H; discriminate.
Qed.

Lemma Transform_component cv s idx :
  component (Transform cv s) idx
  = if Binary cv
    then (if decide (0 < hits (Vocabulary cv) (analyze cv s) idx)%nat then 1 else 0)
    else INR (hits (Vocabulary cv) (analyze cv s) idx).
Proof.
  rewrite Transform_entries. cbn zeta.
  set (counts := fold_left _ _ _).
  pose proof (tally_counts cv s idx) as Hc. fold counts in Hc.
  destruct (hits (Vocabulary cv) (analyze cv s) idx) as [|n] eqn:E.
  - rewrite component_absent.
    + destruct (Binary cv); [|reflexivity].
      destruct (decide _); [lia | reflexivity].
    + rewrite rangeOf_key, Hc. cbn. intros [? ?]. discriminate.
  - rewrite (component_entries _ _ _ idx (INR (S n))).
    + cbn [snd]. destruct (Binary cv); [|reflexivity].
      destruct (decide _); [reflexivity | lia].
    + apply rangeOf_NoDup_keys.
    + apply rangeOf_elem. exact Hc.
Qed.

Lemma Transform_aligned cv s :
  NoDup (Indices (Transform cv s)) /\
  length (Values (Transform cv s)) = length (Indices (Transform cv s)).
Proof.
  rewrite Transform_entries. cbn [Indices Values]. split.
  - apply rangeOf_NoDup_keys.
  - now rewrite !length_map.
Qed.

Lemma Transform_Dim cv s : Dim (Transform cv s) = VocabSize cv.
Proof. now rewrite Transform_entries. Qed.

Lemma Fit_lookup cv corpus term idx :
  Vocabulary (Fit cv corpus) !! term = Some idx
  <-> vocabTerms cv corpus !! idx = Some term.
Proof. rewrite Fit_Vocabulary. apply indexTerms_lookup, vocabTerms_NoDup. Qed.

Lemma Fit_bound cv corpus term idx :
  Vocabulary (Fit cv corpus) !! term = Some idx -> (idx < VocabSize (Fit cv corpus))%nat.
Proof.
  intros H. apply Fit_lookup in H. unfold VocabSize.
  rewrite Fit_Vocabulary, indexTerms_size by apply vocabTerms_NoDup.
  eapply lookup_lt_Some. exact H.
Qed.

Lemma Fit_analyze cv corpus s : analyze (Fit cv corpus) s = analyze cv s.
Proof. reflexivity. Qed.

Lemma Transform_wellFormed cv corpus s :
  wellFormed (VocabSize (Fit cv corpus)) (Transform (Fit cv corpus) s).
Proof.
  destruct (Transform_aligned (Fit cv corpus) s) as [Hnd Hlen].
  split; [exact Hnd|]. split; [exact Hlen|].
  apply List.Forall_forall. intros idx Hin. apply list_elem_of_In in Hin.
  apply Transform_index in Hin. destruct Hin as (term & _ & Hterm).
  now apply Fit_bound in Hterm.
Qed.

(** X7: for a fitted CountVectorizer, [Transform] returns a vector of
    dimension [VocabSize()] with distinct indices below it; an index is
    set exactly when it is the column of an n-gram of the document, so an
    n-gram outside the vocabulary contributes nothing; and the value in the
    column of a term is the number of times the term occurs among the
    n-grams of the document or, in binary mode, 1 when it occurs. *)
Theorem CountVectorizer_Transform_counts (cv : t) (corpus : list string) (s : string) :
  let fitted := Fit cv corpus in
  let sv := Transform fitted s in
  Dim sv = VocabSize fitted /\
  wellFormed (VocabSize fitted) sv /\
  (forall idx, idx ∈ Indices sv
     <-> exists term, term ∈ analyze cv s /\ Vocabulary fitted !! term = Some idx) /\
  (forall term idx, Vocabulary fitted !! term = Some idx ->
     component sv idx
     = if Binary cv
       then (if decide (term ∈ analyze cv s) then 1 else 0)
       else INR (occurrences term (analyze cv s))).
Proof.
  cbn zeta. split; [apply Transform_Dim|]. split; [apply Transform_wellFormed|].
  split; [intros idx; exact (Transform_index (Fit cv corpus) s idx)|].
  intros term idx Hterm. rewrite Transform_component, Fit_analyze.
  rewrite (hits_injective _ _ term idx Hterm).
  - change (Binary (Fit cv corpus)) with (Binary cv).
    destruct (Binary cv); [|reflexivity].
    destruct (decide (0 < occurrences term (analyze cv s))%nat) as [Hp|Hn],
             (decide (term ∈ analyze cv s)) as [Hin|Hout]; try reflexivity.
    + exfalso. apply Hout. now apply occurrences_pos.
    + exfalso. apply Hn. now apply occurrences_pos.
  - intros f Hf. apply Fit_lookup in Hf, Hterm. congruence.
Qed.

End Fitted.

End CountTransformFacts.

(** * TfidfVectorizer: IDF weights and the normalised vector *)

Module TfidfFitFacts.

Import Loops LoopFacts GoMap Textutil Vectorizer Classifier FitAux VectorizerAux.
Import OrderFacts CountFacts SparseFacts LogRegFacts TfidfFacts CountTransformFacts.
Import TfidfVectorizer.
Local Open Scope R_scope.

(** *** Document frequencies *)

Lemma dfStep_length df idx : length (dfStep df idx) = length df.
Proof. apply length_insert. Qed.

Lemma dfStep_fold_length inds : forall df, length (fold_left dfStep inds df) = length df.
Proof.
  induction inds as [|idx inds IH]; intros df; cbn [fold_left]; [reflexivity|].
  now rewrite IH, dfStep_length.
Qed.

Lemma dfStep_fold inds : forall df i,
  NoDup inds -> Forall (fun idx => (idx < length df)%nat) inds ->
  at1 (fold_left dfStep inds df) i = at1 df i + (if decide (i ∈ inds) then 1 else 0).
Proof.
  induction inds as [|idx inds IH]; intros df i Hnd Hall; cbn [fold_left].
  - destruct (decide (i ∈ [])) as [Hin|_]; [now apply elem_of_nil in Hin | lra].
  - apply NoDup_cons in Hnd. destruct Hnd as [Hnot Hnd].
    apply Forall_cons in Hall. destruct Hall as [Hidx Hall].
    rewrite IH by (auto; rewrite dfStep_length; exact Hall).
    unfold dfStep. rewrite at1_insert by exact Hidx.
    destruct (Nat.eqb_spec i idx) as [->|Hne].
    + destruct (decide (idx ∈ inds)) as [Hin|_]; [contradiction|].
      destruct (decide (idx ∈ idx :: inds)) as [_|Hout]; [lra|].
      exfalso. apply Hout. left.
    + destruct (decide (i ∈ inds)) as [Hin|Hout].
      * destruct (decide (i ∈ idx :: inds)) as [_|Hout]; [lra|].
        exfalso. apply Hout. now right.
      * destruct (decide (i ∈ idx :: inds)) as [Hin|_]; [|lra].
        apply elem_of_cons in Hin. destruct Hin; [lia | contradiction].
Qed.

Section Ranged.

Context {text : TextPrims} {order : RangeOrder}.

(** The document-frequency loop of [Fit] over the documents [docs]. *)
Lemma df_docs cv (docs : list string) : forall df i,
  (forall doc, Forall (fun idx => (idx < length df)%nat)
                      (Indices (CountVectorizer.Transform cv doc))) ->
  at1 (fold_left (fun df doc =>
                    fold_left dfStep (Indices (CountVectorizer.Transform cv doc)) df)
                 docs df) i
  = at1 df i
    + INR (length (List.filter
             (fun doc => bool_decide (i ∈ Indices (CountVectorizer.Transform cv doc)))
             docs)).
Proof.
  induction docs as [|doc docs IH]; intros df i Hall; cbn [fold_left List.filter].
  - cbn. lra.
  - rewrite IH by (intros doc'; rewrite dfStep_fold_length; apply Hall).
    rewrite dfStep_fold by (auto; apply CountTransformFacts.Transform_aligned).
    destruct (decide (i ∈ _)) as [Hin|Hout].
    + rewrite bool_decide_eq_true_2 by exact Hin. cbn [length]. rewrite S_INR. lra.
    + rewrite bool_decide_eq_false_2 by exact Hout. lra.
Qed.

Lemma Fit_IDF tv corpus :
  IDF (Fit tv corpus)
  = (let cv := CountVectorizer.Fit (CountVec tv) corpus in
     let df :=
       fold_left (fun df doc =>
                    fold_left dfStep (Indices (CountVectorizer.Transform cv doc)) df)
                 corpus (replicate (CountVectorizer.VocabSize cv) 0) in
     tabulate (CountVectorizer.VocabSize cv)
              (fun i => ln ((1 + INR (length corpus)) / (1 + at1 df i)) + 1)).
Proof. unfold Fit. rewrite filterCorpus_id. reflexivity. Qed.

Lemma Fit_CountVec_plain tv corpus :
  CountVec (Fit tv corpus) = CountVectorizer.Fit (CountVec tv) corpus.
Proof. now rewrite Fit_CountVec, filterCorpus_id. Qed.

Lemma docFreq_le cv corpus term :
  (CountVectorizer.docFreq cv corpus term <= length corpus)%nat.
Proof. unfold CountVectorizer.docFreq. apply filter_length_le. Qed.

Lemma Fit_IDF_at tv corpus term idx :
  CountVectorizer.Vocabulary (CountVec (Fit tv corpus)) !! term = Some idx ->
  at1 (IDF (Fit tv corpus)) idx
  = ln ((1 + INR (length corpus))
        / (1 + INR (CountVectorizer.docFreq (CountVec tv) corpus term))) + 1.
Proof.
  rewrite Fit_CountVec_plain. intros Hterm.
  pose proof (Fit_bound _ _ _ _ Hterm) as Hlt.
  rewrite Fit_IDF. cbn zeta. rewrite at1_tabulate by exact Hlt.
  rewrite df_docs.
  - rewrite at1_replicate_zero, Rplus_0_l.
    assert (Hcount :
      List.filter
        (fun doc => bool_decide
           (idx ∈ Indices (CountVectorizer.Transform
                            (CountVectorizer.Fit (CountVec tv) corpus) doc))) corpus
      = List.filter
          (fun doc => bool_decide (term ∈ CountVectorizer.analyze (CountVec tv) doc))
          corpus).
    { apply filter_ext. intros doc. apply bool_decide_ext.
      rewrite CountTransformFacts.Transform_index, Fit_analyze. split.
      + intros (term' & Hin & Hterm'). apply Fit_lookup in Hterm, Hterm'.
        congruence.
      + intros Hin. eauto. }
    rewrite Hcount. reflexivity.
  - intros doc. rewrite length_replicate.
    apply (Transform_wellFormed (CountVec tv) corpus doc).
Qed.

Lemma idf_formula_ge_1 n d : (d <= n)%nat -> 1 <= ln ((1 + INR n) / (1 + INR d)) + 1.
Proof.
  intros Hle. apply le_INR in Hle.
  pose proof (pos_INR d) as Hd. pose proof (pos_INR n) as Hn.
  assert (H1 : 1 <= (1 + INR n) / (1 + INR d)).
  { apply (Rmult_le_reg_r (1 + INR d)); [lra|].
    unfold Rdiv. rewrite Rmult_assoc, Rinv_l by lra. lra. }
  assert (H0 : 0 <= ln ((1 + INR n) / (1 + INR d))).
  { rewrite <- ln_1. destruct (Req_dec 1 ((1 + INR n) / (1 + INR d))) as [<-|Hne].
    - lra.
    - left. apply ln_increasing; lra. }
  lra.
Qed.

Lemma Fit_IDF_length tv corpus :
  length (IDF (Fit tv corpus)) = VocabSize (Fit tv corpus).
Proof.
  unfold VocabSize. rewrite Fit_CountVec_plain, Fit_IDF. apply length_tabulate.
Qed.

Lemma Fit_IDF_ge_1 tv corpus idx :
  (idx < VocabSize (Fit tv corpus))%nat -> 1 <= at1 (IDF (Fit tv corpus)) idx.
Proof.
  intros Hlt. unfold VocabSize in Hlt.
  assert (Hterm : exists term,
            CountVectorizer.Vocabulary (CountVec (Fit tv corpus)) !! term = Some idx).
  { rewrite Fit_CountVec_plain in *. unfold CountVectorizer.VocabSize in Hlt.
    rewrite Fit_Vocabulary, indexTerms_size in Hlt by apply vocabTerms_NoDup.
    apply lookup_lt_is_Some in Hlt. destruct Hlt as [term Hterm].
    exists term. now apply Fit_lookup. }
  destruct Hterm as [term Hterm]. rewrite (Fit_IDF_at _ _ _ _ Hterm).
  apply idf_formula_ge_1, docFreq_le.
Qed.

(** X8: after [TfidfVectorizer.Fit] there is one IDF weight per column, and
    the weight of a term's column is [ln((1 + n) / (1 + df)) + 1], where [n]
    is the number of documents and [df] the number of documents whose
    n-grams hold the term; every weight is at least 1. *)
Theorem Tfidf_Fit_idf (tv : t) (corpus : list string) :
  let fitted := Fit tv corpus in
  length (IDF fitted) = VocabSize fitted /\
  (forall term idx,
     CountVectorizer.Vocabulary (CountVec fitted) !! term = Some idx ->
     at1 (IDF fitted) idx
     = ln ((1 + INR (length corpus))
           / (1 + INR (CountVectorizer.docFreq (CountVec tv) corpus term))) + 1) /\
  (forall idx, (idx < VocabSize fitted)%nat -> 1 <= at1 (IDF fitted) idx).
Proof.
  cbn zeta. split; [apply Fit_IDF_length|]. split.
  - apply Fit_IDF_at.
  - apply Fit_IDF_ge_1.
Qed.

(** *** The weighted and normalised vector *)

Lemma weight_fold inds idf n : forall vals,
  (n <= length vals)%nat ->
  length (fold_left (weightStep inds idf) (seq 0 n) vals) = length vals /\
  forall i, at1 (fold_left (weightStep inds idf) (seq 0 n) vals) i
            = if (i <? n)%nat && (nth i inds O <? length idf)%nat
              then at1 vals i * at1 idf (nth i inds O) else at1 vals i.
Proof.
  induction n as [|n IH]; intros vals Hn.
  - split; [reflexivity|]. intros i. reflexivity.
  - destruct (IH vals ltac:(lia)) as [Hlen Hat].
    rewrite seq_S, fold_left_app. cbn [Nat.add fold_left].
    set (prev := fold_left (weightStep inds idf) (seq 0 n) vals) in *.
    unfold weightStep. cbn zeta.
    destruct (Nat.ltb_spec (nth n inds O) (length idf)) as [Hlt|Hge].
    + split; [now rewrite length_insert|]. intros i.
      rewrite at1_insert by lia. rewrite !Hat.
      destruct (Nat.eqb_spec i n) as [->|Hne].
      * destruct (Nat.ltb_spec n n); [lia|]. cbn [andb].
        destruct (Nat.ltb_spec n (S n)); [|lia].
        destruct (Nat.ltb_spec (nth n inds O) (length idf)); [reflexivity | lia].
      * destruct (Nat.ltb_spec i n), (Nat.ltb_spec i (S n)); try lia; reflexivity.
    + split; [exact Hlen|]. intros i. rewrite Hat.
      destruct (Nat.eqb_spec i n) as [->|Hne].
      * destruct (Nat.ltb_spec n n); [lia|].
        destruct (Nat.ltb_spec (nth n inds O) (length idf)); [lia|].
        now rewrite !andb_false_r.
      * destruct (Nat.ltb_spec i n), (Nat.ltb_spec i (S n)); try lia; reflexivity.
Qed.

Lemma sumSquares_pos l :
  l <> [] -> Forall (fun v => 0 < v) l -> 0 < sumSquares l.
Proof.
  intros Hne Hall. rewrite sumSquares_Rsum.
  destruct l as [|v l]; [contradiction|].
  apply Forall_cons in Hall. destruct Hall as [Hv Hl]. cbn [map Rsum].
  pose proof (sumSquares_nonneg l) as Hnn. rewrite sumSquares_Rsum in Hnn.
  nra.
Qed.

Lemma Transform_values_ge_1 cv s :
  Forall (fun v => 1 <= v) (Values (CountVectorizer.Transform cv s)).
Proof.
  rewrite Transform_entries. cbn [Values].
  apply List.Forall_forall. intros v Hv. apply in_map_iff in Hv.
  destruct Hv as ([idx c] & <- & Hin). destruct (CountVectorizer.Binary cv); [lra|].
  apply list_elem_of_In, rangeOf_elem in Hin. rewrite tally_counts in Hin.
  destruct (hits _ _ idx) as [|n]; [discriminate|].
  assert (Hc : c = INR n + 1).
  { rewrite <- heldTally_S in Hin. congruence. }
  cbn [snd]. pose proof (pos_INR n). lra.
Qed.

Lemma Transform_unfold tv s :
  Transform tv s
  = (let sv := CountVectorizer.Transform (CountVec tv) s in
     let values :=
       fold_left (weightStep (Indices sv) (IDF tv)) (seq 0 (length (Indices sv)))
                 (Values sv) in
     let weighted := mkSparse (Indices sv) values (Dim sv) in
     if Rgt_dec (L2Norm weighted) 0
     then mkSparse (Indices sv) (map (fun v => v / L2Norm weighted) values) (Dim sv)
     else weighted).
Proof. unfold Transform. rewrite filterText_id. reflexivity. Qed.

(** X9: for a fitted TfidfVectorizer, [Transform] returns a vector of
    dimension [VocabSize()] with distinct indices below it.  When no n-gram
    of the document is in the vocabulary it is the vector with no entry.
    Otherwise its norm is 1, its values are positive, and the value in the
    column of a term is the term's count among the n-grams of the document
    (1 in binary mode when it occurs) times the IDF weight of the column,
    divided by one positive number that is the same for every column. *)
Theorem Tfidf_Transform_weights (tv : t) (corpus : list string) (s : string) :
  let fitted := Fit tv corpus in
  let cv := CountVec tv in
  let voc := CountVectorizer.Vocabulary (CountVec fitted) in
  let tf := fun term =>
    if CountVectorizer.Binary cv
    then (if decide (term ∈ CountVectorizer.analyze cv s) then 1 else 0)
    else INR (occurrences term (CountVectorizer.analyze cv s)) in
  let out := Transform fitted s in
  Dim out = VocabSize fitted /\
  wellFormed (VocabSize fitted) out /\
  ((forall term, term ∈ CountVectorizer.analyze cv s -> voc !! term = None) ->
   out = NewSparseVector (VocabSize fitted)) /\
  ((exists term, term ∈ CountVectorizer.analyze cv s /\ is_Some (voc !! term)) ->
   L2Norm out = 1 /\
   Forall (fun v => 0 < v) (Values out) /\
   exists norm, 0 < norm /\
     forall term idx, voc !! term = Some idx ->
       component out idx = tf term * at1 (IDF fitted) idx / norm).
Proof.
  cbn zeta. rewrite Transform_unfold. cbn zeta.
  assert (HV : VocabSize (Fit tv corpus)
               = CountVectorizer.VocabSize (CountVectorizer.Fit (CountVec tv) corpus))
    by (unfold VocabSize; now rewrite Fit_CountVec_plain).
  rewrite !HV, !Fit_CountVec_plain.
  set (cvf := CountVectorizer.Fit (CountVec tv) corpus) in *.
  assert (Ha : CountVectorizer.analyze cvf s = CountVectorizer.analyze (CountVec tv) s)
    by reflexivity.
  set (sv := CountVectorizer.Transform cvf s).
  set (idf := IDF (Fit tv corpus)).
  pose proof (Transform_wellFormed (CountVec tv) corpus s) as Hwf.
  fold cvf in Hwf. fold sv in Hwf.
  pose proof Hwf as (Hnd & Hlen & Hbound).
  pose proof (CountTransformFacts.Transform_Dim cvf s) as Hdim. fold sv in Hdim.
  assert (Hidf : length idf = CountVectorizer.VocabSize cvf).
  { unfold idf. now rewrite Fit_IDF_length. }
  destruct (weight_fold (Indices sv) idf (length (Indices sv)) (Values sv) ltac:(lia))
    as [Hwlen Hwat].
  set (values := fold_left (weightStep (Indices sv) idf)
                           (seq 0 (length (Indices sv))) (Values sv)) in *.
  assert (Hvalues : forall i, (i < length (Indices sv))%nat ->
            at1 values i = at1 (Values sv) i * at1 idf (nth i (Indices sv) O)).
  { intros i Hi. rewrite Hwat.
    destruct (Nat.ltb_spec i (length (Indices sv))); [|lia].
    destruct (Nat.ltb_spec (nth i (Indices sv) O) (length idf)) as [_|Hge];
      [reflexivity|].
    exfalso. rewrite Hidf in Hge.
    pose proof (proj1 (List.Forall_nth _ _) Hbound i O Hi). cbn in *. lia. }
  assert (Hpos : Forall (fun v => 0 < v) values).
  { apply List.Forall_nth. intros i d Hi. rewrite (nth_indep _ d 0) by exact Hi.
    rewrite Hwlen, Hlen in Hi. change (0 < at1 values i). rewrite Hvalues by exact Hi.
    pose proof (proj1 (List.Forall_nth _ _) (Transform_values_ge_1 cvf s) i 0
                  ltac:(fold sv; lia)) as Hv.
    fold sv in Hv. cbn in Hv. unfold at1 at 1.
    pose proof (proj1 (List.Forall_nth _ _) Hbound i O Hi) as Hb. cbn in Hb.
    pose proof (Fit_IDF_ge_1 tv corpus (nth i (Indices sv) O)) as Hi1.
    rewrite HV in Hi1. specialize (Hi1 Hb). fold idf in Hi1. nra. }
  assert (Hwf' : forall vals, length vals = length values ->
            wellFormed (CountVectorizer.VocabSize cvf) (mkSparse (Indices sv) vals (Dim sv))).
  { intros vals Hv. split; [exact Hnd|]. split; [|exact Hbound].
    cbn [Values Indices]. lia. }
  split; [destruct (Rgt_dec _ 0); exact Hdim|]. split.
  { destruct (Rgt_dec _ 0); apply Hwf'; [apply length_map | reflexivity]. }
  split.
  - intros Hnone.
    assert (Hnil : Indices sv = []).
    { destruct (Indices sv) as [|i l] eqn:E; [reflexivity|]. exfalso.
      assert (Hin : i ∈ Indices sv) by (rewrite E; left).
      apply CountTransformFacts.Transform_index in Hin.
      destruct Hin as (term & Hin & Hterm).
      rewrite Ha in Hin. rewrite (Hnone term Hin) in Hterm. discriminate. }
    assert (Hvnil : values = []).
    { apply length_zero_iff_nil. rewrite Hwlen, Hlen, Hnil. reflexivity. }
    rewrite Hvnil, Hnil, Hdim. unfold L2Norm. cbn [Values fold_left].
    rewrite sqrt_0. destruct (Rgt_dec 0 0); [lra | reflexivity].
  - intros (term & Hin & [idx Hterm]).
    assert (Hne : values <> []).
    { intros Hv. assert (Hidx : idx ∈ Indices sv).
      { apply CountTransformFacts.Transform_index. exists term.
        rewrite Ha. auto. }
      apply (f_equal (@length R)) in Hv. rewrite Hwlen, Hlen in Hv.
      destruct (Indices sv); [now apply elem_of_nil in Hidx | discriminate]. }
    assert (Hnorm : 0 < L2Norm (mkSparse (Indices sv) values (Dim sv))).
    { rewrite L2Norm_sumSquares. cbn [Values]. apply sqrt_lt_R0.
      now apply sumSquares_pos. }
    set (norm := L2Norm (mkSparse (Indices sv) values (Dim sv))) in *.
    destruct (Rgt_dec norm 0) as [_|Hn]; [|lra].
    split; [|split].
    + destruct (normalised_or_zero (Indices sv) values (Dim sv)) as [[Hz _]|H1].
      * exfalso. fold norm in Hz. destruct (Rgt_dec norm 0) as [_|Hn]; [|lra].
        cbn [Values] in Hz. destruct values as [|v vs]; [contradiction|].
        apply Forall_cons in Hpos. destruct Hpos as [Hv _].
        cbn [map] in Hz. apply Forall_cons in Hz. destruct Hz as [Hz _].
        assert (0 < v / norm) by (apply Rdiv_lt_0_compat; lra). lra.
      * fold norm in H1. destruct (Rgt_dec norm 0) as [_|Hn]; [exact H1 | lra].
    + cbn [Values]. apply List.Forall_forall. intros v Hv.
      apply in_map_iff in Hv. destruct Hv as (v0 & <- & Hv0).
      rewrite List.Forall_forall in Hpos. specialize (Hpos _ Hv0). cbn in Hpos.
      apply Rdiv_lt_0_compat; lra.
    + exists norm. split; [exact Hnorm|]. intros term' idx' Hterm'.
      assert (Htf : component sv idx'
                = if CountVectorizer.Binary (CountVec tv)
                  then (if decide (term' ∈ CountVectorizer.analyze (CountVec tv) s)
                        then 1 else 0)
                  else INR (occurrences term' (CountVectorizer.analyze (CountVec tv) s))).
      { unfold sv. rewrite Transform_component, Ha.
        rewrite (hits_injective _ _ term' idx' Hterm').
        - change (CountVectorizer.Binary cvf) with (CountVectorizer.Binary (CountVec tv)).
          destruct (CountVectorizer.Binary (CountVec tv)); [|reflexivity].
          destruct (decide (0 < occurrences term' _)%nat) as [Hp|Hnp],
                   (decide (term' ∈ _)) as [Hi|Ho]; try reflexivity.
          + exfalso. apply Ho. now apply occurrences_pos.
          + exfalso. apply Hnp. now apply occurrences_pos.
        - intros f Hf. apply Fit_lookup in Hf, Hterm'. congruence. }
      rewrite <- Htf. unfold component. cbn [Indices Values].
      destruct (indexOf idx' (Indices sv)) as [vi|] eqn:E.
      * pose proof (indexOf_Some _ _ _ E) as Hvi.
        pose proof (lookup_lt_Some _ _ _ Hvi) as Hlt.
        rewrite at1_map by lia. rewrite Hvalues by exact Hlt.
        rewrite (nth_lookup_Some _ _ _ _ Hvi). reflexivity.
      * unfold Rdiv. lra.
Qed.

End Ranged.

End TfidfFitFacts.

(** * Alphabets, the weight layout and attribute conversion *)

Module AlphabetFacts.

Import Loops GoMap Vectorizer Crf CrfAux OrderFacts.
Local Open Scope string_scope.

Lemma consistent_New : consistent NewAlphabet.
Proof.
  intros s id. cbn. rewrite lookup_empty. split; [discriminate|].
  now rewrite lookup_nil.
Qed.

Lemma consistent_NoDup a : consistent a -> NoDup (ToStr a).
Proof.
  intros Hc. apply NoDup_alt. intros i j s Hi Hj.
  apply Hc in Hi, Hj. congruence.
Qed.

Lemma consistent_bound a s id :
  consistent a -> ToID a !! s = Some id -> (id < Size a)%nat.
Proof. intros Hc H. apply Hc in H. eapply lookup_lt_Some. exact H. Qed.

Lemma Add_known a s id :
  ToID a !! s = Some id -> Add a s = (a, id).
Proof. intros H. unfold Add. now rewrite H. Qed.

Lemma Add_new a s :
  ToID a !! s = None ->
  Add a s = (mkAlphabet (<[s := length (ToStr a)]> (ToID a)) (ToStr a ++ [s]),
             length (ToStr a)).
Proof. intros H. unfold Add. now rewrite H. Qed.

Lemma Add_consistent a s : consistent a -> consistent (fst (Add a s)).
Proof.
  intros Hc. destruct (ToID a !! s) as [id|] eqn:E.
  - now rewrite (Add_known _ _ _ E).
  - rewrite (Add_new _ _ E). cbn [fst]. intros t id. cbn [ToID ToStr].
    destruct (decide (t = s)) as [->|Hne].
    + rewrite lookup_insert_eq. split.
      * intros [= <-]. rewrite lookup_app_r by lia. now rewrite Nat.sub_diag.
      * intros H. destruct (Nat.lt_ge_cases id (length (ToStr a))) as [Hlt|Hge].
        -- rewrite lookup_app_l in H by exact Hlt. apply Hc in H. congruence.
        -- rewrite lookup_app_r in H by exact Hge.
           destruct (id - length (ToStr a))%nat as [|k] eqn:Ek; [|discriminate].
           f_equal. lia.
    + rewrite lookup_insert_ne by congruence. rewrite (Hc t id). split.
      * intros H. rewrite lookup_app_l; [exact H|]. eapply lookup_lt_Some. exact H.
      * intros H. destruct (Nat.lt_ge_cases id (length (ToStr a))) as [Hlt|Hge].
        -- now rewrite lookup_app_l in H by exact Hlt.
        -- rewrite lookup_app_r in H by exact Hge.
           destruct (id - length (ToStr a))%nat as [|k]; simplify_eq/=.
Qed.

Lemma Add_id a s : ToID (fst (Add a s)) !! s = Some (snd (Add a s)).
Proof.
  destruct (ToID a !! s) as [id|] eqn:E.
  - now rewrite (Add_known _ _ _ E).
  - rewrite (Add_new _ _ E). cbn. apply lookup_insert_eq.
Qed.

Lemma Add_keeps a s t id :
  ToID a !! t = Some id -> ToID (fst (Add a s)) !! t = Some id.
Proof.
  intros Ht. destruct (ToID a !! s) as [id'|] eqn:E.
  - now rewrite (Add_known _ _ _ E).
  - rewrite (Add_new _ _ E). cbn. rewrite lookup_insert_ne; [exact Ht | congruence].
Qed.

Lemma Add_lookup a s t :
  is_Some (ToID (fst (Add a s)) !! t) <-> is_Some (ToID a !! t) \/ t = s.
Proof.
  destruct (ToID a !! s) as [id|] eqn:E.
  - rewrite (Add_known _ _ _ E). cbn. split; [auto|].
    intros [H| ->]; [exact H | eauto].
  - rewrite (Add_new _ _ E). cbn. rewrite lookup_insert. case_decide as Hd.
    + subst t. split; eauto.
    + split; [auto|]. intros [H|H]; [exact H | congruence].
Qed.

Lemma Add_prefix a s : ToStr a `prefix_of` ToStr (fst (Add a s)).
Proof.
  destruct (ToID a !! s) as [id|] eqn:E.
  - now rewrite (Add_known _ _ _ E).
  - rewrite (Add_new _ _ E). cbn. now apply prefix_app_r.
Qed.

Lemma addAll_consistent l : forall a, consistent a -> consistent (addAll l a).
Proof.
  induction l as [|s l IH]; intros a Hc; cbn [addAll fold_left]; [exact Hc|].
  apply IH. now apply Add_consistent.
Qed.

Lemma addAll_lookup l : forall a t,
  is_Some (ToID (addAll l a) !! t) <-> is_Some (ToID a !! t) \/ t ∈ l.
Proof.
  induction l as [|s l IH]; intros a t; cbn [addAll fold_left].
  - split; [auto|]. intros [H|H]; [exact H | now apply elem_of_nil in H].
  - fold (addAll l (fst (Add a s))). rewrite IH, Add_lookup, elem_of_cons. tauto.
Qed.

Lemma addAll_keeps l : forall a t id,
  ToID a !! t = Some id -> ToID (addAll l a) !! t = Some id.
Proof.
  induction l as [|s l IH]; intros a t id Ht; cbn [addAll fold_left]; [exact Ht|].
  apply IH. now apply Add_keeps.
Qed.

Lemma addAll_prefix l : forall a, ToStr a `prefix_of` ToStr (addAll l a).
Proof.
  induction l as [|s l IH]; intros a; cbn [addAll fold_left]; [reflexivity|].
  etransitivity; [apply Add_prefix | apply IH].
Qed.

Lemma addAll_app l l' a : addAll (l ++ l') a = addAll l' (addAll l a).
Proof. unfold addAll. apply fold_left_app. Qed.

Lemma Get_Some a s id : ToID a !! s = Some id -> Get a s = Z.of_nat id.
Proof. intros H. unfold Get. now rewrite H. Qed.

Lemma Get_None a s : ToID a !! s = None -> Get a s = (-1)%Z.
Proof. intros H. unfold Get. now rewrite H. Qed.

Lemma Get_id a s id : Get a s = Z.of_nat id <-> ToID a !! s = Some id.
Proof.
  unfold Get. destruct (ToID a !! s) as [id'|]; split; intros H; try lia; try discriminate.
  - f_equal. lia.
  - injection H as ->. reflexivity.
Qed.

Lemma Get_missing a s : Get a s = (-1)%Z <-> ToID a !! s = None.
Proof.
  unfold Get. destruct (ToID a !! s) as [id'|]; split; intros H; try lia; try discriminate.
  reflexivity.
Qed.

Lemma BuildLabelAlphabet_addAll sequences :
  BuildLabelAlphabet sequences = addAll (concat (map SeqLabels sequences)) NewAlphabet.
Proof.
  unfold BuildLabelAlphabet. generalize NewAlphabet.
  induction sequences as [|sq sequences IH]; intros a; cbn [fold_left map concat].
  - reflexivity.
  - rewrite IH, addAll_app. reflexivity.
Qed.

(** X10: an alphabet built from the empty one by [Add] holds every added
    string once; [Get] returns the position of a string in [ToStr], which
    is below [Size], and -1 exactly for a string that was never added;
    [Add] returns the id [Get] then gives, changes nothing for a string
    already present, and never changes the id of another string.
    [BuildLabelAlphabet] is the alphabet of the labels of the sequences,
    added in order. *)
Theorem alphabet_ids (l : list string) :
  let a := addAll l NewAlphabet in
  NoDup (ToStr a) /\
  (forall s, s ∈ ToStr a <-> s ∈ l) /\
  (forall s id, Get a s = Z.of_nat id <-> ToStr a !! id = Some s) /\
  (forall s, Get a s = (-1)%Z <-> s ∉ l) /\
  (forall s, s ∈ l -> (0 <= Get a s < Z.of_nat (Size a))%Z) /\
  (forall s, Get (fst (Add a s)) s = Z.of_nat (snd (Add a s)) /\
             (s ∈ l -> fst (Add a s) = a) /\
             (forall t, t ∈ l -> Get (fst (Add a s)) t = Get a t)) /\
  (forall l', ToStr a `prefix_of` ToStr (addAll (l ++ l') NewAlphabet)) /\
  (forall sequences,
     l = concat (map SeqLabels sequences) -> BuildLabelAlphabet sequences = a).
Proof.
  cbn zeta. set (a := addAll l NewAlphabet).
  assert (Hc : consistent a) by (apply addAll_consistent, consistent_New).
  assert (Hin : forall s, is_Some (ToID a !! s) <-> s ∈ l).
  { intros s. unfold a. rewrite addAll_lookup. cbn. rewrite lookup_empty.
    split; [|auto]. intros [[x Hx]|H]; [discriminate | exact H]. }
  split; [now apply consistent_NoDup|]. split; [|split; [|split; [|split; [|split; [|split]]]]].
  - intros s. rewrite <- Hin. split.
    + intros H. apply list_elem_of_lookup in H. destruct H as [id H].
      apply Hc in H. eauto.
    + intros [id H]. apply Hc in H. eapply list_elem_of_lookup_2. exact H.
  - intros s id. rewrite Get_id. apply Hc.
  - intros s. rewrite Get_missing, <- Hin. split.
    + intros H [x Hx]. congruence.
    + intros H. destruct (ToID a !! s); [exfalso; apply H; eauto | reflexivity].
  - intros s Hs. apply Hin in Hs. destruct Hs as [id Hid].
    rewrite (Get_Some _ _ _ Hid).
    pose proof (consistent_bound _ _ _ Hc Hid). lia.
  - intros s. split; [|split].
    + apply Get_Some, Add_id.
    + intros Hs. apply Hin in Hs. destruct Hs as [id Hid].
      now rewrite (Add_known _ _ _ Hid).
    + intros t Ht. apply Hin in Ht. destruct Ht as [id Hid].
      rewrite (Get_Some _ _ _ Hid). apply Get_Some. now apply Add_keeps.
  - intros l'. rewrite addAll_app. apply addAll_prefix.
  - intros sequences ->. apply BuildLabelAlphabet_addAll.
Qed.

(** *** The weight layout *)

Lemma block_unique L a y a' y' :
  (y < L)%nat -> (y' < L)%nat -> (a * L + y = a' * L + y')%nat -> a = a' /\ y = y'.
Proof.
  intros Hy Hy' Heq.
  destruct (lt_eq_lt_dec a a') as [[Hlt|Heq']|Hgt].
  - pose proof (Nat.mul_le_mono_r (S a) a' L Hlt) as H.
    rewrite Nat.mul_succ_l in H. lia.
  - subst a'. lia.
  - pose proof (Nat.mul_le_mono_r (S a') a L Hgt) as H.
    rewrite Nat.mul_succ_l in H. lia.
Qed.

Lemma block_below A L a y : (a < A)%nat -> (y < L)%nat -> (a * L + y < A * L)%nat.
Proof.
  intros Ha Hy. pose proof (Nat.mul_le_mono_r (S a) A L Ha) as H.
  rewrite Nat.mul_succ_l in H. lia.
Qed.

Lemma block_split A L k :
  (k < A * L)%nat -> exists a y, (a < A)%nat /\ (y < L)%nat /\ k = (a * L + y)%nat.
Proof.
  intros Hk. assert (HL : L <> O) by (intros ->; lia).
  exists (k / L)%nat, (k mod L)%nat. split; [|split].
  - apply Nat.Div0.div_lt_upper_bound. lia.
  - now apply Nat.mod_upper_bound.
  - rewrite (Nat.div_mod_eq k L) at 1. lia.
Qed.

(** X11: the weight vector is laid out without gap or overlap: the state
    feature of attribute [a] and label [y] and the transition feature of
    labels [i] and [j] have indices below [NumWeights], the first kind
    below [TransOffset] and the second from [TransOffset] on; two features
    with the same index are the same feature; and every index below
    [NumWeights] is the index of a feature. *)
Theorem weight_layout (m : Model) :
  let L := NumLabels m in
  let A := Size (Attributes m) in
  (forall a y, (a < A)%nat -> (y < L)%nat ->
     (StateFeatureIndex m a y < TransOffset m)%nat) /\
  (forall i j, (i < L)%nat -> (j < L)%nat ->
     (TransOffset m <= TransFeatureIndex m i j < NumWeights m)%nat) /\
  (forall a y a' y', (y < L)%nat -> (y' < L)%nat ->
     StateFeatureIndex m a y = StateFeatureIndex m a' y' -> a = a' /\ y = y') /\
  (forall i j i' j', (j < L)%nat -> (j' < L)%nat ->
     TransFeatureIndex m i j = TransFeatureIndex m i' j' -> i = i' /\ j = j') /\
  (forall k, (k < NumWeights m)%nat ->
     (exists a y, (a < A)%nat /\ (y < L)%nat /\ k = StateFeatureIndex m a y) \/
     (exists i j, (i < L)%nat /\ (j < L)%nat /\ k = TransFeatureIndex m i j)).
Proof.
  cbn zeta. unfold StateFeatureIndex, TransFeatureIndex, NumWeights, TransOffset.
  split; [|split; [|split; [|split]]].
  - intros a y Ha Hy. now apply block_below.
  - intros i j Hi Hj. pose proof (block_below _ _ i j Hi Hj). lia.
  - intros a y a' y' Hy Hy'. now apply block_unique.
  - intros i j i' j' Hj Hj' H. apply (block_unique (NumLabels m)); auto. lia.
  - intros k Hk.
    destruct (Nat.lt_ge_cases k (Size (Attributes m) * NumLabels m)) as [Hlt|Hge].
    + left. now apply block_split.
    + right. destruct (block_split (NumLabels m) (NumLabels m)
                         (k - Size (Attributes m) * NumLabels m) ltac:(lia))
        as (i & j & Hi & Hj & Heq).
      exists i, j. split; [exact Hi|]. split; [exact Hj|]. lia.
Qed.

End AlphabetFacts.

(** * Conversion of features to attributes *)

Module AttributeFacts.

Import Loops GoMap Vectorizer Crf CrfAux OrderFacts.
Local Open Scope string_scope.

Lemma items_sound key items : forall (attrs : gmap string R) attr v,
  fold_left (fun (attrs : gmap string R) item => <[key +:+ ":" +:+ item := 1%R]> attrs)
            items attrs !! attr = Some v ->
  attrs !! attr = Some v \/
  ((exists item, item ∈ items /\ attr = key +:+ ":" +:+ item) /\ v = 1%R).
Proof.
  induction items as [|item items IH]; intros attrs attr v; cbn [fold_left]; [auto|].
  intros H. apply IH in H. destruct H as [H|[(it & Hin & Hattr) Hv]].
  - rewrite lookup_insert in H. case_decide as Hd; [|now left].
    right. injection H as <-. split; [|reflexivity].
    exists item. split; [left | now symmetry].
  - right. split; [|exact Hv]. exists it. split; [now right | exact Hattr].
Qed.

Lemma items_mono key items : forall (attrs : gmap string R) attr,
  is_Some (attrs !! attr) ->
  is_Some (fold_left (fun (attrs : gmap string R) item =>
                        <[key +:+ ":" +:+ item := 1%R]> attrs) items attrs !! attr).
Proof.
  induction items as [|item items IH]; intros attrs attr H; cbn [fold_left]; [exact H|].
  apply IH. rewrite lookup_insert. case_decide; [eauto | exact H].
Qed.

Lemma items_complete key items item : forall (attrs : gmap string R),
  item ∈ items ->
  is_Some (fold_left (fun (attrs : gmap string R) item =>
                        <[key +:+ ":" +:+ item := 1%R]> attrs) items attrs
           !! (key +:+ ":" +:+ item)).
Proof.
  induction items as [|it items IH]; intros attrs Hin; [now apply elem_of_nil in Hin|].
  cbn [fold_left]. apply elem_of_cons in Hin. destruct Hin as [->|Hin].
  - apply items_mono. rewrite lookup_insert_eq. eauto.
  - now apply IH.
Qed.

Lemma step_sound attrs key val attr v :
  attributeStep attrs (key, val) !! attr = Some v ->
  attrs !! attr = Some v \/ produces key val attr v.
Proof.
  unfold attributeStep, produces. cbn [fst snd].
  destruct val as [s|items|b|z|z|r|].
  - rewrite lookup_insert. case_decide; [|now left]. intros [= <-]. right. auto.
  - intros H. apply items_sound in H. tauto.
  - destruct b; [|now left].
    rewrite lookup_insert. case_decide; [|now left]. intros [= <-]. right. auto.
  - rewrite lookup_insert. case_decide; [|now left]. intros [= <-]. right. auto.
  - rewrite lookup_insert. case_decide; [|now left]. intros [= <-]. right. auto.
  - rewrite lookup_insert. case_decide; [|now left]. intros [= <-]. right. auto.
  - rewrite lookup_insert. case_decide; [|now left]. intros [= <-]. right. auto.
Qed.

Lemma step_mono attrs kv attr :
  is_Some (attrs !! attr) -> is_Some (attributeStep attrs kv !! attr).
Proof.
  intros H. unfold attributeStep. destruct (snd kv) as [s|items|b|z|z|r|];
    try (rewrite lookup_insert; case_decide; [eauto | exact H]).
  - now apply items_mono.
  - destruct b; [|exact H]. rewrite lookup_insert. case_decide; [eauto | exact H].
Qed.

Lemma step_complete attrs key val attr v :
  produces key val attr v -> is_Some (attributeStep attrs (key, val) !! attr).
Proof.
  unfold attributeStep, produces. cbn [fst snd].
  destruct val as [s|items|b|z|z|r|].
  - intros [-> _]. rewrite lookup_insert_eq. eauto.
  - intros [(item & Hin & ->) _]. now apply items_complete.
  - intros (-> & -> & _). rewrite lookup_insert_eq. eauto.
  - intros [-> _]. rewrite lookup_insert_eq. eauto.
  - intros [-> _]. rewrite lookup_insert_eq. eauto.
  - intros [-> _]. rewrite lookup_insert_eq. eauto.
  - intros [-> _]. rewrite lookup_insert_eq. eauto.
Qed.

Lemma steps_sound l : forall attrs attr v,
  fold_left attributeStep l attrs !! attr = Some v ->
  attrs !! attr = Some v \/
  exists key val, (key, val) ∈ l /\ produces key val attr v.
Proof.
  induction l as [|[key val] l IH]; intros attrs attr v; cbn [fold_left]; [auto|].
  intros H. apply IH in H. destruct H as [H|(k & x & Hin & Hp)].
  - apply step_sound in H. destruct H as [H|H]; [now left|].
    right. exists key, val. split; [left | exact H].
  - right. exists k, x. split; [now right | exact Hp].
Qed.

Lemma steps_mono l : forall attrs attr,
  is_Some (attrs !! attr) -> is_Some (fold_left attributeStep l attrs !! attr).
Proof.
  induction l as [|kv l IH]; intros attrs attr H; cbn [fold_left]; [exact H|].
  apply IH. now apply step_mono.
Qed.

Lemma steps_complete l key val attr v : forall attrs,
  (key, val) ∈ l -> produces key val attr v ->
  is_Some (fold_left attributeStep l attrs !! attr).
Proof.
  induction l as [|kv l IH]; intros attrs Hin Hp; [now apply elem_of_nil in Hin|].
  cbn [fold_left]. apply elem_of_cons in Hin. destruct Hin as [<-|Hin].
  - apply steps_mono. eapply step_complete. exact Hp.
  - now apply IH.
Qed.

(** X12: every attribute [FeaturesToAttributes] returns comes from a
    feature by the conversion rules: "key=value" with value 1 for a string,
    "key:item" with value 1 for each item of a list of strings, the key with
    value 1 for a true boolean, the key with the number for an integer or a
    float, and the key with value 1 for any other value.  Every attribute
    the rules give is returned, and it has the value the rules give when no
    other feature gives the same attribute another value.  A false boolean
    and an empty list give no attribute: a feature map that holds nothing
    else is converted to the empty map. *)
Theorem FeaturesToAttributes_rules (order : RangeOrder) (feats : gmap string Any) :
  let attrs := FeaturesToAttributes feats in
  (forall attr v, attrs !! attr = Some v ->
     exists key val, feats !! key = Some val /\ produces key val attr v) /\
  (forall key val attr v, feats !! key = Some val -> produces key val attr v ->
     is_Some (attrs !! attr)) /\
  (forall key val attr v, feats !! key = Some val -> produces key val attr v ->
     (forall key' val' v', feats !! key' = Some val' -> produces key' val' attr v' ->
        v' = v) ->
     attrs !! attr = Some v) /\
  ((forall key val, feats !! key = Some val -> val = ABool false \/ val = AStrings []) ->
   attrs = ∅).
Proof.
  cbn zeta.
  assert (Hfold : FeaturesToAttributes feats = fold_left attributeStep (rangeOf feats) ∅)
    by reflexivity.
  assert (Hsound : forall attr v, FeaturesToAttributes feats !! attr = Some v ->
            exists key val, feats !! key = Some val /\ produces key val attr v).
  { intros attr v H. rewrite Hfold in H. apply steps_sound in H.
    destruct H as [H|(key & val & Hin & Hp)].
    - rewrite lookup_empty in H. discriminate.
    - exists key, val. split; [now apply rangeOf_elem | exact Hp]. }
  assert (Hcomplete : forall key val attr v,
            feats !! key = Some val -> produces key val attr v ->
            is_Some (FeaturesToAttributes feats !! attr)).
  { intros key val attr v Hk Hp. rewrite Hfold.
    eapply steps_complete; [|exact Hp]. now apply rangeOf_elem. }
  split; [exact Hsound|]. split; [exact Hcomplete|]. split.
  - intros key val attr v Hk Hp Huniq.
    destruct (Hcomplete _ _ _ _ Hk Hp) as [v' Hv'].
    destruct (Hsound _ _ Hv') as (key' & val' & Hk' & Hp').
    now rewrite Hv', (Huniq _ _ _ Hk' Hp').
  - intros Hall. apply map_eq. intros attr. rewrite lookup_empty.
    destruct (FeaturesToAttributes feats !! attr) as [v|] eqn:E; [|reflexivity].
    destruct (Hsound _ _ E) as (key & val & Hk & Hp).
    destruct (Hall _ _ Hk) as [-> | ->]; cbn in Hp.
    + destruct Hp as [Hb _]. discriminate.
    + destruct Hp as [(item & Hin & _) _]. now apply elem_of_nil in Hin.
Qed.

End AttributeFacts.

(** * Forward-backward: pairwise marginals and probabilities *)

Module PairwiseFacts.

Import Loops LoopFacts Crf PathFacts ForwardBackwardFacts.
Local Open Scope R_scope.

Lemma sumTo_ge_term n f y :
  (forall i, (i < n)%nat -> 0 <= f i) -> (y < n)%nat -> f y <= sumTo n f.
Proof.
  induction n as [|n IH]; intros Hf Hy; [lia|].
  rewrite sumTo_S.
  assert (H0 : 0 <= sumTo n f).
  { rewrite <- (sumTo_zero n (fun _ => 0)) by reflexivity.
    apply sumTo_le. intros i Hi. apply Hf. lia. }
  destruct (Nat.eq_dec y n) as [->|Hne].
  - lra.
  - pose proof (Hf n ltac:(lia)). specialize (IH ltac:(intros; apply Hf; lia) ltac:(lia)).
    lra.
Qed.

Section Run.

Variables stateScores transScores : list (list R).
Variables T1 L : nat.
Hypothesis Hshape : wellShaped stateScores transScores (S T1) L.
Hypothesis HL : (1 <= L)%nat.

Local Abbreviation expState := (ForwardBackwardAux.expState stateScores T1 L).
Local Abbreviation expTrans := (ForwardBackwardAux.expTrans transScores L).
Local Abbreviation eS := (ForwardBackwardAux.eS stateScores).
Local Abbreviation eT := (ForwardBackwardAux.eT transScores).
Local Abbreviation fwdWeight := (ForwardBackwardAux.fwdWeight stateScores transScores L).
Local Abbreviation fwdTotal := (ForwardBackwardAux.fwdTotal stateScores transScores L).
Local Abbreviation fwdAt := (ForwardBackwardAux.fwdAt stateScores transScores T1 L).
Local Abbreviation fbScale := (ForwardBackwardAux.fbScale stateScores transScores T1 L).
Local Abbreviation bwdRows := (ForwardBackwardAux.bwdRows stateScores transScores T1 L).
Local Abbreviation fb := (ForwardBackward stateScores transScores).

Lemma eS_pos t y : 0 < eS t y.
Proof. apply exp_pos. Qed.

Lemma eT_pos i j : 0 < eT i j.
Proof. apply exp_pos. Qed.

(** Row [k] of the backward pass, from row [k+1]. *)
Lemma bwdRows_step k n y :
  (k + S n = T1)%nat -> (y < L)%nat ->
  at1 (hd [] (bwdRows k (S n))) y
  = sumTo L (fun yn => eT y yn * eS (S k) yn * at1 (hd [] (bwdRows (S k) n)) yn)
    * snd (fwdAt k).
Proof.
  intros Hk Hy.
  unfold ForwardBackwardAux.bwdRows at 1. cbn [seq fold_right].
  fold (bwdRows (S k) n).
  unfold ForwardBackwardAux.bwdStep at 1, backwardStep. cbn [hd].
  rewrite at1_tabulate by exact Hy.
  rewrite (fbScale_at stateScores transScores T1 L HL) by lia.
  f_equal. apply sumTo_ext. intros yn Hyn.
  rewrite expTrans_at, expState_at by (auto; lia).
  replace (k + 1)%nat with (S k) by lia. reflexivity.
Qed.

Lemma bwdRows_last y :
  (y < L)%nat -> at1 (hd [] (bwdRows T1 0)) y = snd (fwdAt T1).
Proof.
  intros Hy. unfold ForwardBackwardAux.bwdRows. cbn [seq fold_right hd].
  unfold ForwardBackwardAux.betaLast. rewrite at1_tabulate by exact Hy.
  apply (fbScale_at stateScores transScores T1 L HL). lia.
Qed.

Lemma bwdRows_pos n : forall k y,
  (k + n = T1)%nat -> (y < L)%nat -> 0 < at1 (hd [] (bwdRows k n)) y.
Proof.
  induction n as [|n IH]; intros k y Hk Hy.
  - assert (k = T1) by lia. subst k. rewrite bwdRows_last by exact Hy.
    apply (fwdAt_scale_pos stateScores transScores T1 L HL). lia.
  - rewrite bwdRows_step by auto.
    apply Rmult_lt_0_compat.
    + apply sumTo_pos; [lia|]. intros yn Hyn.
      apply Rmult_lt_0_compat; [apply Rmult_lt_0_compat|].
      * apply eT_pos.
      * apply eS_pos.
      * apply IH; [lia | exact Hyn].
    + apply (fwdAt_scale_pos stateScores transScores T1 L HL). lia.
Qed.

Lemma Alpha_at t y :
  (t < S T1)%nat -> at2 (Alpha fb) t y = at1 (fst (fwdAt t)) y.
Proof.
  intros Ht. rewrite (ForwardBackward_Alpha _ _ T1 L Hshape).
  now apply fbAlpha_at.
Qed.

Lemma Scale_at t : (t < S T1)%nat -> at1 (Scale fb) t = snd (fwdAt t).
Proof.
  intros Ht. rewrite (ForwardBackward_Scale _ _ T1 L Hshape).
  now apply fbScale_at.
Qed.

Lemma Beta_at t y :
  (t < S T1)%nat -> at2 (Beta fb) t y = at1 (hd [] (bwdRows t (T1 - t))) y.
Proof.
  intros Ht. rewrite (ForwardBackward_Beta _ _ T1 L Hshape).
  unfold at2. rewrite (bwdRows_nth stateScores transScores T1 L HL) by lia.
  reflexivity.
Qed.

Lemma Marginals_at t y :
  (t < S T1)%nat -> (y < L)%nat ->
  at2 (Marginals fb) t y
  = at1 (fst (fwdAt t)) y * at1 (hd [] (bwdRows t (T1 - t))) y / snd (fwdAt t).
Proof.
  intros Ht Hy. unfold at2.
  rewrite (ForwardBackward_Marginals _ _ T1 L Hshape HL t Ht).
  now rewrite nth_tabulate.
Qed.

Lemma alpha_pos t y : (t < S T1)%nat -> (y < L)%nat -> 0 < at1 (fst (fwdAt t)) y.
Proof.
  intros Ht Hy. rewrite (fwdAt_alpha stateScores transScores T1 L HL) by auto.
  apply Rdiv_lt_0_compat.
  - now apply fwdWeight_pos.
  - now apply fwdTotal_pos.
Qed.

Lemma Marginals_pos t y :
  (t < S T1)%nat -> (y < L)%nat -> 0 < at2 (Marginals fb) t y.
Proof.
  intros Ht Hy. rewrite Marginals_at by auto.
  apply Rdiv_lt_0_compat.
  - apply Rmult_lt_0_compat; [now apply alpha_pos|].
    apply bwdRows_pos; [lia | exact Hy].
  - now apply (fwdAt_scale_pos stateScores transScores T1 L HL).
Qed.

Lemma shape_rows : length stateScores = S T1 /\ length (nth 0 stateScores []) = L.
Proof.
  destruct Hshape as (Hlen & Hrows & _). split; [exact Hlen|].
  destruct stateScores as [|r rs]; [discriminate|]. now inversion Hrows.
Qed.

Lemma TransitionMarginals_at t i j :
  (S t < S T1)%nat -> (i < L)%nat -> (j < L)%nat ->
  at2 (nth t (TransitionMarginals fb stateScores transScores) []) i j
  = at1 (fst (fwdAt t)) i * eT i j * eS (S t) j
    * at1 (hd [] (bwdRows (S t) (T1 - S t))) j.
Proof.
  intros Ht Hi Hj. destruct shape_rows as [Hlen HL0].
  unfold TransitionMarginals. rewrite Hlen, HL0.
  destruct (Nat.leb_spec (S T1) 1) as [Hle|_]; [lia|].
  rewrite nth_tabulate by lia.
  rewrite at2_tabulate by auto.
  rewrite Alpha_at by lia. rewrite Beta_at by lia.
  fold expTrans. fold expState.
  rewrite expTrans_at, expState_at by (auto; lia).
  replace (t + 1)%nat with (S t) by lia. reflexivity.
Qed.

Lemma TransitionMarginals_length :
  length (TransitionMarginals fb stateScores transScores) = T1.
Proof.
  destruct shape_rows as [Hlen HL0].
  unfold TransitionMarginals. rewrite Hlen.
  destruct (Nat.leb_spec (S T1) 1) as [Hle|_].
  - cbn. lia.
  - rewrite length_tabulate. lia.
Qed.

Lemma pair_row_sum t i :
  (S t < S T1)%nat -> (i < L)%nat ->
  sumTo L (fun j => at2 (nth t (TransitionMarginals fb stateScores transScores) []) i j)
  = at2 (Marginals fb) t i.
Proof.
  intros Ht Hi. rewrite Marginals_at by (auto; lia).
  replace (T1 - t)%nat with (S (T1 - S t)) by lia.
  rewrite bwdRows_step by (auto; lia).
  pose proof (fwdAt_scale_pos stateScores transScores T1 L HL t ltac:(lia)) as Hs.
  rewrite (sumTo_ext L _
    (fun j => at1 (fst (fwdAt t)) i
              * (eT i j * eS (S t) j * at1 (hd [] (bwdRows (S t) (T1 - S t))) j))).
  - rewrite sumTo_scale_l. field. lra.
  - intros j Hj. rewrite TransitionMarginals_at by auto. lra.
Qed.

Lemma pair_col_sum t j :
  (S t < S T1)%nat -> (j < L)%nat ->
  sumTo L (fun i => at2 (nth t (TransitionMarginals fb stateScores transScores) []) i j)
  = at2 (Marginals fb) (S t) j.
Proof.
  intros Ht Hj. rewrite Marginals_at by auto.
  pose proof (fwdTotal_pos stateScores transScores L HL t) as Hp.
  pose proof (fwdTotal_pos stateScores transScores L HL (S t)) as Hp'.
  rewrite (fwdAt_alpha stateScores transScores T1 L HL (S t)) by auto.
  destruct (fwdAt_spec stateScores transScores T1 L HL (S t) Ht) as [_ ->].
  rewrite (sumTo_ext L _
    (fun i => (fwdWeight t i * eT i j)
              * (/ fwdTotal t * eS (S t) j * at1 (hd [] (bwdRows (S t) (T1 - S t))) j))).
  - rewrite sumTo_scale. cbn [ForwardBackwardAux.fwdWeight]. field. split; lra.
  - intros i Hi. rewrite TransitionMarginals_at by auto.
    rewrite (fwdAt_alpha stateScores transScores T1 L HL t) by (auto; lia).
    unfold Rdiv. lra.
Qed.

End Run.





End PairwiseFacts.

(** * Scores and predictions of a model *)

Module PredictFacts.

Import Loops LoopFacts GoMap Crf CrfAux ScoreAux PathFacts ForwardBackwardFacts ViterbiFacts.
Import OrderFacts LogRegFacts SparseFacts AlphabetFacts PairwiseFacts.
Local Open Scope R_scope.

Lemma Rsum_perm l l' : l ≡ₚ l' -> Rsum l = Rsum l'.
Proof.
  induction 1 as [|x l l' _ IH|x y l|l l' l'' _ IH1 _ IH2]; cbn [Rsum]; lra.
Qed.

(** *** State and transition scores *)

Lemma scoreAttribute_prefix m a val n : forall row,
  (n <= length row)%nat ->
  let out := fold_left (fun row y =>
               let idx := StateFeatureIndex m a y in
               if (idx <? length (Weights m))%nat
               then addAt row y (at1 (Weights m) idx * val) else row)
             (seq 0 n) row in
  length out = length row /\
  forall y, at1 out y
            = at1 row y + (if (y <? n)%nat
                           then at1 (Weights m) (StateFeatureIndex m a y) * val else 0).
Proof.
  induction n as [|n IH]; intros row Hn; cbn zeta.
  - split; [reflexivity|]. intros y. cbn [seq fold_left].
    destruct (Nat.ltb_spec y 0); [lia | lra].
  - assert (Hn' : (n <= length row)%nat) by lia.
    destruct (IH row Hn') as [Hlen Hat].
    rewrite seq_S, fold_left_app. cbn [Nat.add fold_left].
    set (prev := fold_left _ (seq 0 n) row) in *.
    destruct (Nat.ltb_spec (StateFeatureIndex m a n) (length (Weights m))) as [Hlt|Hge].
    + split; [now rewrite length_addAt|]. intros y.
      rewrite at1_addAt by lia. rewrite Hat.
      destruct (Nat.eqb_spec y n) as [->|Hne].
      * destruct (Nat.ltb_spec n n); [lia|].
        destruct (Nat.ltb_spec n (S n)); [lra | lia].
      * destruct (Nat.ltb_spec y n), (Nat.ltb_spec y (S n)); try lia; lra.
    + split; [exact Hlen|]. intros y. rewrite Hat.
      destruct (Nat.eqb_spec y n) as [->|Hne].
      * destruct (Nat.ltb_spec n n); [lia|].
        destruct (Nat.ltb_spec n (S n)); [|lia].
        rewrite (at1_overflow (Weights m)) by exact Hge. lra.
      * destruct (Nat.ltb_spec y n), (Nat.ltb_spec y (S n)); try lia; lra.
Qed.

Lemma scoreStep_at m row kv :
  length row = NumLabels m ->
  length (scoreStep m row kv) = NumLabels m /\
  forall y, (y < NumLabels m)%nat ->
            at1 (scoreStep m row kv) y = at1 row y + attrScore m y kv.
Proof.
  intros Hlen. unfold scoreStep, attrScore, Get.
  destruct (ToID (Attributes m) !! fst kv) as [a|] eqn:E; cbn zeta.
  - destruct (Z.ltb_spec (Z.of_nat a) 0) as [Hneg|_]; [lia|].
    rewrite Nat2Z.id. unfold scoreAttribute.
    assert (Hle : (NumLabels m <= length row)%nat) by lia.
    destruct (scoreAttribute_prefix m a (snd kv) (NumLabels m) row Hle)
      as [Hl Hat].
    cbn zeta in Hl, Hat.
    split; [now rewrite Hl|]. intros y Hy. rewrite Hat.
    destruct (Nat.ltb_spec y (NumLabels m)); [reflexivity | lia].
  - destruct (Z.ltb_spec (-1) 0) as [_|Hge]; [|lia].
    split; [exact Hlen|]. intros y _. lra.
Qed.

Lemma scoreSteps_at m l : forall row,
  length row = NumLabels m ->
  length (fold_left (scoreStep m) l row) = NumLabels m /\
  forall y, (y < NumLabels m)%nat ->
            at1 (fold_left (scoreStep m) l row) y
            = at1 row y + Rsum (map (attrScore m y) l).
Proof.
  induction l as [|kv l IH]; intros row Hlen; cbn [fold_left map Rsum].
  - split; [exact Hlen|]. intros y _. lra.
  - destruct (scoreStep_at m row kv Hlen) as [Hl Hat].
    destruct (IH _ Hl) as [Hl' Hat'].
    split; [exact Hl'|]. intros y Hy. rewrite Hat', Hat by exact Hy. lra.
Qed.

Section Ranged.

Context {order : RangeOrder}.

Lemma ComputeStateScores_row m features t :
  (t < length features)%nat ->
  nth t (ComputeStateScores m features) []
  = fold_left (scoreStep m) (rangeOf (nth t features ∅)) (replicate (NumLabels m) 0).
Proof.
  intros Ht. unfold ComputeStateScores.
  rewrite (nth_indep _ [] ((fun feats => fold_left (scoreStep m) (rangeOf feats)
                              (replicate (NumLabels m) 0)) ∅))
    by (now rewrite length_map).
  exact (map_nth (fun feats => fold_left (scoreStep m) (rangeOf feats)
                                 (replicate (NumLabels m) 0)) features ∅ t).
Qed.

Lemma ComputeStateScores_length m features :
  length (ComputeStateScores m features) = length features.
Proof. unfold ComputeStateScores. apply length_map. Qed.

Lemma ComputeStateScores_rows m features :
  Forall (fun row => length row = NumLabels m) (ComputeStateScores m features).
Proof.
  apply List.Forall_nth. intros t d Ht.
  rewrite ComputeStateScores_length in Ht.
  rewrite (nth_indep _ d []) by (now rewrite ComputeStateScores_length).
  rewrite ComputeStateScores_row by exact Ht.
  apply scoreSteps_at, length_replicate.
Qed.

Lemma ComputeStateScores_at m features t y :
  (t < length features)%nat -> (y < NumLabels m)%nat ->
  at2 (ComputeStateScores m features) t y
  = Rsum (map (attrScore m y) (rangeOf (nth t features ∅))).
Proof.
  intros Ht Hy. unfold at2. rewrite ComputeStateScores_row by exact Ht.
  destruct (scoreSteps_at m (rangeOf (nth t features ∅)) (replicate (NumLabels m) 0)
              (length_replicate _ _)) as [_ Hat].
  change (nth y ?l 0) with (at1 l y).
  rewrite Hat by exact Hy. rewrite at1_replicate_zero. lra.
Qed.

Lemma ComputeTransScores_at m i j :
  (i < NumLabels m)%nat -> (j < NumLabels m)%nat ->
  at2 (ComputeTransScores m) i j = at1 (Weights m) (TransFeatureIndex m i j).
Proof.
  intros Hi Hj. unfold ComputeTransScores. rewrite at2_tabulate by auto.
  destruct (Nat.ltb_spec (TransFeatureIndex m i j) (length (Weights m))) as [_|Hge];
    [reflexivity|].
  now rewrite at1_overflow.
Qed.

Lemma scores_wellShaped m features :
  wellShaped (ComputeStateScores m features) (ComputeTransScores m)
             (length features) (NumLabels m).
Proof.
  split; [apply ComputeStateScores_length|]. split; [apply ComputeStateScores_rows|].
  unfold ComputeTransScores. split; [apply length_tabulate|].
  apply List.Forall_nth. intros i d Hi. rewrite length_tabulate in Hi.
  rewrite nth_tabulate by exact Hi. apply length_tabulate.
Qed.

End Ranged.

(** X15: [ComputeStateScores] returns one row of [NumLabels] scores per
    position; the score of a label at a position is the sum, over the
    attributes of the position that are in the alphabet, of the attribute's
    value times the weight of its state feature, so an unknown attribute
    adds nothing and the result does not depend on the order in which the
    attributes are ranged over (exact over the reals).
    [ComputeTransScores] returns the [NumLabels]-by-[NumLabels] table of
    the transition weights. *)
Theorem ComputeStateScores_sums (order : RangeOrder) (m : Model)
    (features : list (gmap string R)) :
  let scores := ComputeStateScores m features in
  wellShaped scores (ComputeTransScores m) (length features) (NumLabels m) /\
  (forall t y, (t < length features)%nat -> (y < NumLabels m)%nat ->
     at2 scores t y = Rsum (map (attrScore m y) (map_to_list (nth t features ∅)))) /\
  (forall attr val y, Get (Attributes m) attr = (-1)%Z -> attrScore m y (attr, val) = 0) /\
  (forall i j, (i < NumLabels m)%nat -> (j < NumLabels m)%nat ->
     at2 (ComputeTransScores m) i j = at1 (Weights m) (TransFeatureIndex m i j)) /\
  (forall order' : RangeOrder, @ComputeStateScores order' m features = scores).
Proof.
  cbn zeta.
  assert (Hat : forall (o : RangeOrder) t y,
            (t < length features)%nat -> (y < NumLabels m)%nat ->
            at2 (@ComputeStateScores o m features) t y
            = Rsum (map (attrScore m y) (map_to_list (nth t features ∅)))).
  { intros o t y Ht Hy. rewrite (@ComputeStateScores_at o) by auto.
    apply Rsum_perm, fmap_Permutation, rangeOf_perm. }
  split; [apply scores_wellShaped|]. split; [apply Hat|]. split; [|split].
  - intros attr val y Hget. unfold attrScore. cbn [fst].
    apply Get_missing in Hget. now rewrite Hget.
  - apply ComputeTransScores_at.
  - intros order'.
    apply nth_ext with (d := []) (d' := []).
    + now rewrite !ComputeStateScores_length.
    + intros t Ht. rewrite ComputeStateScores_length in Ht.
      apply list_eq_at1.
      * pose proof (@ComputeStateScores_rows order' m features) as H1.
        pose proof (@ComputeStateScores_rows order m features) as H2.
        rewrite (proj1 (List.Forall_nth _ _) H1 t [])
          by (now rewrite ComputeStateScores_length).
        rewrite (proj1 (List.Forall_nth _ _) H2 t [])
          by (now rewrite ComputeStateScores_length).
        reflexivity.
      * intros y Hy.
        pose proof (@ComputeStateScores_rows order' m features) as H1.
        rewrite (proj1 (List.Forall_nth _ _) H1 t []) in Hy
          by (now rewrite ComputeStateScores_length).
        change (at2 (@ComputeStateScores order' m features) t y
                = at2 (@ComputeStateScores order m features) t y).
        now rewrite !Hat.
Qed.

(** *** The best path *)

Lemma backtrack_length psi n : forall k b,
  length (fold_right (backtrackStep psi) [b] (seq k n)) = S n.
Proof.
  induction n as [|n IH]; intros k b; cbn [seq fold_right]; [reflexivity|].
  unfold backtrackStep at 1. cbn [length]. now rewrite IH.
Qed.

Lemma Viterbi_length stateScores transScores :
  length (fst (Viterbi stateScores transScores)) = length stateScores.
Proof.
  unfold Viterbi. destruct (length stateScores) as [|T1]; [reflexivity|].
  cbn zeta. cbn [fst]. apply backtrack_length.
Qed.

Lemma Viterbi_optimal stateScores transScores T L :
  wellShaped stateScores transScores T L -> (1 <= L)%nat ->
  validPath T L (fst (Viterbi stateScores transScores)) /\
  forall q, validPath T L q ->
    pathScore stateScores transScores q
    <= pathScore stateScores transScores (fst (Viterbi stateScores transScores)).
Proof.
  intros Hs HL. destruct T as [|T1].
  - destruct Hs as (Hlen & _). destruct stateScores; [|discriminate].
    cbn. split; [split; [reflexivity | constructor]|].
    intros q [Hq _]. destruct q; [|discriminate]. lra.
  - destruct (Viterbi_result _ _ T1 L Hs HL) as (b & Hb & -> & Hmax & _).
    cbn [fst].
    destruct (rowInv_all stateScores transScores T1 L HL T1 ltac:(lia))
      as [_ Hvalid Hbest _].
    split; [apply Hvalid; exact Hb|].
    intros q Hq.
    assert (Hy : (nth T1 q O < L)%nat).
    { destruct Hq as [Hlen Hall].
      apply (proj1 (List.Forall_nth _ q) Hall T1 O). lia. }
    specialize (Hbest (nth T1 q O) q Hy (conj Hq eq_refl)).
    specialize (Hmax _ Hy). lra.
Qed.

(** X16: [Predict] on a model with at least one label returns one label
    name per position, the names of a label path of the highest total score
    under the model's state and transition scores; the returned slice always
    has the length of the input.  On a model without labels it panics as
    soon as the input has two positions, because [Viterbi] then reads a
    back pointer from an empty row. *)
Theorem Predict_best_path (order : RangeOrder) (m : Model)
    (features : list (gmap string R)) :
  let stateScores := ComputeStateScores m features in
  let transScores := ComputeTransScores m in
  ((1 <= NumLabels m)%nat ->
     exists path,
       Predict m features = Returned (map (labelName m) path) /\
       validPath (length features) (NumLabels m) path /\
       (forall q, validPath (length features) (NumLabels m) q ->
          pathScore stateScores transScores q
          <= pathScore stateScores transScores path) /\
       (forall i, (i < length features)%nat ->
          (NumLabels m <= length (ToStr (Labels m)))%nat ->
          nth i (map (labelName m) path) EmptyString
          = nth (nth i path O) (ToStr (Labels m)) EmptyString)) /\
  (NumLabels m = O -> (2 <= length features)%nat ->
     Predict m features
     = Panicked "runtime error: index out of range [0] with length 0") /\
  (forall labels, Predict m features = Returned labels ->
     length labels = length features).
Proof.
  cbn zeta. split; [|split].
  - intros HL.
    destruct (Viterbi_optimal _ _ _ _ (scores_wellShaped m features) HL)
      as [Hvalid Hbest].
    exists (fst (Viterbi (ComputeStateScores m features) (ComputeTransScores m))).
    split; [|split; [exact Hvalid|split; [exact Hbest|]]].
    + unfold Predict, viterbiCall. cbn zeta.
      destruct features as [|f fs].
      * reflexivity.
      * pose proof (ComputeStateScores_rows m (f :: fs)) as Hrows.
        assert (H0 : length (nth 0 (ComputeStateScores m (f :: fs)) []) = NumLabels m).
        { apply (proj1 (List.Forall_nth _ _) Hrows).
          rewrite ComputeStateScores_length. cbn. lia. }
        rewrite H0. destruct (Nat.eqb_spec (NumLabels m) 0); [lia|]. reflexivity.
    + intros i Hi Hnames. destruct Hvalid as [Hlen Hall].
      rewrite (nth_indep _ EmptyString (labelName m O))
        by (rewrite length_map; lia).
      rewrite (map_nth (labelName m)). unfold labelName.
      assert (Hy : (nth i (fst (Viterbi (ComputeStateScores m features)
                                        (ComputeTransScores m))) O
                    < NumLabels m)%nat).
      { apply (proj1 (List.Forall_nth _ _) Hall). lia. }
      destruct (Nat.ltb_spec
                  (nth i (fst (Viterbi (ComputeStateScores m features)
                                       (ComputeTransScores m))) O)
                  (length (ToStr (Labels m)))); [reflexivity | lia].
  - intros HL HT. unfold Predict, viterbiCall. cbn zeta.
    pose proof (ComputeStateScores_rows m features) as Hrows.
    assert (H0 : length (nth 0 (ComputeStateScores m features) []) = NumLabels m).
    { apply (proj1 (List.Forall_nth _ _) Hrows).
      rewrite ComputeStateScores_length. lia. }
    rewrite H0, HL, ComputeStateScores_length.
    destruct (Nat.leb_spec 2 (length features)); [reflexivity | lia].
  - intros labels. unfold Predict, viterbiCall. cbn zeta.
    destruct (_ && _); cbn [andThen]; [discriminate|].
    intros [= <-]. rewrite length_map, Viterbi_length.
    apply ComputeStateScores_length.
Qed.

(** *** Marginals by label name *)

Lemma marginalSteps_lookup names probs n :
  NoDup names -> (n <= length names)%nat ->
  let result := fold_left (marginalStep names probs) (seq 0 n) ∅ in
  (forall y, (y < n)%nat -> result !! nth y names EmptyString = Some (probs y)) /\
  (forall label, is_Some (result !! label) ->
     exists y, (y < n)%nat /\ label = nth y names EmptyString).
Proof.
  intros Hnd. induction n as [|n IH]; intros Hn; cbn zeta.
  - split; [intros y Hy; lia|]. intros label [p Hp]. cbn in Hp.
    rewrite lookup_empty in Hp. discriminate.
  - assert (Hn' : (n <= length names)%nat) by lia.
    destruct (IH Hn') as [Hval Hkeys]. cbn zeta in Hval, Hkeys.
    rewrite seq_S, fold_left_app. cbn [Nat.add fold_left].
    set (prev := fold_left (marginalStep names probs) (seq 0 n) ∅) in *.
    assert (Hstep : marginalStep names probs prev n
                    = <[nth n names EmptyString := probs n]> prev).
    { unfold marginalStep.
      destruct (Nat.ltb_spec n (length names)) as [_|Hge]; [reflexivity | lia]. }
    rewrite Hstep. split.
    + intros y Hy. destruct (Nat.eq_dec y n) as [->|Hne].
      * apply lookup_insert_eq.
      * rewrite lookup_insert_ne; [apply Hval; lia|].
        intros Heq. apply Hne.
        apply (proj1 (List.NoDup_nth names EmptyString) ltac:(now apply NoDup_ListNoDup)
                 y n); [lia | lia | now symmetry].
    + intros label Hsome.
      destruct (decide (nth n names EmptyString = label)) as [<-|Hne].
      * exists n. split; [lia | reflexivity].
      * rewrite lookup_insert_ne in Hsome by exact Hne.
        destruct (Hkeys label Hsome) as (y & Hy & ->). exists y. split; [lia | reflexivity].
Qed.

Lemma testModel_labels : NoDup (ToStr (Labels testModel)).
Proof.
  cbn. apply NoDup_cons. split; [|apply NoDup_singleton].
  intros H. apply list_elem_of_singleton in H. discriminate.
Qed.



End PredictFacts.

(** * Training of the CRF: the L-BFGS memory and the trained model *)

Module MemoryFacts.

Import Loops LoopFacts Crf MemoryAux.
Local Open Scope R_scope.

Lemma nth_insert_eq {A} (l : list A) i v d :
  (i < length l)%nat -> nth i (<[i := v]> l) d = v.
Proof. intros Hi. rewrite nth_lookup, list_lookup_insert_eq by exact Hi. reflexivity. Qed.

Lemma nth_insert_ne {A} (l : list A) i j v d :
  i <> j -> nth j (<[i := v]> l) d = nth j l d.
Proof. intros Hne. rewrite !nth_lookup, list_lookup_insert_ne by exact Hne. reflexivity. Qed.

Lemma slot_nonneg l e :
  (1 <= lb_m l)%Z -> (0 <= e)%Z -> slot l e = Z.to_nat (e mod lb_m l).
Proof.
  intros Hm He. unfold slot. cbn zeta.
  rewrite Z.rem_mod_nonneg by lia.
  pose proof (Z.mod_pos_bound e (lb_m l) ltac:(lia)).
  destruct (Z.ltb_spec (e mod lb_m l) 0); [lia | reflexivity].
Qed.

Lemma slots_differ (m : Z) (i k : nat) :
  (1 <= m)%Z -> (i < k)%nat -> (Z.of_nat k - m < Z.of_nat i)%Z ->
  Z.to_nat (Z.of_nat k mod m) <> Z.to_nat (Z.of_nat i mod m).
Proof.
  intros Hm Hik Hwin Heq.
  pose proof (Z.mod_pos_bound (Z.of_nat i) m ltac:(lia)) as Hi.
  pose proof (Z.mod_pos_bound (Z.of_nat k) m ltac:(lia)) as Hk.
  assert (Hz : (Z.of_nat k mod m = Z.of_nat i mod m)%Z) by lia.
  pose proof (Z.div_mod (Z.of_nat i) m ltac:(lia)) as Di.
  pose proof (Z.div_mod (Z.of_nat k) m ltac:(lia)) as Dk.
  assert (Hd : (Z.of_nat k - Z.of_nat i
                = m * (Z.of_nat k / m - Z.of_nat i / m))%Z) by lia.
  assert (Hq : (0 < Z.of_nat k / m - Z.of_nat i / m < 1)%Z) by nia.
  lia.
Qed.

Lemma holds_new n m : (0 <= m)%Z -> holds n m [] (newLBFGS n m).
Proof.
  intros Hm. unfold newLBFGS.
  split; cbn [lb_n lb_m lb_s lb_y lb_rho lb_k lb_size length];
    rewrite ?length_replicate; try reflexivity; lia.
Qed.

Lemma update_rejected l s y : dot s y <= 0 -> lbfgsUpdate l s y = l.
Proof.
  intros Hsy. unfold lbfgsUpdate. cbn zeta.
  destruct (Rle_dec (dot s y) 0); [reflexivity | contradiction].
Qed.

Lemma holds_update n m kept l s y :
  (1 <= m)%Z -> holds n m kept l -> 0 < dot s y ->
  holds n m (kept ++ [(s, y)]) (lbfgsUpdate l s y).
Proof.
  intros Hm [Hn Hmm Hs Hy Hrho Hk Hsize Hslot] Hsy.
  unfold lbfgsUpdate. cbn zeta.
  destruct (Rle_dec (dot s y) 0) as [Hle|_]; [lra|].
  rewrite Hn, Hmm, Hk, Hsize.
  rewrite Z.rem_mod_nonneg by lia.
  pose proof (Z.mod_pos_bound (Z.of_nat (length kept)) m ltac:(lia)) as Hbound.
  split; cbn [lb_n lb_m lb_s lb_y lb_rho lb_k lb_size];
    rewrite ?length_insert, ?length_app; cbn [length]; try assumption; try reflexivity.
  - lia.
  - destruct (Z.ltb_spec (Z.min (Z.of_nat (length kept)) m) m); lia.
  - intros i Hi Hwin. cbn zeta.
    destruct (Nat.eq_dec i (length kept)) as [->|Hne].
    + rewrite app_nth2, Nat.sub_diag by lia. cbn [nth fst snd].
      unfold at1. rewrite !nth_insert_eq by lia. auto.
    + assert (Hlt : (i < length kept)%nat) by lia.
      rewrite app_nth1 by exact Hlt.
      assert (Hdiff : Z.to_nat (Z.of_nat (length kept) mod m)
                      <> Z.to_nat (Z.of_nat i mod m))
        by (apply slots_differ; lia).
      specialize (Hslot i Hlt ltac:(lia)). cbn zeta in Hslot.
      unfold at1 in *. rewrite !nth_insert_ne by exact Hdiff.
      exact Hslot.
Qed.

Lemma stored_pos p : stored p = true <-> 0 < dot (fst p) (snd p).
Proof.
  unfold stored. destruct (Rle_dec (dot (fst p) (snd p)) 0); split; intros; try lra;
    try discriminate; reflexivity.
Qed.

Lemma holds_updates n m pairs : forall kept l,
  (1 <= m)%Z -> holds n m kept l ->
  holds n m (kept ++ List.filter stored pairs) (updates l pairs).
Proof.
  induction pairs as [|[s y] pairs IH]; intros kept l Hm Hl; cbn [List.filter].
  - rewrite app_nil_r. exact Hl.
  - unfold updates. cbn [fold_left fst snd]. fold (updates (lbfgsUpdate l s y) pairs).
    destruct (stored (s, y)) eqn:E.
    + apply stored_pos in E. cbn [fst snd] in E.
      replace (kept ++ (s, y) :: List.filter stored pairs)
        with ((kept ++ [(s, y)]) ++ List.filter stored pairs)
        by (now rewrite <- app_assoc).
      apply IH; [exact Hm|]. now apply holds_update.
    + assert (Hle : dot s y <= 0).
      { destruct (Rle_lt_dec (dot s y) 0) as [H|H]; [exact H|].
        apply (stored_pos (s, y)) in H. congruence. }
      rewrite update_rejected by exact Hle. now apply IH.
Qed.

(** X18: the L-BFGS memory is a ring of [m] slots that holds the latest
    pairs of positive curvature.  After any run of [update] calls on a
    new memory with [m >= 1], [k] counts the pairs with [s.y > 0], [size]
    is the smaller of [k] and [m], and each of the latest [size] such pairs
    is found at the slot the two-loop recursion reads it from, stored as
    vectors of [n] entries with [rho = 1 / s.y > 0]; a pair with
    [s.y <= 0] leaves the memory as it was. *)
Theorem lbfgs_keeps_latest (n : nat) (m : Z) (pairs : list (list R * list R)) :
  (1 <= m)%Z ->
  let l := updates (newLBFGS n m) pairs in
  let kept := List.filter stored pairs in
  lb_k l = Z.of_nat (length kept) /\
  lb_size l = Z.min (Z.of_nat (length kept)) m /\
  (forall i, (i < length kept)%nat ->
     (Z.of_nat (length kept) - m <= Z.of_nat i)%Z ->
     let p := nth i kept ([], []) in
     let idx := slot l (Z.of_nat i) in
     (idx < length (lb_s l))%nat /\
     nth idx (lb_s l) [] = tabulate n (at1 (fst p)) /\
     nth idx (lb_y l) [] = tabulate n (at1 (snd p)) /\
     at1 (lb_rho l) idx = 1 / dot (fst p) (snd p) /\
     0 < at1 (lb_rho l) idx) /\
  (forall s y, dot s y <= 0 -> lbfgsUpdate l s y = l).
Proof.
  intros Hm. cbn zeta.
  pose proof (holds_updates n m pairs [] (newLBFGS n m) Hm
                (holds_new n m ltac:(lia))) as H.
  rewrite app_nil_l in H.
  destruct H as [Hn Hmm Hs Hy Hrho Hk Hsize Hslot].
  split; [exact Hk|]. split; [exact Hsize|]. split.
  - intros i Hi Hwin. cbn zeta.
    rewrite slot_nonneg by lia. rewrite Hmm.
    destruct (Hslot i Hi Hwin) as (Hs' & Hy' & Hrho').
    pose proof (Z.mod_pos_bound (Z.of_nat i) m ltac:(lia)).
    split; [lia|]. split; [exact Hs'|]. split; [exact Hy'|].
    split; [exact Hrho'|]. rewrite Hrho'.
    assert (Hin : In (nth i (List.filter stored pairs) ([], []))
                     (List.filter stored pairs)) by (apply nth_In; exact Hi).
    apply filter_In in Hin. destruct Hin as [_ Hst].
    apply stored_pos in Hst. apply Rdiv_lt_0_compat; lra.
  - intros s y. apply update_rejected.
Qed.

Lemma lbfgs_keeps_latest_witness :
  let l := updates (newLBFGS 2 10) [([1; 0], [1; 0])] in
  let kept := List.filter stored [([1; 0], [1; 0])] in
  lb_k l = Z.of_nat (length kept) /\
  lb_size l = Z.min (Z.of_nat (length kept)) 10 /\
  (forall i, (i < length kept)%nat ->
     (Z.of_nat (length kept) - 10 <= Z.of_nat i)%Z ->
     let p := nth i kept ([], []) in
     let idx := slot l (Z.of_nat i) in
     (idx < length (lb_s l))%nat /\
     nth idx (lb_s l) [] = tabulate 2 (at1 (fst p)) /\
     nth idx (lb_y l) [] = tabulate 2 (at1 (snd p)) /\
     at1 (lb_rho l) idx = 1 / dot (fst p) (snd p) /\
     0 < at1 (lb_rho l) idx) /\
  (forall s y, dot s y <= 0 -> lbfgsUpdate l s y = l).
Proof.
  apply (lbfgs_keeps_latest 2 10 [([1; 0], [1; 0])]). lia.
Defined.

End MemoryFacts.

(** * The trained model *)

Module TrainedFacts.

Import Loops LoopFacts GoMap Crf CrfAux TrainAux AlphabetFacts.
Local Open Scope R_scope.

(** *** One iteration *)

Lemma projectOrthant_length n c1 w wNew :
  length wNew = n -> length (projectOrthant n c1 w wNew) = n.
Proof.
  intros H. unfold projectOrthant. destruct (Rgt_dec c1 0); [apply length_tabulate | exact H].
Qed.

Lemma projectOrthant_sign n c1 w wNew i :
  0 < c1 -> 0 <= at1 (projectOrthant n c1 w wNew) i * at1 w i.
Proof.
  intros Hc. unfold projectOrthant. destruct (Rgt_dec c1 0) as [_|Hn]; [|lra].
  destruct (Nat.lt_ge_cases i n) as [Hi|Hi].
  - rewrite at1_tabulate by exact Hi.
    destruct (Rlt_dec (at1 wNew i * at1 w i) 0); lra.
  - unfold at1 at 1. rewrite nth_overflow by (now rewrite length_tabulate). lra.
Qed.

Lemma maxAbs_fold pg : forall mx,
  mx <= fold_left (fun mx g => if Rgt_dec (Rabs g) mx then Rabs g else mx) pg mx /\
  Forall (fun g => Rabs g
                   <= fold_left (fun mx g => if Rgt_dec (Rabs g) mx then Rabs g else mx)
                                pg mx) pg.
Proof.
  induction pg as [|g pg IH]; intros mx; cbn [fold_left].
  - split; [lra | constructor].
  - destruct (IH (if Rgt_dec (Rabs g) mx then Rabs g else mx)) as [Hge Hall].
    destruct (Rgt_dec (Rabs g) mx) as [Hgt|Hle].
    + split; [lra|]. constructor; [exact Hge | exact Hall].
    + split; [exact Hge|]. constructor; [lra | exact Hall].
Qed.

Lemma maxAbs_bound pg i : (i < length pg)%nat -> Rabs (at1 pg i) <= maxAbs pg.
Proof.
  intros Hi. destruct (maxAbs_fold pg 0) as [_ Hall].
  apply (proj1 (List.Forall_nth _ _) Hall i 0 Hi).
Qed.

Lemma pseudoGradient_zero c1 n w grad i :
  0 <= c1 -> (i < n)%nat ->
  at1 (pseudoGradient c1 n w grad) i = 0 <-> stationaryAt c1 (at1 w i) (at1 grad i).
Proof.
  intros Hc Hi. unfold pseudoGradient, stationaryAt. rewrite at1_tabulate by exact Hi.
  destruct (Rgt_dec (at1 w i) 0) as [Hpos|Hnpos].
  - split; [intros H; left; split; [exact Hpos | exact H]|].
    intros [[_ H]|[[Hneg _]|[Hz _]]]; lra.
  - destruct (Rlt_dec (at1 w i) 0) as [Hneg|Hnneg].
    + split; [intros H; right; left; split; [exact Hneg | exact H]|].
      intros [[Hp _]|[[_ H]|[Hz _]]]; lra.
    + assert (Hz : at1 w i = 0) by lra.
      destruct (Rlt_dec (at1 grad i + c1) 0) as [H1|H1].
      * split; [intros H; lra|]. intros [[Hp _]|[[Hn _]|[_ H]]]; lra.
      * destruct (Rgt_dec (at1 grad i - c1) 0) as [H2|H2].
        -- split; [intros H; lra|]. intros [[Hp _]|[[Hn _]|[_ H]]]; lra.
        -- split; [|reflexivity]. intros _. right. right. split; [exact Hz | lra].
Qed.



(** *** The whole run *)

Lemma trainIteration_length cfg internals L transOffset n w mem :
  length w = n ->
  length (fst (fst (trainIteration cfg internals L transOffset n w mem))) = n.
Proof.
  intros Hlen. unfold trainIteration. cbn zeta.
  destruct (Req_dec_T _ 0); [exact Hlen|].
  destruct (Rlt_dec _ _); cbn [fst]; apply projectOrthant_length, length_tabulate.
Qed.

Lemma trainLoop_length iters cfg internals L transOffset n : forall w mem,
  length w = n -> length (trainLoop iters cfg internals L transOffset n w mem) = n.
Proof.
  induction iters as [|iters IH]; intros w mem Hlen; cbn [trainLoop]; [exact Hlen|].
  cbn zeta. destruct (snd (trainIteration cfg internals L transOffset n w mem)).
  - apply IH. now apply trainIteration_length.
  - now apply trainIteration_length.
Qed.

Section Ranged.

Context {order : RangeOrder}.

Lemma BuildAttributeAlphabet_addAll sequences :
  BuildAttributeAlphabet sequences
  = addAll (concat (map attributeNames sequences)) NewAlphabet.
Proof.
  unfold BuildAttributeAlphabet. generalize NewAlphabet.
  induction sequences as [|sq sequences IH]; intros a; cbn [fold_left map concat].
  - reflexivity.
  - rewrite IH, addAll_app. f_equal.
    unfold attributeNames. generalize a. clear.
    induction (Features sq) as [|feats fs IHf]; intros a; cbn [fold_left map concat].
    + reflexivity.
    + rewrite IHf, addAll_app. f_equal.
      unfold addAll. generalize a. clear.
      induction (rangeOf feats) as [|kv l IHl]; intros a; cbn [fold_left map].
      * reflexivity.
      * apply IHl.
Qed.

Lemma attributeNames_elem sq attr :
  attr ∈ attributeNames sq
  <-> exists feats, feats ∈ Features sq /\ is_Some (feats !! attr).
Proof.
  unfold attributeNames. rewrite list_elem_of_In, in_concat. split.
  - intros (l & Hl & Hin). apply in_map_iff in Hl. destruct Hl as (feats & <- & Hf).
    exists feats. split; [now apply list_elem_of_In|].
    apply list_elem_of_In, list_elem_of_fmap in Hin.
    destruct Hin as ([k v] & -> & Hkv). rewrite rangeOf_perm in Hkv.
    apply elem_of_map_to_list in Hkv. cbn. eauto.
  - intros (feats & Hf & [v Hv]).
    exists (map fst (rangeOf feats)). split.
    + apply in_map_iff. exists feats. split; [reflexivity | now apply list_elem_of_In].
    + apply list_elem_of_In, list_elem_of_fmap. exists (attr, v). split; [reflexivity|].
      rewrite rangeOf_perm. now apply elem_of_map_to_list.
Qed.

Lemma Get_known a s : (0 <= Get a s)%Z <-> is_Some (ToID a !! s).
Proof.
  unfold Get. destruct (ToID a !! s) as [id|]; split; intros H; try lia; eauto.
  destruct H as [? H]. discriminate.
Qed.

End Ranged.

(** X20: the model [Train] returns, for sequences that have a label for
    every position.  [NumLabels] is the size of the label alphabet and there
    are exactly [NumWeights] weights; both alphabets are consistent tables;
    the labels with an id are exactly the labels of the sequences and the
    attributes with an id exactly the attribute names that occur in them,
    whatever the order in which the feature maps are ranged over; and with
    no iteration allowed every weight is zero. *)
Theorem Train_model (order : RangeOrder) (sequences : list TrainingSequence)
    (config : TrainerConfig) :
  Forall labelled sequences ->
  let model := Train sequences config in
  NumLabels model = Size (Labels model) /\
  length (Weights model) = NumWeights model /\
  consistent (Labels model) /\ consistent (Attributes model) /\
  (forall label, (0 <= Get (Labels model) label)%Z
     <-> exists sq, sq ∈ sequences /\ label ∈ SeqLabels sq) /\
  (forall attr, (0 <= Get (Attributes model) attr)%Z
     <-> exists sq feats, sq ∈ sequences /\ feats ∈ Features sq /\ is_Some (feats !! attr)) /\
  (forall label, (Get (Labels model) label < Z.of_nat (NumLabels model))%Z) /\
  ((MaxIterations config <= 0)%Z -> Weights model = replicate (NumWeights model) 0).
Proof.
  intros _. cbn zeta. unfold Train. cbn zeta.
  cbn [NumLabels Labels Attributes Weights].
  assert (HcL : consistent (BuildLabelAlphabet sequences)).
  { rewrite BuildLabelAlphabet_addAll. apply addAll_consistent, consistent_New. }
  assert (HcA : consistent (BuildAttributeAlphabet sequences)).
  { rewrite BuildAttributeAlphabet_addAll. apply addAll_consistent, consistent_New. }
  split; [reflexivity|]. split; [|split; [exact HcL|split; [exact HcA|]]].
  - apply trainLoop_length. apply length_replicate.
  - split; [|split; [|split]].
    + intros label. rewrite Get_known, BuildLabelAlphabet_addAll, addAll_lookup.
      cbn [ToID NewAlphabet]. rewrite lookup_empty, list_elem_of_In, in_concat. split.
      * intros [[? H]|(l & Hl & Hin)]; [discriminate|].
        apply in_map_iff in Hl. destruct Hl as (sq & <- & Hsq).
        exists sq. split; now apply list_elem_of_In.
      * intros (sq & Hsq & Hin). right. exists (SeqLabels sq). split.
        -- apply in_map_iff. exists sq. split; [reflexivity | now apply list_elem_of_In].
        -- now apply list_elem_of_In.
    + intros attr. rewrite Get_known, BuildAttributeAlphabet_addAll, addAll_lookup.
      cbn [ToID NewAlphabet]. rewrite lookup_empty, list_elem_of_In, in_concat. split.
      * intros [[? H]|(l & Hl & Hin)]; [discriminate|].
        apply in_map_iff in Hl. destruct Hl as (sq & <- & Hsq).
        apply list_elem_of_In, attributeNames_elem in Hin.
        destruct Hin as (feats & Hf & Hsome).
        exists sq, feats. split; [now apply list_elem_of_In|]. split; assumption.
      * intros (sq & feats & Hsq & Hf & Hsome). right.
        exists (attributeNames sq). split.
        -- apply in_map_iff. exists sq. split; [reflexivity | now apply list_elem_of_In].
        -- apply list_elem_of_In, attributeNames_elem. eauto.
    + intros label. unfold Get.
      destruct (ToID (BuildLabelAlphabet sequences) !! label) as [id|] eqn:E; [|lia].
      pose proof (consistent_bound _ _ _ HcL E). lia.
    + intros Hmax. replace (Z.to_nat (MaxIterations config)) with O by lia.
      reflexivity.
Qed.

Lemma Train_model_witness :
  let model := @Train keyOrder twoTokens DefaultTrainerConfig in
  NumLabels model = Size (Labels model) /\
  length (Weights model) = NumWeights model /\
  consistent (Labels model) /\ consistent (Attributes model) /\
  (forall label, (0 <= Get (Labels model) label)%Z
     <-> exists sq, sq ∈ twoTokens /\ label ∈ SeqLabels sq) /\
  (forall attr, (0 <= Get (Attributes model) attr)%Z
     <-> exists sq feats, sq ∈ twoTokens /\ feats ∈ Features sq /\ is_Some (feats !! attr)) /\
  (forall label, (Get (Labels model) label < Z.of_nat (NumLabels model))%Z) /\
  ((MaxIterations DefaultTrainerConfig <= 0)%Z
   -> Weights model = replicate (NumWeights model) 0).
Proof.
  apply (Train_model keyOrder twoTokens DefaultTrainerConfig).
  repeat constructor.
Defined.

End TrainedFacts.

(** * The form-type classifier at run time *)

Module SoftmaxFacts.

Import Loops LoopFacts Vectorizer Classifier LogRegFacts SparseFacts PairwiseFacts.
Local Open Scope R_scope.

Lemma tabulate_at1 (l : list R) : tabulate (length l) (at1 l) = l.
Proof.
  apply list_eq_at1; [apply length_tabulate|].
  intros i Hi. rewrite length_tabulate in Hi. now apply at1_tabulate.
Qed.

Lemma softmax_length logits : length (softmax logits) = length logits.
Proof. unfold softmax. cbn zeta. now rewrite !length_map. Qed.

Lemma softmax_closed logits k :
  (k < length logits)%nat ->
  at1 (softmax logits) k = softmaxOf (length logits) (at1 logits) k.
Proof.
  intros Hk. rewrite <- (tabulate_at1 logits) at 1.
  assert (HK : (1 <= length logits)%nat) by lia.
  exact (softmax_at (replicate (length logits * (0 + 1)) 0) (length logits) 0 HK
           (length_replicate _ _) (at1 logits) k Hk).
Qed.

Lemma expSum_pos K (z : nat -> R) : (1 <= K)%nat -> 0 < sumTo K (fun c => exp (z c)).
Proof. intros HK. apply sumTo_pos; [lia|]. intros; apply exp_pos. Qed.

Lemma softmaxOf_sum K z : (1 <= K)%nat -> sumTo K (softmaxOf K z) = 1.
Proof.
  intros HK. unfold softmaxOf.
  pose proof (expSum_pos K z HK) as Hpos.
  rewrite (sumTo_ext K _ (fun k => exp (z k) * / sumTo K (fun c => exp (z c))))
    by (intros; reflexivity).
  rewrite sumTo_scale. field. lra.
Qed.

Lemma softmaxOf_range K z k : (k < K)%nat -> 0 < softmaxOf K z k <= 1.
Proof.
  intros Hk. assert (HK : (1 <= K)%nat) by lia.
  pose proof (expSum_pos K z HK) as Hpos.
  unfold softmaxOf. split.
  - apply Rdiv_lt_0_compat; [apply exp_pos | exact Hpos].
  - apply Rmult_le_reg_r with (r := sumTo K (fun c => exp (z c))); [exact Hpos|].
    unfold Rdiv. rewrite Rmult_assoc, Rinv_l, Rmult_1_r, Rmult_1_l by lra.
    apply (sumTo_ge_term K (fun c => exp (z c))); [|exact Hk].
    intros i _. left. apply exp_pos.
Qed.

Lemma softmaxOf_mono K z j k :
  (1 <= K)%nat -> z j <= z k -> softmaxOf K z j <= softmaxOf K z k.
Proof.
  intros HK Hle. pose proof (expSum_pos K z HK) as Hpos.
  unfold softmaxOf, Rdiv. apply Rmult_le_compat_r.
  - left. now apply Rinv_0_lt_compat.
  - destruct Hle as [Hlt| ->]; [left; now apply exp_increasing | lra].
Qed.

Lemma softmaxOf_shift K z c k :
  (1 <= K)%nat -> softmaxOf K (fun i => z i + c) k = softmaxOf K z k.
Proof.
  intros HK. pose proof (expSum_pos K z HK) as Hpos.
  unfold softmaxOf.
  rewrite (sumTo_ext K _ (fun i => exp (z i) * exp c))
    by (intros; apply exp_plus).
  rewrite sumTo_scale, exp_plus. pose proof (exp_pos c). field. lra.
Qed.



End SoftmaxFacts.

(** * Classification *)

Module ClassifyFacts.

Import Loops LoopFacts GoMap Textutil Vectorizer Classifier ClassifyAux.
Import LogRegFacts SparseFacts PairwiseFacts SoftmaxFacts.
Local Open Scope R_scope.

Lemma proba_lookup (names : list string) (probs : nat -> R) n :
  NoDup names -> (n <= length names)%nat ->
  let result := fold_left (fun (result : gmap string R) c =>
                             <[nth c names EmptyString := probs c]> result)
                          (seq 0 n) ∅ in
  (forall c, (c < n)%nat -> result !! nth c names EmptyString = Some (probs c)) /\
  (forall label, is_Some (result !! label) ->
     exists c, (c < n)%nat /\ label = nth c names EmptyString).
Proof.
  intros Hnd. induction n as [|n IH]; intros Hn; cbn zeta.
  - split; [intros c Hc; lia|]. intros label [p Hp]. cbn in Hp.
    rewrite lookup_empty in Hp. discriminate.
  - assert (Hn' : (n <= length names)%nat) by lia.
    destruct (IH Hn') as [Hval Hkeys]. cbn zeta in Hval, Hkeys.
    rewrite seq_S, fold_left_app. cbn [Nat.add fold_left].
    split.
    + intros c Hc. destruct (Nat.eq_dec c n) as [->|Hne].
      * apply lookup_insert_eq.
      * rewrite lookup_insert_ne; [apply Hval; lia|].
        intros Heq. apply Hne.
        apply (proj1 (List.NoDup_nth names EmptyString) ltac:(now apply NoDup_ListNoDup)
                 c n); [lia | lia | now symmetry].
    + intros label Hsome.
      destruct (decide (nth n names EmptyString = label)) as [<-|Hne].
      * exists n. split; [lia | reflexivity].
      * rewrite lookup_insert_ne in Hsome by exact Hne.
        destruct (Hkeys label Hsome) as (c & Hc & ->). exists c. split; [lia | reflexivity].
Qed.

Lemma bestStep_fold l : forall best,
  let r := fold_left bestStep l best in
  snd best <= snd r /\
  Forall (fun kv => snd kv <= snd r) l /\
  (r = best \/ r ∈ l).
Proof.
  induction l as [|kv l IH]; intros best; cbn zeta; cbn [fold_left].
  - split; [lra|]. split; [constructor | now left].
  - destruct (IH (bestStep best kv)) as (Hge & Hall & Hin). cbn zeta in Hge, Hall, Hin.
    assert (Hstep : snd best <= snd (bestStep best kv) /\ snd kv <= snd (bestStep best kv)
                    /\ (bestStep best kv = best \/ bestStep best kv = kv)).
    { unfold bestStep. destruct (Rgt_dec (snd kv) (snd best)); repeat split; auto; lra. }
    destruct Hstep as (H1 & H2 & H3).
    split; [lra|]. split; [constructor; [lra | exact Hall]|].
    destruct Hin as [->|Hin].
    + destruct H3 as [->| ->]; [now left | right; apply elem_of_cons; now left].
    + right. apply elem_of_cons. now right.
Qed.

Section Classified.

Context {text : TextPrims} {order : RangeOrder} {dom : FormDom}.

Lemma ClassifyProba_returns m rt form features :
  extractFeatures m rt form = Returned features ->
  (1 <= length (Classes m))%nat ->
  (length (Classes m) <= length (Coef m))%nat ->
  (length (Classes m) <= length (Intercept m))%nat ->
  ClassifyProba m rt form
  = Returned (fold_left (fun (result : gmap string R) c =>
                           <[nth c (Classes m) EmptyString
                             := at1 (softmax (tabulate (length (Classes m))
                                                (logitOf m features))) c]> result)
                        (seq 0 (length (Classes m))) ∅).
Proof.
  intros Hf HK HC HI. unfold ClassifyProba. rewrite Hf. cbn [andThen]. cbn zeta.
  destruct (Nat.ltb_spec (length (Coef m)) (length (Classes m))); [lia|].
  destruct (Nat.ltb_spec (length (Intercept m)) (length (Classes m))); [lia|].
  cbn [orb].
  destruct (Nat.eqb_spec (length (Classes m)) 0); [lia|]. reflexivity.
Qed.

End Classified.

Lemma classify_best (text : TextPrims) (order : RangeOrder) (dom : FormDom)
    (m : FormTypeModel) (rt : RuntimeVecs) (form : Selection) (features : SparseVector) :
  extractFeatures m rt form = Returned features ->
  NoDup (Classes m) ->
  (1 <= length (Classes m))%nat ->
  (length (Classes m) <= length (Coef m))%nat ->
  (length (Classes m) <= length (Intercept m))%nat ->
  let K := length (Classes m) in
  exists proba cls p,
    ClassifyProba m rt form = Returned proba /\
    Classify m rt form = Returned cls /\
    (forall c, (c < K)%nat ->
       proba !! nth c (Classes m) EmptyString = Some (softmaxOf K (logitOf m features) c)) /\
    (forall label, is_Some (proba !! label) <-> label ∈ Classes m) /\
    sumTo K (fun c => default 0 (proba !! nth c (Classes m) EmptyString)) = 1 /\
    proba !! cls = Some p /\
    (forall label q, proba !! label = Some q -> q <= p).
Proof.
  intros Hf Hnd HK HC HI. cbn zeta.
  pose proof (ClassifyProba_returns m rt form features Hf HK HC HI) as Hproba.
  set (K := length (Classes m)) in *.
  set (probs := softmax (tabulate K (logitOf m features))) in *.
  set (proba := fold_left _ (seq 0 K) ∅) in Hproba.
  destruct (proba_lookup (Classes m) (at1 probs) K Hnd (Nat.le_refl _))
    as [Hval Hkeys].
  cbn zeta in Hval, Hkeys. fold proba in Hval, Hkeys.
  assert (Hclosed : forall c, (c < K)%nat ->
            at1 probs c = softmaxOf K (logitOf m features) c).
  { intros c Hc. unfold probs.
    exact (softmax_at (replicate (K * (0 + 1)) 0) K 0 HK (length_replicate _ _)
             (logitOf m features) c Hc). }
  assert (Hdom : forall label, is_Some (proba !! label) <-> label ∈ Classes m).
  { intros label. split.
    - intros Hsome. destruct (Hkeys label Hsome) as (c & Hc & ->).
      apply list_elem_of_In, nth_In. exact Hc.
    - intros Hin. apply list_elem_of_In in Hin.
      destruct (In_nth _ _ EmptyString Hin) as (c & Hc & <-).
      rewrite Hval by exact Hc. eauto. }
  pose proof (bestStep_fold (rangeOf proba) (EmptyString, -1)) as Hbest.
  cbn zeta in Hbest. set (best := fold_left bestStep (rangeOf proba) _) in Hbest.
  destruct Hbest as (Hge & Hall & Hin). cbn [snd] in Hge.
  assert (Hrange : forall k v, (k, v) ∈ rangeOf proba <-> proba !! k = Some v).
  { intros k v. rewrite rangeOf_perm. apply elem_of_map_to_list. }
  assert (Hpos : forall label q, proba !! label = Some q -> 0 < q).
  { intros label q Hq. destruct (Hkeys label (ex_intro _ q Hq)) as (c & Hc & ->).
    rewrite Hval in Hq by exact Hc. injection Hq as <-.
    rewrite Hclosed by exact Hc. now apply softmaxOf_range. }
  assert (Hbound : forall label q, proba !! label = Some q -> q <= snd best).
  { intros label q Hq. apply Hrange in Hq.
    apply (proj1 (Forall_forall _ _) Hall (label, q)). exact Hq. }
  assert (Hmember : best ∈ rangeOf proba).
  { destruct Hin as [Heq|Hin]; [|exact Hin]. exfalso.
    assert (Hfirst : proba !! nth 0 (Classes m) EmptyString = Some (at1 probs 0))
      by (apply Hval; lia).
    pose proof (Hpos _ _ Hfirst). pose proof (Hbound _ _ Hfirst) as Hb.
    rewrite Heq in Hb. cbn [snd] in Hb. lra. }
  exists proba, (fst best), (snd best).
  split; [exact Hproba|]. split.
  { unfold Classify. rewrite Hproba. cbn [andThen]. reflexivity. }
  split.
  { intros c Hc. rewrite Hval by exact Hc. now rewrite Hclosed. }
  split; [exact Hdom|]. split.
  { rewrite (sumTo_ext K _ (softmaxOf K (logitOf m features))).
    - now apply softmaxOf_sum.
    - intros c Hc. rewrite Hval by exact Hc. cbn. now apply Hclosed. }
  split; [|exact Hbound].
  apply Hrange. now destruct best.
Qed.

(** X22: when the features of a form can be extracted and the model has
    distinct classes, at least one, each with a coefficient row and an
    intercept, [ClassifyProba] returns a map whose keys are exactly the
    classes, whose values are the softmax of the class logits and sum to 1,
    and [Classify] returns a class of the largest probability, whatever the
    order in which the map is ranged over. *)
Theorem Classify_most_probable (text : TextPrims) (order : RangeOrder) (dom : FormDom)
    (m : FormTypeModel) (rt : RuntimeVecs) (form : Selection) (features : SparseVector) :
  extractFeatures m rt form = Returned features ->
  NoDup (Classes m) ->
  (1 <= length (Classes m))%nat ->
  (length (Classes m) <= length (Coef m))%nat ->
  (length (Classes m) <= length (Intercept m))%nat ->
  let K := length (Classes m) in
  exists proba cls p,
    ClassifyProba m rt form = Returned proba /\
    Classify m rt form = Returned cls /\
    (forall c, (c < K)%nat ->
       proba !! nth c (Classes m) EmptyString = Some (softmaxOf K (logitOf m features) c)) /\
    (forall label, is_Some (proba !! label) <-> label ∈ Classes m) /\
    sumTo K (fun c => default 0 (proba !! nth c (Classes m) EmptyString)) = 1 /\
    proba !! cls = Some p /\
    (forall label q, proba !! label = Some q -> q <= p).
Proof. exact (classify_best text order dom m rt form features). Qed.

Lemma twoClass_extracts :
  @extractFeatures asciiText keyOrder textDom twoClassModel twoClassRuntime
                   EmptyString
  = Returned (mkSparse [] [] 0).
Proof. vm_compute. reflexivity. Qed.

Lemma twoClass_distinct : NoDup (Classes twoClassModel).
Proof.
  cbn. apply NoDup_cons. split; [|apply NoDup_singleton].
  intros H. apply list_elem_of_singleton in H. discriminate.
Qed.

Lemma Classify_most_probable_witness :
  let m := twoClassModel in
  let rt := twoClassRuntime in
  let features := mkSparse [] [] 0 in
  let K := length (Classes m) in
  exists proba cls p,
    @ClassifyProba asciiText keyOrder textDom m rt EmptyString = Returned proba /\
    @Classify asciiText keyOrder textDom m rt EmptyString = Returned cls /\
    (forall c, (c < K)%nat ->
       proba !! nth c (Classes m) EmptyString = Some (softmaxOf K (logitOf m features) c)) /\
    (forall label, is_Some (proba !! label) <-> label ∈ Classes m) /\
    sumTo K (fun c => default 0 (proba !! nth c (Classes m) EmptyString)) = 1 /\
    proba !! cls = Some p /\
    (forall label q, proba !! label = Some q -> q <= p).
Proof.
  apply (Classify_most_probable asciiText keyOrder textDom twoClassModel twoClassRuntime
           EmptyString (mkSparse [] [] 0)).
  - exact twoClass_extracts.
  - exact twoClass_distinct.
  - cbn. lia.
  - cbn. lia.
  - cbn. lia.
Defined.

End ClassifyFacts.

(** * Run-time state *)

Module RuntimeFacts.

Import Loops LoopFacts GoMap Textutil Vectorizer Classifier ClassifyAux.
Local Open Scope string_scope.

Lemma initPipeline_ready p :
  hasVectorizer p = true ->
  exists dv cv tv,
    initPipeline p = Returned (dv, cv, tv, pipelineDim p) /\
    (String.eqb (SpVecType p) "dict" = true -> is_Some dv) /\
    (String.eqb (SpVecType p) "dict" = false ->
     String.eqb (SpVecType p) "count" = true -> is_Some cv) /\
    (String.eqb (SpVecType p) "dict" = false ->
     String.eqb (SpVecType p) "count" = false ->
     String.eqb (SpVecType p) "tfidf" = true -> is_Some tv) /\
    (forall v, dv = Some v -> DictVectorizer.VocabSize v = pipelineDim p) /\
    (forall v, cv = Some v -> CountVectorizer.VocabSize v = pipelineDim p) /\
    (forall v, tv = Some v -> TfidfVectorizer.VocabSize v = pipelineDim p).
Proof.
  unfold hasVectorizer, initPipeline, pipelineDim.
  destruct (String.eqb (SpVecType p) "dict") eqn:Ed.
  { intros H. apply bool_decide_eq_true in H. destruct H as [dv Hdv]. rewrite Hdv.
    exists (Some dv), None, None. cbn. repeat split; eauto; try discriminate.
    intros v [= <-]. reflexivity. }
  destruct (String.eqb (SpVecType p) "count") eqn:Ec.
  { intros H. apply bool_decide_eq_true in H. destruct H as [cv Hcv]. rewrite Hcv.
    exists None, (Some cv), None. cbn. repeat split; eauto; try discriminate.
    intros v [= <-]. reflexivity. }
  destruct (String.eqb (SpVecType p) "tfidf") eqn:Et.
  { intros H. apply bool_decide_eq_true in H. destruct H as [tv Htv]. rewrite Htv.
    exists None, None, (Some tv). cbn. repeat split; eauto; try discriminate.
    intros v [= <-]. reflexivity. }
  intros _. exists None, None, None. repeat split; try discriminate.
Qed.

Lemma initPipeline_nil p : hasVectorizer p = false -> initPipeline p = Panicked nilDeref.
Proof.
  unfold hasVectorizer, initPipeline.
  destruct (String.eqb (SpVecType p) "dict").
  { intros H. apply bool_decide_eq_false in H.
    destruct (DictVec p); [exfalso; apply H; eauto | reflexivity]. }
  destruct (String.eqb (SpVecType p) "count").
  { intros H. apply bool_decide_eq_false in H.
    destruct (CountVec p); [exfalso; apply H; eauto | reflexivity]. }
  destruct (String.eqb (SpVecType p) "tfidf").
  { intros H. apply bool_decide_eq_false in H.
    destruct (TfidfVec p); [exfalso; apply H; eauto | reflexivity]. }
  discriminate.
Qed.

Lemma initPipelines_ready ps :
  forallb hasVectorizer ps = true ->
  exists slots, initPipelines ps = Returned slots /\
    Forall2 (fun p r => initPipeline p = Returned r /\ snd r = pipelineDim p) ps slots.
Proof.
  induction ps as [|p ps IH]; cbn [forallb initPipelines]; intros H.
  - exists []. split; [reflexivity | constructor].
  - apply andb_prop in H. destruct H as [Hp Hps].
    destruct (IH Hps) as (slots & Hs & Hall).
    destruct (initPipeline_ready p Hp) as (dv & cv & tv & Hr & _).
    rewrite Hr, Hs. cbn [andThen].
    eexists. split; [reflexivity|]. constructor; [|exact Hall].
    split; [exact Hr | reflexivity].
Qed.

Lemma initPipelines_nil ps :
  forallb hasVectorizer ps = false -> initPipelines ps = Panicked nilDeref.
Proof.
  induction ps as [|p ps IH]; cbn [forallb initPipelines]; intros H; [discriminate|].
  destruct (hasVectorizer p) eqn:Hp.
  - cbn [andb] in H. destruct (initPipeline_ready p Hp) as (dv & cv & tv & Hr & _).
    rewrite Hr, (IH H). reflexivity.
  - now rewrite initPipeline_nil.
Qed.

Lemma Dim_concat vectors : Dim (ConcatSparse vectors) = list_sum (map Dim vectors).
Proof.
  unfold ConcatSparse. cbn [Dim].
  assert (H : forall d, fold_left (fun d v => (d + Dim v)%nat) vectors d
                        = (d + list_sum (map Dim vectors))%nat).
  { induction vectors as [|v vs IH]; intros d; simpl; [lia|].
    rewrite IH. lia. }
  now rewrite H.
Qed.

Section Extracted.

Context {text : TextPrims} {order : RangeOrder} {dom : FormDom}.

Lemma Dict_Transform_Dim dv d :
  Dim (DictVectorizer.Transform dv d) = DictVectorizer.VocabSize dv.
Proof.
  unfold DictVectorizer.Transform, DictVectorizer.VocabSize.
  assert (H : forall l sv,
            Dim (fold_left (fun sv kv =>
                   match DictVectorizer.FeatureIndex dv
                         !! DictVectorizer.featureKey (fst kv) (snd kv) with
                   | Some idx => SetValue sv idx (DictVectorizer.featureValue (snd kv))
                   | None => sv
                   end) l sv) = Dim sv).
  { induction l as [|kv l IH]; intros sv; cbn [fold_left]; [reflexivity|].
    rewrite IH. destruct (_ !! _); [apply DictFacts.SetValue_Dim | reflexivity]. }
  rewrite H. reflexivity.
Qed.

Lemma Tfidf_Transform_Dim tv s :
  Dim (TfidfVectorizer.Transform tv s) = TfidfVectorizer.VocabSize tv.
Proof.
  unfold TfidfVectorizer.Transform, TfidfVectorizer.VocabSize. cbn zeta.
  destruct (Rgt_dec _ 0); cbn [Dim]; apply CountTransformFacts.Transform_Dim.
Qed.

Lemma extractPipeline_slot ps slots m' rt i p r (form : Selection) pipe :
  vecTypes m' = map SpVecType ps ->
  dictVecs rt = map (fun r => fst (fst (fst r))) slots ->
  countVecs rt = map (fun r => snd (fst (fst r))) slots ->
  tfidfVecs rt = map (fun r => snd (fst r)) slots ->
  ps !! i = Some p -> slots !! i = Some r ->
  initPipeline p = Returned r ->
  exists v, extractPipeline m' rt form i pipe = Returned v /\ Dim v = pipelineDim p.
Proof.
  intros Hvt Hd Hc Ht Hp Hs Hr.
  unfold extractPipeline. rewrite Hvt, list_lookup_fmap, Hp. cbn [fmap option_fmap option_map].
  unfold initPipeline in Hr. unfold pipelineDim, slotAt.
  rewrite Hd, Hc, Ht, !list_lookup_fmap, Hs. cbn [fmap option_fmap option_map].
  destruct (String.eqb (SpVecType p) "dict").
  { destruct (DictVec p) as [dv|]; [|discriminate]. injection Hr as <-.
    cbn [fst snd andThen from_option]. eexists. split; [reflexivity|].
    apply Dict_Transform_Dim. }
  destruct (String.eqb (SpVecType p) "count").
  { destruct (CountVec p) as [cv|]; [|discriminate]. injection Hr as <-.
    cbn [fst snd andThen from_option]. eexists. split; [reflexivity|].
    apply CountTransformFacts.Transform_Dim. }
  destruct (String.eqb (SpVecType p) "tfidf").
  { destruct (TfidfVec p) as [tv|]; [|discriminate]. injection Hr as <-.
    cbn [fst snd andThen from_option]. eexists. split; [reflexivity|].
    apply Tfidf_Transform_Dim. }
  eexists. split; reflexivity.
Qed.

Lemma extractPipelines_slots ps slots m' rt (form : Selection) :
  vecTypes m' = map SpVecType ps ->
  dictVecs rt = map (fun r => fst (fst (fst r))) slots ->
  countVecs rt = map (fun r => snd (fst (fst r))) slots ->
  tfidfVecs rt = map (fun r => snd (fst r)) slots ->
  Forall2 (fun p r => initPipeline p = Returned r /\ snd r = pipelineDim p) ps slots ->
  forall pipes i,
    ((i + length pipes <= length ps)%nat ->
     exists vs, extractPipelines m' rt form i pipes = Returned vs /\
                map Dim vs = take (length pipes) (drop i (map pipelineDim ps))) /\
    ((i <= length ps < i + length pipes)%nat ->
     extractPipelines m' rt form i pipes = Panicked outOfRange).
Proof.
  intros Hvt Hd Hc Ht Hall.
  induction pipes as [|pipe pipes IH]; intros i; cbn [extractPipelines length].
  - split; [|lia]. intros _. exists []. split; reflexivity.
  - destruct (ps !! i) as [p|] eqn:Hp.
    + destruct (Forall2_lookup_l _ _ _ _ _ Hall Hp) as (r & Hs & Hr & _).
      destruct (extractPipeline_slot ps slots m' rt i p r form pipe
                  Hvt Hd Hc Ht Hp Hs Hr) as (v & Hv & Hdim).
      rewrite Hv. cbn [andThen]. destruct (IH (S i)) as [IHok IHbad]. split.
      * intros Hlen. destruct (IHok ltac:(lia)) as (vs & Hvs & Hdims).
        rewrite Hvs. cbn [andThen]. eexists. split; [reflexivity|].
        cbn [map]. rewrite Hdims, Hdim.
        rewrite (drop_S (map pipelineDim ps) (pipelineDim p) i)
          by (now rewrite list_lookup_fmap, Hp).
        reflexivity.
      * intros Hlen. apply lookup_lt_Some in Hp.
        rewrite IHbad by lia. reflexivity.
    + apply lookup_ge_None in Hp. split; [lia|]. intros _.
      unfold extractPipeline.
      assert (Hnone : vecTypes m' !! i = None).
      { apply lookup_ge_None. rewrite Hvt, length_map. exact Hp. }
      rewrite Hnone. reflexivity.
Qed.

End Extracted.

Lemma slot_dims ps slots :
  Forall2 (fun p r => initPipeline p = Returned r /\ snd r = pipelineDim p) ps slots ->
  map snd slots = map pipelineDim ps.
Proof.
  induction 1 as [|p r ps slots [_ Hr] _ IH]; cbn [map]; [reflexivity|].
  now rewrite Hr, IH.
Qed.


End RuntimeFacts.

(** * The line search of the form-type trainer *)

Module LogRegSearchFacts.

Import Loops LoopFacts Vectorizer Classifier ClassifyAux.
Local Open Scope R_scope.

Lemma logRegLineSearchLoop_first x y params dir K D c loss trials : forall step,
  exists k, (k <= trials)%nat /\
    logRegLineSearchLoop trials x y params dir K D c loss step = step * (1 / 2) ^ k /\
    (forall j, (j < k)%nat ->
       ~ lossAt x y params dir K D c (step * (1 / 2) ^ j) < loss) /\
    ((k < trials)%nat ->
       lossAt x y params dir K D c (step * (1 / 2) ^ k) < loss).
Proof.
  induction trials as [|trials IH]; intros step; cbn [logRegLineSearchLoop].
  - exists O. split; [lia|]. split; [cbn; lra|]. split; intros; lia.
  - cbn zeta. fold (lossAt x y params dir K D c step).
    destruct (Rlt_dec (lossAt x y params dir K D c step) loss) as [Hlt|Hge].
    + exists O. split; [lia|]. split; [cbn; lra|]. split; [intros; lia|].
      intros _. cbn [pow]. now rewrite Rmult_1_r.
    + destruct (IH (step * (1 / 2))) as (k & Hk & Hres & Hfail & Hok).
      exists (S k). split; [lia|]. split; [|split].
      * rewrite Hres. cbn [pow]. lra.
      * intros j Hj. destruct j as [|j].
        -- cbn [pow]. now rewrite Rmult_1_r.
        -- replace (step * (1 / 2) ^ S j) with (step * (1 / 2) * (1 / 2) ^ j)
             by (cbn [pow]; lra).
           apply Hfail. lia.
      * intros Hlt.
        replace (step * (1 / 2) ^ S k) with (step * (1 / 2) * (1 / 2) ^ k)
          by (cbn [pow]; lra).
        apply Hok. lia.
Qed.

(** X24: [logRegLineSearch] returns the first step among 1, 1/2, ...,
    2^-19 at which the loss is strictly below the current loss; when none
    of the twenty trial steps lowers the loss it returns 2^-20, a step it
    has not tried.  The step is never zero, so the trainer always moves the
    parameters. *)
Theorem logRegLineSearch_first_decrease (x : list SparseVector) (y : list nat)
    (params dir : list R) (numClasses totalDim : nat) (c currentLoss : R) :
  let step := logRegLineSearch x y params dir numClasses totalDim c currentLoss in
  exists k, (k <= 20)%nat /\
    step = (1 / 2) ^ k /\ 0 < step /\
    (forall j, (j < k)%nat ->
       ~ lossAt x y params dir numClasses totalDim c ((1 / 2) ^ j) < currentLoss) /\
    ((k < 20)%nat -> lossAt x y params dir numClasses totalDim c step < currentLoss).
Proof.
  cbn zeta. unfold logRegLineSearch.
  destruct (logRegLineSearchLoop_first x y params dir numClasses totalDim c
              currentLoss 20 1) as (k & Hk & Hres & Hfail & Hok).
  exists k. rewrite Hres, Rmult_1_l.
  split; [exact Hk|]. split; [reflexivity|]. split; [apply pow_lt; lra|]. split.
  - intros j Hj. specialize (Hfail j Hj). now rewrite Rmult_1_l in Hfail.
  - intros Hlt. specialize (Hok Hlt). now rewrite Rmult_1_l in Hok.
Qed.

End LogRegSearchFacts.

(** * The trained form-type model *)

Module TrainedFormFacts.

Import Loops LoopFacts GoMap Textutil Vectorizer Classifier ClassifyAux FormTrainAux.
Import LogRegFacts SparseFacts RuntimeFacts ClassifyFacts.
Local Open Scope string_scope.

(** *** The classes *)

Lemma collectClasses_steps labels :
  collectClasses labels = fold_left classStep labels (∅, []).
Proof. reflexivity. Qed.

Lemma classStep_fold labels : forall st,
  NoDup (snd st) ->
  (forall l, is_Some (fst st !! l) <-> l ∈ snd st) ->
  let st' := fold_left classStep labels st in
  NoDup (snd st') /\
  (forall l, is_Some (fst st' !! l) <-> l ∈ snd st') /\
  (forall l, l ∈ snd st' <-> l ∈ snd st \/ l ∈ labels).
Proof.
  induction labels as [|a labels IH]; intros st Hnd Hdom; cbn zeta; cbn [fold_left].
  - split; [exact Hnd|]. split; [exact Hdom|]. intros l. rewrite elem_of_nil. tauto.
  - assert (Hstep : NoDup (snd (classStep st a)) /\
                    (forall l, is_Some (fst (classStep st a) !! l)
                               <-> l ∈ snd (classStep st a)) /\
                    (forall l, l ∈ snd (classStep st a) <-> l ∈ snd st \/ l = a)).
    { unfold classStep. destruct (fst st !! a) as [i|] eqn:E.
      - split; [exact Hnd|]. split; [exact Hdom|]. intros l. split; [auto|].
        intros [H| ->]; [exact H|]. apply Hdom. eauto.
      - cbn [fst snd]. split; [|split].
        + apply NoDup_app. split; [exact Hnd|]. split; [|apply NoDup_singleton].
          intros l Hl Hin. apply list_elem_of_singleton in Hin. subst l.
          apply Hdom in Hl. rewrite E in Hl. destruct Hl as [? Hl]. discriminate.
        + intros l. rewrite elem_of_app, list_elem_of_singleton, lookup_insert.
          case_decide as Hd.
          * subst l. split; [auto | eauto].
          * rewrite Hdom. split; [auto|]. intros [H|H]; [exact H | congruence].
        + intros l. now rewrite elem_of_app, list_elem_of_singleton. }
    destruct Hstep as (Hnd' & Hdom' & Hin').
    destruct (IH (classStep st a) Hnd' Hdom') as (H1 & H2 & H3). cbn zeta in H1, H2, H3.
    split; [exact H1|]. split; [exact H2|].
    intros l. rewrite H3, Hin', elem_of_cons. tauto.
Qed.

Lemma collectClasses_classes labels :
  NoDup (snd (collectClasses labels)) /\
  (forall l, l ∈ snd (collectClasses labels) <-> l ∈ labels).
Proof.
  rewrite collectClasses_steps.
  destruct (classStep_fold labels (∅, []) (NoDup_nil_2)) as (Hnd & _ & Hin).
  { intros l. cbn [fst snd]. rewrite lookup_empty, elem_of_nil. split; [|tauto].
    intros [? H]. discriminate. }
  cbn zeta in Hnd, Hin. split; [exact Hnd|].
  intros l. rewrite Hin. cbn [snd]. rewrite elem_of_nil. tauto.
Qed.

(** *** The parameters *)

Lemma formTypeLoop_length iters xData y K D numParams reg : forall params mem,
  length params = numParams ->
  length (formTypeLoop iters xData y K D numParams reg params mem) = numParams.
Proof.
  induction iters as [|iters IH]; intros params mem Hlen; cbn [formTypeLoop];
    [exact Hlen|].
  cbn zeta.
  assert (Hstep : length (fst (fst (formTypeIteration xData y K D numParams reg
                                      params mem))) = numParams).
  { unfold formTypeIteration. cbn zeta. cbn [fst]. apply length_tabulate. }
  destruct (snd (formTypeIteration xData y K D numParams reg params mem)).
  - apply IH. exact Hstep.
  - exact Hstep.
Qed.

Section Trained.

Context {text : TextPrims} {order : RangeOrder} {dom : FormDom}.

(** *** The fitted pipelines *)

Lemma fitPipeline_serialised pipe (forms : list Selection) :
  let r := fitPipeline pipe forms in
  SpVecType (fst (fst r)) = VecType pipe /\
  hasVectorizer (fst (fst r)) = true /\
  pipelineDim (fst (fst r)) = snd r /\
  (forall j, (j < length forms)%nat ->
     Dim (nth j (snd (fst r)) (NewSparseVector 0)) = snd r).
Proof.
  cbn zeta. unfold fitPipeline. cbn zeta.
  destruct (String.eqb (VecType pipe) "dict") eqn:Ed.
  { cbn [fst snd SpVecType]. unfold hasVectorizer, pipelineDim.
    cbn [SpVecType DictVec]. rewrite Ed. cbn [from_option].
    split; [reflexivity|]. split; [apply bool_decide_eq_true; eauto|].
    split; [reflexivity|]. intros j Hj.
    unfold DictVectorizer.FitTransform. cbn zeta. cbn [fst snd].
    rewrite (nth_indep _ _ (DictVectorizer.Transform
                              (DictVectorizer.Fit (map (ExtractDict (PipeExtractor pipe)) forms))
                              ∅))
      by (now rewrite !length_map).
    rewrite (map_nth (DictVectorizer.Transform _)). apply Dict_Transform_Dim. }
  destruct (String.eqb (VecType pipe) "count") eqn:Ec.
  { cbn [fst snd SpVecType]. unfold hasVectorizer, pipelineDim.
    cbn [SpVecType DictVec CountVec]. rewrite Ed, Ec. cbn [from_option].
    split; [reflexivity|]. split; [apply bool_decide_eq_true; eauto|].
    split; [reflexivity|]. intros j Hj.
    unfold CountVectorizer.FitTransform. cbn zeta. cbn [fst snd].
    rewrite (nth_indep _ _ (CountVectorizer.Transform
                              (CountVectorizer.Fit
                                 (CountVectorizer.New (NgramRange pipe) (Binary pipe)
                                    (Analyzer pipe) (MinDF pipe))
                                 (map (ExtractString (PipeExtractor pipe)) forms))
                              EmptyString))
      by (now rewrite !length_map).
    rewrite (map_nth (CountVectorizer.Transform _)).
    apply CountTransformFacts.Transform_Dim. }
  destruct (String.eqb (VecType pipe) "tfidf") eqn:Et.
  { cbn [fst snd SpVecType]. unfold hasVectorizer, pipelineDim.
    cbn [SpVecType DictVec CountVec TfidfVec]. rewrite Ed, Ec, Et. cbn [from_option].
    split; [reflexivity|]. split; [apply bool_decide_eq_true; eauto|].
    split; [reflexivity|]. intros j Hj.
    unfold TfidfVectorizer.FitTransform. cbn zeta. cbn [fst snd].
    set (tv := TfidfVectorizer.Fit _ _).
    rewrite (nth_indep _ _ (TfidfVectorizer.Transform tv EmptyString))
      by (now rewrite !length_map).
    rewrite (map_nth (TfidfVectorizer.Transform tv)).
    apply Tfidf_Transform_Dim. }
  cbn [fst snd SpVecType]. unfold hasVectorizer, pipelineDim.
  cbn [SpVecType]. rewrite Ed, Ec, Et.
  repeat split. intros j _. now destruct j.
Qed.

Lemma TrainFormType_shape (f : Selection) fs labels config :
  let fitted := map (fun pipe => fitPipeline pipe (f :: fs)) DefaultFeaturePipelines in
  let classes := snd (collectClasses labels) in
  let K := length classes in
  let D := list_sum (map snd fitted) in
  exists params, length params = (K * (D + 1))%nat /\
    TrainFormType (f :: fs) labels config
    = Returned (mkFormTypeModel classes
                  (tabulate K (fun c => window params (c * (D + 1)) D))
                  (tabulate K (fun c => at1 params (c * (D + 1) + D)))
                  (map (fun r => fst (fst r)) fitted)
                  (map VecType DefaultFeaturePipelines)
                  (map snd fitted)).
Proof.
  cbn zeta. unfold TrainFormType. cbn [length]. unfold tabulate at 1.
  cbn [seq map]. cbn zeta.
  set (fitted := map (fun pipe => fitPipeline pipe (f :: fs)) DefaultFeaturePipelines).
  set (d0 := Dim (ConcatSparse _)).
  assert (Hd : d0 = list_sum (map snd fitted)).
  { unfold d0. rewrite Dim_concat. f_equal. unfold fitted. rewrite !map_map.
    apply map_ext. intros pipe.
    apply (proj2 (proj2 (proj2 (fitPipeline_serialised pipe (f :: fs))))).
    cbn. lia. }
  clearbody d0. subst d0.
  eexists. split; [|reflexivity].
  apply formTypeLoop_length, length_replicate.
Qed.

End Trained.

(** X25: a form-type model trained on at least one form, with a label for
    every form, can be used as it is.  [TrainFormType] returns a model whose
    classes are the distinct labels, with one coefficient row and one
    intercept per class, every row as long as the feature vectors, and one
    fitted pipeline per default pipeline; [InitRuntime] on it succeeds and
    leaves it unchanged; and [Classify] then returns, for every form, one of
    the training labels. *)
Theorem TrainFormType_usable (text : TextPrims) (order : RangeOrder) (dom : FormDom)
    (forms : list Selection) (labels : list string) (config : FormTypeTrainConfig) :
  (1 <= length forms)%nat ->
  (length forms <= length labels)%nat ->
  exists model rt,
    TrainFormType forms labels config = Returned model /\
    NoDup (Classes model) /\
    (forall l, l ∈ Classes model <-> l ∈ labels) /\
    length (Coef model) = length (Classes model) /\
    length (Intercept model) = length (Classes model) /\
    Forall (fun row => length row = list_sum (vecDims model)) (Coef model) /\
    length (Pipelines model) = length DefaultFeaturePipelines /\
    InitRuntime model = Returned (model, rt) /\
    (forall form, exists features cls,
       extractFeatures model rt form = Returned features /\
       Dim features = list_sum (vecDims model) /\
       Classify model rt form = Returned cls /\ cls ∈ labels).
Proof.
  intros Hforms Hlabels.
  destruct forms as [|f fs]; [cbn in Hforms; lia|].
  destruct (TrainFormType_shape f fs labels config) as (params & Hparams & Htrain).
  cbn zeta in Hparams, Htrain.
  set (fitted := map (fun pipe => fitPipeline pipe (f :: fs)) DefaultFeaturePipelines) in *.
  set (classes := snd (collectClasses labels)) in *.
  set (D := list_sum (map snd fitted)) in *.
  set (model := mkFormTypeModel _ _ _ _ _ _) in Htrain.
  destruct (collectClasses_classes labels) as [Hnd Hin]. fold classes in Hnd, Hin.
  assert (Hready : forallb hasVectorizer (Pipelines model) = true).
  { unfold model. cbn [Pipelines]. apply forallb_forall. intros p Hp.
    apply in_map_iff in Hp. destruct Hp as (r & <- & Hr).
    unfold fitted in Hr. apply in_map_iff in Hr. destruct Hr as (pipe & <- & _).
    apply (fitPipeline_serialised pipe (f :: fs)). }
  assert (Htypes : map SpVecType (Pipelines model) = vecTypes model).
  { unfold model, fitted. cbn [Pipelines vecTypes]. rewrite !map_map.
    apply map_ext. intros pipe. apply (fitPipeline_serialised pipe (f :: fs)). }
  assert (Hdims : map pipelineDim (Pipelines model) = vecDims model).
  { unfold model, fitted. cbn [Pipelines vecDims]. rewrite !map_map.
    apply map_ext. intros pipe. apply (fitPipeline_serialised pipe (f :: fs)). }
  destruct (initPipelines_ready _ Hready) as (slots & Hslots & Hall).
  pose proof (slot_dims _ _ Hall) as Hsd.
  set (rt := mkRuntimeVecs (map (fun r => fst (fst (fst r))) slots)
                           (map (fun r => snd (fst (fst r))) slots)
                           (map (fun r => snd (fst r)) slots)).
  assert (Hinit : InitRuntime model = Returned (model, rt)).
  { unfold InitRuntime. rewrite Hslots. cbn [andThen].
    rewrite Hsd, Hdims, Htypes. reflexivity. }
  assert (Hlabel : (1 <= length classes)%nat).
  { destruct labels as [|l labels]; [cbn in Hlabels; lia|].
    assert (Hl : l ∈ classes) by (apply Hin; apply elem_of_cons; now left).
    destruct classes; [now apply elem_of_nil in Hl | cbn; lia]. }
  exists model, rt.
  split; [exact Htrain|]. split; [exact Hnd|]. split; [exact Hin|].
  split; [apply length_tabulate|]. split; [apply length_tabulate|]. split.
  { unfold model. cbn [Coef vecDims]. apply List.Forall_nth. intros c d Hc.
    rewrite length_tabulate in Hc. rewrite nth_tabulate by exact Hc.
    apply length_window. rewrite Hparams.
    fold D. clear -Hc. nia. }
  split.
  { unfold model, fitted. cbn [Pipelines]. now rewrite !length_map. }
  split; [exact Hinit|].
  intros form.
  destruct (extractPipelines_slots (Pipelines model) slots model rt form
              (eq_sym Htypes) eq_refl eq_refl eq_refl Hall DefaultFeaturePipelines 0)
    as [Hok _].
  destruct Hok as (vs & Hvs & Hd).
  { unfold model, fitted. cbn [Pipelines]. rewrite !length_map. cbn. lia. }
  assert (Hfeat : extractFeatures model rt form = Returned (ConcatSparse vs)).
  { unfold extractFeatures. rewrite Hvs. reflexivity. }
  destruct (classify_best text order dom model rt form (ConcatSparse vs) Hfeat Hnd Hlabel)
    as (proba & cls & p & _ & Hcls & _ & Hdom & _ & Hp & _).
  { unfold model. cbn [Coef Classes]. rewrite length_tabulate. fold classes. lia. }
  { unfold model. cbn [Intercept Classes]. rewrite length_tabulate. fold classes. lia. }
  exists (ConcatSparse vs), cls.
  split; [exact Hfeat|]. split.
  { rewrite Dim_concat, Hd, Hdims, drop_0.
    rewrite firstn_all2; [reflexivity|].
    unfold model, fitted. cbn [vecDims]. rewrite !length_map. cbn. lia. }
  split; [exact Hcls|].
  apply Hin. apply Hdom. eauto.
Qed.

Lemma TrainFormType_usable_witness :
  exists model rt,
    @TrainFormType asciiText keyOrder textDom twoForms twoFormTypes
                   DefaultFormTypeTrainConfig = Returned model /\
    NoDup (Classes model) /\
    (forall l, l ∈ Classes model <-> l ∈ twoFormTypes) /\
    length (Coef model) = length (Classes model) /\
    length (Intercept model) = length (Classes model) /\
    Forall (fun row => length row = list_sum (vecDims model)) (Coef model) /\
    length (Pipelines model) = length DefaultFeaturePipelines /\
    InitRuntime model = Returned (model, rt) /\
    (forall form, exists features cls,
       @extractFeatures asciiText keyOrder textDom model rt form = Returned features /\
       Dim features = list_sum (vecDims model) /\
       @Classify asciiText keyOrder textDom model rt form = Returned cls /\
       cls ∈ twoFormTypes).
Proof.
  apply (TrainFormType_usable asciiText keyOrder textDom twoForms twoFormTypes
           DefaultFormTypeTrainConfig).
  - cbn. lia.
  - cbn. lia.
Defined.

End TrainedFormFacts.

(** * Cross-validation folds and the top-level trainer *)

Module FoldFacts.

Import Loops LoopFacts GoMap Dit FoldAux MemoryFacts.

(** *** Tables built by a loop of insertions *)

Lemma insert_fold_lookup {K V : Type} `{Countable K} (keys : list K) (d : K)
    (vals : nat -> V) n :
  NoDup keys -> (n <= length keys)%nat ->
  let result := fold_left (fun (r : gmap K V) i => <[nth i keys d := vals i]> r)
                          (seq 0 n) ∅ in
  forall i, (i < n)%nat -> result !! nth i keys d = Some (vals i).
Proof.
  intros Hnd. induction n as [|n IH]; intros Hn; cbn zeta; [intros i Hi; lia|].
  assert (Hn' : (n <= length keys)%nat) by lia.
  specialize (IH Hn'). cbn zeta in IH.
  rewrite seq_S, fold_left_app. cbn [Nat.add fold_left].
  intros i Hi. destruct (Nat.eq_dec i n) as [->|Hne].
  - apply lookup_insert_eq.
  - rewrite lookup_insert_ne; [apply IH; lia|].
    intros Heq. apply Hne.
    apply (proj1 (List.NoDup_nth keys d) ltac:(now apply NoDup_ListNoDup) i n);
      [lia | lia | now symmetry].
Qed.

Lemma uniqueOf_from groups : forall (u : gmap Z bool) g,
  is_Some (fold_left (fun (u : gmap Z bool) g => <[g := true]> u) groups u !! g)
  <-> is_Some (u !! g) \/ g ∈ groups.
Proof.
  induction groups as [|a groups IH]; intros u g; cbn [fold_left].
  - rewrite elem_of_nil. tauto.
  - rewrite IH, elem_of_cons, lookup_insert. case_decide as Hd.
    + subst a. split; [auto|]. intros _. left. eauto.
    + split; [intros [H'|H']; auto|]. intros [H'|[H'|H']]; auto. congruence.
Qed.

Lemma uniqueOf_elem groups g : is_Some (uniqueOf groups !! g) <-> g ∈ groups.
Proof.
  unfold uniqueOf. rewrite uniqueOf_from, lookup_empty. split; [|auto].
  intros [[? H']|H']; [discriminate | exact H'].
Qed.

Section Ranged.

Context {order : RangeOrder}.

Lemma sortedGroups_NoDup groups : NoDup (map fst (rangeOf (uniqueOf groups))).
Proof.
  assert (Hp : map fst (rangeOf (uniqueOf groups))
               ≡ₚ map fst (map_to_list (uniqueOf groups)))
    by apply fmap_Permutation, rangeOf_perm.
  rewrite Hp. apply NoDup_fst_map_to_list.
Qed.

Lemma sortedGroups_elem groups g :
  g ∈ map fst (rangeOf (uniqueOf groups)) <-> g ∈ groups.
Proof.
  rewrite <- (uniqueOf_elem groups g). split.
  - intros Hin. apply list_elem_of_fmap in Hin.
    destruct Hin as ([k v] & -> & Hkv). rewrite rangeOf_perm in Hkv.
    apply elem_of_map_to_list in Hkv. cbn. eauto.
  - intros [v Hv]. apply list_elem_of_fmap. exists (g, v). split; [reflexivity|].
    rewrite rangeOf_perm. now apply elem_of_map_to_list.
Qed.

Lemma sortedGroups_length groups :
  length (map fst (rangeOf (uniqueOf groups))) = length (remove_dups groups).
Proof.
  apply Permutation_length, NoDup_Permutation.
  - apply sortedGroups_NoDup.
  - apply NoDup_remove_dups.
  - intros g. now rewrite sortedGroups_elem, elem_of_remove_dups.
Qed.

End Ranged.

(** *** The fold of a group *)

Lemma foldTable_lookup sortedGroups nFolds i :
  NoDup sortedGroups -> (i < length sortedGroups)%nat ->
  foldTable sortedGroups nFolds !! nth i sortedGroups 0%Z
  = Some (Z.rem (Z.of_nat i) nFolds).
Proof.
  intros Hnd Hi. unfold foldTable.
  exact (insert_fold_lookup sortedGroups 0%Z (fun i => Z.rem (Z.of_nat i) nFolds)
           (length sortedGroups) Hnd (Nat.le_refl _) i Hi).
Qed.

Lemma foldOf_index sortedGroups nFolds i :
  NoDup sortedGroups -> (1 <= nFolds)%Z -> (i < length sortedGroups)%nat ->
  foldOf (foldTable sortedGroups nFolds) (nth i sortedGroups 0%Z)
  = Z.to_nat (Z.of_nat i mod nFolds).
Proof.
  intros Hnd Hn Hi. unfold foldOf. rewrite foldTable_lookup by assumption.
  cbn [default from_option]. now rewrite Z.rem_mod_nonneg by lia.
Qed.

Lemma foldOf_bound sortedGroups nFolds g :
  NoDup sortedGroups -> (1 <= nFolds)%Z -> g ∈ sortedGroups ->
  (foldOf (foldTable sortedGroups nFolds) g < Z.to_nat nFolds)%nat.
Proof.
  intros Hnd Hn Hg. apply list_elem_of_In in Hg.
  destruct (In_nth _ _ 0%Z Hg) as (i & Hi & <-).
  rewrite foldOf_index by assumption.
  pose proof (Z.mod_pos_bound (Z.of_nat i) nFolds ltac:(lia)). lia.
Qed.

Lemma foldOf_own sortedGroups nFolds k :
  NoDup sortedGroups -> (1 <= nFolds)%Z ->
  (k < length sortedGroups)%nat -> (k < Z.to_nat nFolds)%nat ->
  foldOf (foldTable sortedGroups nFolds) (nth k sortedGroups 0%Z) = k.
Proof.
  intros Hnd Hn Hk Hkn. rewrite foldOf_index by assumption.
  rewrite Z.mod_small by lia. lia.
Qed.

(** *** The folds *)

Lemma tabulate_const {A} n (x : A) : tabulate n (fun _ => x) = replicate n x.
Proof.
  apply nth_ext with (d := x) (d' := x).
  - now rewrite length_tabulate, length_replicate.
  - intros k Hk. rewrite length_tabulate in Hk.
    rewrite nth_tabulate by exact Hk.
    rewrite nth_lookup, lookup_replicate_2 by exact Hk. reflexivity.
Qed.

Lemma assign_prefix table groups n m :
  (forall i, (i < m)%nat -> (foldOf table (nth i groups 0%Z) < n)%nat) ->
  fold_left (assignStep table groups) (seq 0 m) (replicate n [])
  = tabulate n (fun k =>
      List.filter (fun i => (foldOf table (nth i groups 0%Z) =? k)%nat) (seq 0 m)).
Proof.
  induction m as [|m IH]; intros Hbound.
  - cbn [seq fold_left List.filter]. symmetry. apply tabulate_const.
  - rewrite seq_S, fold_left_app. cbn [Nat.add fold_left].
    rewrite IH by (intros i Hi; apply Hbound; lia).
    unfold assignStep. cbn zeta.
    set (f := foldOf table (nth m groups 0%Z)).
    assert (Hf : (f < n)%nat) by (apply Hbound; lia).
    apply nth_ext with (d := []) (d' := []).
    + now rewrite length_insert, !length_tabulate.
    + intros k Hk. rewrite length_insert, length_tabulate in Hk.
      rewrite (nth_tabulate n _ k) by exact Hk.
      rewrite List.filter_app. cbn [List.filter]. fold f.
      destruct (Nat.eq_dec f k) as [<-|Hne].
      * rewrite nth_insert_eq by (now rewrite length_tabulate).
        rewrite nth_tabulate by exact Hf. now rewrite Nat.eqb_refl.
      * rewrite nth_insert_ne by exact Hne.
        rewrite nth_tabulate by exact Hk.
        destruct (Nat.eqb_spec f k); [contradiction|]. now rewrite app_nil_r.
Qed.

Lemma StronglySorted_filter (P : nat -> bool) l :
  StronglySorted lt l -> StronglySorted lt (List.filter P l).
Proof.
  induction 1 as [|a l Hs IH Hall]; cbn [List.filter]; [constructor|].
  destruct (P a); [|exact IH]. constructor; [exact IH|].
  apply List.Forall_forall. intros x Hx. apply filter_In in Hx.
  apply (proj1 (List.Forall_forall _ _) Hall). tauto.
Qed.

Lemma StronglySorted_seq start n : StronglySorted lt (seq start n).
Proof.
  revert start. induction n as [|n IH]; intros start; cbn [seq]; constructor.
  - apply IH.
  - apply List.Forall_forall. intros x Hx. apply in_seq in Hx. lia.
Qed.

Section Folded.

Context {order : RangeOrder}.

Lemma groupKFold_run groups nFolds :
  (1 <= nFolds)%Z ->
  let sortedGroups := map fst (rangeOf (uniqueOf groups)) in
  let n := Z.min nFolds (Z.of_nat (length sortedGroups)) in
  groupKFold groups nFolds
  = Returned (fold_left (assignStep (foldTable sortedGroups n) groups)
                        (seq 0 (length groups)) (replicate (Z.to_nat n) [])).
Proof.
  intros Hn. cbn zeta. unfold groupKFold. cbn zeta. fold (uniqueOf groups).
  set (sortedGroups := map fst (rangeOf (uniqueOf groups))).
  destruct (Z.ltb_spec (Z.of_nat (length sortedGroups)) nFolds) as [Hlt|Hge].
  - rewrite Z.min_r by lia.
    destruct (Z.eqb_spec (Z.of_nat (length sortedGroups)) 0) as [Hz|Hnz].
    + destruct (Nat.ltb_spec 0 (length sortedGroups)); [lia|]. cbn [andb].
      destruct (Z.ltb_spec (Z.of_nat (length sortedGroups)) 0); [lia|]. reflexivity.
    + cbn [andb].
      destruct (Z.ltb_spec (Z.of_nat (length sortedGroups)) 0); [lia|]. reflexivity.
  - rewrite Z.min_l by lia.
    destruct (Z.eqb_spec nFolds 0); [lia|]. cbn [andb].
    destruct (Z.ltb_spec nFolds 0); [lia|]. reflexivity.
Qed.

End Folded.

(** X26: [groupKFold] with a fold count of at least one splits the
    indices of [groups] into folds: there are as many folds as the smaller
    of the fold count and the number of distinct groups, every index is in
    a fold, the indices of one group are all in the same fold (so the folds
    are disjoint), no fold is empty, and each fold lists its indices in
    increasing order; this holds whatever the order in which the set of
    groups is ranged over.  A fold count of zero panics with a division by
    zero as soon as there is one group, and a negative one panics in
    [make]. *)
Theorem groupKFold_partition (order : RangeOrder) (groups : list Z) (nFolds : Z) :
  (1 <= nFolds)%Z ->
  (exists folds,
     groupKFold groups nFolds = Returned folds /\
     length folds = Nat.min (Z.to_nat nFolds) (length (remove_dups groups)) /\
     (forall i, (i < length groups)%nat ->
        exists k, (k < length folds)%nat /\ i ∈ nth k folds []) /\
     (forall i k, i ∈ nth k folds [] -> (i < length groups)%nat) /\
     (forall i j k k', i ∈ nth k folds [] -> j ∈ nth k' folds [] ->
        nth i groups 0%Z = nth j groups 0%Z -> k = k') /\
     (forall k, (k < length folds)%nat -> nth k folds [] <> []) /\
     (forall k, StronglySorted lt (nth k folds []))) /\
  (forall g rest,
     groupKFold (g :: rest) 0 = Panicked "runtime error: integer divide by zero") /\
  groupKFold [] 0 = Returned [] /\
  (forall p gs,
     groupKFold gs (Z.neg p) = Panicked "runtime error: makeslice: len out of range").
Proof.
  intros Hn. split; [|split; [|split]].
  - pose proof (groupKFold_run groups nFolds Hn) as Hrun. cbn zeta in Hrun.
    set (sortedGroups := map fst (rangeOf (uniqueOf groups))) in *.
    set (n := Z.min nFolds (Z.of_nat (length sortedGroups))) in *.
    set (table := foldTable sortedGroups n) in *.
    pose proof (sortedGroups_NoDup groups) as Hnd. fold sortedGroups in Hnd.
    assert (Helem : forall g, g ∈ sortedGroups <-> g ∈ groups)
      by (intros g; apply sortedGroups_elem).
    assert (Hpos : forall g, g ∈ groups -> (1 <= n)%Z).
    { intros g Hg. apply Helem in Hg.
      destruct sortedGroups; [now apply elem_of_nil in Hg|]. cbn [length] in n. lia. }
    assert (Hbound : forall i, (i < length groups)%nat ->
                       (foldOf table (nth i groups 0%Z) < Z.to_nat n)%nat).
    { intros i Hi.
      assert (Hg : nth i groups 0%Z ∈ groups) by (apply list_elem_of_In, nth_In; exact Hi).
      apply foldOf_bound; [exact Hnd | exact (Hpos _ Hg) | now apply Helem]. }
    rewrite (assign_prefix table groups (Z.to_nat n) (length groups) Hbound) in Hrun.
    set (folds := tabulate (Z.to_nat n) _) in Hrun.
    assert (Hlen : length folds = Z.to_nat n) by apply length_tabulate.
    assert (Hmem : forall i k, i ∈ nth k folds [] <->
                     (k < Z.to_nat n)%nat /\ (i < length groups)%nat /\
                     foldOf table (nth i groups 0%Z) = k).
    { intros i k. destruct (Nat.lt_ge_cases k (Z.to_nat n)) as [Hk|Hk].
      - unfold folds. rewrite nth_tabulate by exact Hk.
        rewrite list_elem_of_In, filter_In, in_seq, Nat.eqb_eq. intuition lia.
      - rewrite nth_overflow by (rewrite Hlen; exact Hk).
        rewrite elem_of_nil. intuition lia. }
    exists folds. split; [exact Hrun|]. split; [|split; [|split; [|split; [|split]]]].
    + rewrite Hlen. unfold n. rewrite <- (sortedGroups_length groups).
      fold sortedGroups. lia.
    + intros i Hi. exists (foldOf table (nth i groups 0%Z)).
      rewrite Hlen. split; [now apply Hbound|]. apply Hmem.
      split; [now apply Hbound|]. split; [exact Hi | reflexivity].
    + intros i k Hik. apply Hmem in Hik. tauto.
    + intros i j k k' Hi Hj Heq. apply Hmem in Hi, Hj.
      destruct Hi as (_ & _ & <-). destruct Hj as (_ & _ & <-). now rewrite Heq.
    + intros k Hk Hempty. rewrite Hlen in Hk.
      assert (Hks : (k < length sortedGroups)%nat) by (unfold n in Hk; lia).
      assert (Hg : nth k sortedGroups 0%Z ∈ groups)
        by (apply Helem, list_elem_of_In, nth_In; exact Hks).
      pose proof (Hpos _ Hg) as Hn1.
      apply list_elem_of_In in Hg.
      destruct (In_nth _ _ 0%Z Hg) as (i & Hi & Hgi).
      assert (Hin : i ∈ nth k folds []).
      { apply Hmem. split; [exact Hk|]. split; [exact Hi|].
        rewrite Hgi. unfold table. now apply foldOf_own. }
      rewrite Hempty in Hin. now apply elem_of_nil in Hin.
    + intros k. destruct (Nat.lt_ge_cases k (Z.to_nat n)) as [Hk|Hk].
      * unfold folds. rewrite nth_tabulate by exact Hk.
        apply StronglySorted_filter, StronglySorted_seq.
      * rewrite nth_overflow by (rewrite Hlen; exact Hk). constructor.
  - intros g rest. unfold groupKFold. cbn zeta. fold (uniqueOf (g :: rest)).
    set (sortedGroups := map fst (rangeOf (uniqueOf (g :: rest)))).
    assert (Hg : g ∈ sortedGroups)
      by (apply sortedGroups_elem, elem_of_cons; now left).
    assert (Hlen : (1 <= length sortedGroups)%nat).
    { destruct sortedGroups; [now apply elem_of_nil in Hg | cbn; lia]. }
    destruct (Z.ltb_spec (Z.of_nat (length sortedGroups)) 0); [lia|].
    cbn [Z.eqb]. destruct (Nat.ltb_spec 0 (length sortedGroups)); [|lia].
    reflexivity.
  - unfold groupKFold. cbn zeta. cbn [fold_left].
    assert (Hnil : rangeOf (∅ : gmap Z bool) = []).
    { apply Permutation_nil_r. rewrite rangeOf_perm. now rewrite map_to_list_empty. }
    rewrite Hnil. reflexivity.
  - intros p gs. unfold groupKFold. cbn zeta. fold (uniqueOf gs).
    set (sortedGroups := map fst (rangeOf (uniqueOf gs))).
    destruct (Z.ltb_spec (Z.of_nat (length sortedGroups)) (Z.neg p)); [lia|].
    cbn [Z.eqb andb]. destruct (Z.ltb_spec (Z.neg p) 0); [reflexivity | lia].
Qed.

Lemma groupKFold_partition_witness :
  (exists folds,
     @groupKFold keyOrder [7; 3; 7]%Z 2 = Returned folds /\
     length folds = Nat.min (Z.to_nat 2) (length (remove_dups [7; 3; 7]%Z)) /\
     (forall i, (i < length [7; 3; 7]%Z)%nat ->
        exists k, (k < length folds)%nat /\ i ∈ nth k folds []) /\
     (forall i k, i ∈ nth k folds [] -> (i < length [7; 3; 7]%Z)%nat) /\
     (forall i j k k', i ∈ nth k folds [] -> j ∈ nth k' folds [] ->
        nth i [7; 3; 7]%Z 0%Z = nth j [7; 3; 7]%Z 0%Z -> k = k') /\
     (forall k, (k < length folds)%nat -> nth k folds [] <> []) /\
     (forall k, StronglySorted lt (nth k folds []))) /\
  (forall g rest,
     @groupKFold keyOrder (g :: rest) 0
     = Panicked "runtime error: integer divide by zero") /\
  @groupKFold keyOrder [] 0 = Returned [] /\
  (forall p gs,
     @groupKFold keyOrder gs (Z.neg p)
     = Panicked "runtime error: makeslice: len out of range").
Proof.
  apply (groupKFold_partition keyOrder [7; 3; 7]%Z 2). lia.
Defined.

End FoldFacts.

(** * Splitting the data of a fold *)

Module SplitFacts.

Import Loops LoopFacts GoMap Dit FoldAux FoldFacts.
Local Open Scope string_scope.

Lemma makeTestSet_from testIdx : forall (set : list bool),
  Forall (fun i => (i < length set)%nat) testIdx ->
  let out := fold_left (fun (set : list bool) i => <[i := true]> set) testIdx set in
  length out = length set /\
  forall i, nth i out false = nth i set false || bool_decide (i ∈ testIdx).
Proof.
  induction testIdx as [|a testIdx IH]; intros set Hall; cbn zeta; cbn [fold_left].
  - split; [reflexivity|]. intros i.
    rewrite bool_decide_eq_false_2 by apply not_elem_of_nil. now rewrite orb_false_r.
  - inversion Hall as [|? ? Ha Hrest]; subst.
    destruct (IH (<[a := true]> set)) as [Hlen Hat].
    { rewrite length_insert. exact Hrest. }
    cbn zeta in Hlen, Hat. rewrite length_insert in Hlen.
    split; [exact Hlen|]. intros i. rewrite Hat.
    destruct (Nat.eq_dec a i) as [->|Hne].
    + rewrite MemoryFacts.nth_insert_eq by exact Ha.
      rewrite (bool_decide_eq_true_2 (i ∈ i :: testIdx)) by (apply elem_of_cons; now left).
      now rewrite orb_true_r.
    + rewrite MemoryFacts.nth_insert_ne by exact Hne. f_equal.
      apply bool_decide_ext. rewrite elem_of_cons. intuition congruence.
Qed.

Lemma makeTestSet_marks n testIdx :
  Forall (fun i => (i < n)%nat) testIdx ->
  length (makeTestSet n testIdx) = n /\
  forall i, nth i (makeTestSet n testIdx) false = bool_decide (i ∈ testIdx).
Proof.
  intros Hall. unfold makeTestSet.
  destruct (makeTestSet_from testIdx (replicate n false)) as [Hlen Hat].
  { now rewrite length_replicate. }
  cbn zeta in Hlen, Hat. rewrite length_replicate in Hlen.
  split; [exact Hlen|]. intros i. rewrite Hat.
  assert (H0 : nth i (replicate n false) false = false).
  { destruct (Nat.lt_ge_cases i n) as [Hi|Hi].
    - rewrite nth_lookup, lookup_replicate_2 by exact Hi. reflexivity.
    - apply nth_overflow. now rewrite length_replicate. }
  now rewrite H0.
Qed.

Lemma filterByIndex_steps {A} (forms : list A) labels testSet isTest :
  filterByIndex forms labels testSet isTest
  = fold_left (keepStep labels testSet isTest) (imap pair forms) ([], []).
Proof. reflexivity. Qed.

Lemma keep_fold {A} (labels : list string) testSet isTest (d : A) (forms : list A) :
  let sel := List.filter (fun i => Bool.eqb (nth i testSet false) isTest)
                         (seq 0 (length forms)) in
  fold_left (keepStep labels testSet isTest) (imap pair forms) ([], [])
  = (map (fun i => nth i forms d) sel, map (fun i => nth i labels "") sel).
Proof.
  cbn zeta. induction forms as [|x forms IH] using rev_ind; [reflexivity|].
  rewrite imap_app, fold_left_app, IH. cbn [imap fold_left].
  rewrite Nat.add_0_r, length_app. cbn [length]. rewrite Nat.add_1_r, seq_S.
  rewrite List.filter_app. cbn [Nat.add List.filter].
  unfold keepStep. cbn [fst snd].
  assert (Hprefix : map (fun i => nth i (forms ++ [x]) d)
                        (List.filter (fun i => Bool.eqb (nth i testSet false) isTest)
                                     (seq 0 (length forms)))
                    = map (fun i => nth i forms d)
                          (List.filter (fun i => Bool.eqb (nth i testSet false) isTest)
                                       (seq 0 (length forms)))).
  { apply map_ext_in. intros i Hi. apply filter_In in Hi. destruct Hi as [Hi _].
    apply in_seq in Hi. apply app_nth1. lia. }
  destruct (Bool.eqb (nth (length forms) testSet false) isTest).
  - rewrite !map_app, Hprefix. cbn [map].
    rewrite app_nth2, Nat.sub_diag by lia. reflexivity.
  - rewrite !app_nil_r, Hprefix. reflexivity.
Qed.

Lemma marked_sorted n idx :
  Forall (fun i => (i < n)%nat) idx -> StronglySorted lt idx ->
  marked n idx true = idx.
Proof.
  intros Hall Hs.
  assert (Hanti : AntiSymm eq lt) by (intros x y ? ?; lia).
  apply (StronglySorted_unique lt).
  - apply StronglySorted_filter, StronglySorted_seq.
  - exact Hs.
  - apply NoDup_Permutation.
    + apply NoDup_ListNoDup, List.NoDup_filter, seq_NoDup.
    + clear Hall. induction Hs as [|a l Hs IH Ha]; [constructor|].
      apply NoDup_cons. split; [|exact IH].
      intros Hin. apply list_elem_of_In in Hin.
      pose proof (proj1 (List.Forall_forall _ _) Ha a Hin). lia.
    + intros i. unfold marked. rewrite list_elem_of_In, filter_In, in_seq.
      destruct (bool_decide (i ∈ idx)) eqn:E.
      * apply bool_decide_eq_true in E. split; [intros _; exact E|].
        intros _. split; [|reflexivity].
        apply list_elem_of_In in E.
        assert (Hi : (i < n)%nat) by exact (proj1 (List.Forall_forall _ _) Hall i E).
        lia.
      * apply bool_decide_eq_false in E. split; [|tauto].
        intros [_ H]. discriminate.
Qed.

(** X27: the split of a fold.  For test indices within the forms and a
    label for every form, [makeTestSet] marks exactly the test indices, and
    [filterByIndex] returns the forms at the marked (or, for the training
    part, the unmarked) indices in increasing order, each with its own
    label; the two parts together have all the forms, and for test indices
    in increasing order, as [groupKFold] gives them, the test part lists the
    forms in the order of the fold. *)
Theorem test_train_split {A : Type} (forms : list A) (labels : list string)
    (testIdx : list nat) (d : A) :
  Forall (fun i => (i < length forms)%nat) testIdx ->
  (length forms <= length labels)%nat ->
  let n := length forms in
  let testSet := makeTestSet n testIdx in
  let test := filterByIndex forms labels testSet true in
  let train := filterByIndex forms labels testSet false in
  length testSet = n /\
  (forall i, nth i testSet false = bool_decide (i ∈ testIdx)) /\
  fst test = map (fun i => nth i forms d) (marked n testIdx true) /\
  snd test = map (fun i => nth i labels "") (marked n testIdx true) /\
  fst train = map (fun i => nth i forms d) (marked n testIdx false) /\
  snd train = map (fun i => nth i labels "") (marked n testIdx false) /\
  (length (fst test) + length (fst train) = n)%nat /\
  (StronglySorted lt testIdx -> marked n testIdx true = testIdx).
Proof.
  intros Hall _. cbn zeta.
  destruct (makeTestSet_marks (length forms) testIdx Hall) as [Hlen Hat].
  assert (Hsel : forall isTest,
            List.filter (fun i => Bool.eqb (nth i (makeTestSet (length forms) testIdx) false)
                                           isTest) (seq 0 (length forms))
            = marked (length forms) testIdx isTest).
  { intros isTest. unfold marked. apply filter_ext_in. intros i _. now rewrite Hat. }
  assert (Hout : forall isTest,
            filterByIndex forms labels (makeTestSet (length forms) testIdx) isTest
            = (map (fun i => nth i forms d) (marked (length forms) testIdx isTest),
               map (fun i => nth i labels "") (marked (length forms) testIdx isTest))).
  { intros isTest. rewrite filterByIndex_steps, (keep_fold labels _ isTest d forms).
    cbn zeta. now rewrite Hsel. }
  rewrite !Hout. cbn [fst snd].
  split; [exact Hlen|]. split; [exact Hat|].
  repeat (split; [reflexivity|]). split.
  - rewrite !length_map. unfold marked.
    transitivity (length (seq 0 (length forms))); [|apply length_seq].
    rewrite <- (filter_length (fun i => Bool.eqb (bool_decide (i ∈ testIdx)) true)
                  (seq 0 (length forms))).
    f_equal. f_equal. apply filter_ext. intros i.
    now destruct (bool_decide (i ∈ testIdx)).
  - intros Hs. now apply marked_sorted.
Qed.

Lemma test_train_split_witness :
  let forms := ["a"; "b"; "c"] in
  let labels := ["login"; "search"; "login"] in
  let testIdx := [1%nat] in
  let d := "" in
  let n := length forms in
  let testSet := makeTestSet n testIdx in
  let test := filterByIndex forms labels testSet true in
  let train := filterByIndex forms labels testSet false in
  length testSet = n /\
  (forall i, nth i testSet false = bool_decide (i ∈ testIdx)) /\
  fst test = map (fun i => nth i forms d) (marked n testIdx true) /\
  snd test = map (fun i => nth i labels "") (marked n testIdx true) /\
  fst train = map (fun i => nth i forms d) (marked n testIdx false) /\
  snd train = map (fun i => nth i labels "") (marked n testIdx false) /\
  (length (fst test) + length (fst train) = n)%nat /\
  (StronglySorted lt testIdx -> marked n testIdx true = testIdx).
Proof.
  apply (test_train_split ["a"; "b"; "c"] ["login"; "search"; "login"] [1%nat] "").
  - repeat constructor.
  - cbn. lia.
Defined.

End SplitFacts.

(** * The top-level trainer *)

Module TopLevelFacts.

Import Loops GoMap Textutil Vectorizer Classifier Dit StoreAux.
Import TrainedFormFacts.
Local Open Scope string_scope.

Section TopLevel.

Context {text : TextPrims} {order : RangeOrder} {dom : FormDom}
        {ext : @Collaborators dom}.

Lemma labels_loaded (fa : list FormAnnotation) :
  (forall ann, ann ∈ fa -> is_Some (LoadForm (formSource ann))) ->
  snd (extractFormTrainingData fa) = map TypeFull fa.
Proof.
  intros Hload. unfold extractFormTrainingData. cbn [snd].
  apply map_ext_in. intros ann Hin. apply list_elem_of_In in Hin.
  destruct (Hload ann Hin) as [form Hform]. unfold formSource in Hform.
  now rewrite Hform.
Qed.

Lemma Train_runs dataDir config annotations :
  IterAnnotations dataDir
    (match config with Some c => Dit.Verbose c | None => false end) = inl annotations ->
  annotations <> [] ->
  Train dataDir config
  = (let verbose := match config with Some c => Dit.Verbose c | None => false end in
     let fl := extractFormTrainingData (filterFormAnnotated annotations) in
     match TrainFormType (fst fl) (snd fl)
             (mkFormTypeTrainConfig (C DefaultFormTypeTrainConfig)
                                    (MaxIter DefaultFormTypeTrainConfig) verbose) with
     | Returned formModel =>
         Returned (mkClassifier (mkFormFieldClassifier formModel
           (if (0 <? length (filterFieldAnnotated annotations))%nat
            then Some (TrainFieldType
                         (fst (buildCRFSequences (filterFieldAnnotated annotations)))
                         (Crf.mkTrainerConfig
                            (Crf.C1 Crf.DefaultTrainerConfig)
                            (Crf.C2 Crf.DefaultTrainerConfig)
                            (Crf.MaxIterations Crf.DefaultTrainerConfig)
                            (Crf.AllPossibleTransitions Crf.DefaultTrainerConfig)
                            (Crf.Epsilon Crf.DefaultTrainerConfig) verbose))
            else None)))
     | Failed err => Failed err
     | Panicked msg => Panicked msg
     end).
Proof.
  intros Hstore Hne. unfold Train. rewrite Hstore.
  destruct (Nat.eqb_spec (length annotations) 0) as [Hz|_]; [|reflexivity].
  destruct annotations; [contradiction | discriminate].
Qed.

End TopLevel.



End TopLevelFacts.

(** * Training and prediction of the CRF together *)

Module ComposeFacts.

Import Loops LoopFacts GoMap Crf CrfAux ScoreAux TrainAux ComposeAux.
Import SparseFacts AlphabetFacts PredictFacts TrainedFacts.
Local Open Scope R_scope.

(** *** The scores of the trainer *)

Lemma rowSteps_at w L fes : forall row,
  length row = L ->
  length (fold_left (rowStep w L) fes row) = L /\
  forall y, (y < L)%nat ->
    at1 (fold_left (rowStep w L) fes row) y
    = at1 row y + Rsum (map (fun fe => at1 w (attrID fe * L + y) * value fe) fes).
Proof.
  induction fes as [|fe fes IH]; intros row Hlen; cbn [fold_left map Rsum].
  - split; [exact Hlen|]. intros y _. lra.
  - destruct (IH (rowStep w L row fe)) as [Hl Hat].
    { unfold rowStep. apply length_tabulate. }
    split; [exact Hl|]. intros y Hy. rewrite Hat by exact Hy.
    unfold rowStep at 1. rewrite at1_tabulate by exact Hy. lra.
Qed.

Lemma entrySteps_sum (m : Model) y l : forall acc,
  Rsum (map (fun fe => at1 (Weights m) (attrID fe * NumLabels m + y) * value fe)
            (fold_left (internalStep (Attributes m)) l acc))
  = Rsum (map (fun fe => at1 (Weights m) (attrID fe * NumLabels m + y) * value fe) acc)
    + Rsum (map (attrScore m y) l).
Proof.
  induction l as [|kv l IH]; intros acc; cbn [fold_left map Rsum]; [lra|].
  assert (Hstep :
    Rsum (map (fun fe => at1 (Weights m) (attrID fe * NumLabels m + y) * value fe)
              (internalStep (Attributes m) acc kv))
    = Rsum (map (fun fe => at1 (Weights m) (attrID fe * NumLabels m + y) * value fe) acc)
      + attrScore m y kv).
  { unfold internalStep, attrScore, Get, StateFeatureIndex. cbn zeta.
    destruct (ToID (Attributes m) !! fst kv) as [a|].
    - destruct (Z.leb_spec 0 (Z.of_nat a)) as [_|Hneg]; [|lia].
      rewrite map_app, Rsum_app. cbn [map Rsum attrID value]. rewrite Nat2Z.id. lra.
    - destruct (Z.leb_spec 0 (-1)) as [Hpos|_]; [lia|]. lra. }
  rewrite IH, Hstep. lra.
Qed.

Lemma entrySteps_known (a : Alphabet) l : forall acc,
  consistent a ->
  Forall (fun fe => (attrID fe < Size a)%nat) acc ->
  Forall (fun fe => (attrID fe < Size a)%nat) (fold_left (internalStep a) l acc).
Proof.
  induction l as [|kv l IH]; intros acc Hc Hacc; cbn [fold_left]; [exact Hacc|].
  apply IH; [exact Hc|]. unfold internalStep, Get. cbn zeta.
  destruct (ToID a !! fst kv) as [id|] eqn:E.
  - destruct (Z.leb_spec 0 (Z.of_nat id)) as [_|Hneg]; [|lia].
    apply Forall_app. split; [exact Hacc|]. constructor; [|constructor].
    cbn [attrID]. rewrite Nat2Z.id. eapply consistent_bound; eassumption.
  - destruct (Z.leb_spec 0 (-1)) as [Hpos|_]; [lia | exact Hacc].
Qed.

(** X29: the scores the trainer works with are the scores of the model.
    For a model with a consistent attribute alphabet and at least
    [NumWeights] weights, the state scores the trainer computes for a
    sequence from its internal form (the attributes of the alphabet, by id)
    are the state scores [ComputeStateScores] gives for the features of the
    sequence, the transition scores of the trainer are those of
    [ComputeTransScores], and every attribute id of the internal form is
    below the size of the alphabet, so that every weight index read is in
    range. *)
Theorem trainer_scores_are_model_scores (order : RangeOrder) (m : Model)
    (sq : TrainingSequence) :
  consistent (Attributes m) ->
  (NumWeights m <= length (Weights m))%nat ->
  let isq := toInternal (Attributes m) (Labels m) sq in
  seqStateScores (Weights m) (NumLabels m) isq = ComputeStateScores m (Features sq) /\
  seqTransScores (Weights m) (NumLabels m) (TransOffset m) = ComputeTransScores m /\
  length (features isq) = length (Features sq) /\
  Forall (Forall (fun fe =>
            forall y, (y < NumLabels m)%nat ->
              (attrID fe * NumLabels m + y < length (Weights m))%nat))
         (features isq).
Proof.
  intros Hc Hw. cbn zeta.
  assert (Hfeat : features (toInternal (Attributes m) (Labels m) sq)
                  = tabulate (length (Features sq)) (fun t =>
                      fold_left (internalStep (Attributes m))
                                (rangeOf (nth t (Features sq) ∅)) []))
    by reflexivity.
  split; [|split; [|split]].
  - unfold seqStateScores. rewrite Hfeat.
    apply nth_ext with (d := []) (d' := []).
    + now rewrite length_map, length_tabulate, ComputeStateScores_length.
    + intros t Ht. rewrite length_map, length_tabulate in Ht.
      rewrite (nth_indep _ [] (fold_left (rowStep (Weights m) (NumLabels m)) []
                                 (replicate (NumLabels m) 0)))
        by (now rewrite length_map, length_tabulate).
      rewrite (map_nth (fun fes => fold_left (rowStep (Weights m) (NumLabels m)) fes
                                     (replicate (NumLabels m) 0))).
      rewrite nth_tabulate by exact Ht.
      rewrite ComputeStateScores_row by exact Ht.
      destruct (rowSteps_at (Weights m) (NumLabels m)
                  (fold_left (internalStep (Attributes m))
                             (rangeOf (nth t (Features sq) ∅)) [])
                  (replicate (NumLabels m) 0) (length_replicate _ _)) as [Hl1 Hat1].
      destruct (scoreSteps_at m (rangeOf (nth t (Features sq) ∅))
                  (replicate (NumLabels m) 0) (length_replicate _ _)) as [Hl2 Hat2].
      apply list_eq_at1; [now rewrite Hl1, Hl2|].
      intros y Hy. rewrite Hl1 in Hy.
      rewrite Hat1, Hat2 by exact Hy. rewrite entrySteps_sum. cbn [map Rsum]. lra.
  - unfold seqTransScores, ComputeTransScores.
    apply tabulate_ext. intros i Hi. apply tabulate_ext. intros j Hj.
    unfold TransFeatureIndex. cbn zeta.
    destruct (Nat.ltb_spec (TransOffset m + i * NumLabels m + j) (length (Weights m)))
      as [_|Hge]; [reflexivity | now apply at1_overflow].
  - rewrite Hfeat. apply length_tabulate.
  - rewrite Hfeat. apply List.Forall_forall. intros fes Hin.
    unfold tabulate in Hin. apply in_map_iff in Hin. destruct Hin as (t & <- & _).
    pose proof (entrySteps_known (Attributes m) (rangeOf (nth t (Features sq) ∅)) []
                  Hc (Forall_nil_2 _)) as Hknown.
    eapply Forall_impl; [exact Hknown|]. cbn beta. intros fe Hfe y Hy.
    unfold NumWeights, TransOffset in Hw.
    pose proof (block_below (Size (Attributes m)) (NumLabels m) (attrID fe) y Hfe Hy).
    lia.
Qed.

Lemma testModel_attributes : consistent (Attributes testModel).
Proof. exact (Add_consistent NewAlphabet "bias" consistent_New). Qed.

Lemma trainer_scores_are_model_scores_witness :
  let m := testModel in
  let sq := mkTrainingSequence testFeatures ["A"; "B"]%string 0 in
  let isq := @toInternal keyOrder (Attributes m) (Labels m) sq in
  seqStateScores (Weights m) (NumLabels m) isq
  = @ComputeStateScores keyOrder m (Features sq) /\
  seqTransScores (Weights m) (NumLabels m) (TransOffset m) = ComputeTransScores m /\
  length (features isq) = length (Features sq) /\
  Forall (Forall (fun fe =>
            forall y, (y < NumLabels m)%nat ->
              (attrID fe * NumLabels m + y < length (Weights m))%nat))
         (features isq).
Proof.
  apply (trainer_scores_are_model_scores keyOrder testModel
           (mkTrainingSequence testFeatures ["A"; "B"]%string 0)).
  - exact testModel_attributes.
  - cbn. lia.
Defined.

(** *** Prediction with a trained model *)

Section Predicted.

Context {order : RangeOrder}.

Lemma Predict_returns m features :
  (1 <= NumLabels m)%nat ->
  Predict m features
  = Returned (map (labelName m)
                  (fst (Viterbi (ComputeStateScores m features) (ComputeTransScores m)))) /\
  validPath (length features) (NumLabels m)
            (fst (Viterbi (ComputeStateScores m features) (ComputeTransScores m))).
Proof.
  intros HL.
  destruct (Viterbi_optimal _ _ _ _ (scores_wellShaped m features) HL) as [Hvalid _].
  split; [|exact Hvalid].
  unfold Predict, viterbiCall. cbn zeta.
  destruct features as [|f fs]; [reflexivity|].
  pose proof (ComputeStateScores_rows m (f :: fs)) as Hrows.
  assert (H0 : length (nth 0 (ComputeStateScores m (f :: fs)) []) = NumLabels m).
  { apply (proj1 (List.Forall_nth _ _) Hrows).
    rewrite ComputeStateScores_length. cbn. lia. }
  rewrite H0. destruct (Nat.eqb_spec (NumLabels m) 0); [lia|]. reflexivity.
Qed.

Lemma Predict_no_label m features :
  NumLabels m = O -> (2 <= length features)%nat ->
  Predict m features = Panicked "runtime error: index out of range [0] with length 0".
Proof.
  intros HL HT. unfold Predict, viterbiCall. cbn zeta.
  pose proof (ComputeStateScores_rows m features) as Hrows.
  assert (H0 : length (nth 0 (ComputeStateScores m features) []) = NumLabels m).
  { apply (proj1 (List.Forall_nth _ _) Hrows).
    rewrite ComputeStateScores_length. lia. }
  rewrite H0, HL, ComputeStateScores_length.
  destruct (Nat.leb_spec 2 (length features)); [reflexivity | lia].
Qed.

Lemma Train_labels sequences config :
  Labels (Train sequences config)
  = addAll (concat (map SeqLabels sequences)) NewAlphabet /\
  NumLabels (Train sequences config) = length (ToStr (Labels (Train sequences config))).
Proof.
  unfold Train. cbn zeta. cbn [Labels NumLabels].
  split; [apply BuildLabelAlphabet_addAll | reflexivity].
Qed.

End Predicted.

(** X30: prediction with a trained model.  When the training sequences,
    each with a label for every position, have at least one label,
    [Predict] on the model [Train] returns gives, for every input, one label
    per position, each of them a label of the training sequences.  When
    they have no label at all (in particular when there is no sequence),
    the trained model has no label and [Predict] panics on every input of
    two or more positions. *)
Theorem trained_Predict (order : RangeOrder) (sequences : list TrainingSequence)
    (config : TrainerConfig) (features : list (gmap string R)) :
  Forall labelled sequences ->
  let m := Train sequences config in
  ((exists sq, sq ∈ sequences /\ SeqLabels sq <> []) ->
     exists labels,
       Predict m features = Returned labels /\
       length labels = length features /\
       (forall l, l ∈ labels -> exists sq, sq ∈ sequences /\ l ∈ SeqLabels sq)) /\
  ((forall sq, sq ∈ sequences -> SeqLabels sq = []) ->
     NumLabels m = O /\
     ((2 <= length features)%nat ->
      Predict m features
      = Panicked "runtime error: index out of range [0] with length 0")).
Proof.
  intros _. cbn zeta.
  destruct (Train_labels sequences config) as [Hlabels Hnum].
  set (m := Train sequences config) in *.
  assert (Hc : consistent (Labels m)).
  { rewrite Hlabels. apply addAll_consistent, consistent_New. }
  assert (Hseen : forall l, is_Some (ToID (Labels m) !! l)
                    <-> exists sq, sq ∈ sequences /\ l ∈ SeqLabels sq).
  { intros l. rewrite Hlabels, addAll_lookup. cbn [ToID NewAlphabet].
    rewrite lookup_empty, list_elem_of_In, in_concat. split.
    - intros [[? H]|(ls & Hls & Hin)]; [discriminate|].
      apply in_map_iff in Hls. destruct Hls as (sq & <- & Hsq).
      exists sq. split; now apply list_elem_of_In.
    - intros (sq & Hsq & Hin). right. exists (SeqLabels sq). split.
      + apply in_map_iff. exists sq. split; [reflexivity | now apply list_elem_of_In].
      + now apply list_elem_of_In. }
  split.
  - intros (sq & Hsq & Hne).
    assert (HL : (1 <= NumLabels m)%nat).
    { destruct (SeqLabels sq) as [|l0 ls] eqn:E; [contradiction|].
      assert (Hl0 : is_Some (ToID (Labels m) !! l0)).
      { apply Hseen. exists sq. split; [exact Hsq|]. rewrite E. apply elem_of_cons. now left. }
      destruct Hl0 as [id Hid]. pose proof (consistent_bound _ _ _ Hc Hid) as Hb.
      unfold Size in Hb. lia. }
    destruct (Predict_returns m features HL) as [Hret [Hlen Hall]].
    eexists. split; [exact Hret|]. split; [now rewrite length_map|].
    intros l Hl. apply list_elem_of_fmap in Hl. destruct Hl as (id & -> & Hid).
    apply list_elem_of_In in Hid.
    pose proof (proj1 (List.Forall_forall _ _) Hall id Hid) as Hb. cbn beta in Hb.
    apply Hseen. unfold labelName.
    destruct (Nat.ltb_spec id (length (ToStr (Labels m)))) as [Hlt|Hge]; [|lia].
    exists id. apply Hc.
    destruct (lookup_lt_is_Some_2 (ToStr (Labels m)) id Hlt) as [x Hx].
    rewrite (nth_lookup_Some _ _ EmptyString _ Hx). exact Hx.
  - intros Hnone.
    assert (Hempty : concat (map SeqLabels sequences) = []).
    { apply concat_nil_Forall. apply List.Forall_forall. intros ls Hls.
      apply in_map_iff in Hls. destruct Hls as (sq & <- & Hsq).
      apply Hnone. now apply list_elem_of_In. }
    assert (H0 : NumLabels m = O).
    { rewrite Hnum, Hlabels, Hempty. reflexivity. }
    split; [exact H0|]. intros HT. now apply Predict_no_label.
Qed.

Lemma trained_Predict_witness :
  let m := @Train keyOrder twoTokens DefaultTrainerConfig in
  ((exists sq, sq ∈ twoTokens /\ SeqLabels sq <> []) ->
     exists labels,
       @Predict keyOrder m testFeatures = Returned labels /\
       length labels = length testFeatures /\
       (forall l, l ∈ labels -> exists sq, sq ∈ twoTokens /\ l ∈ SeqLabels sq)) /\
  ((forall sq, sq ∈ twoTokens -> SeqLabels sq = []) ->
     NumLabels m = O /\
     ((2 <= length testFeatures)%nat ->
      @Predict keyOrder m testFeatures
      = Panicked "runtime error: index out of range [0] with length 0")).
Proof.
  apply (trained_Predict keyOrder twoTokens DefaultTrainerConfig testFeatures).
  repeat constructor.
Defined.

End ComposeFacts.
